(** * NeoQuake: the BSP29 loader, the mesh builder and the lightmap atlas

    A shallow embedding of [LoadBSP] / [buildMeshes] (BSP.cpp) and of
    [BuildLightmaps] (BSP_Lightmaps.cpp), with the data model of BSP.h.

    Conventions of the embedding:
    - C++ [int], [int16_t], [uint32_t], [size_t] values are [Z]; where the
      source converts or wraps, the conversion is written out.
    - [float] is IEEE-754 binary32, through the Standard Library's
      [SpecFloat] at precision 24 and maximal exponent 128.
    - [std::vector<T>] is [list T]; [v[i]] outside the vector is undefined
      behaviour in C++ and is [None] here, as is signed overflow, a cast of
      a float that does not fit [int], and an exception nobody catches
      ([std::length_error] out of [reserve] / [resize]).
    - the target is little-endian with a 64-bit [size_t]. *)

From Stdlib Require Import ZArith Bool String Ascii Lia.
From Stdlib Require Import Floats.SpecFloat.
From stdpp Require Import base option list.

Local Open Scope Z_scope.

(* ===================================================================== *)
(** ** binary32 arithmetic *)
(* ===================================================================== *)

Module F32.

Definition prec : Z := 24.
Definition emax : Z := 128.

Definition float := spec_float.

Definition add : float -> float -> float := SFadd prec emax.
Definition sub : float -> float -> float := SFsub prec emax.
Definition mul : float -> float -> float := SFmul prec emax.
Definition div : float -> float -> float := SFdiv prec emax.
Definition ltb : float -> float -> bool := SFltb.
Definition leb : float -> float -> bool := SFleb.
Definition eqb : float -> float -> bool := SFeqb.

(** [(float)n] for an integer [n]: round to nearest, ties to even. *)
Definition of_int (n : Z) : float := binary_normalize prec emax n 0 false.

Definition zero : float := S754_zero false.
Definition one : float := Eval vm_compute in of_int 1.
Definition sixteen : float := Eval vm_compute in of_int 16.
Definition half : float := Eval vm_compute in binary_normalize prec emax 1 (-1) false.
(** the literal [1e30f] *)
Definition big : float := Eval vm_compute in of_int (10 ^ 30).

(** A value the format can hold: the mantissa is canonical for the
    exponent and the exponent is in range. *)
Definition valid (f : float) : bool := valid_binary prec emax f.


(** [memcpy] of four little-endian bytes into a [float]: bit 31 is the
    sign, bits 30..23 the biased exponent, bits 22..0 the fraction. *)
Definition of_bits (w : Z) : float :=
  let s := Z.testbit w 31 in
  let e := Z.land (Z.shiftr w 23) 255 in
  let m := Z.land w 8388607 in
  if e =? 0 then
    match m with
    | Zpos p => S754_finite s p (-149)
    | _ => S754_zero s
    end
  else if e =? 255 then
    (if m =? 0 then S754_infinity s else S754_nan)
  else
    match m + 8388608 with
    | Zpos p => S754_finite s p (e - 150)
    | _ => S754_nan
    end.

(** [std::floor]. *)
Definition floor (f : float) : float :=
  match f with
  | S754_finite s m e =>
      if 0 <=? e then f
      else
        let q := Z.shiftr (Zpos m) (- e) in
        let exact := Zpos m =? Z.shiftl q (- e) in
        let n := if s then (if exact then - q else - (q + 1)) else q in
        if n =? 0 then S754_zero s else of_int n
  | _ => f
  end.

(** [std::ceil]. *)
Definition ceil (f : float) : float :=
  SFopp (floor (SFopp f)).

Definition int_min : Z := - 2147483648.
Definition int_max : Z := 2147483647.

(** [(int)f]: truncation toward zero; undefined when the truncated value
    is not an [int] (and for infinities and NaN). *)
Definition to_int (f : float) : option Z :=
  match f with
  | S754_zero _ => Some 0
  | S754_finite s m e =>
      let a := if 0 <=? e then Z.shiftl (Zpos m) e else Z.shiftr (Zpos m) (- e) in
      let n := if s then - a else a in
      if (int_min <=? n) && (n <=? int_max) then Some n else None
  | _ => None
  end.

(** [std::min(a, b)] is [(b < a) ? b : a]; [std::max(a, b)] is
    [(a < b) ? b : a]. *)
Definition min (a b : float) : float := if ltb b a then b else a.
Definition max (a b : float) : float := if ltb a b then b else a.

End F32.

Abbreviation float := F32.float.

(* ===================================================================== *)
(** ** Data model (BSP.h) *)
(* ===================================================================== *)

Definition byte := Byte.byte.

Module Vec3.
Record t := mk { x : float; y : float; z : float }.
End Vec3.

Module Edge.
(** [uint16_t v0, v1] *)
Record t := mk { v0 : Z; v1 : Z }.
End Edge.

Module Face.
Record t := mk {
  planenum : Z;          (* int16_t *)
  side : Z;              (* int16_t *)
  firstedge : Z;         (* int32_t *)
  numedges : Z;          (* int16_t *)
  texinfo : Z;           (* int16_t *)
  styles : list byte;    (* uint8_t[4] *)
  lightofs : Z           (* int32_t, offset into the lighting lump *)
}.
End Face.

Module TexInfo.
(** [float s[4]; float t[4]], component by component *)
Record t := mk {
  s0 : float; s1 : float; s2 : float; s3 : float;
  t0 : float; t1 : float; t2 : float; t3 : float;
  miptex : Z;            (* int32_t *)
  flags : Z              (* int32_t *)
}.
End TexInfo.

Module Model.
Record t := mk {
  mins : list float;     (* float[3] *)
  maxs : list float;     (* float[3] *)
  origin : Vec3.t;
  headnode : list Z;     (* int32_t[4] *)
  visleafs : Z;
  firstface : Z;
  numfaces : Z
}.
End Model.

Module BSPTexture.
Record t := mk {
  name : string;
  width : Z;             (* uint32_t *)
  height : Z;            (* uint32_t *)
  indices : list byte
}.
(** a default-constructed [BSPTexture] *)
Definition empty : t := mk EmptyString 0 0 [].
End BSPTexture.

Module LightmapRect.
Record t := mk {
  x : Z; y : Z; w : Z; h : Z;
  lightofs : Z;
  valid : bool
}.
(** a default-constructed [LightmapRect] *)
Definition empty : t := mk 0 0 0 0 (-1) false.
End LightmapRect.

Module LightmapAtlas.
Record t := mk {
  width : Z;
  height : Z;
  rgba : list byte;
  perFace : list LightmapRect.t
}.
(** [map.lmAtlas = {}] *)
Definition empty : t := mk 0 0 [] [].
End LightmapAtlas.

Module BSPMesh.
Record t := mk {
  textureIndex : Z;
  faceIndex : Z;
  vertices : list float
}.
(** a default-constructed [BSPMesh] *)
Definition empty : t := mk (-1) (-1) [].
End BSPMesh.

Module BSPMap.
Record t := mk {
  version : Z;
  vertices : list Vec3.t;
  edges : list Edge.t;
  surfedges : list Z;
  faces : list Face.t;
  texinfos : list TexInfo.t;
  textures : list BSPTexture.t;
  models : list Model.t;
  paletteRGB : list byte;
  entities : list (list (string * string));
  lighting : list byte;
  meshes : list BSPMesh.t;
  lmAtlas : LightmapAtlas.t
}.

Definition set_meshes (ms : list BSPMesh.t) (m : t) : t :=
  mk (version m) (vertices m) (edges m) (surfedges m) (faces m)
     (texinfos m) (textures m) (models m) (paletteRGB m) (entities m)
     (lighting m) ms (lmAtlas m).

Definition set_lmAtlas (a : LightmapAtlas.t) (m : t) : t :=
  mk (version m) (vertices m) (edges m) (surfedges m) (faces m)
     (texinfos m) (textures m) (models m) (paletteRGB m) (entities m)
     (lighting m) (meshes m) a.

Definition set_version (v : Z) (m : t) : t :=
  mk v (vertices m) (edges m) (surfedges m) (faces m)
     (texinfos m) (textures m) (models m) (paletteRGB m) (entities m)
     (lighting m) (meshes m) (lmAtlas m).
End BSPMap.

(** [v[i]] on a [std::vector]: defined only inside the vector. *)
Definition at_ {A : Type} (v : list A) (i : Z) : option A :=
  if i <? 0 then None else v !! Z.to_nat i.

(** [v.size()] *)
Definition size {A : Type} (v : list A) : Z := Z.of_nat (length v).

(** The indices [0, 1, ..., n-1] of a counted loop. *)
Definition upto (n : Z) : list Z := seqZ 0 n.

(** [v[i] = x] on a [std::vector]: defined only inside the vector. *)
Definition store {A : Type} (v : list A) (i : Z) (x : A) : option (list A) :=
  match at_ v i with
  | Some _ => Some (<[Z.to_nat i := x]> v)
  | None => None
  end.

(** [v.resize(n)] with [d] for the new elements. *)
Definition resize {A : Type} (n : Z) (d : A) (v : list A) : list A :=
  take (Z.to_nat n) v ++ replicate (Z.to_nat n - length v) d.

(** Checked [int] arithmetic: signed overflow is undefined. *)
Definition int_ok (n : Z) : option Z :=
  if (F32.int_min <=? n) && (n <=? F32.int_max) then Some n else None.

(** Conversion of a signed value to [size_t]. *)
Definition to_size_t (n : Z) : Z := n mod 2 ^ 64.

(* ===================================================================== *)
(** ** Binary reader *)
(* ===================================================================== *)

Definition u8 (b : byte) : Z := Z.of_N (Byte.to_N b).

(** one byte of the file at absolute position [a] *)
Definition rd8 (data : list byte) (a : Z) : option Z :=
  u8 <$> at_ data a.

Definition ru16 (data : list byte) (a : Z) : option Z :=
  b0 ← rd8 data a; b1 ← rd8 data (a + 1);
  Some (b0 + 256 * b1).

Definition ru32 (data : list byte) (a : Z) : option Z :=
  b0 ← rd8 data a; b1 ← rd8 data (a + 1);
  b2 ← rd8 data (a + 2); b3 ← rd8 data (a + 3);
  Some (b0 + 256 * b1 + 65536 * b2 + 16777216 * b3).

Definition signed (bits : Z) (u : Z) : Z :=
  if u <? 2 ^ (bits - 1) then u else u - 2 ^ bits.

Definition rd16 (data : list byte) (a : Z) : option Z :=
  signed 16 <$> ru16 data a.

Definition rd32 (data : list byte) (a : Z) : option Z :=
  signed 32 <$> ru32 data a.

Definition rf32 (data : list byte) (a : Z) : option float :=
  F32.of_bits <$> ru32 data a.

(** [n] consecutive bytes starting at [a]; with [n = 0] nothing is read. *)
Definition rdbytes (data : list byte) (a n : Z) : option (list byte) :=
  if n =? 0 then Some []
  else if (0 <=? a) && (a + n <=? size data)
       then Some (take (Z.to_nat n) (drop (Z.to_nat a) data))
  else None.

(* ===================================================================== *)
(** ** Control: counted loops and the loader's early returns *)
(* ===================================================================== *)

(** [for (i = i0; <n more iterations>; ++i) s = body(i, s)], where the body
    may hit undefined behaviour. *)
Fixpoint for_n {S : Type} (n : nat) (i : Z) (body : Z -> S -> option S) (s : S)
  : option S :=
  match n with
  | O => Some s
  | Datatypes.S n' => s' ← body i s; for_n n' (i + 1) body s'
  end.

(** [for (i = lo; i < hi; ++i) s = body(i, s)] *)
Definition for_ {S : Type} (lo hi : Z) (body : Z -> S -> option S) (s : S)
  : option S :=
  for_n (Z.to_nat (hi - lo)) lo body s.

(** What a run of the loader's body comes to: it reaches the end with a
    value, it leaves through [return std::nullopt] with [error] set, or it
    has no defined behaviour. *)
Inductive M (A : Type) : Type :=
| Ret (a : A)
| Abort (error : string)
| Undef.
Arguments Ret {A} a.
Arguments Abort {A} error.
Arguments Undef {A}.

#[global] Instance M_ret : MRet M := fun A a => Ret a.
#[global] Instance M_bind : MBind M := fun A B f m =>
  match m with
  | Ret a => f a
  | Abort e => Abort e
  | Undef => Undef
  end.

(** a step that is either defined or not *)
Definition lift {A : Type} (o : option A) : M A :=
  match o with
  | Some a => Ret a
  | None => Undef
  end.

(* ===================================================================== *)
(** ** Mesh builder: [buildMeshes] *)
(* ===================================================================== *)

Section MeshBuilder.
Variable map : BSPMap.t.

(** Step 1, the body of the surfedge walk:
    [int se = map.surfedges[face.firstedge+i];] then
    [vind.push_back(se >= 0 ? map.edges[se].v0 : map.edges[-se].v1)]. *)
Definition gatherStep (face : Face.t) (i : Z) (vind : list Z) : option (list Z) :=
  k ← int_ok (Face.firstedge face + i);
  se ← at_ (BSPMap.surfedges map) k;
  if 0 <=? se then
    e ← at_ (BSPMap.edges map) se;
    Some (vind ++ [Edge.v0 e])
  else
    nse ← int_ok (- se);
    e ← at_ (BSPMap.edges map) nse;
    Some (vind ++ [Edge.v1 e]).

(** [vind.reserve(face.numedges)] throws for a negative count (it is
    converted to [size_t]); then the walk. *)
Definition gatherLoop (face : Face.t) : option (list Z) :=
  if Face.numedges face <? 0 then None
  else for_ 0 (Face.numedges face) (gatherStep face) [].

(** The lambda [addVertex]: projects the position on the s/t vectors,
    divides by the texture size, flips v, and pushes five floats.  Every
    operation is rounded to binary32, in source order. *)
Definition addVertex (ti : TexInfo.t) (w h : float) (vertices : list float) (vi : Z)
  : option (list float) :=
  p ← at_ (BSPMap.vertices map) vi;
  let s := F32.add (F32.add (F32.add (F32.mul (Vec3.x p) (TexInfo.s0 ti))
                                     (F32.mul (Vec3.y p) (TexInfo.s1 ti)))
                            (F32.mul (Vec3.z p) (TexInfo.s2 ti)))
                   (TexInfo.s3 ti) in
  let t := F32.add (F32.add (F32.add (F32.mul (Vec3.x p) (TexInfo.t0 ti))
                                     (F32.mul (Vec3.y p) (TexInfo.t1 ti)))
                            (F32.mul (Vec3.z p) (TexInfo.t2 ti)))
                   (TexInfo.t3 ti) in
  let u := F32.div s w in
  let v := F32.div t h in
  let v := F32.sub F32.one v in
  Some (vertices ++ [Vec3.x p; Vec3.y p; Vec3.z p; u; v]).

(** Step 3, the body of the fan: [addVertex(vind[0]); addVertex(vind[i]);
    addVertex(vind[i+1]);] *)
Definition fanStep (ti : TexInfo.t) (w h : float) (vind : list Z)
           (i : Z) (vertices : list float) : option (list float) :=
  a ← at_ vind 0;
  vertices ← addVertex ti w h vertices a;
  b ← at_ vind i;
  vertices ← addVertex ti w h vertices b;
  c ← at_ vind (i + 1);
  addVertex ti w h vertices c.

(** Step 2: the texture the face uses, and its size for the division. *)
Definition meshTextureIndex (ti : TexInfo.t) : Z :=
  let texIndex := TexInfo.miptex ti in
  if (0 <=? texIndex) && (texIndex <? size (BSPMap.textures map))
  then texIndex else -1.

Definition uvDivisors (textureIndex : Z) : option (float * float) :=
  if 0 <=? textureIndex then
    tex ← at_ (BSPMap.textures map) textureIndex;
    let w := F32.of_int (BSPTexture.width tex) in
    let h := F32.of_int (BSPTexture.height tex) in
    let w := if F32.leb w F32.zero then F32.one else w in
    let h := if F32.leb h F32.zero then F32.one else h in
    Some (w, h)
  else Some (F32.one, F32.one).

(** One iteration of the loop over the faces: the mesh pushed for [face]. *)
Definition buildMesh (face : Face.t) : option BSPMesh.t :=
  vind ← gatherLoop face;
  if size vind <? 3 then Some BSPMesh.empty
  else
    ti ← at_ (BSPMap.texinfos map) (Face.texinfo face);
    let textureIndex := meshTextureIndex ti in
    '(w, h) ← uvDivisors textureIndex;
    vertices ← for_ 1 (size vind - 1) (fanStep ti w h vind) [];
    Some (BSPMesh.mk textureIndex (-1) vertices).

Definition buildMeshesStep (fi : Z) (meshes : list BSPMesh.t)
  : option (list BSPMesh.t) :=
  face ← at_ (BSPMap.faces map) fi;
  mesh ← buildMesh face;
  Some (meshes ++ [mesh]).

End MeshBuilder.

(** [map.meshes.clear()], then one mesh per face, in face order. *)
Definition buildMeshes (map : BSPMap.t) : option BSPMap.t :=
  meshes ← for_ 0 (size (BSPMap.faces map)) (buildMeshesStep map) [];
  Some (BSPMap.set_meshes meshes map).

(* ===================================================================== *)
(** ** BSP map decoder: [LoadBSP] *)
(* ===================================================================== *)

(** [enum LumpIndex] *)
Definition LUMP_ENTITIES : Z := 0.
Definition LUMP_PLANES : Z := 1.
Definition LUMP_MIPTEX : Z := 2.
Definition LUMP_VERTEXES : Z := 3.
Definition LUMP_VISLIST : Z := 4.
Definition LUMP_NODES : Z := 5.
Definition LUMP_TEXINFO : Z := 6.
Definition LUMP_FACES : Z := 7.
Definition LUMP_LIGHTING : Z := 8.
Definition LUMP_CLIPNODES : Z := 9.
Definition LUMP_LEAFS : Z := 10.
Definition LUMP_MARKSURFACES : Z := 11.
Definition LUMP_EDGES : Z := 12.
Definition LUMP_SURFEDGES : Z := 13.
Definition LUMP_MODELS : Z := 14.

(** [sizeof]: the header is packed (a version and 15 lumps of 8 bytes);
    the records have no padding. *)
Definition sizeof_BSPHeader : Z := 124.
Definition sizeof_Vec3 : Z := 12.
Definition sizeof_Edge : Z := 4.
Definition sizeof_Face : Z := 20.
Definition sizeof_TexInfo : Z := 40.
Definition sizeof_Model : Z := 64.
Definition sizeof_MipTexHeader : Z := 4.
Definition sizeof_MipTex : Z := 40.

(** [hdr->lumps[idx].offset] and [.size], both [int32_t] *)
Definition lump_offset (data : list byte) (idx : Z) : option Z :=
  rd32 data (4 + 8 * idx).
Definition lump_size (data : list byte) (idx : Z) : option Z :=
  rd32 data (4 + 8 * idx + 4).

(** A span is a pointer into the file (its position; [None] is [nullptr])
    and a byte count. *)
Definition span : Type := option Z * Z.

(** The lambda [lumpSpan]: both fields are converted to [size_t] and added
    there, so the sum wraps at 2^64. *)
Definition lumpSpan (data : list byte) (idx : Z) : option span :=
  l_offset ← lump_offset data idx;
  l_size ← lump_size data idx;
  let off := to_size_t l_offset in
  let sz := to_size_t l_size in
  if size data <? (off + sz) mod 2 ^ 64 then Some (None, 0)
  else Some (Some off, sz).

(** [v.resize(n)] with more elements than a vector can hold throws
    [std::length_error]; that is the case for [n = sz / sizeof(T)] exactly
    when [sz] is beyond [PTRDIFF_MAX]. *)
Definition resize_ok (sz : Z) : option unit :=
  if sz <? 2 ^ 63 then Some tt else None.

(** [n] records read one after the other from [p]. *)
Definition readRecords {A : Type} (rec : Z -> option A) (p : option Z)
           (stride n : Z) : option (list A) :=
  mapM (fun i => a ← p; rec (a + i * stride)) (upto n).

Definition readVec3 (data : list byte) (q : Z) : option Vec3.t :=
  x ← rf32 data (q + 0); y ← rf32 data (q + 4); z ← rf32 data (q + 8);
  Some (Vec3.mk x y z).

(** the [v0] and [v1] of an edge: the values of the two 16-bit loads at
    [q] and [q + 2].  The source makes them through a pointer to
    [uint16_t]; the even address such a load needs is not part of this
    value, it is the condition [edgeLoadsAligned]. *)
Definition readEdge (data : list byte) (q : Z) : option Edge.t :=
  v0 ← ru16 data (q + 0); v1 ← ru16 data (q + 2);
  Some (Edge.mk v0 v1).

Definition readFace (data : list byte) (q : Z) : option Face.t :=
  planenum ← rd16 data (q + 0); side ← rd16 data (q + 2);
  firstedge ← rd32 data (q + 4);
  numedges ← rd16 data (q + 8); texinfo ← rd16 data (q + 10);
  styles ← rdbytes data (q + 12) 4;
  lightofs ← rd32 data (q + 16);
  Some (Face.mk planenum side firstedge numedges texinfo styles lightofs).

Definition readTexInfo (data : list byte) (q : Z) : option TexInfo.t :=
  s0 ← rf32 data (q + 0); s1 ← rf32 data (q + 4);
  s2 ← rf32 data (q + 8); s3 ← rf32 data (q + 12);
  t0 ← rf32 data (q + 16); t1 ← rf32 data (q + 20);
  t2 ← rf32 data (q + 24); t3 ← rf32 data (q + 28);
  miptex ← rd32 data (q + 32); flags ← rd32 data (q + 36);
  Some (TexInfo.mk s0 s1 s2 s3 t0 t1 t2 t3 miptex flags).

Definition readModel (data : list byte) (q : Z) : option Model.t :=
  mins ← mapM (fun i => rf32 data (q + 4 * i)) (upto 3);
  maxs ← mapM (fun i => rf32 data (q + 12 + 4 * i)) (upto 3);
  origin ← readVec3 data (q + 24);
  headnode ← mapM (fun i => rd32 data (q + 36 + 4 * i)) (upto 4);
  visleafs ← rd32 data (q + 52);
  firstface ← rd32 data (q + 56);
  numfaces ← rd32 data (q + 60);
  Some (Model.mk mins maxs origin headnode visleafs firstface numfaces).

(** [std::string(mt.name, mt.name + strnlen(mt.name, 16))] *)
Fixpoint nameOf (bs : list byte) : string :=
  match bs with
  | [] => EmptyString
  | b :: rest =>
      if u8 b =? 0 then EmptyString
      else String (Ascii.ascii_of_byte b) (nameOf rest)
  end.

(** One iteration of the loop over the texture slots; [a] is the position
    of the lump, [sz] its size. *)
Definition decodeSlot (data : list byte) (a sz : Z) (offsets : list Z)
           (i : Z) (textures : list BSPTexture.t) : option (list BSPTexture.t) :=
  off ← at_ offsets i;
  if (off <=? 0) || (sz <=? to_size_t off) then Some textures
  else if sz <? to_size_t off + sizeof_MipTex then Some textures
  else
    mt ← rdbytes data (a + off) sizeof_MipTex;
    let name := nameOf (take 16 mt) in
    width ← ru32 mt 16;
    height ← ru32 mt 20;
    lvl0ofs ← ru32 mt 24;
    let npix := (width * height) mod 2 ^ 32 in
    indices ←
      (if (0 <? width) && (0 <? height) then
         if (0 <? lvl0ofs) && (to_size_t off + lvl0ofs + npix <=? sz)
         then rdbytes data (a + off + lvl0ofs) npix
         else Some []
       else Some []);
    Some (<[Z.to_nat i := BSPTexture.mk name width height indices]> textures).

(** The miptex block of [LoadBSP]. *)
Definition parseMipTex (data : list byte) (sp : span) : option (list BSPTexture.t) :=
  let '(p, sz) := sp in
  if sz <? sizeof_MipTexHeader then Some []
  else
    a ← p;
    nummip ← rd32 data (a + 0);
    if nummip <? 0 then Some []
    else
      n4 ← int_ok (4 + 4 * nummip);
      if sz <? to_size_t n4 then Some []
      else
        offsets ← mapM (fun i => rd32 data (a + 4 + 4 * i)) (upto nummip);
        for_ 0 nummip (decodeSlot data a sz offsets)
             (replicate (Z.to_nat nummip) BSPTexture.empty).

(** [LoadPaletteLMP]: the first 768 bytes of a readable file that has as
    many; otherwise the palette is left as it was. *)
Definition LoadPaletteLMP (file : option (list byte)) (outRGB : list byte) : list byte :=
  match file with
  | Some buf => if size buf <? 768 then outRGB else take 768 buf
  | None => outRGB
  end.

(** A load-critical block of [LoadBSP]: the span of the lump, the check
    of its byte size against the record size ([error = msg; return
    std::nullopt;]), the [resize], and the records.  The source writes this
    block out five times, for the vertices, the edges, the surfedges, the
    faces and the texture infos. *)
Definition criticalLump {A : Type} (data : list byte) (idx : Z)
           (rec : Z -> option A) (stride : Z) (msg : string) : M (list A) :=
  '(p, sz) ← lift (lumpSpan data idx);
  if negb (sz mod stride =? 0) then Abort msg
  else
    _ ← lift (resize_ok sz);
    lift (readRecords rec p stride (sz / stride)).

(** [map.lighting.assign(p, p+sz)] *)
Definition readLighting (data : list byte) : option (list byte) :=
  '(p, sz) ← lumpSpan data LUMP_LIGHTING;
  if sz =? 0 then Some [] else a ← p; rdbytes data a sz.

(** the models block: a size that is not a positive multiple of
    [sizeof(Model)] leaves the vector empty *)
Definition readModels (data : list byte) : option (list Model.t) :=
  '(p, sz) ← lumpSpan data LUMP_MODELS;
  if (sz mod sizeof_Model =? 0) && (0 <? sz)
  then _ ← resize_ok sz;
       readRecords (readModel data) p sizeof_Model (sz / sizeof_Model)
  else Some [].

Definition readTextures (data : list byte) : option (list BSPTexture.t) :=
  sp ← lumpSpan data LUMP_MIPTEX;
  parseMipTex data sp.

(** The lumps of [LoadBSP], in source order, up to the call of
    [buildMeshes]. *)
Definition parseLumps (data : list byte) (version : Z) (palette : option (list byte))
  : M BSPMap.t :=
  vertices ← criticalLump data LUMP_VERTEXES (readVec3 data) sizeof_Vec3
                          "Bad vertex lump size";
  edges ← criticalLump data LUMP_EDGES (readEdge data) sizeof_Edge
                       "Bad edges lump size";
  surfedges ← criticalLump data LUMP_SURFEDGES (rd32 data) 4
                           "Bad surfedges lump size";
  faces ← criticalLump data LUMP_FACES (readFace data) sizeof_Face
                       "Bad faces lump size";
  texinfos ← criticalLump data LUMP_TEXINFO (readTexInfo data) sizeof_TexInfo
                          "Bad texinfo lump size";
  lighting ← lift (readLighting data);
  models ← lift (readModels data);
  textures ← lift (readTextures data);
  let paletteRGB := LoadPaletteLMP palette [] in
  lift (buildMeshes
          (BSPMap.mk version vertices edges surfedges faces texinfos textures
                     models paletteRGB [] lighting [] LightmapAtlas.empty)).

(** [LoadBSP]: [file] is the content of the file at [bspPath] ([None] when
    it cannot be read), [palette] the content of the palette file ([None]
    when no path is given or it cannot be read).  The result is the returned
    [std::optional<BSPMap>] with the final value of [error]; the outer
    [None] stands for undefined behaviour. *)
Definition LoadBSP (file : option (list byte)) (palette : option (list byte))
  : option (option BSPMap.t * string) :=
  match file with
  | None => Some (None, "Failed to read BSP file"%string)
  | Some data =>
      if size data <? sizeof_BSPHeader then Some (None, "File too small"%string)
      else
        version ← rd32 data 0;
        let error := if version =? 29 then EmptyString
                     else "Unsupported BSP version (expected 29)"%string in
        match parseLumps data version palette with
        | Ret map => Some (Some map, error)
        | Abort error => Some (None, error)
        | Undef => None
        end
  end.

(* ===================================================================== *)
(** ** Lightmap atlas builder: [BuildLightmaps] *)
(* ===================================================================== *)

(** [(int)std::floor(s / 16.0f) * 16] and [(int)std::ceil(s / 16.0f) * 16] *)
Definition qfloor16 (s : float) : option Z :=
  n ← F32.to_int (F32.floor (F32.div s F32.sixteen));
  int_ok (n * 16).

Definition qceil16 (s : float) : option Z :=
  n ← F32.to_int (F32.ceil (F32.div s F32.sixteen));
  int_ok (n * 16).

Definition computeST (p : Vec3.t) (ti : TexInfo.t) : float * float :=
  (F32.add (F32.add (F32.add (F32.mul (Vec3.x p) (TexInfo.s0 ti))
                             (F32.mul (Vec3.y p) (TexInfo.s1 ti)))
                    (F32.mul (Vec3.z p) (TexInfo.s2 ti)))
           (TexInfo.s3 ti),
   F32.add (F32.add (F32.add (F32.mul (Vec3.x p) (TexInfo.t0 ti))
                             (F32.mul (Vec3.y p) (TexInfo.t1 ti)))
                    (F32.mul (Vec3.z p) (TexInfo.t2 ti)))
           (TexInfo.t3 ti)).

(** A range-based [for] over a vector, threading the state. *)
Fixpoint for_each {A S : Type} (body : A -> S -> option S) (v : list A) (s : S)
  : option S :=
  match v with
  | [] => Some s
  | a :: rest => s' ← body a s; for_each body rest s'
  end.

Section Extents.
Variable map : BSPMap.t.

(** the same surfedge walk as in [buildMeshes], written out again in
    [faceLightmapExtents] *)
Definition extentsGatherStep (f : Face.t) (i : Z) (vind : list Z) : option (list Z) :=
  k ← int_ok (Face.firstedge f + i);
  se ← at_ (BSPMap.surfedges map) k;
  if 0 <=? se then
    e ← at_ (BSPMap.edges map) se;
    Some (vind ++ [Edge.v0 e])
  else
    nse ← int_ok (- se);
    e ← at_ (BSPMap.edges map) nse;
    Some (vind ++ [Edge.v1 e]).

(** [vind.reserve(f.numedges)], then the walk *)
Definition extentsGatherLoop (f : Face.t) : option (list Z) :=
  if Face.numedges f <? 0 then None
  else for_ 0 (Face.numedges f) (extentsGatherStep f) [].

(** the S/T bounds loop; the state is [(smin, tmin, smax, tmax)] *)
Definition boundsStep (ti : TexInfo.t) (vi : Z) (b : float * float * float * float)
  : option (float * float * float * float) :=
  let '(smin, tmin, smax, tmax) := b in
  p ← at_ (BSPMap.vertices map) vi;
  let '(s, t) := computeST p ti in
  Some (F32.min smin s, F32.min tmin t, F32.max smax s, F32.max tmax t).

(** [faceLightmapExtents]: [(outW, outH, outSminAligned, outTminAligned)] *)
Definition faceLightmapExtents (faceIndex : Z) : option (Z * Z * float * float) :=
  f ← at_ (BSPMap.faces map) faceIndex;
  ti ← at_ (BSPMap.texinfos map) (Face.texinfo f);
  vind ← extentsGatherLoop f;
  if size vind <? 3 then Some (0, 0, F32.zero, F32.zero)
  else
    '(smin, tmin, smax, tmax) ←
      for_each (boundsStep ti) vind
               (F32.big, F32.big, SFopp F32.big, SFopp F32.big);
    sminA ← F32.of_int <$> qfloor16 smin;
    tminA ← F32.of_int <$> qfloor16 tmin;
    smaxA ← F32.of_int <$> qceil16 smax;
    tmaxA ← F32.of_int <$> qceil16 tmax;
    extS ← F32.to_int (F32.sub smaxA sminA);
    extT ← F32.to_int (F32.sub tmaxA tminA);
    let smaxLux := Z.quot extS 16 in
    let tmaxLux := Z.quot extT 16 in
    Some (Z.max 1 (smaxLux + 1), Z.max 1 (tmaxLux + 1), sminA, tminA).
End Extents.

Module ShelfPacker.
Record t := mk { W : Z; H : Z; x : Z; y : Z; shelfH : Z }.

Definition new (w h : Z) : t := mk w h 0 0 0.

(** [place]: the packer after the call, and [(outx, outy)] when it
    returns [true].  (In [BuildLightmaps] the atlas is at most 8192 wide
    and high, so none of the sums leaves [int].) *)
Definition place (p : t) (w h : Z) : t * option (Z * Z) :=
  if (W p <? w) || (H p <? h) then (p, None)
  else
    let p := if W p <? x p + w
             then mk (W p) (H p) 0 (y p + shelfH p) 0
             else p in
    if H p <? y p + h then (p, None)
    else (mk (W p) (H p) (x p + w) (y p) (Z.max (shelfH p) h),
          Some (x p, y p)).
End ShelfPacker.

Module FaceLM.
(** the local [struct FaceLM] of [BuildLightmaps] *)
Record t := mk { w : Z; h : Z; sminA : float; tminA : float; hasLM : bool }.
Definition empty : t := mk 0 0 F32.zero F32.zero false.
End FaceLM.

(** The 5-float to 7-float rewrite of one vertex buffer,
    [for (i = 0; i < size; i += 5)]: [uv1 px py pz] gives the second pair.
    Reading [vertices[i+0..4]] past the end is undefined. *)
Fixpoint expandVertices (uv1 : float -> float -> float -> float * float)
         (vertices : list float) (nv : list float) : option (list float) :=
  match vertices with
  | [] => Some nv
  | px :: py :: pz :: u0 :: v0 :: rest =>
      let '(u1, v1) := uv1 px py pz in
      expandVertices uv1 rest (nv ++ [px; py; pz; u0; v0; u1; v1])
  | _ => None
  end.

Definition set_vertices (vs : list float) (m : BSPMesh.t) : BSPMesh.t :=
  BSPMesh.mk (BSPMesh.textureIndex m) (BSPMesh.faceIndex m) vs.

Section Lightmaps.
Variable map : BSPMap.t.

(** 1) one iteration of the loop that gathers sizes; the state is
    [(faceLM, totalArea)] *)
Definition faceLMStep (fi : Z) (st : list FaceLM.t * Z) : option (list FaceLM.t * Z) :=
  let '(faceLM, totalArea) := st in
  f ← at_ (BSPMap.faces map) fi;
  '(info, totalArea) ←
    (if (0 <=? Face.lightofs f)
        && (to_size_t (Face.lightofs f) <? size (BSPMap.lighting map))
     then
       '(w, h, sminA, tminA) ← faceLightmapExtents map fi;
       if (0 <? w) && (0 <? h) then
         area ← int_ok (w * h);
         total ← int_ok (totalArea + area);
         Some (FaceLM.mk w h sminA tminA true, total)
       else Some (FaceLM.mk w h sminA tminA false, totalArea)
     else Some (FaceLM.empty, totalArea));
  faceLM ← store faceLM fi info;
  Some (faceLM, totalArea).

Definition gatherFaceLM : option (list FaceLM.t * Z) :=
  for_ 0 (size (BSPMap.faces map)) faceLMStep
       (replicate (length (BSPMap.faces map)) FaceLM.empty, 0).

(** the [totalArea == 0] exit: every mesh gets [u1 = v1 = 0] *)
Definition zeroExpand (m : BSPMesh.t) : option BSPMesh.t :=
  nv ← expandVertices (fun _ _ _ => (F32.zero, F32.zero)) (BSPMesh.vertices m) [];
  Some (set_vertices nv m).

(** 2) one attempt at packing every face that has a lightmap; the loop
    breaks at the first block that does not fit *)
Fixpoint tryPack (pack : ShelfPacker.t) (faceLM : list FaceLM.t) : bool :=
  match faceLM with
  | [] => true
  | inf :: rest =>
      if negb (FaceLM.hasLM inf) then tryPack pack rest
      else
        match ShelfPacker.place pack (FaceLM.w inf) (FaceLM.h inf) with
        | (pack, Some _) => tryPack pack rest
        | (_, None) => false
        end
  end.

(** the [for (;;)] that chooses the atlas size: [Some (Some (w, h))] when
    a size fits, [Some None] when it gives up beyond 8192, and [None] when
    [fuel] iterations were not enough *)
Fixpoint sizeAtlas (fuel : nat) (atlasW atlasH : Z) (faceLM : list FaceLM.t)
  : option (option (Z * Z)) :=
  match fuel with
  | O => None
  | S fuel =>
      if tryPack (ShelfPacker.new atlasW atlasH) faceLM
      then Some (Some (atlasW, atlasH))
      else
        let '(atlasW, atlasH) :=
          if atlasW <=? atlasH then (atlasW * 2, atlasH) else (atlasW, atlasH * 2) in
        if (8192 <? atlasW) || (8192 <? atlasH) then Some None
        else sizeAtlas fuel atlasW atlasH faceLM
  end.

(** starting at 1024 x 1024 the loop runs at most seven times *)
Definition chooseAtlasSize (faceLM : list FaceLM.t) : option (option (Z * Z)) :=
  sizeAtlas 7 1024 1024 faceLM.

Definition invalidate (r : LightmapRect.t) : LightmapRect.t :=
  LightmapRect.mk (LightmapRect.x r) (LightmapRect.y r) (LightmapRect.w r)
                  (LightmapRect.h r) (LightmapRect.lightofs r) false.

(** 3) one iteration of the loop that packs and stores the rectangles *)
Definition packStep (faceLM : list FaceLM.t) (fi : Z)
           (st : ShelfPacker.t * list LightmapRect.t)
  : option (ShelfPacker.t * list LightmapRect.t) :=
  let '(pack, perFace) := st in
  outR ← at_ perFace fi;
  inf ← at_ faceLM fi;
  if negb (FaceLM.hasLM inf) then
    perFace ← store perFace fi (invalidate outR); Some (pack, perFace)
  else
    match ShelfPacker.place pack (FaceLM.w inf) (FaceLM.h inf) with
    | (pack, None) =>
        perFace ← store perFace fi (invalidate outR); Some (pack, perFace)
    | (pack, Some (x, y)) =>
        f ← at_ (BSPMap.faces map) fi;
        perFace ← store perFace fi
                  (LightmapRect.mk x y (FaceLM.w inf) (FaceLM.h inf)
                                   (Face.lightofs f) true);
        Some (pack, perFace)
    end.

(** the atlas byte index of pixel [(x, y)] of [rect] *)
Definition pixelIndex (atlasW : Z) (rect : LightmapRect.t) (x y : Z) : Z :=
  ((to_size_t (LightmapRect.y rect + y) * to_size_t atlasW
    + to_size_t (LightmapRect.x rect + x)) mod 2 ^ 64 * 4) mod 2 ^ 64.

Definition putPixel (rgba : list byte) (a : Z) (r g b al : byte) : option (list byte) :=
  rgba ← store rgba (a + 0) r;
  rgba ← store rgba (a + 1) g;
  rgba ← store rgba (a + 2) b;
  store rgba (a + 3) al.

(** the two nested loops over a rectangle; [texel x y] is the byte
    written to R, G and B ([None]: a read outside the lighting array) *)
Definition fillRect (atlasW : Z) (rect : LightmapRect.t)
           (texel : Z -> Z -> option byte) (rgba : list byte) : option (list byte) :=
  for_ 0 (LightmapRect.h rect)
       (fun y rgba =>
          for_ 0 (LightmapRect.w rect)
               (fun x rgba =>
                  v ← texel x y;
                  putPixel rgba (pixelIndex atlasW rect x y) v v v Byte.xff)
               rgba)
       rgba.

(** 5) one iteration of the loop that copies the light bytes *)
Definition fillStep (atlasW : Z) (perFace : list LightmapRect.t)
           (fi : Z) (rgba : list byte) : option (list byte) :=
  rect ← at_ perFace fi;
  if negb (LightmapRect.valid rect) then Some rgba
  else
    f ← at_ (BSPMap.faces map) fi;
    let ofs := to_size_t (Face.lightofs f) in
    let faceBytes := (to_size_t (LightmapRect.w rect)
                      * to_size_t (LightmapRect.h rect)) mod 2 ^ 64 in
    if size (BSPMap.lighting map) <? (ofs + faceBytes) mod 2 ^ 64 then
      fillRect atlasW rect (fun _ _ => Some Byte.xff) rgba
    else
      fillRect atlasW rect
               (fun x y =>
                  at_ (BSPMap.lighting map)
                      ((ofs + (to_size_t y * to_size_t (LightmapRect.w rect)) mod 2 ^ 64
                        + to_size_t x) mod 2 ^ 64))
               rgba.

(** 6) the second UV pair of a vertex of face [fi] *)
Definition secondUV (atlasW atlasH : Z) (inf : FaceLM.t) (rect : LightmapRect.t)
           (ti : TexInfo.t) (px py pz : float) : float * float :=
  let sminA := if FaceLM.hasLM inf then FaceLM.sminA inf else F32.zero in
  let tminA := if FaceLM.hasLM inf then FaceLM.tminA inf else F32.zero in
  let w := if FaceLM.hasLM inf then FaceLM.w inf else 1 in
  let h := if FaceLM.hasLM inf then FaceLM.h inf else 1 in
  let '(s, t) := computeST (Vec3.mk px py pz) ti in
  let ls := F32.div (F32.sub s sminA) F32.sixteen in
  let lt := F32.div (F32.sub t tminA) F32.sixteen in
  if LightmapRect.valid rect && (0 <? w) && (0 <? h) then
    (F32.div (F32.add (F32.add (F32.of_int (LightmapRect.x rect)) ls) F32.half)
             (F32.of_int atlasW),
     F32.div (F32.add (F32.add (F32.of_int (LightmapRect.y rect)) lt) F32.half)
             (F32.of_int atlasH))
  else (F32.zero, F32.zero).

Definition uvStep (atlasW atlasH : Z) (faceLM : list FaceLM.t)
           (perFace : list LightmapRect.t) (fi : Z) (meshes : list BSPMesh.t)
  : option (list BSPMesh.t) :=
  mesh ← at_ meshes fi;
  inf ← at_ faceLM fi;
  rect ← at_ perFace fi;
  f ← at_ (BSPMap.faces map) fi;
  ti ← at_ (BSPMap.texinfos map) (Face.texinfo f);
  nv ← expandVertices (secondUV atlasW atlasH inf rect ti) (BSPMesh.vertices mesh) [];
  store meshes fi (BSPMesh.mk (BSPMesh.textureIndex mesh) fi nv).

(** steps 3 to 6, once the atlas size is known *)
Definition buildAtlas (atlasW atlasH : Z) (faceLM : list FaceLM.t) : option BSPMap.t :=
  let n := size (BSPMap.faces map) in
  '(_, perFace) ←
    for_ 0 n (packStep faceLM)
         (ShelfPacker.new atlasW atlasH,
          resize n LightmapRect.empty (LightmapAtlas.perFace (BSPMap.lmAtlas map)));
  rgba ← for_ 0 n (fillStep atlasW perFace)
              (replicate (Z.to_nat (to_size_t atlasW * to_size_t atlasH * 4)) Byte.xff);
  meshes ← for_ 0 n (uvStep atlasW atlasH faceLM perFace) (BSPMap.meshes map);
  Some (BSPMap.set_meshes meshes
          (BSPMap.set_lmAtlas (LightmapAtlas.mk atlasW atlasH rgba perFace) map)).

Definition BuildLightmaps : option BSPMap.t :=
  if (size (BSPMap.faces map) =? 0)
     || negb (size (BSPMap.meshes map) =? size (BSPMap.faces map))
  then Some map
  else
    '(faceLM, totalArea) ← gatherFaceLM;
    if totalArea =? 0 then
      meshes ← mapM zeroExpand (BSPMap.meshes map);
      Some (BSPMap.set_meshes meshes (BSPMap.set_lmAtlas LightmapAtlas.empty map))
    else
      size ← chooseAtlasSize faceLM;
      match size with
      | None => Some (BSPMap.set_lmAtlas LightmapAtlas.empty map)
      | Some (atlasW, atlasH) => buildAtlas atlasW atlasH faceLM
      end.
End Lightmaps.

(* ===================================================================== *)
(** ** Palettes: BSP_Palette.cpp *)
(* ===================================================================== *)

(** [static_cast<uint8_t>(n)] for an integer [n] *)
Definition uint8_of (n : Z) : byte :=
  default Byte.x00 (Byte.of_N (Z.to_N (n mod 256))).

(** [static_cast<uint8_t>(f)] for a float: truncation toward zero,
    undefined when the truncated value is not a [uint8_t] *)
Definition float_to_uint8 (f : float) : option byte :=
  n ← F32.to_int f;
  if (0 <=? n) && (n <=? 255) then Some (uint8_of n) else None.

(** [std::clamp(v, lo, hi)] is [(v < lo) ? lo : (hi < v) ? hi : v] *)
Definition clampf (v lo hi : float) : float :=
  if F32.ltb v lo then lo else if F32.ltb hi v then hi else v.

Definition IsValidPalette768 (rgb : list byte) : bool := size rgb =? 768.

(** [rgb.resize(768)] when the palette is too long, [rgb.resize(768, 0)]
    when it is too short *)
Definition NormalizePaletteSize768 (rgb : list byte) : list byte :=
  if size rgb =? 768 then rgb
  else if 768 <? size rgb then resize 768 Byte.x00 rgb
  else resize 768 Byte.x00 rgb.

(** [SavePaletteLMP] and [SavePaletteLMPRelaxed]: [writable] says whether
    the output stream opens and takes the bytes; the result is the content
    of the file when the function returns [true], and [None] when it
    returns [false] *)
Definition SavePaletteLMP (writable : bool) (rgb : list byte) : option (list byte) :=
  if negb (IsValidPalette768 rgb) then None
  else if negb writable then None
  else Some (take 768 rgb).

Definition SavePaletteLMPRelaxed (writable : bool) (rgb : list byte)
  : option (list byte) :=
  let rgb := NormalizePaletteSize768 rgb in
  if negb writable then None
  else Some (take 768 rgb).

(** [GetPaletteColor]: black for a palette of the wrong size or an index
    outside 0..255 *)
Definition GetPaletteColor (rgb : list byte) (idx : Z) : option (byte * byte * byte) :=
  if negb (IsValidPalette768 rgb) || (idx <? 0) || (255 <? idx)
  then Some (Byte.x00, Byte.x00, Byte.x00)
  else
    let base := idx * 3 in
    r ← at_ rgb (base + 0); g ← at_ rgb (base + 1); b ← at_ rgb (base + 2);
    Some (r, g, b).

Definition INT32_MAX : Z := 2147483647.

(** the body of the search loop of [FindNearestPaletteIndex]; the state is
    [(bestIdx, bestDist)] *)
Definition nearestStep (rgb : list byte) (r g b : byte) (i : Z) (st : Z * Z)
  : option (Z * Z) :=
  let '(bestIdx, bestDist) := st in
  let base := i * 3 in
  c0 ← at_ rgb (base + 0); c1 ← at_ rgb (base + 1); c2 ← at_ rgb (base + 2);
  let dr := u8 c0 - u8 r in
  let dg := u8 c1 - u8 g in
  let db := u8 c2 - u8 b in
  d2 ← int_ok (dr * dr + dg * dg + db * db);
  if d2 <? bestDist then Some (i, d2) else Some (bestIdx, bestDist).

Definition FindNearestPaletteIndex (rgb : list byte) (r g b : byte) : option Z :=
  if negb (IsValidPalette768 rgb) then Some 0
  else fst <$> for_ 0 256 (nearestStep rgb r g b) (0, INT32_MAX).

Definition remapStep (src dst : list byte) (i : Z) (remap : list byte)
  : option (list byte) :=
  let base := i * 3 in
  r ← at_ src (base + 0); g ← at_ src (base + 1); b ← at_ src (base + 2);
  n ← FindNearestPaletteIndex dst r g b;
  store remap i (uint8_of n).

Definition BuildPaletteRemapTable (src dst : list byte) : option (list byte) :=
  let remap := replicate 256 Byte.x00 in
  if negb (IsValidPalette768 src) || negb (IsValidPalette768 dst) then Some remap
  else for_ 0 256 (remapStep src dst) remap.

(** [for (auto& ix : indices) ix = remap[ix];] *)
Definition ApplyIndexRemap (indices remap : list byte) : option (list byte) :=
  if negb (size remap =? 256) then Some indices
  else mapM (fun ix => at_ remap (u8 ix)) indices.

Definition f255 : float := Eval vm_compute in F32.of_int 255.
Definition f2 : float := Eval vm_compute in F32.of_int 2.

(** one byte of [ApplyBrightnessContrastToPalette], with [b] and [c] the
    brightness and the contrast mapped to -1 .. 1 *)
Definition adjustByte (b c : float) (x : byte) : option byte :=
  let v := F32.div (F32.of_int (u8 x)) f255 in
  let v := F32.add (F32.mul (F32.sub v F32.half) (F32.add F32.one c)) F32.half in
  let v := F32.add v (F32.mul b F32.half) in
  let v := clampf v F32.zero F32.one in
  float_to_uint8 (F32.add (F32.mul v f255) F32.half).

Definition ApplyBrightnessContrastToPalette (rgb : list byte) (brightness contrast : float)
  : option (list byte) :=
  if negb (IsValidPalette768 rgb) then Some rgb
  else
    let b := F32.mul (F32.sub brightness F32.half) f2 in
    let c := F32.mul (F32.sub contrast F32.half) f2 in
    for_ 0 768 (fun i rgb => x ← at_ rgb i; y ← adjustByte b c x; store rgb i y) rgb.

(* ===================================================================== *)
(** ** Indexed textures to RGBA: BSP_Convert.cpp *)
(* ===================================================================== *)

(** [paletteLookup]: the palette entry, or the index itself as a grey when
    the palette is too short *)
Definition paletteLookup (palette : list byte) (idx : byte) : option (byte * byte * byte) :=
  if 768 <=? size palette then
    let base := u8 idx * 3 in
    r ← at_ palette (base + 0); g ← at_ palette (base + 1); b ← at_ palette (base + 2);
    Some (r, g, b)
  else Some (idx, idx, idx).

(** the body of the loop of [IndexedToRGBA] *)
Definition convertStep (tex : BSPTexture.t) (palette : list byte) (i : Z)
           (rgba : list byte) : option (list byte) :=
  idx ← at_ (BSPTexture.indices tex) i;
  '(r, g, b) ← paletteLookup palette idx;
  putPixel rgba (i * 4) r g b (if u8 idx =? 255 then Byte.x00 else Byte.xff).

(** [IndexedToRGBA]: [rgba.resize(pixelCount * 4)] gives zeros, and throws
    when the count is beyond what a vector can hold *)
Definition IndexedToRGBA (tex : BSPTexture.t) (palette : list byte) : option (list byte) :=
  if (BSPTexture.width tex =? 0) || (BSPTexture.height tex =? 0)
     || (size (BSPTexture.indices tex) =? 0)
  then Some []
  else
    let pixelCount := (to_size_t (BSPTexture.width tex)
                       * to_size_t (BSPTexture.height tex)) mod 2 ^ 64 in
    let n := (pixelCount * 4) mod 2 ^ 64 in
    _ ← resize_ok n;
    for_ 0 (size (BSPTexture.indices tex)) (convertStep tex palette)
         (replicate (Z.to_nat n) Byte.x00).

(** [clampToByte] *)
Definition clampToByte (x : float) : option byte :=
  let x := if F32.ltb x F32.zero then F32.zero else x in
  let x := if F32.ltb f255 x then f255 else x in
  float_to_uint8 (F32.add x F32.half).

(* ===================================================================== *)
(** ** Entities: [ParseBSPEntities] (BSP_Entities.cpp) *)
(* ===================================================================== *)

(** The parser walks an index [i] from 0 to [n] and reads [p[i]] only
    after checking [i < n]; here the state is the rest of the text from
    [i] on.  Loops that the source leaves unbounded take fuel, and running
    out of it is [None]. *)

(** [std::isspace] in the C locale: the space and the characters 9 to 13
    (tab, line feed, vertical tab, form feed, carriage return) *)
Definition isspace (c : byte) : bool :=
  (u8 c =? 32) || ((9 <=? u8 c) && (u8 c <=? 13)).

Definition quote : byte := Byte.x22.
Definition lbrace : byte := Byte.x7b.
Definition rbrace : byte := Byte.x7d.

(** [while (i < n && std::isspace(p[i])) ++i;] *)
Fixpoint skipWS (s : list byte) : list byte :=
  match s with
  | c :: rest => if isspace c then skipWS rest else s
  | [] => []
  end.

(** the scan to the next double quote, [while (i < n && p[i] != q) ++i;]:
    the bytes passed over, and the rest from the quote on (empty when the
    end is reached) *)
Fixpoint scanQuote (s : list byte) : list byte * list byte :=
  match s with
  | c :: rest =>
      if Byte.eqb c quote then ([], s)
      else let '(t, r) := scanQuote rest in (c :: t, r)
  | [] => ([], [])
  end.

(** a [BSPEntity]: its key/value pairs *)
Definition entity : Type := list (string * string).

(** the [for (;;)] that reads the pairs of one block, from after the
    brace; the result is the pairs and the rest of the text where the loop
    was left *)
Fixpoint parsePairs (fuel : nat) (s : list byte) (kv : entity)
  : option (entity * list byte) :=
  match fuel with
  | O => None
  | S fuel =>
      match skipWS s with
      | [] => Some (kv, [])
      | c :: rest =>
          if Byte.eqb c rbrace then Some (kv, rest)
          else if negb (Byte.eqb c quote) then Some (kv, c :: rest)
          else
            let '(key, s1) := scanQuote rest in
            match s1 with
            | [] => Some (kv, [])
            | _ :: s2 =>
                match skipWS s2 with
                | [] => Some (kv, [])
                | c' :: rest' =>
                    if negb (Byte.eqb c' quote) then Some (kv, c' :: rest')
                    else
                      let '(val, s3) := scanQuote rest' in
                      match s3 with
                      | [] => Some (kv, [])
                      | _ :: s4 =>
                          parsePairs fuel s4
                                     (kv ++ [(string_of_list_byte key,
                                              string_of_list_byte val)])
                      end
                end
            end
      end
  end.

(** the [while (i < n)] over the blocks *)
Fixpoint parseBlocks (fuel : nat) (s : list byte) (out : list entity)
  : option (list entity) :=
  match fuel with
  | O => None
  | S fuel =>
      match s with
      | [] => Some out
      | _ :: _ =>
          match skipWS s with
          | [] => Some out
          | c :: rest =>
              if negb (Byte.eqb c lbrace) then Some out
              else
                '(kv, s1) ← parsePairs (S (length rest)) rest [];
                let out := match kv with [] => out | _ :: _ => out ++ [kv] end in
                parseBlocks fuel (skipWS s1) out
          end
      end
  end.

(** [ParseBSPEntities(p, n, out)]: the returned flag and [out] after the
    call; [p] is [None] for a null pointer *)
Definition ParseBSPEntities (p : option (list byte)) (out : list entity)
  : option (bool * list entity) :=
  match p with
  | None => Some (false, out)
  | Some text =>
      if size text =? 0 then Some (false, out)
      else
        out' ← parseBlocks (S (length text)) (skipWS text) out;
        Some (negb (size out' =? 0), out')
  end.

(** the pairs of an entity hold no double quote *)
Definition quoteFree (e : entity) : Prop :=
  Forall (fun kv => (quote ∉ list_byte_of_string kv.1) /\
                    (quote ∉ list_byte_of_string kv.2)) e.

(** The text of entities in the format the parser is written for: a block
    is an opening brace, the pairs as a quoted key, a space and a quoted
    value on a line each, and a closing brace. *)
Definition pairText (kv : string * string) : list byte :=
  quote :: list_byte_of_string kv.1 ++
  [quote; Byte.x20; quote] ++ list_byte_of_string kv.2 ++ [quote; Byte.x0a].

Definition entityText (e : entity) : list byte :=
  [lbrace; Byte.x0a] ++ flat_map pairText e ++ [rbrace; Byte.x0a].

Definition entitiesText (es : list entity) : list byte :=
  flat_map entityText es.

(** the entities with at least one pair *)
Fixpoint nonEmptyOnes (es : list entity) : list entity :=
  match es with
  | [] => []
  | [] :: rest => nonEmptyOnes rest
  | e :: rest => e :: nonEmptyOnes rest
  end.

(* ===================================================================== *)
(** ** Pixel utilities: [SwizzleRGBA], [BuildMipmapsRGBA] (BSP_Convert.cpp) *)
(* ===================================================================== *)

(** the lambda [chIndex] of [SwizzleRGBA]: the letters R, G, B and A in
    either case *)
Definition chIndex (c : byte) : Z :=
  match c with
  | Byte.x52 | Byte.x72 => 0
  | Byte.x47 | Byte.x67 => 1
  | Byte.x42 | Byte.x62 => 2
  | Byte.x41 | Byte.x61 => 3
  | _ => -1
  end.

(** [for (size_t i = 0; i + 3 < rgba.size(); i += 4)]: the loop takes the
    buffer four bytes at a time, copies them to [src] and writes
    [src[map[k]]] to byte [k]; what is left after the last whole pixel is
    not touched *)
Fixpoint swizzleLoop (m0 m1 m2 m3 : Z) (rgba : list byte) : option (list byte) :=
  match rgba with
  | r :: g :: b :: a :: rest =>
      let src := [r; g; b; a] in
      c0 ← at_ src m0; c1 ← at_ src m1; c2 ← at_ src m2; c3 ← at_ src m3;
      rest' ← swizzleLoop m0 m1 m2 m3 rest;
      Some (c0 :: c1 :: c2 :: c3 :: rest')
  | _ => Some rgba
  end.

(** [SwizzleRGBA(rgba, width, height, order)]: the buffer after the call;
    [order] is [None] for a null pointer and otherwise the characters
    before the terminating zero; the width and the height are not used *)
Definition SwizzleRGBA (rgba : list byte) (order : option (list byte))
  : option (list byte) :=
  match order with
  | Some [o0; o1; o2; o3] =>
      if size rgba =? 0 then Some rgba
      else
        let m0 := chIndex o0 in
        let m1 := chIndex o1 in
        let m2 := chIndex o2 in
        let m3 := chIndex o3 in
        if (m0 <? 0) || (m1 <? 0) || (m2 <? 0) || (m3 <? 0) then Some rgba
        else swizzleLoop m0 m1 m2 m3 rgba
  | _ => Some rgba
  end.

(** [std::max(1, v >> 1)] *)
Definition nextMipDim (v : Z) : Z := Z.max 1 (Z.shiftr v 1).

(** [(static_cast<size_t>(y) * w + x) * 4u] *)
Definition mipIndex (w x y : Z) : Z :=
  ((to_size_t y * to_size_t w + to_size_t x) mod 2 ^ 64 * 4) mod 2 ^ 64.

(** [sum[0..3]] and [count] *)
Definition mipSums : Type := Z * Z * Z * Z * Z.

(** the body of the loops over [oy] and [ox]: one sample of the previous
    level, with the coordinates held inside it *)
Definition mipTap (prev : list byte) (w h sx sy oy ox : Z) (acc : mipSums)
  : option mipSums :=
  let '(s0, s1, s2, s3, count) := acc in
  let px := Z.min (sx + ox) (w - 1) in
  let py := Z.min (sy + oy) (h - 1) in
  let idx := mipIndex w px py in
  a0 ← at_ prev (idx + 0); a1 ← at_ prev (idx + 1);
  a2 ← at_ prev (idx + 2); a3 ← at_ prev (idx + 3);
  Some (s0 + u8 a0, s1 + u8 a1, s2 + u8 a2, s3 + u8 a3, count + 1).

(** the body of the loops over [y] and [x]: the pixel [(x, y)] of the
    next level ([None]: a read outside the previous level) *)
Definition mipPixel (prev : list byte) (w h nw y x : Z) (next : list byte)
  : option (list byte) :=
  let sx := x * 2 in
  let sy := y * 2 in
  '(s0, s1, s2, s3, count) ←
    for_ 0 2 (fun oy acc =>
      for_ 0 2 (fun ox acc => mipTap prev w h sx sy oy ox acc) acc)
      (0, 0, 0, 0, 0);
  let di := mipIndex nw x y in
  putPixel next di (uint8_of (s0 / count)) (uint8_of (s1 / count))
           (uint8_of (s2 / count)) (uint8_of (s3 / count)).

(** the body of the [while]: the level after [prev], which is [w] by [h] *)
Definition mipLevel (prev : list byte) (w h : Z) : option (list byte) :=
  let nw := nextMipDim w in
  let nh := nextMipDim h in
  let next :=
    replicate (Z.to_nat (((to_size_t nw * to_size_t nh) mod 2 ^ 64 * 4) mod 2 ^ 64))
              Byte.x00 in
  for_ 0 nh (fun y next =>
    for_ 0 nw (fun x next => mipPixel prev w h nw y x next) next) next.

(** the [while] of [BuildMipmapsRGBA]; the outer [None] is the fuel run
    out, the inner one undefined behaviour *)
Fixpoint mipLoop (fuel : nat) (maxLevels : Z) (levels : list (list byte)) (w h : Z)
  : option (option (list (list byte))) :=
  match fuel with
  | O => None
  | S fuel =>
      if ((maxLevels =? 0) || (size levels <? maxLevels)) && ((1 <? w) || (1 <? h))
      then
        match last levels with
        | None => Some None
        | Some prev =>
            match mipLevel prev w h with
            | None => Some None
            | Some next =>
                mipLoop fuel maxLevels (levels ++ [next]) (nextMipDim w) (nextMipDim h)
            end
        end
      else Some (Some levels)
  end.

(** [BuildMipmapsRGBA(rgba, width, height, maxLevels)] for [int]
    arguments; the dimensions halve in every round, so the larger of them
    bounds the number of rounds *)
Definition BuildMipmapsRGBA (rgba : list byte) (width height maxLevels : Z)
  : option (option (list (list byte))) :=
  if (size rgba =? 0) || (width <=? 0) || (height <=? 0) then Some (Some [])
  else mipLoop (Z.to_nat (Z.max width height)) maxLevels [rgba] width height.

(* ===================================================================== *)
(** ** Synthetic files *)
(* ===================================================================== *)

(** Little-endian encoders, and a file made of a header and fifteen lumps
    laid out one after the other; used to write concrete inputs. *)
Definition byte_of (n : Z) : byte :=
  default Byte.x00 (Byte.of_N (Z.to_N (n mod 256))).

Definition le16 (n : Z) : list byte :=
  [byte_of n; byte_of (n / 256)].

Definition le32 (n : Z) : list byte :=
  [byte_of n; byte_of (n / 256); byte_of (n / 65536); byte_of (n / 16777216)].

Fixpoint lumpTable (pos : Z) (lumps : list (list byte)) : list byte :=
  match lumps with
  | [] => []
  | l :: rest => le32 pos ++ le32 (size l) ++ lumpTable (pos + size l) rest
  end.

Definition mkBSP (version : Z) (lumps : list (list byte)) : list byte :=
  le32 version ++ lumpTable sizeof_BSPHeader lumps ++ concat lumps.

(** bit patterns of a few binary32 values *)
Definition bits_0 : Z := 0.
Definition bits_1 : Z := 1065353216.      (* 0x3F800000 *)
Definition bits_16 : Z := 1098907648.     (* 0x41800000 *)
Definition bits_496 : Z := 1140326400.    (* 0x43F80000 *)

Definition encVec3 (x y z : Z) : list byte := le32 x ++ le32 y ++ le32 z.
Definition encEdge (v0 v1 : Z) : list byte := le16 v0 ++ le16 v1.
Definition encFace (firstedge numedges texinfo lightofs : Z) : list byte :=
  le16 0 ++ le16 0 ++ le32 firstedge ++ le16 numedges ++ le16 texinfo
       ++ [Byte.x00; Byte.xff; Byte.xff; Byte.xff] ++ le32 lightofs.
Definition encTexInfo (s t : list Z) (miptex : Z) : list byte :=
  concat (map le32 s) ++ concat (map le32 t) ++ le32 miptex ++ le32 0.

(** A miptex lump with one slot that holds no texture (offset 0), and one
    with an embedded 1 x 1 texture named "t". *)
Definition externalMipTex : list byte := le32 1 ++ le32 0.

Definition unitMipTex : list byte :=
  le32 1 ++ le32 8
       ++ byte_of 116 :: replicate 15 Byte.x00
       ++ le32 1 ++ le32 1 ++ le32 40 ++ le32 0 ++ le32 0 ++ le32 0
       ++ [Byte.x05].

(** A triangle (0,0,0), (xmax,0,0), (0,16,0) with s = (1,0,0,0) and
    t = (0,1,0,0), and [nlight] light bytes of value 7. *)
Definition triangleLumps (miptex : list byte) (xmax : Z) (nlight : nat) (lightofs : Z)
  : list (list byte) :=
  [ [];                                                   (* entities *)
    [];                                                   (* planes *)
    miptex;                                               (* miptex *)
    encVec3 bits_0 bits_0 bits_0 ++ encVec3 xmax bits_0 bits_0
            ++ encVec3 bits_0 bits_16 bits_0;             (* vertexes *)
    []; [];                                               (* vis, nodes *)
    encTexInfo [bits_1; 0; 0; 0] [0; bits_1; 0; 0] 0;     (* texinfo *)
    encFace 0 3 0 lightofs;                               (* faces *)
    replicate nlight Byte.x07;                            (* lighting *)
    []; []; [];                                           (* clip, leafs, marks *)
    encEdge 0 0 ++ encEdge 0 1 ++ encEdge 1 2 ++ encEdge 2 0;  (* edges *)
    le32 1 ++ le32 2 ++ le32 3;                           (* surfedges *)
    [] ].                                                 (* models *)

Definition triangleFile (version : Z) : list byte :=
  mkBSP version (triangleLumps externalMipTex bits_16 16 0).

Definition unitTriangleFile : list byte :=
  mkBSP 29 (triangleLumps unitMipTex bits_16 16 0).

Definition emptyMap : BSPMap.t :=
  BSPMap.mk 0 [] [] [] [] [] [] [] [] [] [] [] LightmapAtlas.empty.

(** the map [LoadBSP] returns for a file (the empty map when it returns
    none) *)
Definition loaded (file : list byte) : BSPMap.t :=
  match LoadBSP (Some file) None with
  | Some (Some map, _) => map
  | _ => emptyMap
  end.

(** Two faces on the triangle, with light offsets 0 and 4. *)
Definition twoFaceFile : list byte :=
  mkBSP 29 (<[7%nat := encFace 0 3 0 0 ++ encFace 0 3 0 4]>
              (triangleLumps externalMipTex bits_16 16 0)).

(** The triangle file with the descriptor of the vertex lump changed to
    offset -12 and size 12. *)
Definition negativeOffsetFile : list byte :=
  take 28 (triangleFile 29) ++ le32 (-12) ++ le32 12 ++ drop 36 (triangleFile 29).

(** The triangle file with a models lump of one record after it. *)
Definition modelFile : list byte :=
  mkBSP 29 (<[14%nat := replicate 64 Byte.x00]>
              (triangleLumps externalMipTex bits_16 16 0)).

(** A palette of 256 greys: entry [i] is [(i, i, i)]. *)
Definition greyPalette : list byte :=
  flat_map (fun i => [byte_of i; byte_of i; byte_of i]) (seqZ 0 256).

(** three entities, the second without a pair *)
Definition sampleEntities : list entity :=
  [[("a", "b"); ("c", "")]; []; [("", "d e")]]%string.

(** the order BGRA *)
Definition orderBGRA : list byte := [Byte.x42; Byte.x47; Byte.x52; Byte.x41].

(** two pixels and one more byte *)
Definition twoPixels : list byte :=
  [Byte.x01; Byte.x02; Byte.x03; Byte.x04;
   Byte.x05; Byte.x06; Byte.x07; Byte.x08; Byte.x09].

(** an image of two by two pixels *)
Definition image2x2 : list byte :=
  [Byte.x00; Byte.x10; Byte.x20; Byte.xff;
   Byte.x01; Byte.x11; Byte.x21; Byte.xff;
   Byte.x02; Byte.x12; Byte.x22; Byte.xff;
   Byte.x04; Byte.x14; Byte.x24; Byte.xfe].

(** the same image with its last byte missing *)
Definition shortImage2x2 : list byte := take 15 image2x2.

(** a map of [n] faces, all of them the same triangle (0,0,0), (496,0,0),
    (0,496,0) with the texture axes of the x and y axes, so that each
    needs a block of 32 x 32 luxels; there is one byte of lighting, and
    the meshes are those [buildMeshes] makes of the faces *)
Definition blockFace : Face.t := Face.mk 0 0 0 3 0 [] 0.

Definition blockMesh : BSPMesh.t :=
  BSPMesh.mk (-1) (-1)
    [F32.zero; F32.zero; F32.zero; F32.zero; F32.one;
     F32.of_int 496; F32.zero; F32.zero; F32.of_int 496; F32.one;
     F32.zero; F32.of_int 496; F32.zero; F32.zero; F32.of_int (-495)].

Definition blockMap (n : nat) : BSPMap.t :=
  BSPMap.mk 29
    [Vec3.mk F32.zero F32.zero F32.zero;
     Vec3.mk (F32.of_int 496) F32.zero F32.zero;
     Vec3.mk F32.zero (F32.of_int 496) F32.zero]
    [Edge.mk 0 0; Edge.mk 0 1; Edge.mk 1 2; Edge.mk 2 0]
    [1; 2; 3]
    (replicate n blockFace)
    [TexInfo.mk F32.one F32.zero F32.zero F32.zero
                F32.zero F32.one F32.zero F32.zero 0 0]
    [] [] [] [] [Byte.x07]
    (replicate n blockMesh)
    LightmapAtlas.empty.

(* ===================================================================== *)
(** * Properties *)
(* ===================================================================== *)

(** ** Vectors and loops *)

Section VectorFacts.
Context {A : Type}.
Implicit Types (v : list A) (i : Z) (x : A).

Lemma size_nonneg v : 0 <= size v.
Proof. unfold size. lia. Qed.

Lemma at_Some v i x :
  at_ v i = Some x <-> 0 <= i /\ v !! Z.to_nat i = Some x.
Proof.
  unfold at_. destruct (Z.ltb_spec i 0); split; intros; try easy; lia.
Qed.

Lemma at_lt v i x : at_ v i = Some x -> 0 <= i < size v.
Proof.
  intros [Hi Hl]%at_Some. apply lookup_lt_Some in Hl. unfold size. lia.
Qed.

Lemma at_is_Some v i : 0 <= i < size v -> is_Some (at_ v i).
Proof.
  unfold at_, size. intros Hi.
  destruct (Z.ltb_spec i 0); [lia|].
  apply lookup_lt_is_Some. lia.
Qed.

Lemma at_None v i : at_ v i = None <-> i < 0 \/ size v <= i.
Proof.
  unfold at_, size. destruct (Z.ltb_spec i 0).
  - split; [auto | reflexivity].
  - rewrite lookup_ge_None. lia.
Qed.

Lemma size_app v1 v2 : size (v1 ++ v2) = size v1 + size v2.
Proof. unfold size. rewrite length_app. lia. Qed.

Lemma size_snoc v x : size (v ++ [x]) = size v + 1.
Proof. rewrite size_app. reflexivity. Qed.

Lemma at_app_l v1 v2 i : i < size v1 -> at_ (v1 ++ v2) i = at_ v1 i.
Proof.
  unfold at_, size. intros Hi. destruct (Z.ltb_spec i 0); [reflexivity|].
  apply lookup_app_l. lia.
Qed.

Lemma at_app_r v1 v2 i :
  size v1 <= i -> at_ (v1 ++ v2) i = at_ v2 (i - size v1).
Proof.
  unfold at_, size. intros Hi.
  destruct (Z.ltb_spec i 0); [lia|].
  destruct (Z.ltb_spec (i - Z.of_nat (length v1)) 0); [lia|].
  rewrite lookup_app_r by lia. f_equal. lia.
Qed.

Lemma at_snoc_last v x : at_ (v ++ [x]) (size v) = Some x.
Proof.
  rewrite at_app_r by lia. rewrite Z.sub_diag. reflexivity.
Qed.

Lemma store_Some v i x v' :
  store v i x = Some v' ->
  0 <= i < size v /\ v' = <[Z.to_nat i := x]> v.
Proof.
  unfold store. destruct (at_ v i) eqn:E; [|discriminate].
  intros [= <-]. split; [eapply at_lt; eauto | reflexivity].
Qed.

Lemma store_is_Some v i x : 0 <= i < size v -> is_Some (store v i x).
Proof.
  intros Hi. unfold store. destruct (at_is_Some v i Hi) as [y ->]. eauto.
Qed.

Lemma size_insert v (n : nat) x : size (<[n := x]> v) = size v.
Proof. unfold size. rewrite length_insert. reflexivity. Qed.

Lemma at_insert_eq v i x :
  0 <= i < size v -> at_ (<[Z.to_nat i := x]> v) i = Some x.
Proof.
  unfold at_, size. intros Hi. destruct (Z.ltb_spec i 0); [lia|].
  apply list_lookup_insert_eq. lia.
Qed.

Lemma at_insert_ne v i j x :
  0 <= i -> i <> j -> at_ (<[Z.to_nat i := x]> v) j = at_ v j.
Proof.
  unfold at_. intros Hi Hne. destruct (Z.ltb_spec j 0); [reflexivity|].
  apply list_lookup_insert_ne. lia.
Qed.

Lemma size_resize n x v : 0 <= n -> size (resize n x v) = n.
Proof.
  intros Hn. unfold size, resize.
  rewrite length_app, length_take, length_replicate. lia.
Qed.

Lemma size_replicate (n : nat) x : size (replicate n x) = Z.of_nat n.
Proof. unfold size. rewrite length_replicate. reflexivity. Qed.
End VectorFacts.

Section LoopFacts.
Context {S : Type}.
Implicit Types (body : Z -> S -> option S) (s : S).

(** the invariant rule of a counted loop *)
Lemma for_n_inv (P : Z -> S -> Prop) body n i s s' :
  P i s ->
  (forall j t t', i <= j < i + Z.of_nat n -> P j t -> body j t = Some t' -> P (j + 1) t') ->
  for_n n i body s = Some s' ->
  P (i + Z.of_nat n) s'.
Proof.
  revert i s. induction n as [|n IH]; intros i s Hs Hstep Hrun; simpl in Hrun.
  - injection Hrun as <-. replace (i + Z.of_nat 0) with i by lia. exact Hs.
  - destruct (body i s) as [t|] eqn:Hb; simpl in Hrun; [|discriminate].
    replace (i + Z.of_nat (Datatypes.S n)) with ((i + 1) + Z.of_nat n) by lia.
    apply (IH (i + 1) t).
    + apply (Hstep i s t); [lia | exact Hs | exact Hb].
    + intros j u u' Hj. apply Hstep. lia.
    + exact Hrun.
Qed.

Lemma for_inv (P : Z -> S -> Prop) body lo hi s s' :
  lo <= hi ->
  P lo s ->
  (forall j t t', lo <= j < hi -> P j t -> body j t = Some t' -> P (j + 1) t') ->
  for_ lo hi body s = Some s' ->
  P hi s'.
Proof.
  intros Hle Hs Hstep Hrun. unfold for_ in Hrun.
  pose proof (for_n_inv P body (Z.to_nat (hi - lo)) lo s s' Hs) as H.
  replace (lo + Z.of_nat (Z.to_nat (hi - lo))) with hi in H by lia.
  apply H; [|exact Hrun].
  intros j t t' Hj. apply Hstep. lia.
Qed.

(** a loop whose body is defined wherever the invariant holds runs to
    its end *)
Lemma for_n_total (P : Z -> S -> Prop) body n i s :
  P i s ->
  (forall j t, i <= j < i + Z.of_nat n -> P j t ->
               exists t', body j t = Some t' /\ P (j + 1) t') ->
  exists s', for_n n i body s = Some s' /\ P (i + Z.of_nat n) s'.
Proof.
  revert i s. induction n as [|n IH]; intros i s Hs Hstep; simpl.
  - exists s. split; [reflexivity|].
    replace (i + Z.of_nat 0) with i by lia. exact Hs.
  - destruct (Hstep i s) as (t & Hb & Ht); [lia | exact Hs |].
    rewrite Hb. simpl.
    replace (i + Z.of_nat (Datatypes.S n)) with ((i + 1) + Z.of_nat n) by lia.
    apply IH; [exact Ht|]. intros j u Hj. apply Hstep. lia.
Qed.

Lemma for_total (P : Z -> S -> Prop) body lo hi s :
  lo <= hi ->
  P lo s ->
  (forall j t, lo <= j < hi -> P j t -> exists t', body j t = Some t' /\ P (j + 1) t') ->
  exists s', for_ lo hi body s = Some s' /\ P hi s'.
Proof.
  intros Hle Hs Hstep. unfold for_.
  pose proof (for_n_total P body (Z.to_nat (hi - lo)) lo s Hs) as H.
  replace (lo + Z.of_nat (Z.to_nat (hi - lo))) with hi in H by lia.
  apply H. intros j t Hj. apply Hstep. lia.
Qed.

Lemma for_empty body lo hi s : hi <= lo -> for_ lo hi body s = Some s.
Proof.
  intros Hle. unfold for_. replace (Z.to_nat (hi - lo)) with O by lia.
  reflexivity.
Qed.
End LoopFacts.

(** ** Surfedge resolution *)

(** The rule in the spec's words: a non-negative surfedge selects the
    first vertex of that edge, a negative one the second vertex of the edge
    at its absolute value. *)
Definition resolveSurfedge (edges : list Edge.t) (se : Z) : option Z :=
  if 0 <=? se then Edge.v0 <$> at_ edges se
  else Edge.v1 <$> at_ edges (- se).

(** [vind] is the loop of [face]: one vertex per surfedge, each resolved by
    the rule *)
Definition resolvedLoop (map : BSPMap.t) (face : Face.t) (n : Z) (vind : list Z) : Prop :=
  size vind = n /\
  forall i, 0 <= i < n ->
    exists se v,
      at_ (BSPMap.surfedges map) (Face.firstedge face + i) = Some se /\
      resolveSurfedge (BSPMap.edges map) se = Some v /\
      at_ vind i = Some v.

Lemma int_ok_Some n m : int_ok n = Some m -> m = n /\ F32.int_min <= n <= F32.int_max.
Proof.
  unfold int_ok.
  destruct (Z.leb_spec F32.int_min n), (Z.leb_spec n F32.int_max); simpl;
    intros [= <-]; lia.
Qed.

Lemma gatherStep_spec map face i vind vind' :
  gatherStep map face i vind = Some vind' ->
  exists se v,
    at_ (BSPMap.surfedges map) (Face.firstedge face + i) = Some se /\
    resolveSurfedge (BSPMap.edges map) se = Some v /\
    vind' = vind ++ [v].
Proof.
  unfold gatherStep, resolveSurfedge. intros H.
  destruct (int_ok (Face.firstedge face + i)) as [k|] eqn:Hk; simpl in H; [|discriminate].
  apply int_ok_Some in Hk as [-> _].
  destruct (at_ (BSPMap.surfedges map) _) as [se|] eqn:Hse; simpl in H; [|discriminate].
  exists se. destruct (0 <=? se).
  - destruct (at_ (BSPMap.edges map) se) as [e|]; simpl in H; [|discriminate].
    injection H as <-. exists (Edge.v0 e). auto.
  - destruct (int_ok (- se)) as [nse|] eqn:Hn; simpl in H; [|discriminate].
    apply int_ok_Some in Hn as [-> _].
    destruct (at_ (BSPMap.edges map) (- se)) as [e|]; simpl in H; [|discriminate].
    injection H as <-. exists (Edge.v1 e). auto.
Qed.

Lemma extentsGatherStep_eq map face i vind :
  extentsGatherStep map face i vind = gatherStep map face i vind.
Proof. reflexivity. Qed.

Lemma resolvedLoop_snoc map face j vind se v :
  0 <= j ->
  resolvedLoop map face j vind ->
  at_ (BSPMap.surfedges map) (Face.firstedge face + j) = Some se ->
  resolveSurfedge (BSPMap.edges map) se = Some v ->
  resolvedLoop map face (j + 1) (vind ++ [v]).
Proof.
  intros Hj [Hsz Hall] Hse Hv. split.
  - rewrite size_snoc. lia.
  - intros i Hi. destruct (Z.eq_dec i j) as [->|Hne].
    + exists se, v. repeat split; auto. rewrite <- Hsz. apply at_snoc_last.
    + destruct (Hall i) as (se' & v' & ? & ? & ?); [lia|].
      exists se', v'. repeat split; auto. rewrite at_app_l by lia. assumption.
Qed.

Lemma gatherLoop_resolved map face vind :
  gatherLoop map face = Some vind ->
  resolvedLoop map face (Face.numedges face) vind.
Proof.
  unfold gatherLoop. destruct (Z.ltb_spec (Face.numedges face) 0) as [|Hn]; [discriminate|].
  intros Hrun.
  apply (for_inv (fun j v => resolvedLoop map face j v) _ _ _ _ _ Hn) in Hrun; auto.
  - split; [reflexivity | intros; lia].
  - intros j t t' Hj Ht (se & v & Hse & Hv & ->)%gatherStep_spec.
    eapply resolvedLoop_snoc; eauto. lia.
Qed.

Lemma extentsGatherLoop_eq map face :
  extentsGatherLoop map face = gatherLoop map face.
Proof. reflexivity. Qed.

Lemma int_ok_inside n : F32.int_min <= n <= F32.int_max -> int_ok n = Some n.
Proof.
  intros H. unfold int_ok.
  destruct (Z.leb_spec F32.int_min n), (Z.leb_spec n F32.int_max); try lia. reflexivity.
Qed.

Lemma gatherStep_defined map face i vind se v :
  Face.firstedge face + i <= F32.int_max ->
  at_ (BSPMap.surfedges map) (Face.firstedge face + i) = Some se ->
  F32.int_min < se ->
  resolveSurfedge (BSPMap.edges map) se = Some v ->
  gatherStep map face i vind = Some (vind ++ [v]).
Proof.
  intros Hmax Hse Hmin Hv. unfold gatherStep.
  pose proof (at_lt _ _ _ Hse) as Hk.
  rewrite int_ok_inside by (unfold F32.int_min in *; lia). cbn [mbind option_bind].
  rewrite Hse. cbn [mbind option_bind].
  unfold resolveSurfedge in Hv. destruct (0 <=? se) eqn:Hs.
  - destruct (at_ (BSPMap.edges map) se) as [e|]; [|discriminate].
    injection Hv as <-. reflexivity.
  - destruct (at_ (BSPMap.edges map) (- se)) as [e|] eqn:He; [|discriminate].
    pose proof (at_lt _ _ _ He).
    rewrite int_ok_inside by (unfold F32.int_min, F32.int_max in *; lia).
    cbn [mbind option_bind]. rewrite He. injection Hv as <-. reflexivity.
Qed.

Lemma gatherLoop_defined map face :
  0 <= Face.numedges face ->
  (forall i, 0 <= i < Face.numedges face ->
     Face.firstedge face + i <= F32.int_max /\
     exists se v,
       at_ (BSPMap.surfedges map) (Face.firstedge face + i) = Some se /\
       F32.int_min < se /\
       resolveSurfedge (BSPMap.edges map) se = Some v) ->
  is_Some (gatherLoop map face).
Proof.
  intros Hn Hall. unfold gatherLoop.
  destruct (Z.ltb_spec (Face.numedges face) 0); [lia|].
  destruct (for_total (fun _ _ => True) (gatherStep map face) 0 (Face.numedges face) []
                      Hn I) as (vind & Hrun & _); [|eauto].
  intros j t Hj _. destruct (Hall j Hj) as (Hmax & se & v & Hse & Hmin & Hv).
  exists (t ++ [v]). split; [|exact I]. eapply gatherStep_defined; eauto.
Qed.

(** the walk of [faceLightmapExtents] runs to its end under the same
    conditions, step by step *)
Lemma extentsGatherLoop_defined map face :
  0 <= Face.numedges face ->
  (forall i, 0 <= i < Face.numedges face ->
     Face.firstedge face + i <= F32.int_max /\
     exists se v,
       at_ (BSPMap.surfedges map) (Face.firstedge face + i) = Some se /\
       F32.int_min < se /\
       resolveSurfedge (BSPMap.edges map) se = Some v) ->
  is_Some (extentsGatherLoop map face).
Proof.
  intros Hn Hall. unfold extentsGatherLoop.
  destruct (Z.ltb_spec (Face.numedges face) 0); [lia|].
  destruct (for_total (fun _ _ => True) (extentsGatherStep map face) 0
                      (Face.numedges face) [] Hn I) as (vind & Hrun & _); [|eauto].
  intros j t Hj _. destruct (Hall j Hj) as (Hmax & se & v & Hse & Hmin & Hv).
  exists (t ++ [v]). split; [|exact I].
  rewrite extentsGatherStep_eq. eapply gatherStep_defined; eauto.
Qed.

(** C3: in both walks ([buildMeshes] and [faceLightmapExtents]) the i-th
    vertex of the loop is [edges[se].v0] for a surfedge [se >= 0] and
    [edges[-se].v1] otherwise; with [edges[3] = (5, 9)], surfedge 3 gives
    vertex 5 and surfedge -3 gives vertex 9.  And both walks do return
    their loop, the same one, for a face whose surfedges exist, are not
    [INT_MIN] and name edges that exist. *)
Theorem surfedge_resolution (map : BSPMap.t) (face : Face.t) :
  (forall vind,
     gatherLoop map face = Some vind \/ extentsGatherLoop map face = Some vind ->
     size vind = Face.numedges face /\
     (forall i se,
         0 <= i < Face.numedges face ->
         at_ (BSPMap.surfedges map) (Face.firstedge face + i) = Some se ->
         is_Some (at_ vind i) /\
         at_ vind i = (if 0 <=? se then Edge.v0 <$> at_ (BSPMap.edges map) se
                       else Edge.v1 <$> at_ (BSPMap.edges map) (- se))) /\
     (at_ (BSPMap.edges map) 3 = Some (Edge.mk 5 9) ->
      forall i,
        0 <= i < Face.numedges face ->
        (at_ (BSPMap.surfedges map) (Face.firstedge face + i) = Some 3 ->
         at_ vind i = Some 5) /\
        (at_ (BSPMap.surfedges map) (Face.firstedge face + i) = Some (-3) ->
         at_ vind i = Some 9))) /\
  (0 <= Face.numedges face ->
   (forall i, 0 <= i < Face.numedges face ->
      Face.firstedge face + i <= F32.int_max /\
      exists se,
        at_ (BSPMap.surfedges map) (Face.firstedge face + i) = Some se /\
        F32.int_min < se /\
        is_Some (at_ (BSPMap.edges map) (Z.abs se))) ->
   exists vind,
     gatherLoop map face = Some vind /\ extentsGatherLoop map face = Some vind).
Proof.
  split.
  - intros vind Hrun.
    assert (resolvedLoop map face (Face.numedges face) vind) as [Hsz Hall].
    { destruct Hrun as [H|H].
      - apply gatherLoop_resolved. exact H.
      - unfold extentsGatherLoop in H.
        destruct (Z.ltb_spec (Face.numedges face) 0) as [|Hn]; [discriminate|].
        apply (for_inv (fun j v => resolvedLoop map face j v) _ _ _ _ _ Hn) in H; auto.
        + split; [reflexivity | intros; lia].
        + intros j t t' Hj Ht Hstep. rewrite extentsGatherStep_eq in Hstep.
          apply gatherStep_spec in Hstep as (se & v & Hse & Hv & ->).
          eapply resolvedLoop_snoc; eauto. lia. }
    assert (forall i se,
               0 <= i < Face.numedges face ->
               at_ (BSPMap.surfedges map) (Face.firstedge face + i) = Some se ->
               is_Some (at_ vind i) /\
               at_ vind i = resolveSurfedge (BSPMap.edges map) se) as Hres.
    { intros i se Hi Hse. destruct (Hall i Hi) as (se' & v & Hse' & Hv & Hat).
      rewrite Hse in Hse'. injection Hse' as <-.
      rewrite Hat, Hv. eauto. }
    split; [exact Hsz|]. split; [exact Hres|].
    intros He i Hi. split; intros Hse; destruct (Hres i _ Hi Hse) as [_ ->];
      unfold resolveSurfedge.
    + change (0 <=? 3) with true. cbv iota. rewrite He. reflexivity.
    + change (0 <=? -3) with false. change (- -3) with 3. cbv iota.
      rewrite He. reflexivity.
  - intros Hn Hall.
    assert (forall i, 0 <= i < Face.numedges face ->
              Face.firstedge face + i <= F32.int_max /\
              exists se v,
                at_ (BSPMap.surfedges map) (Face.firstedge face + i) = Some se /\
                F32.int_min < se /\
                resolveSurfedge (BSPMap.edges map) se = Some v) as Hall'.
    { intros i Hi. destruct (Hall i Hi) as (Hmax & se & Hse & Hmin & [e He]).
      split; [exact Hmax|].
      destruct (Z.le_gt_cases 0 se) as [Hs|Hs].
      - rewrite Z.abs_eq in He by lia. exists se, (Edge.v0 e).
        split; [exact Hse|]. split; [exact Hmin|]. unfold resolveSurfedge.
        destruct (Z.leb_spec 0 se); [|lia]. rewrite He. reflexivity.
      - rewrite Z.abs_neq in He by lia. exists se, (Edge.v1 e).
        split; [exact Hse|]. split; [exact Hmin|]. unfold resolveSurfedge.
        destruct (Z.leb_spec 0 se); [lia|]. rewrite He. reflexivity. }
    destruct (gatherLoop_defined map face Hn Hall') as [vind Hg].
    destruct (extentsGatherLoop_defined map face Hn Hall') as [vind' He].
    exists vind. split; [exact Hg|].
    rewrite He. f_equal.
    assert (resolvedLoop map face (Face.numedges face) vind) as [Hs1 H1]
      by (apply gatherLoop_resolved; exact Hg).
    assert (resolvedLoop map face (Face.numedges face) vind') as [Hs2 H2].
    { unfold extentsGatherLoop in He.
      destruct (Z.ltb_spec (Face.numedges face) 0); [discriminate|].
      apply (for_inv (fun j v => resolvedLoop map face j v) _ _ _ _ _ Hn) in He; auto.
      + split; [reflexivity | intros; lia].
      + intros j t t' Hj Ht Hstep. rewrite extentsGatherStep_eq in Hstep.
        apply gatherStep_spec in Hstep as (se & v & Hse & Hv & ->).
        eapply resolvedLoop_snoc; eauto. lia. }
    apply list_eq. intros k.
    destruct (Z.lt_ge_cases (Z.of_nat k) (Face.numedges face)) as [Hk|Hk].
    + destruct (H1 (Z.of_nat k) ltac:(lia)) as (se1 & v1 & Hse1 & Hv1 & Hat1).
      destruct (H2 (Z.of_nat k) ltac:(lia)) as (se2 & v2 & Hse2 & Hv2 & Hat2).
      apply at_Some in Hat1 as [_ Hat1]. apply at_Some in Hat2 as [_ Hat2].
      rewrite Nat2Z.id in Hat1, Hat2. congruence.
    + rewrite !lookup_ge_None_2; [reflexivity | |]; unfold size in *; lia.
Qed.

(** a map whose edge 3 is (5, 9), walked forwards and backwards *)
Definition edgeMap : BSPMap.t :=
  BSPMap.mk 29 []
            [Edge.mk 0 0; Edge.mk 0 1; Edge.mk 1 2; Edge.mk 5 9]
            [3; -3; 1] [Face.mk 0 0 0 3 0 [] (-1)] [] [] [] [] [] [] []
            LightmapAtlas.empty.

Definition edgeFace : Face.t := Face.mk 0 0 0 3 0 [] (-1).

Lemma surfedge_resolution_witness :
  exists vind,
    gatherLoop edgeMap edgeFace = Some vind /\
    extentsGatherLoop edgeMap edgeFace = Some vind /\
    at_ vind 0 = Some 5 /\ at_ vind 1 = Some 9.
Proof.
  destruct (surfedge_resolution edgeMap edgeFace) as [Hpartial Htotal].
  destruct Htotal as (vind & Hg & He).
  - simpl. lia.
  - simpl. intros i Hi.
    assert (i = 0 \/ i = 1 \/ i = 2) as [->|[->| ->]] by lia;
      (split; [vm_compute; discriminate|]);
      [exists 3 | exists (-3) | exists 1];
      (split; [reflexivity|]); (split; [reflexivity|]);
      eexists; reflexivity.
  - exists vind. split; [exact Hg|]. split; [exact He|].
    destruct (Hpartial vind (or_intror He)) as (_ & _ & Hpart).
    split.
    + apply (Hpart eq_refl 0); [simpl; lia | reflexivity].
    + apply (Hpart eq_refl 1); [simpl; lia | reflexivity].
Defined.

(** ** binary32: multiplying and dividing by one *)

Section Binary32Facts.












End Binary32Facts.

(** ** Fan triangulation and the first UV pair *)

(** The five floats of a vertex at [p]: the position, then the s/t
    projection divided by [W] and [H], v flipped. *)
Definition vertexTuple (ti : TexInfo.t) (W H : float) (p : Vec3.t) : list float :=
  let '(s, t) := computeST p ti in
  [Vec3.x p; Vec3.y p; Vec3.z p; F32.div s W; F32.sub F32.one (F32.div t H)].

(** The divisor in the spec's words: the referenced texture's dimension,
    and one when the texture is absent or the dimension is not positive. *)
Definition divisor (map : BSPMap.t) (ti : TexInfo.t) (dim : BSPTexture.t -> Z) : float :=
  match at_ (BSPMap.textures map) (TexInfo.miptex ti) with
  | None => F32.one
  | Some tex =>
      if F32.leb (F32.of_int (dim tex)) F32.zero then F32.one
      else F32.of_int (dim tex)
  end.

(** The vertex indices of the fan in emission order:
    (loop[0], loop[i], loop[i+1]) for i = 1 .. n-2. *)
Definition corner (vind : list Z) (i : Z) : Z := default 0 (at_ vind i).

Definition fanOrder (vind : list Z) : list Z :=
  flat_map (fun i => [corner vind 0; corner vind i; corner vind (i + 1)])
           (seqZ 1 (size vind - 2)).

Lemma addVertex_spec map ti w h vs vi vs' :
  addVertex map ti w h vs vi = Some vs' ->
  exists p, at_ (BSPMap.vertices map) vi = Some p /\
            vs' = vs ++ vertexTuple ti w h p.
Proof.
  unfold addVertex. destruct (at_ (BSPMap.vertices map) vi) as [p|]; simpl;
    [|discriminate].
  intros [= <-]. exists p. split; reflexivity.
Qed.

Lemma fanStep_spec map ti w h vind i vs vs' :
  fanStep map ti w h vind i vs = Some vs' ->
  exists ps,
    Forall2 (fun vi p => at_ (BSPMap.vertices map) vi = Some p)
            [corner vind 0; corner vind i; corner vind (i + 1)] ps /\
    vs' = vs ++ flat_map (vertexTuple ti w h) ps.
Proof.
  unfold fanStep, corner. intros H.
  destruct (at_ vind 0) as [a|]; simpl in H; [|discriminate].
  destruct (addVertex map ti w h vs a) as [v1|] eqn:H1; simpl in H; [|discriminate].
  destruct (at_ vind i) as [b|]; simpl in H; [|discriminate].
  destruct (addVertex map ti w h v1 b) as [v2|] eqn:H2; simpl in H; [|discriminate].
  destruct (at_ vind (i + 1)) as [c|]; simpl in H; [|discriminate].
  apply addVertex_spec in H1 as (pa & Ha & ->).
  apply addVertex_spec in H2 as (pb & Hb & ->).
  apply addVertex_spec in H as (pc & Hc & ->).
  exists [pa; pb; pc]. split.
  - repeat constructor; assumption.
  - cbn [flat_map]. rewrite app_nil_r, <- !app_assoc. reflexivity.
Qed.

Lemma fanLoop_spec map ti w h vind vs :
  3 <= size vind ->
  for_ 1 (size vind - 1) (fanStep map ti w h vind) [] = Some vs ->
  exists ps,
    Forall2 (fun vi p => at_ (BSPMap.vertices map) vi = Some p) (fanOrder vind) ps /\
    vs = flat_map (vertexTuple ti w h) ps.
Proof.
  intros Hn Hrun.
  pose (P := fun (i : Z) (vs : list float) =>
    exists ps,
      Forall2 (fun vi p => at_ (BSPMap.vertices map) vi = Some p)
              (flat_map (fun i => [corner vind 0; corner vind i; corner vind (i + 1)])
                        (seqZ 1 (i - 1))) ps /\
      vs = flat_map (vertexTuple ti w h) ps).
  assert (P (size vind - 1) vs) as HP.
  { apply (for_inv P (fanStep map ti w h vind) 1 (size vind - 1) [] vs); auto.
    - lia.
    - exists []. split; [constructor | reflexivity].
    - intros j t t' Hj (ps & Hps & ->) (qs & Hqs & ->)%fanStep_spec.
      exists (ps ++ qs). split.
      + replace (j + 1 - 1) with ((j - 1) + 1) by lia.
        rewrite seqZ_app by lia. rewrite flat_map_app.
        apply Forall2_app; [exact Hps|].
        replace (1 + (j - 1)) with j by lia.
        change (seqZ j 1) with [0 + j]. rewrite Z.add_0_l.
        cbn [flat_map]. rewrite app_nil_r. exact Hqs.
      + rewrite flat_map_app. reflexivity. }
  destruct HP as (ps & Hps & ->). exists ps. split; [|reflexivity].
  unfold fanOrder. replace (size vind - 2) with (size vind - 1 - 1) by lia.
  exact Hps.
Qed.

Lemma uvDivisors_spec map ti w h :
  uvDivisors map (meshTextureIndex map ti) = Some (w, h) ->
  w = divisor map ti BSPTexture.width /\ h = divisor map ti BSPTexture.height.
Proof.
  unfold uvDivisors, meshTextureIndex, divisor.
  destruct (Z.leb_spec 0 (TexInfo.miptex ti)) as [Hlo|Hlo]; simpl.
  - destruct (Z.ltb_spec (TexInfo.miptex ti) (size (BSPMap.textures map))) as [Hhi|Hhi].
    + destruct (Z.leb_spec 0 (TexInfo.miptex ti)); [|lia].
      destruct (at_ (BSPMap.textures map) (TexInfo.miptex ti)) as [tex|]; simpl;
        [|discriminate].
      intros [= <- <-]. split; reflexivity.
    + simpl. intros [= <- <-].
      assert (at_ (BSPMap.textures map) (TexInfo.miptex ti) = None) as ->
          by (apply at_None; lia).
      split; reflexivity.
  - simpl. intros [= <- <-].
    assert (at_ (BSPMap.textures map) (TexInfo.miptex ti) = None) as ->
        by (apply at_None; lia).
    split; reflexivity.
Qed.

(** the mesh of a face with at least three loop vertices *)
Lemma buildMesh_fan map face vind mesh :
  gatherLoop map face = Some vind ->
  3 <= size vind ->
  buildMesh map face = Some mesh ->
  exists ti ps,
    at_ (BSPMap.texinfos map) (Face.texinfo face) = Some ti /\
    Forall2 (fun vi p => at_ (BSPMap.vertices map) vi = Some p) (fanOrder vind) ps /\
    BSPMesh.vertices mesh =
    flat_map (vertexTuple ti (divisor map ti BSPTexture.width)
                          (divisor map ti BSPTexture.height)) ps.
Proof.
  intros Hg Hn. unfold buildMesh. rewrite Hg. simpl.
  destruct (Z.ltb_spec (size vind) 3); [lia|].
  destruct (at_ (BSPMap.texinfos map) (Face.texinfo face)) as [ti|]; simpl;
    [|discriminate].
  destruct (uvDivisors map (meshTextureIndex map ti)) as [[w h]|] eqn:Huv; simpl;
    [|discriminate].
  apply uvDivisors_spec in Huv as [-> ->].
  destruct (for_ 1 (size vind - 1) _ []) as [vs|] eqn:Hfan; simpl; [|discriminate].
  intros [= <-]. simpl.
  apply fanLoop_spec in Hfan as (ps & Hps & ->); [|exact Hn].
  exists ti, ps. auto.
Qed.

(** [buildMeshes] pushes, for every face and in face order, the mesh of
    that face; everything else in the map stays as it was. *)
Lemma buildMeshes_spec map map' :
  buildMeshes map = Some map' ->
  map' = BSPMap.set_meshes (BSPMap.meshes map') map /\
  size (BSPMap.meshes map') = size (BSPMap.faces map) /\
  forall fi face,
    at_ (BSPMap.faces map) fi = Some face ->
    exists mesh, buildMesh map face = Some mesh /\
                 at_ (BSPMap.meshes map') fi = Some mesh.
Proof.
  unfold buildMeshes.
  destruct (for_ 0 (size (BSPMap.faces map)) (buildMeshesStep map) [])
    as [meshes|] eqn:Hrun; simpl; [|discriminate].
  intros [= <-]. simpl. split; [reflexivity|].
  pose (P := fun (j : Z) (ms : list BSPMesh.t) =>
    size ms = j /\
    forall fi face,
      0 <= fi < j -> at_ (BSPMap.faces map) fi = Some face ->
      exists mesh, buildMesh map face = Some mesh /\ at_ ms fi = Some mesh).
  assert (P (size (BSPMap.faces map)) meshes) as [Hsz Hall].
  { apply (for_inv P (buildMeshesStep map) 0 _ [] meshes); auto.
    - apply size_nonneg.
    - split; [reflexivity | intros; lia].
    - intros j t t' Hj [Hsz Hall] Hstep. unfold buildMeshesStep in Hstep.
      destruct (at_ (BSPMap.faces map) j) as [f|] eqn:Hf; simpl in Hstep; [|discriminate].
      destruct (buildMesh map f) as [m|] eqn:Hm; simpl in Hstep; [|discriminate].
      injection Hstep as <-. split.
      + rewrite size_snoc. lia.
      + intros fi face Hfi Hface. destruct (Z.eq_dec fi j) as [->|Hne].
        * rewrite Hf in Hface. injection Hface as <-.
          exists m. split; [exact Hm|]. rewrite <- Hsz. apply at_snoc_last.
        * destruct (Hall fi face) as (mesh & ? & ?); [lia | exact Hface |].
          exists mesh. split; [assumption|]. rewrite at_app_l by lia. assumption. }
  split; [exact Hsz|].
  intros fi face Hface. apply Hall; [|exact Hface].
  eapply at_lt; eauto.
Qed.








(** ** The binary reader inside the buffer *)

Lemma u8_range b : 0 <= u8 b < 256.
Proof. unfold u8. pose proof (Byte.to_N_bounded b). lia. Qed.

Lemma rd8_range data a v : rd8 data a = Some v -> 0 <= v < 256.
Proof.
  unfold rd8. destruct (at_ data a); simpl; [|discriminate].
  intros [= <-]. apply u8_range.
Qed.

Lemma rd8_inside data a : 0 <= a < size data -> is_Some (rd8 data a).
Proof.
  intros H. unfold rd8. destruct (at_is_Some data a H) as [b ->]. simpl. eauto.
Qed.

Lemma ru16_range data a v : ru16 data a = Some v -> 0 <= v < 65536.
Proof.
  unfold ru16.
  destruct (rd8 data a) as [b0|] eqn:H0; simpl; [|discriminate].
  destruct (rd8 data (a + 1)) as [b1|] eqn:H1; simpl; [|discriminate].
  intros [= <-]. apply rd8_range in H0, H1. lia.
Qed.

Lemma ru32_range data a v : ru32 data a = Some v -> 0 <= v < 4294967296.
Proof.
  unfold ru32.
  destruct (rd8 data a) as [b0|] eqn:H0; simpl; [|discriminate].
  destruct (rd8 data (a + 1)) as [b1|] eqn:H1; simpl; [|discriminate].
  destruct (rd8 data (a + 2)) as [b2|] eqn:H2; simpl; [|discriminate].
  destruct (rd8 data (a + 3)) as [b3|] eqn:H3; simpl; [|discriminate].
  intros [= <-]. apply rd8_range in H0, H1, H2, H3. lia.
Qed.

Lemma rd32_range data a v : rd32 data a = Some v -> -2147483648 <= v < 2147483648.
Proof.
  unfold rd32. destruct (ru32 data a) as [u|] eqn:Hu; simpl; [|discriminate].
  intros [= <-]. apply ru32_range in Hu. unfold signed.
  change (2 ^ (32 - 1)) with 2147483648. change (2 ^ 32) with 4294967296.
  destruct (Z.ltb_spec u 2147483648); lia.
Qed.

Lemma ru16_inside data a : 0 <= a -> a + 2 <= size data -> is_Some (ru16 data a).
Proof.
  intros Ha Hb. unfold ru16.
  destruct (rd8_inside data a) as [b0 ->]; [lia|].
  destruct (rd8_inside data (a + 1)) as [b1 ->]; [lia|].
  simpl. eauto.
Qed.

Lemma ru32_inside data a : 0 <= a -> a + 4 <= size data -> is_Some (ru32 data a).
Proof.
  intros Ha Hb. unfold ru32.
  destruct (rd8_inside data a) as [b0 ->]; [lia|].
  destruct (rd8_inside data (a + 1)) as [b1 ->]; [lia|].
  destruct (rd8_inside data (a + 2)) as [b2 ->]; [lia|].
  destruct (rd8_inside data (a + 3)) as [b3 ->]; [lia|].
  simpl. eauto.
Qed.

Lemma rd16_inside data a : 0 <= a -> a + 2 <= size data -> is_Some (rd16 data a).
Proof.
  intros Ha Hb. unfold rd16. destruct (ru16_inside data a Ha Hb) as [u ->].
  simpl. eauto.
Qed.

Lemma rd32_inside data a : 0 <= a -> a + 4 <= size data -> is_Some (rd32 data a).
Proof.
  intros Ha Hb. unfold rd32. destruct (ru32_inside data a Ha Hb) as [u ->].
  simpl. eauto.
Qed.

Lemma rf32_inside data a : 0 <= a -> a + 4 <= size data -> is_Some (rf32 data a).
Proof.
  intros Ha Hb. unfold rf32. destruct (ru32_inside data a Ha Hb) as [u ->].
  simpl. eauto.
Qed.

Lemma rdbytes_inside data a n :
  0 <= a -> a + n <= size data -> is_Some (rdbytes data a n).
Proof.
  intros Ha Hb. unfold rdbytes. destruct (n =? 0); [eauto|].
  destruct (Z.leb_spec 0 a); [|lia].
  destruct (Z.leb_spec (a + n) (size data)); [|lia]. simpl. eauto.
Qed.

(** discharges [is_Some] of a chain of reads that all stay inside *)
Ltac reads_inside :=
  repeat match goal with
    | |- is_Some (Some _) => eexists; reflexivity
    | |- is_Some (mbind _ (?r ?d ?a)) =>
        let H := fresh in
        let v := fresh "v" in
        assert (is_Some (r d a)) as [v H]
          by first [ apply rf32_inside; lia | apply rd32_inside; lia
                   | apply rd16_inside; lia | apply ru16_inside; lia
                   | apply ru32_inside; lia ];
        rewrite H; cbn [mbind option_bind]
    | |- is_Some (mbind _ (rdbytes ?d ?a ?n)) =>
        let H := fresh in
        let v := fresh "v" in
        assert (is_Some (rdbytes d a n)) as [v H] by (apply rdbytes_inside; lia);
        rewrite H; cbn [mbind option_bind]
    end.

Lemma readVec3_inside data q :
  0 <= q -> q + sizeof_Vec3 <= size data -> is_Some (readVec3 data q).
Proof. unfold sizeof_Vec3, readVec3. intros. reads_inside. Qed.

Lemma readEdge_inside data q :
  0 <= q -> q + sizeof_Edge <= size data -> is_Some (readEdge data q).
Proof. unfold sizeof_Edge, readEdge. intros. reads_inside. Qed.

Lemma readFace_inside data q :
  0 <= q -> q + sizeof_Face <= size data -> is_Some (readFace data q).
Proof. unfold sizeof_Face, readFace. intros. reads_inside. Qed.

Lemma readTexInfo_inside data q :
  0 <= q -> q + sizeof_TexInfo <= size data -> is_Some (readTexInfo data q).
Proof. unfold sizeof_TexInfo, readTexInfo. intros. reads_inside. Qed.

(** records that all lie inside the buffer can be read, and there are as
    many as asked for *)
Lemma readRecords_size {A} (rec : Z -> option A) p stride n v :
  0 <= n -> readRecords rec p stride n = Some v -> size v = n.
Proof.
  intros Hn H. unfold readRecords in H. apply length_mapM in H.
  unfold upto in H. rewrite length_seqZ in H. unfold size. lia.
Qed.

Lemma readRecords_empty {A} (rec : Z -> option A) p stride :
  readRecords rec p stride 0 = Some [].
Proof. reflexivity. Qed.

Lemma readRecords_inside {A} (rec : Z -> option A) (data : list byte) off stride n :
  0 <= off -> 0 < stride -> off + n * stride <= size data ->
  (forall q, 0 <= q -> q + stride <= size data -> is_Some (rec q)) ->
  is_Some (readRecords rec (Some off) stride n).
Proof.
  intros Hoff Hs Hin Hrec. unfold readRecords. apply mapM_is_Some.
  unfold upto. apply Forall_seqZ. intros i Hi. simpl. apply Hrec; nia.
Qed.

(** ** The lump table resolver *)

Definition lumpIndex (idx : Z) : Prop := 0 <= idx < 15.

Lemma header_inside data idx :
  sizeof_BSPHeader <= size data -> lumpIndex idx ->
  exists off sz,
    lump_offset data idx = Some off /\ lump_size data idx = Some sz /\
    -2147483648 <= off < 2147483648 /\ -2147483648 <= sz < 2147483648.
Proof.
  unfold sizeof_BSPHeader, lumpIndex, lump_offset, lump_size. intros Hn Hi.
  destruct (rd32_inside data (4 + 8 * idx)) as [off Hoff]; [lia | lia |].
  destruct (rd32_inside data (4 + 8 * idx + 4)) as [sz Hsz]; [lia | lia |].
  exists off, sz. repeat split; try assumption;
    first [ apply (rd32_range _ _ _ Hoff) | apply (rd32_range _ _ _ Hsz) ].
Qed.

(** the descriptor's sum is beyond the file: the span is empty *)
Lemma lumpSpan_outside data idx off sz :
  lump_offset data idx = Some off -> lump_size data idx = Some sz ->
  size data < off + sz ->
  lumpSpan data idx = Some (None, 0).
Proof.
  intros Hoff Hsz Hout. unfold lumpSpan. rewrite Hoff, Hsz. simpl.
  pose proof (rd32_range _ _ _ Hoff). pose proof (rd32_range _ _ _ Hsz).
  pose proof (size_nonneg data).
  unfold to_size_t. rewrite <- Z.add_mod by lia.
  change (2 ^ 64) with 18446744073709551616.
  rewrite (Z.mod_small (off + sz)) by lia.
  destruct (Z.ltb_spec (size data) (off + sz)); [reflexivity | lia].
Qed.

(** the descriptor lies inside the file: the span is the descriptor *)
Lemma lumpSpan_inside data idx off sz :
  lump_offset data idx = Some off -> lump_size data idx = Some sz ->
  0 <= off -> 0 <= sz -> off + sz <= size data ->
  lumpSpan data idx = Some (Some off, sz).
Proof.
  intros Hoff Hsz Ho Hs Hin. unfold lumpSpan. rewrite Hoff, Hsz. simpl.
  pose proof (rd32_range _ _ _ Hoff). pose proof (rd32_range _ _ _ Hsz).
  unfold to_size_t. change (2 ^ 64) with 18446744073709551616.
  rewrite (Z.mod_small off), (Z.mod_small sz), (Z.mod_small (off + sz)) by lia.
  destruct (Z.ltb_spec (size data) (off + sz)); [lia | reflexivity].
Qed.

(** with a descriptor that is not negative there is nothing else *)
Lemma lumpSpan_nonneg data idx off sz :
  lump_offset data idx = Some off -> lump_size data idx = Some sz ->
  0 <= off -> 0 <= sz ->
  lumpSpan data idx = Some (if size data <? off + sz then (None, 0) else (Some off, sz)).
Proof.
  intros Hoff Hsz Ho Hs. destruct (Z.ltb_spec (size data) (off + sz)).
  - eapply lumpSpan_outside; eauto.
  - eapply lumpSpan_inside; eauto.
Qed.

(** ** The load-critical blocks *)

Section CriticalLump.
Context {A : Type}.
Variables (data : list byte) (idx : Z) (rec : Z -> option A) (stride : Z) (msg : string).

Lemma criticalLump_Ret v :
  0 < stride ->
  criticalLump data idx rec stride msg = Ret v ->
  exists p sz,
    lumpSpan data idx = Some (p, sz) /\ sz mod stride = 0 /\
    (0 <= sz -> size v = sz / stride) /\
    readRecords rec p stride (sz / stride) = Some v.
Proof.
  intros Hs. unfold criticalLump.
  destruct (lumpSpan data idx) as [[p sz]|]; simpl; [|discriminate].
  destruct (Z.eqb_spec (sz mod stride) 0) as [Hm|Hm]; simpl; [|discriminate].
  destruct (resize_ok sz); simpl; [|discriminate].
  destruct (readRecords rec p stride (sz / stride)) as [w|] eqn:Hr; simpl;
    [|discriminate].
  intros [= <-]. exists p, sz. repeat split; auto.
  intros Hsz. eapply readRecords_size; [|exact Hr].
  apply Z.div_pos; lia.
Qed.

Lemma criticalLump_Abort e :
  criticalLump data idx rec stride msg = Abort e ->
  e = msg /\ exists p sz, lumpSpan data idx = Some (p, sz) /\ sz mod stride <> 0.
Proof.
  unfold criticalLump.
  destruct (lumpSpan data idx) as [[p sz]|]; simpl; [|discriminate].
  destruct (Z.eqb_spec (sz mod stride) 0) as [Hm|Hm]; simpl.
  - destruct (resize_ok sz); simpl; [|discriminate].
    destruct (readRecords rec p stride (sz / stride)); simpl; discriminate.
  - intros [= <-]. split; [reflexivity|]. eauto.
Qed.

(** a size that is not a multiple of the record size aborts the load *)
Lemma criticalLump_bad p sz :
  lumpSpan data idx = Some (p, sz) -> sz mod stride <> 0 ->
  criticalLump data idx rec stride msg = Abort msg.
Proof.
  intros Hsp Hm. unfold criticalLump. rewrite Hsp. simpl.
  destruct (Z.eqb_spec (sz mod stride) 0); [contradiction | reflexivity].
Qed.

(** an empty span gives an empty vector *)
Lemma criticalLump_empty :
  0 < stride ->
  lumpSpan data idx = Some (None, 0) ->
  criticalLump data idx rec stride msg = Ret [].
Proof.
  intros Hs Hsp. unfold criticalLump. rewrite Hsp. reflexivity.
Qed.

(** with a descriptor that is not negative the block is defined; it aborts
    exactly when the lump is inside the file and its size is not a multiple
    of the record size *)
Lemma criticalLump_nonneg off sz :
  0 < stride ->
  (forall q, 0 <= q -> q + stride <= size data -> is_Some (rec q)) ->
  lump_offset data idx = Some off -> lump_size data idx = Some sz ->
  0 <= off -> 0 <= sz ->
  if (off + sz <=? size data) && negb (sz mod stride =? 0)
  then criticalLump data idx rec stride msg = Abort msg
  else exists v, criticalLump data idx rec stride msg = Ret v.
Proof.
  intros Hs Hrec Hoff Hsz Ho Hz.
  pose proof (rd32_range _ _ _ Hsz) as Hr.
  pose proof (lumpSpan_nonneg data idx off sz Hoff Hsz Ho Hz) as Hsp.
  destruct (Z.leb_spec (off + sz) (size data)) as [Hin|Hout]; simpl.
  - destruct (Z.ltb_spec (size data) (off + sz)); [lia|].
    destruct (Z.eqb_spec (sz mod stride) 0) as [Hm|Hm]; simpl.
    + unfold criticalLump. rewrite Hsp. simpl.
      destruct (Z.eqb_spec (sz mod stride) 0); [|contradiction]. simpl.
      unfold resize_ok. change (2 ^ 63) with 9223372036854775808.
      destruct (Z.ltb_spec sz 9223372036854775808); [|lia]. simpl.
      destruct (readRecords_inside rec data off stride (sz / stride)) as [v Hv];
        auto.
      { pose proof (Z.div_mod sz stride ltac:(lia)). nia. }
      rewrite Hv. simpl. eauto.
    + eapply criticalLump_bad; eauto.
  - destruct (Z.ltb_spec (size data) (off + sz)); [|lia].
    exists []. apply criticalLump_empty; assumption.
Qed.
End CriticalLump.

(** ** The loader as a whole *)

(** the load-critical lumps in the order [LoadBSP] checks them: the lump,
    its record size, and the error its check reports *)
Definition criticalLumps : list (Z * Z * string) :=
  [ (LUMP_VERTEXES, sizeof_Vec3, "Bad vertex lump size"%string);
    (LUMP_EDGES, sizeof_Edge, "Bad edges lump size"%string);
    (LUMP_SURFEDGES, 4, "Bad surfedges lump size"%string);
    (LUMP_FACES, sizeof_Face, "Bad faces lump size"%string);
    (LUMP_TEXINFO, sizeof_TexInfo, "Bad texinfo lump size"%string) ].

(** the check of a load-critical lump fails: the size of its span is not a
    multiple of the record size *)
Definition checkFails (data : list byte) (c : Z * Z * string) : Prop :=
  exists p sz, lumpSpan data c.1.1 = Some (p, sz) /\ sz mod c.1.2 <> 0.

Lemma parseLumps_Ret data version palette map :
  parseLumps data version palette = Ret map ->
  exists vertices edges surfedges faces texinfos lighting models textures,
    criticalLump data LUMP_VERTEXES (readVec3 data) sizeof_Vec3
                 "Bad vertex lump size" = Ret vertices /\
    criticalLump data LUMP_EDGES (readEdge data) sizeof_Edge
                 "Bad edges lump size" = Ret edges /\
    criticalLump data LUMP_SURFEDGES (rd32 data) 4
                 "Bad surfedges lump size" = Ret surfedges /\
    criticalLump data LUMP_FACES (readFace data) sizeof_Face
                 "Bad faces lump size" = Ret faces /\
    criticalLump data LUMP_TEXINFO (readTexInfo data) sizeof_TexInfo
                 "Bad texinfo lump size" = Ret texinfos /\
    readLighting data = Some lighting /\
    readModels data = Some models /\
    readTextures data = Some textures /\
    buildMeshes
      (BSPMap.mk version vertices edges surfedges faces texinfos textures
                 models (LoadPaletteLMP palette []) [] lighting []
                 LightmapAtlas.empty) = Some map.
Proof.
  unfold parseLumps. intros H.
  destruct (criticalLump data LUMP_VERTEXES _ _ _) as [vs| |]; simpl in H; try discriminate.
  destruct (criticalLump data LUMP_EDGES _ _ _) as [es| |]; simpl in H; try discriminate.
  destruct (criticalLump data LUMP_SURFEDGES _ _ _) as [ss| |]; simpl in H; try discriminate.
  destruct (criticalLump data LUMP_FACES _ _ _) as [fs| |]; simpl in H; try discriminate.
  destruct (criticalLump data LUMP_TEXINFO _ _ _) as [ts| |]; simpl in H; try discriminate.
  destruct (readLighting data) as [li|]; simpl in H; try discriminate.
  destruct (readModels data) as [ms|]; simpl in H; try discriminate.
  destruct (readTextures data) as [tx|]; simpl in H; try discriminate.
  destruct (buildMeshes _) as [m|] eqn:Hb; simpl in H; try discriminate.
  injection H as <-.
  exists vs, es, ss, fs, ts, li, ms, tx. repeat split; try reflexivity. exact Hb.
Qed.

(** the only way out through [return std::nullopt] is a failed check of a
    load-critical lump, with that lump's message *)
Lemma parseLumps_Abort data version palette e :
  parseLumps data version palette = Abort e ->
  exists idx stride,
    (idx, stride, e) ∈ criticalLumps /\ checkFails data (idx, stride, e).
Proof.
  unfold parseLumps, checkFails, criticalLumps. intros H.
  destruct (criticalLump data LUMP_VERTEXES _ _ _) as [vs| |] eqn:H1; simpl in H;
    try discriminate.
  2:{ injection H as ->. apply criticalLump_Abort in H1 as [-> Hc].
      eexists _, _. split; [|exact Hc]. repeat constructor. }
  destruct (criticalLump data LUMP_EDGES _ _ _) as [es| |] eqn:H2; simpl in H;
    try discriminate.
  2:{ injection H as ->. apply criticalLump_Abort in H2 as [-> Hc].
      eexists _, _. split; [|exact Hc]. repeat constructor. }
  destruct (criticalLump data LUMP_SURFEDGES _ _ _) as [ss| |] eqn:H3; simpl in H;
    try discriminate.
  2:{ injection H as ->. apply criticalLump_Abort in H3 as [-> Hc].
      eexists _, _. split; [|exact Hc]. repeat constructor. }
  destruct (criticalLump data LUMP_FACES _ _ _) as [fs| |] eqn:H4; simpl in H;
    try discriminate.
  2:{ injection H as ->. apply criticalLump_Abort in H4 as [-> Hc].
      eexists _, _. split; [|exact Hc]. repeat constructor. }
  destruct (criticalLump data LUMP_TEXINFO _ _ _) as [ts| |] eqn:H5; simpl in H;
    try discriminate.
  2:{ injection H as ->. apply criticalLump_Abort in H5 as [-> Hc].
      eexists _, _. split; [|exact Hc]. repeat constructor. }
  destruct (readLighting data) as [li|]; simpl in H; try discriminate.
  destruct (readModels data) as [ms|]; simpl in H; try discriminate.
  destruct (readTextures data) as [tx|]; simpl in H; try discriminate.
  destruct (buildMeshes _) as [m|]; simpl in H; discriminate.
Qed.

(** what [LoadBSP] returns for a file that has a header *)
Lemma LoadBSP_Some data palette r :
  sizeof_BSPHeader <= size data ->
  LoadBSP (Some data) palette = Some r ->
  exists version,
    rd32 data 0 = Some version /\
    match r.1 with
    | Some map =>
        parseLumps data version palette = Ret map /\
        r.2 = (if version =? 29 then EmptyString
               else "Unsupported BSP version (expected 29)"%string)
    | None => parseLumps data version palette = Abort r.2
    end.
Proof.
  intros Hn. unfold LoadBSP.
  destruct (Z.ltb_spec (size data) sizeof_BSPHeader); [lia|].
  destruct (rd32 data 0) as [v|]; simpl; [|discriminate].
  destruct (parseLumps data v palette) as [m|e|] eqn:Hp; intros [= <-]; simpl;
    exists v; auto.
Qed.

(** the map [LoadBSP] returns carries the meshes [buildMeshes] made of the
    parsed lumps, and an empty atlas *)
Lemma parseLumps_map data version palette map :
  parseLumps data version palette = Ret map ->
  BSPMap.version map = version /\
  size (BSPMap.meshes map) = size (BSPMap.faces map) /\
  BSPMap.lmAtlas map = LightmapAtlas.empty /\
  BSPMap.entities map = [].
Proof.
  intros (vs & es & ss & fs & ts & li & ms & tx & _ & _ & _ & _ & _ & _ & _ & _ & Hb)
         %parseLumps_Ret.
  apply buildMeshes_spec in Hb as (-> & Hsz & _). simpl in *. auto.
Qed.

(** ** Load-critical lumps whose size is not a multiple of the record size *)

(** the check of [c], as a test *)
Definition sizeCheckFails (data : list byte) (c : Z * Z * string) : bool :=
  match lumpSpan data c.1.1 with
  | Some (_, sz) => negb (sz mod c.1.2 =? 0)
  | None => false
  end.

(** offset and size of the descriptor are not negative *)
Definition descriptorNonneg (data : list byte) (idx : Z) : Prop :=
  exists off sz,
    lump_offset data idx = Some off /\ lump_size data idx = Some sz /\
    0 <= off /\ 0 <= sz.

Lemma sizeCheckFails_checkFails data c :
  sizeCheckFails data c = true <-> checkFails data c.
Proof.
  unfold sizeCheckFails, checkFails. destruct (lumpSpan data c.1.1) as [[p sz]|].
  - destruct (Z.eqb_spec (sz mod c.1.2) 0) as [Hm|Hm]; simpl; split.
    + discriminate.
    + intros (p' & sz' & [= <- <-] & Hne). contradiction.
    + eauto.
    + reflexivity.
  - split; [discriminate|]. intros (p & sz & [=] & _).
Qed.

Lemma criticalLump_decided {A} data idx (rec : Z -> option A) stride msg :
  0 < stride ->
  (forall q, 0 <= q -> q + stride <= size data -> is_Some (rec q)) ->
  descriptorNonneg data idx ->
  if sizeCheckFails data (idx, stride, msg)
  then criticalLump data idx rec stride msg = Abort msg
  else exists v, criticalLump data idx rec stride msg = Ret v.
Proof.
  intros Hs Hrec (off & sz & Hoff & Hsz & Ho & Hz).
  pose proof (criticalLump_nonneg data idx rec stride msg off sz Hs Hrec Hoff Hsz Ho Hz)
    as Hc.
  unfold sizeCheckFails. simpl.
  rewrite (lumpSpan_nonneg data idx off sz Hoff Hsz Ho Hz).
  destruct (Z.ltb_spec (size data) (off + sz)) as [Hout|Hin].
  - destruct (Z.leb_spec (off + sz) (size data)); [lia|]. exact Hc.
  - destruct (Z.leb_spec (off + sz) (size data)); [|lia]. exact Hc.
Qed.

Lemma rd32_inside_ok data q :
  0 <= q -> q + 4 <= size data -> is_Some (rd32 data q).
Proof. apply rd32_inside. Qed.

(** with no negative descriptor among the five, the loader stops at the
    first check that fails, with that check's message *)
Lemma parseLumps_first_bad data version palette c :
  (forall c', c' ∈ criticalLumps -> descriptorNonneg data c'.1.1) ->
  List.find (sizeCheckFails data) criticalLumps = Some c ->
  parseLumps data version palette = Abort c.2.
Proof.
  intros Hnn Hfind. unfold criticalLumps in *. cbn [List.find] in Hfind.
  unfold parseLumps.
  pose proof (criticalLump_decided data LUMP_VERTEXES (readVec3 data) sizeof_Vec3
                "Bad vertex lump size" ltac:(reflexivity) (readVec3_inside data)
                (Hnn (LUMP_VERTEXES, sizeof_Vec3, "Bad vertex lump size"%string) ltac:(repeat constructor))) as H1.
  destruct (sizeCheckFails data (LUMP_VERTEXES, _, _)).
  { injection Hfind as <-. rewrite H1. reflexivity. }
  destruct H1 as [vs ->]. cbn [mbind M_bind].
  pose proof (criticalLump_decided data LUMP_EDGES (readEdge data) sizeof_Edge
                "Bad edges lump size" ltac:(reflexivity) (readEdge_inside data)
                (Hnn (LUMP_EDGES, sizeof_Edge, "Bad edges lump size"%string) ltac:(repeat constructor))) as H2.
  destruct (sizeCheckFails data (LUMP_EDGES, _, _)).
  { injection Hfind as <-. rewrite H2. reflexivity. }
  destruct H2 as [es ->]. cbn [mbind M_bind].
  pose proof (criticalLump_decided data LUMP_SURFEDGES (rd32 data) 4
                "Bad surfedges lump size" ltac:(reflexivity) (rd32_inside_ok data)
                (Hnn (LUMP_SURFEDGES, 4, "Bad surfedges lump size"%string) ltac:(repeat constructor))) as H3.
  destruct (sizeCheckFails data (LUMP_SURFEDGES, _, _)).
  { injection Hfind as <-. rewrite H3. reflexivity. }
  destruct H3 as [ss ->]. cbn [mbind M_bind].
  pose proof (criticalLump_decided data LUMP_FACES (readFace data) sizeof_Face
                "Bad faces lump size" ltac:(reflexivity) (readFace_inside data)
                (Hnn (LUMP_FACES, sizeof_Face, "Bad faces lump size"%string) ltac:(repeat constructor))) as H4.
  destruct (sizeCheckFails data (LUMP_FACES, _, _)).
  { injection Hfind as <-. rewrite H4. reflexivity. }
  destruct H4 as [fs ->]. cbn [mbind M_bind].
  pose proof (criticalLump_decided data LUMP_TEXINFO (readTexInfo data) sizeof_TexInfo
                "Bad texinfo lump size" ltac:(reflexivity) (readTexInfo_inside data)
                (Hnn (LUMP_TEXINFO, sizeof_TexInfo, "Bad texinfo lump size"%string) ltac:(repeat constructor))) as H5.
  destruct (sizeCheckFails data (LUMP_TEXINFO, _, _)).
  { injection Hfind as <-. rewrite H5. reflexivity. }
  discriminate.
Qed.

(** a lump whose check fails keeps the loader from returning a map *)
Lemma parseLumps_bad data version palette c map :
  c ∈ criticalLumps -> checkFails data c ->
  parseLumps data version palette <> Ret map.
Proof.
  intros Hc (p & sz & Hsp & Hm) Hret.
  apply parseLumps_Ret in Hret
    as (vs & es & ss & fs & ts & li & ms & tx & H1 & H2 & H3 & H4 & H5 & _).
  apply criticalLump_Ret in H1 as (p1 & z1 & S1 & M1 & _); [|reflexivity].
  apply criticalLump_Ret in H2 as (p2 & z2 & S2 & M2 & _); [|reflexivity].
  apply criticalLump_Ret in H3 as (p3 & z3 & S3 & M3 & _); [|reflexivity].
  apply criticalLump_Ret in H4 as (p4 & z4 & S4 & M4 & _); [|reflexivity].
  apply criticalLump_Ret in H5 as (p5 & z5 & S5 & M5 & _); [|reflexivity].
  unfold criticalLumps in Hc.
  repeat (apply elem_of_cons in Hc as [->|Hc]; [simpl in *; congruence|]).
  inversion Hc.
Qed.

Lemma find_first_bad data c :
  c ∈ criticalLumps -> sizeCheckFails data c = true ->
  exists c', List.find (sizeCheckFails data) criticalLumps = Some c' /\
             c' ∈ criticalLumps /\ sizeCheckFails data c' = true.
Proof.
  intros Hin Hbad.
  destruct (List.find (sizeCheckFails data) criticalLumps) as [c'|] eqn:Hf.
  - exists c'. split; [reflexivity|]. apply List.find_some in Hf as [Hi Hb].
    split; [apply list_elem_of_In; exact Hi | exact Hb].
  - apply list_elem_of_In in Hin.
    pose proof (List.find_none _ _ Hf c Hin). congruence.
Qed.

(** C5: a load-critical lump that lies inside the file and whose size is
    not a multiple of its record size aborts the load: no map is returned,
    and the error is the message of a load-critical lump whose check failed
    (the first one in source order). *)
Theorem critical_lump_size_checked (data : list byte) (palette : option (list byte))
        (idx stride : Z) (msg : string) (off sz : Z) :
  sizeof_BSPHeader <= size data ->
  (idx, stride, msg) ∈ criticalLumps ->
  lump_offset data idx = Some off -> lump_size data idx = Some sz ->
  0 <= off -> 0 <= sz -> off + sz <= size data ->
  sz mod stride <> 0 ->
  (forall r, LoadBSP (Some data) palette = Some r ->
             r.1 = None /\
             exists i s, (i, s, r.2) ∈ criticalLumps /\ checkFails data (i, s, r.2)) /\
  ((forall c, c ∈ criticalLumps -> descriptorNonneg data c.1.1) ->
   exists c, List.find (sizeCheckFails data) criticalLumps = Some c /\
             c ∈ criticalLumps /\ checkFails data c /\
             LoadBSP (Some data) palette = Some (None, c.2)).
Proof.
  intros Hn Hin Hoff Hsz Ho Hz Hfit Hm.
  assert (checkFails data (idx, stride, msg)) as Hbad.
  { exists (Some off), sz. split; [|exact Hm]. simpl.
    eapply lumpSpan_inside; eauto. }
  split.
  - intros [[map|] e] Hr; apply LoadBSP_Some in Hr as (v & Hv & Hp); auto; simpl in *.
    + destruct Hp as [Hp _]. exfalso. eapply parseLumps_bad; eauto.
    + split; [reflexivity|]. eapply parseLumps_Abort; eauto.
  - intros Hnn.
    destruct (find_first_bad data (idx, stride, msg) Hin) as (c & Hf & Hc & Hb).
    { apply sizeCheckFails_checkFails. exact Hbad. }
    exists c. split; [exact Hf|]. split; [exact Hc|].
    split; [apply sizeCheckFails_checkFails; exact Hb|].
    unfold LoadBSP. destruct (Z.ltb_spec (size data) sizeof_BSPHeader); [lia|].
    destruct (rd32_inside data 0) as [v ->]; [lia | unfold sizeof_BSPHeader in *; lia|].
    simpl. rewrite (parseLumps_first_bad data v palette c Hnn Hf). reflexivity.
Qed.

Lemma descriptorNonneg_test data idx :
  match lump_offset data idx, lump_size data idx with
  | Some off, Some sz => (0 <=? off) && (0 <=? sz)
  | _, _ => false
  end = true ->
  descriptorNonneg data idx.
Proof.
  unfold descriptorNonneg.
  destruct (lump_offset data idx) as [off|]; [|discriminate].
  destruct (lump_size data idx) as [sz|]; [|discriminate].
  intros [Ho Hs]%andb_true_iff. exists off, sz. repeat split; lia.
Qed.

(** a file whose only lump is a vertex lump of 13 bytes *)
Definition badVertexFile : list byte :=
  mkBSP 29 (replicate 3 [] ++ [replicate 13 Byte.x00] ++ replicate 11 []).

Lemma critical_lump_size_checked_witness :
  exists c,
    List.find (sizeCheckFails badVertexFile) criticalLumps = Some c /\
    c.2 = "Bad vertex lump size"%string /\
    LoadBSP (Some badVertexFile) None = Some (None, c.2).
Proof.
  destruct (critical_lump_size_checked badVertexFile None
              LUMP_VERTEXES sizeof_Vec3 "Bad vertex lump size" 124 13)
    as [_ Hfirst].
  - vm_compute. discriminate.
  - repeat constructor.
  - reflexivity.
  - reflexivity.
  - lia.
  - lia.
  - vm_compute. discriminate.
  - vm_compute. discriminate.
  - destruct Hfirst as (c & Hf & _ & _ & Hload).
    + intros c Hc. unfold criticalLumps in Hc.
      repeat (apply elem_of_cons in Hc as [->|Hc];
              [apply descriptorNonneg_test; vm_compute; reflexivity|]).
      inversion Hc.
    + exists c. split; [exact Hf|]. split; [|exact Hload].
      vm_compute in Hf. injection Hf as <-. reflexivity.
Defined.

(** ** Lumps that reach beyond the end of the file *)

(** the collection [LoadBSP] fills from lump [idx] (the lumps it does not
    read have none) *)
Definition collectionSize (idx : Z) (map : BSPMap.t) : Z :=
  if idx =? LUMP_VERTEXES then size (BSPMap.vertices map)
  else if idx =? LUMP_EDGES then size (BSPMap.edges map)
  else if idx =? LUMP_SURFEDGES then size (BSPMap.surfedges map)
  else if idx =? LUMP_FACES then size (BSPMap.faces map)
  else if idx =? LUMP_TEXINFO then size (BSPMap.texinfos map)
  else if idx =? LUMP_LIGHTING then size (BSPMap.lighting map)
  else if idx =? LUMP_MODELS then size (BSPMap.models map)
  else if idx =? LUMP_MIPTEX then size (BSPMap.textures map)
  else if idx =? LUMP_ENTITIES then size (BSPMap.entities map)
  else 0.

Lemma criticalLumps_inv i s e :
  (i, s, e) ∈ criticalLumps ->
  (i = LUMP_VERTEXES /\ s = sizeof_Vec3 /\ e = "Bad vertex lump size"%string) \/
  (i = LUMP_EDGES /\ s = sizeof_Edge /\ e = "Bad edges lump size"%string) \/
  (i = LUMP_SURFEDGES /\ s = 4 /\ e = "Bad surfedges lump size"%string) \/
  (i = LUMP_FACES /\ s = sizeof_Face /\ e = "Bad faces lump size"%string) \/
  (i = LUMP_TEXINFO /\ s = sizeof_TexInfo /\ e = "Bad texinfo lump size"%string).
Proof.
  unfold criticalLumps. intros H.
  repeat (apply elem_of_cons in H as [[= -> -> ->]|H]; [tauto|]).
  inversion H.
Qed.

(** the five messages tell the five lumps apart *)
Lemma criticalLumps_msg_inj i s i' s' e :
  (i, s, e) ∈ criticalLumps -> (i', s', e) ∈ criticalLumps -> i = i' /\ s = s'.
Proof.
  intros H H'. apply criticalLumps_inv in H, H'.
  destruct H as [(-> & -> & ->)|[(-> & -> & ->)|[(-> & -> & ->)|[(-> & -> & ->)|(-> & -> & ->)]]]];
    destruct H' as [(-> & -> & E)|[(-> & -> & E)|[(-> & -> & E)|[(-> & -> & E)|(-> & -> & E)]]]];
    first [ split; reflexivity | discriminate E ].
Qed.

Lemma criticalLump_outside {A} data idx (rec : Z -> option A) stride msg v :
  0 < stride ->
  lumpSpan data idx = Some (None, 0) ->
  criticalLump data idx rec stride msg = Ret v -> v = [].
Proof.
  intros Hs Hsp Hr. rewrite (criticalLump_empty data idx rec stride msg Hs Hsp) in Hr.
  congruence.
Qed.

(** C6: a lump whose descriptor has offset + size beyond the file length
    resolves to the empty span; the collection read from it is empty in the
    map that is returned, and when the load is aborted the error is not
    that lump's. *)
Theorem lump_outside_file_is_empty (data : list byte) (palette : option (list byte))
        (idx off sz : Z) :
  sizeof_BSPHeader <= size data ->
  lumpIndex idx ->
  lump_offset data idx = Some off -> lump_size data idx = Some sz ->
  size data < off + sz ->
  lumpSpan data idx = Some (None, 0) /\
  (forall stride msg, (idx, stride, msg) ∈ criticalLumps ->
                      sizeCheckFails data (idx, stride, msg) = false) /\
  (forall map e, LoadBSP (Some data) palette = Some (Some map, e) ->
                 collectionSize idx map = 0) /\
  (forall e stride, LoadBSP (Some data) palette = Some (None, e) ->
                    (idx, stride, e) ∉ criticalLumps).
Proof.
  intros Hn Hidx Hoff Hsz Hout.
  pose proof (lumpSpan_outside data idx off sz Hoff Hsz Hout) as Hsp.
  split; [exact Hsp|]. split; [|split].
  - intros stride msg Hin. unfold sizeCheckFails. simpl. rewrite Hsp.
    unfold criticalLumps in Hin.
    repeat (apply elem_of_cons in Hin as [[= -> -> ->]|Hin]; [reflexivity|]).
    inversion Hin.
  - intros map e Hr. apply LoadBSP_Some in Hr as (v & _ & Hp & _); [|exact Hn].
    simpl in Hp.
    apply parseLumps_Ret in Hp
      as (vs & es & ss & fs & ts & li & ms & tx & H1 & H2 & H3 & H4 & H5 & H6 & H7 & H8 & Hb).
    apply buildMeshes_spec in Hb as (-> & _ & _).
    unfold collectionSize. simpl.
    destruct (Z.eqb_spec idx LUMP_VERTEXES) as [->|_].
    { apply criticalLump_outside in H1 as ->; auto. reflexivity. }
    destruct (Z.eqb_spec idx LUMP_EDGES) as [->|_].
    { apply criticalLump_outside in H2 as ->; auto. reflexivity. }
    destruct (Z.eqb_spec idx LUMP_SURFEDGES) as [->|_].
    { apply criticalLump_outside in H3 as ->; auto. reflexivity. }
    destruct (Z.eqb_spec idx LUMP_FACES) as [->|_].
    { apply criticalLump_outside in H4 as ->; auto. reflexivity. }
    destruct (Z.eqb_spec idx LUMP_TEXINFO) as [->|_].
    { apply criticalLump_outside in H5 as ->; auto. reflexivity. }
    destruct (Z.eqb_spec idx LUMP_LIGHTING) as [->|_].
    { unfold readLighting in H6. rewrite Hsp in H6. simpl in H6.
      injection H6 as <-. reflexivity. }
    destruct (Z.eqb_spec idx LUMP_MODELS) as [->|_].
    { unfold readModels in H7. rewrite Hsp in H7. simpl in H7.
      injection H7 as <-. reflexivity. }
    destruct (Z.eqb_spec idx LUMP_MIPTEX) as [->|_].
    { unfold readTextures in H8. rewrite Hsp in H8. simpl in H8.
      injection H8 as <-. reflexivity. }
    destruct (Z.eqb_spec idx LUMP_ENTITIES); reflexivity.
  - intros e stride Hr Hin.
    apply LoadBSP_Some in Hr as (v & _ & Hp); [|exact Hn]. simpl in Hp.
    apply parseLumps_Abort in Hp as (i & s & Hi & (p & z & Hspi & Hm)).
    simpl in *.
    destruct (criticalLumps_msg_inj _ _ _ _ _ Hi Hin) as [-> ->].
    rewrite Hsp in Hspi. injection Hspi as <- <-.
    apply Hm. apply Z.mod_0_l.
    apply criticalLumps_inv in Hi. unfold sizeof_Vec3, sizeof_Edge, sizeof_Face,
      sizeof_TexInfo in Hi. lia.
Qed.

(** the triangle file cut off in the middle of its texinfo lump: the
    faces, the lighting, the edges and the surfedges lie beyond the end *)
Definition outsideFile : list byte := take 210 (triangleFile 29).

Lemma lump_outside_file_is_empty_witness :
  exists map,
    LoadBSP (Some outsideFile) None = Some (Some map, EmptyString) /\
    collectionSize LUMP_FACES map = 0.
Proof.
  exists (loaded outsideFile).
  assert (LoadBSP (Some outsideFile) None = Some (Some (loaded outsideFile), EmptyString))
    as Hload by (vm_compute; reflexivity).
  split; [exact Hload|].
  destruct (lump_outside_file_is_empty outsideFile None LUMP_FACES 208 20)
    as (_ & _ & Hc & _).
  - vm_compute. discriminate.
  - unfold lumpIndex, LUMP_FACES. lia.
  - reflexivity.
  - reflexivity.
  - vm_compute. reflexivity.
  - exact (Hc _ _ Hload).
Defined.

(** ** The version field *)

Definition versionWarning : string := "Unsupported BSP version (expected 29)".

(** nothing the loader does with the lumps depends on the version *)
Lemma parseLumps_version data v v' palette m :
  parseLumps data v palette = Ret m ->
  parseLumps data v' palette = Ret (BSPMap.set_version v' m).
Proof.
  intros (vs & es & ss & fs & ts & li & ms & tx & H1 & H2 & H3 & H4 & H5 & H6 & H7 & H8 & Hb)
         %parseLumps_Ret.
  unfold parseLumps. rewrite H1, H2, H3, H4, H5, H6, H7, H8. cbn [mbind M_bind lift].
  unfold buildMeshes in *. cbn [BSPMap.faces] in *.
  change (buildMeshesStep (BSPMap.mk v' vs es ss fs ts tx ms (LoadPaletteLMP palette [])
                                     [] li [] LightmapAtlas.empty))
    with (buildMeshesStep (BSPMap.mk v vs es ss fs ts tx ms (LoadPaletteLMP palette [])
                                     [] li [] LightmapAtlas.empty)).
  destruct (for_ 0 (size fs) _ []) as [meshes|]; simpl in *; [|discriminate].
  injection Hb as <-. reflexivity.
Qed.

Lemma lump_nonempty {A} data idx (rec : Z -> option A) stride msg v off sz :
  0 < stride ->
  criticalLump data idx rec stride msg = Ret v ->
  lump_offset data idx = Some off -> lump_size data idx = Some sz ->
  0 <= off -> 0 < sz -> off + sz <= size data ->
  v <> [].
Proof.
  intros Hs (p & sz' & Hsp & Hm & Hsize & _)%criticalLump_Ret Hoff Hsz Ho Hz Hin; auto.
  rewrite (lumpSpan_inside data idx off sz Hoff Hsz) in Hsp by lia.
  injection Hsp as <- <-.
  intros ->. specialize (Hsize ltac:(lia)). unfold size in Hsize. simpl in Hsize.
  pose proof (Z.div_mod sz stride ltac:(lia)). nia.
Qed.

(** C7, as the code has it: with a version other than 29 the loader goes
    on exactly as it does for version 29 and returns the same map (with
    non-empty vertices and faces when those lumps are not empty), and it
    reports the mismatch: the error string returned with the map is
    "Unsupported BSP version (expected 29)". *)
Theorem version_mismatch_reported (data : list byte) (palette : option (list byte))
        (v : Z) :
  sizeof_BSPHeader <= size data ->
  rd32 data 0 = Some v ->
  v <> 29 ->
  (forall m, parseLumps data 29 palette = Ret m ->
             LoadBSP (Some data) palette
             = Some (Some (BSPMap.set_version v m), versionWarning)) /\
  (forall map e,
      LoadBSP (Some data) palette = Some (Some map, e) ->
      e = versionWarning /\
      BSPMap.version map = v /\
      (forall off sz,
          lump_offset data LUMP_VERTEXES = Some off ->
          lump_size data LUMP_VERTEXES = Some sz ->
          0 <= off -> 0 < sz -> off + sz <= size data ->
          BSPMap.vertices map <> []) /\
      (forall off sz,
          lump_offset data LUMP_FACES = Some off ->
          lump_size data LUMP_FACES = Some sz ->
          0 <= off -> 0 < sz -> off + sz <= size data ->
          BSPMap.faces map <> [])).
Proof.
  intros Hn Hv Hne. split.
  - intros m Hm. unfold LoadBSP.
    destruct (Z.ltb_spec (size data) sizeof_BSPHeader); [lia|].
    rewrite Hv. cbn [mbind option_bind].
    rewrite (parseLumps_version data 29 v palette m Hm).
    destruct (Z.eqb_spec v 29); [contradiction | reflexivity].
  - intros map e Hr. apply LoadBSP_Some in Hr as (v' & Hv' & Hp & He); [|exact Hn].
    simpl in *. rewrite Hv in Hv'. injection Hv' as <-.
    destruct (Z.eqb_spec v 29); [contradiction|].
    split; [exact He|].
    pose proof (parseLumps_map _ _ _ _ Hp) as (Hver & _).
    split; [exact Hver|].
    apply parseLumps_Ret in Hp
      as (vs & es & ss & fs & ts & li & ms & tx & H1 & H2 & H3 & H4 & H5 & H6 & H7 & H8 & Hb).
    apply buildMeshes_spec in Hb as (Heq & _ & _). rewrite Heq. simpl.
    split; intros off sz Hoff Hsz Ho Hz Hin.
    + eapply (lump_nonempty data LUMP_VERTEXES _ sizeof_Vec3 _ vs off sz);
        [reflexivity | exact H1 | ..]; auto.
    + eapply (lump_nonempty data LUMP_FACES _ sizeof_Face _ fs off sz);
        [reflexivity | exact H4 | ..]; auto.
Qed.

Lemma version_mismatch_reported_witness :
  exists map,
    LoadBSP (Some (triangleFile 30)) None = Some (Some map, versionWarning) /\
    BSPMap.vertices map <> [] /\ BSPMap.faces map <> [].
Proof.
  destruct (version_mismatch_reported (triangleFile 30) None 30) as [Hsame Hrep].
  - vm_compute. discriminate.
  - reflexivity.
  - discriminate.
  - assert (parseLumps (triangleFile 30) 29 None = Ret (loaded (triangleFile 29)))
      as Hp by (vm_compute; reflexivity).
    pose proof (Hsame _ Hp) as Hload.
    eexists. split; [exact Hload|].
    destruct (Hrep _ _ Hload) as (_ & _ & Hvs & Hfs).
    split.
    + apply (Hvs 132 36); [reflexivity | reflexivity | lia | lia |].
      vm_compute. discriminate.
    + apply (Hfs 208 20); [reflexivity | reflexivity | lia | lia |].
      vm_compute. discriminate.
Defined.

(** C7 as stated fails: for the triangle file with version 30 the error
    string that comes back with the map is not empty. *)
Lemma version_mismatch_counterexample :
  exists map e,
    rd32 (triangleFile 30) 0 = Some 30 /\
    LoadBSP (Some (triangleFile 30)) None = Some (Some map, e) /\
    BSPMap.vertices map <> [] /\ BSPMap.faces map <> [] /\
    e = versionWarning /\ e <> EmptyString.
Proof.
  exists (BSPMap.set_version 30 (loaded (triangleFile 29))), versionWarning.
  split; [reflexivity|]. split; [vm_compute; reflexivity|].
  repeat split; try discriminate; vm_compute; discriminate.
Qed.

(** ** Texture slots that hold no texture *)

Lemma mapM_upto_at {A} (f : Z -> option A) n l i :
  mapM f (upto n) = Some l -> 0 <= i < n -> at_ l i = f i.
Proof.
  intros Hm Hi. apply mapM_Some_1 in Hm. unfold upto in Hm.
  assert (seqZ 0 n !! Z.to_nat i = Some i) as Hl.
  { rewrite lookup_seqZ_lt by lia. f_equal. lia. }
  destruct (Forall2_lookup_l _ _ _ _ _ Hm Hl) as (y & Hy & Hf).
  unfold at_. destruct (Z.ltb_spec i 0); [lia|]. congruence.
Qed.

Lemma to_size_t_small n : 0 <= n < 2 ^ 64 -> to_size_t n = n.
Proof. intros H. unfold to_size_t. apply Z.mod_small. exact H. Qed.

(** an iteration either leaves the textures alone or stores one at [i],
    and it stores only for an offset inside the lump *)
Lemma decodeSlot_cases data a sz offsets i ts ts' off :
  at_ offsets i = Some off ->
  -2147483648 <= off < 2147483648 ->
  decodeSlot data a sz offsets i ts = Some ts' ->
  ts' = ts \/ (0 < off < sz /\ exists tex, ts' = <[Z.to_nat i := tex]> ts).
Proof.
  intros Hoff Hr. unfold decodeSlot. rewrite Hoff. cbn [mbind option_bind].
  destruct (Z.leb_spec off 0) as [Hle|Hpos]; simpl.
  { intros [= <-]. left. reflexivity. }
  rewrite to_size_t_small by (change (2 ^ 64) with 18446744073709551616; lia).
  destruct (Z.leb_spec sz off) as [Hge|Hlt]; simpl.
  { intros [= <-]. left. reflexivity. }
  destruct (sz <? off + sizeof_MipTex).
  { intros [= <-]. left. reflexivity. }
  destruct (rdbytes data (a + off) sizeof_MipTex) as [mt|]; simpl; [|discriminate].
  destruct (ru32 mt 16) as [w|]; simpl; [|discriminate].
  destruct (ru32 mt 20) as [h|]; simpl; [|discriminate].
  destruct (ru32 mt 24) as [l0|]; simpl; [|discriminate].
  match goal with
  | |- context [mbind _ ?o] => destruct o as [ix|]; simpl; [|discriminate]
  end.
  intros [= <-]. right. split; [lia|]. eauto.
Qed.

(** what the miptex block leaves in [map.textures] when the offset table
    fits in the lump *)
Lemma parseMipTex_external data a sz nummip ts :
  parseMipTex data (Some a, sz) = Some ts ->
  sizeof_MipTexHeader <= sz ->
  rd32 data a = Some nummip ->
  0 <= nummip -> 4 + 4 * nummip <= sz ->
  size ts = nummip /\
  forall i off,
    0 <= i < nummip ->
    rd32 data (a + 4 + 4 * i) = Some off ->
    off <= 0 \/ sz <= off ->
    at_ ts i = Some BSPTexture.empty.
Proof.
  unfold parseMipTex. intros H Hsz Hn Hn0 Hfit.
  destruct (Z.ltb_spec sz sizeof_MipTexHeader); [lia|].
  cbn [mbind option_bind] in H. rewrite Z.add_0_r, Hn in H.
  cbn [mbind option_bind] in H.
  destruct (Z.ltb_spec nummip 0); [lia|].
  destruct (int_ok (4 + 4 * nummip)) as [n4|] eqn:Hn4; simpl in H; [|discriminate].
  apply int_ok_Some in Hn4 as [-> Hint].
  unfold F32.int_min, F32.int_max in Hint.
  rewrite to_size_t_small in H by (change (2 ^ 64) with 18446744073709551616; lia).
  destruct (Z.ltb_spec sz (4 + 4 * nummip)); [lia|].
  destruct (mapM _ (upto nummip)) as [offsets|] eqn:Hoffs; simpl in H; [|discriminate].
  pose (P := fun (j : Z) (t : list BSPTexture.t) =>
    size t = nummip /\
    forall i off,
      0 <= i < nummip -> at_ offsets i = Some off -> off <= 0 \/ sz <= off ->
      at_ t i = Some BSPTexture.empty).
  assert (P nummip ts) as [Hsize Hall].
  { apply (for_inv P (decodeSlot data a sz offsets) 0 nummip
                   (replicate (Z.to_nat nummip) BSPTexture.empty) ts); auto.
    - split.
      + rewrite size_replicate. lia.
      + intros i off Hi _ _. unfold at_. destruct (Z.ltb_spec i 0); [lia|].
        apply lookup_replicate_2. lia.
    - intros j t t' Hj [Hs Ha] Hstep.
      assert (exists off, at_ offsets j = Some off /\ rd32 data (a + 4 + 4 * j) = Some off)
        as (off & Hoj & Hrd).
      { rewrite (mapM_upto_at _ _ _ j Hoffs) by lia.
        destruct (rd32 data (a + 4 + 4 * j)) as [off|] eqn:Hr.
        - eauto.
        - unfold decodeSlot in Hstep.
          rewrite (mapM_upto_at _ _ _ j Hoffs), Hr in Hstep by lia. discriminate. }
      destruct (decodeSlot_cases _ _ _ _ _ _ _ _ Hoj (rd32_range _ _ _ Hrd) Hstep)
        as [->|(Hoff & tex & ->)].
      + split; assumption.
      + split; [rewrite size_insert; exact Hs|].
        intros i off' Hi Hoi Hout.
        rewrite at_insert_ne; [apply (Ha i off'); assumption | lia |].
        intros <-. rewrite Hoj in Hoi. injection Hoi as <-. lia. }
  split; [exact Hsize|].
  intros i off Hi Hrd Hout. apply (Hall i off Hi); [|exact Hout].
  rewrite (mapM_upto_at _ _ _ i Hoffs) by lia. exact Hrd.
Qed.

(** a load that fails fails on the file size or on a load-critical lump;
    no failure comes from the textures *)
Lemma LoadBSP_errors data palette e :
  LoadBSP (Some data) palette = Some (None, e) ->
  e = "File too small"%string \/ exists idx stride, (idx, stride, e) ∈ criticalLumps.
Proof.
  unfold LoadBSP. destruct (size data <? sizeof_BSPHeader).
  { intros [= <-]. left. reflexivity. }
  destruct (rd32 data 0) as [v|]; simpl; [|discriminate].
  destruct (parseLumps data v palette) as [m|e'|] eqn:Hp; intros [= <-].
  right. apply parseLumps_Abort in Hp as (idx & stride & Hin & _). eauto.
Qed.

(** C10: a texture slot whose stored offset is <= 0 or >= the size of the
    miptex lump does not fail the load, and its entry in [textures] stays a
    default texture: no name, width and height 0, no pixel indices. *)
Theorem external_texture_slot_left_empty (data : list byte) (palette : option (list byte))
        (map : BSPMap.t) (e : string) (a sz nummip i off : Z) :
  LoadBSP (Some data) palette = Some (Some map, e) ->
  lumpSpan data LUMP_MIPTEX = Some (Some a, sz) ->
  sizeof_MipTexHeader <= sz ->
  rd32 data a = Some nummip ->
  0 <= i < nummip -> 4 + 4 * nummip <= sz ->
  rd32 data (a + 4 + 4 * i) = Some off ->
  off <= 0 \/ sz <= off ->
  size (BSPMap.textures map) = nummip /\
  at_ (BSPMap.textures map) i = Some BSPTexture.empty /\
  (forall tex, at_ (BSPMap.textures map) i = Some tex ->
               BSPTexture.indices tex = [] /\ BSPTexture.name tex = EmptyString /\
               BSPTexture.width tex = 0 /\ BSPTexture.height tex = 0) /\
  (forall data' palette' e',
      LoadBSP (Some data') palette' = Some (None, e') ->
      e' = "File too small"%string \/
      exists idx stride, (idx, stride, e') ∈ criticalLumps).
Proof.
  intros Hload Hsp Hsz Hn Hi Hfit Hoff Hout.
  assert (sizeof_BSPHeader <= size data) as Hhdr.
  { unfold LoadBSP in Hload.
    destruct (Z.ltb_spec (size data) sizeof_BSPHeader); [discriminate | assumption]. }
  apply LoadBSP_Some in Hload as (v & _ & Hp & _); [|exact Hhdr]. simpl in Hp.
  apply parseLumps_Ret in Hp
    as (vs & es & ss & fs & ts & li & ms & tx & _ & _ & _ & _ & _ & _ & _ & H8 & Hb).
  apply buildMeshes_spec in Hb as (Heq & _ & _). rewrite Heq. simpl.
  unfold readTextures in H8. rewrite Hsp in H8. cbn [mbind option_bind] in H8.
  destruct (parseMipTex_external data a sz nummip tx H8 Hsz Hn ltac:(lia) Hfit)
    as [Hsize Hall].
  pose proof (Hall i off Hi Hoff Hout) as Hat.
  split; [exact Hsize|]. split; [exact Hat|]. split.
  - intros tex Ht. rewrite Hat in Ht. injection Ht as <-. auto.
  - intros data' palette' e'. apply LoadBSP_errors.
Qed.

Lemma external_texture_slot_left_empty_witness :
  at_ (BSPMap.textures (loaded (triangleFile 29))) 0 = Some BSPTexture.empty.
Proof.
  destruct (external_texture_slot_left_empty
              (triangleFile 29) None (loaded (triangleFile 29)) EmptyString
              124 8 1 0 0) as (_ & H & _).
  - vm_compute. reflexivity.
  - vm_compute. reflexivity.
  - vm_compute. discriminate.
  - reflexivity.
  - lia.
  - lia.
  - reflexivity.
  - lia.
  - exact H.
Defined.

(** ** Shelf packing of equal blocks *)

(** the packer of a [32c] x [32r] atlas after [k] blocks of 32 x 32 *)
Definition shelfState (c r k : Z) : ShelfPacker.t :=
  if k =? 0 then ShelfPacker.new (32 * c) (32 * r)
  else ShelfPacker.mk (32 * c) (32 * r)
                      (32 * ((k - 1) mod c + 1)) (32 * ((k - 1) / c)) 32.

Lemma div_mod_step c k :
  0 < c -> 0 <= k ->
  (k mod c = c - 1 /\ (k + 1) mod c = 0 /\ (k + 1) / c = k / c + 1) \/
  (k mod c < c - 1 /\ (k + 1) mod c = k mod c + 1 /\ (k + 1) / c = k / c).
Proof.
  intros Hc Hk.
  pose proof (Z.div_mod k c ltac:(lia)) as Hdm.
  pose proof (Z.mod_pos_bound k c Hc) as Hb.
  destruct (Z.eq_dec (k mod c) (c - 1)) as [He|Hne].
  - left. split; [exact He|].
    assert (k + 1 = c * (k / c + 1) + 0) as Hk1 by lia.
    split.
    + symmetry. apply (Z.mod_unique_pos _ _ (k / c + 1)); [lia | exact Hk1].
    + symmetry. apply (Z.div_unique_pos _ _ _ 0); [lia | exact Hk1].
  - right. split; [lia|].
    assert (k + 1 = c * (k / c) + (k mod c + 1)) as Hk1 by lia.
    split.
    + symmetry. apply (Z.mod_unique_pos _ _ (k / c)); [lia | exact Hk1].
    + symmetry. apply (Z.div_unique_pos _ _ _ (k mod c + 1)); [lia | exact Hk1].
Qed.

Lemma place_result_eq (W H x y s a b x' y' s' a' b' : Z) :
  x = x' -> y = y' -> s = s' -> a = a' -> b = b' ->
  (ShelfPacker.mk W H x y s, Some (a, b)) = (ShelfPacker.mk W H x' y' s', Some (a', b')).
Proof. congruence. Qed.

(** block [k] goes to column [k mod c] of shelf [k / c], as long as there
    is a shelf left *)
Lemma place_block c r k :
  0 < c -> 0 < r -> 0 <= k < c * r ->
  ShelfPacker.place (shelfState c r k) 32 32
  = (shelfState c r (k + 1), Some (32 * (k mod c), 32 * (k / c))).
Proof.
  intros Hc Hr Hk. unfold shelfState, ShelfPacker.place, ShelfPacker.new.
  destruct (Z.eqb_spec (k + 1) 0); [lia|].
  replace (k + 1 - 1) with k by lia.
  assert (k / c < r) as Hq by (apply Z.div_lt_upper_bound; lia).
  pose proof (Z.mod_pos_bound k c Hc) as Hm.
  pose proof (Z.div_pos k c ltac:(lia) Hc) as Hd.
  destruct (Z.eqb_spec k 0) as [->|Hk0]; cbn [ShelfPacker.W ShelfPacker.H
    ShelfPacker.x ShelfPacker.y ShelfPacker.shelfH].
  - rewrite Z.mod_0_l, Z.div_0_l by lia.
    destruct (Z.ltb_spec (32 * c) 32); [lia|].
    destruct (Z.ltb_spec (32 * r) 32); [lia|]. cbn [orb].
    destruct (Z.ltb_spec (32 * c) (0 + 32)); [lia|].
    cbn [ShelfPacker.W ShelfPacker.H ShelfPacker.x ShelfPacker.y ShelfPacker.shelfH].
    destruct (Z.ltb_spec (32 * r) (0 + 32)); [lia|].
    apply place_result_eq; lia.
  - destruct (Z.ltb_spec (32 * c) 32); [lia|].
    destruct (Z.ltb_spec (32 * r) 32); [lia|]. cbn [orb].
    pose proof (Z.mod_pos_bound (k - 1) c Hc) as Hm1.
    destruct (div_mod_step c (k - 1) Hc ltac:(lia)) as [(E1 & E2 & E3)|(E1 & E2 & E3)];
      replace (k - 1 + 1) with k in * by lia.
    + destruct (Z.ltb_spec (32 * c) (32 * ((k - 1) mod c + 1) + 32)); [|lia].
      cbn [ShelfPacker.W ShelfPacker.H ShelfPacker.x ShelfPacker.y ShelfPacker.shelfH].
      destruct (Z.ltb_spec (32 * r) (32 * ((k - 1) / c) + 32 + 32)); [lia|].
      rewrite E2, E3. apply place_result_eq; lia.
    + destruct (Z.ltb_spec (32 * c) (32 * ((k - 1) mod c + 1) + 32)); [lia|].
      cbn [ShelfPacker.W ShelfPacker.H ShelfPacker.x ShelfPacker.y ShelfPacker.shelfH].
      destruct (Z.ltb_spec (32 * r) (32 * ((k - 1) / c) + 32)); [lia|].
      rewrite E2, E3. apply place_result_eq; lia.
Qed.

(** once [c * r] blocks are in, the next one does not fit *)
Lemma place_block_full c r :
  0 < c -> 0 < r ->
  snd (ShelfPacker.place (shelfState c r (c * r)) 32 32) = None.
Proof.
  intros Hc Hr. unfold shelfState, ShelfPacker.place.
  destruct (Z.eqb_spec (c * r) 0); [nia|].
  cbn [ShelfPacker.W ShelfPacker.H ShelfPacker.x ShelfPacker.y ShelfPacker.shelfH].
  destruct (Z.ltb_spec (32 * c) 32); [lia|].
  destruct (Z.ltb_spec (32 * r) 32); [lia|]. cbn [orb].
  assert (c * r - 1 = c * (r - 1) + (c - 1)) as Hdec by lia.
  assert ((c * r - 1) mod c = c - 1) as Em
      by (symmetry; apply (Z.mod_unique_pos _ _ (r - 1)); [lia | exact Hdec]).
  assert ((c * r - 1) / c = r - 1) as Ed
      by (symmetry; apply (Z.div_unique_pos _ _ _ (c - 1)); [lia | exact Hdec]).
  rewrite Em, Ed.
  destruct (Z.ltb_spec (32 * c) (32 * (c - 1 + 1) + 32)); [|lia].
  cbn [ShelfPacker.W ShelfPacker.H ShelfPacker.x ShelfPacker.y ShelfPacker.shelfH].
  destruct (Z.ltb_spec (32 * r) (32 * (r - 1) + 32 + 32)); [reflexivity | lia].
Qed.

(** the faces that take part in the packing *)
Definition qualifying (faceLM : list FaceLM.t) : Z :=
  size (filter (fun inf => FaceLM.hasLM inf = true) faceLM).

Definition blocks32 (faceLM : list FaceLM.t) : Prop :=
  Forall (fun inf => FaceLM.hasLM inf = true ->
                     FaceLM.w inf = 32 /\ FaceLM.h inf = 32) faceLM.

Lemma qualifying_cons inf faceLM :
  qualifying (inf :: faceLM)
  = (if FaceLM.hasLM inf then 1 else 0) + qualifying faceLM.
Proof.
  unfold qualifying. rewrite filter_cons.
  destruct (FaceLM.hasLM inf); simpl.
  - destruct (decide (true = true)); [|contradiction].
    unfold size. simpl length. lia.
  - destruct (decide (false = true)); [discriminate|]. lia.
Qed.

(** packing succeeds exactly when the blocks still to come fit in what is
    left of the [c * r] places *)
Lemma tryPack_blocks c r faceLM k :
  0 < c -> 0 < r -> 0 <= k <= c * r ->
  blocks32 faceLM ->
  tryPack (shelfState c r k) faceLM = (k + qualifying faceLM <=? c * r).
Proof.
  intros Hc Hr. revert k. induction faceLM as [|inf rest IH]; intros k Hk Hb.
  - cbn [tryPack]. change (qualifying []) with 0.
    destruct (Z.leb_spec (k + 0) (c * r)); [reflexivity | lia].
  - apply Forall_cons in Hb as [Hinf Hrest].
    rewrite qualifying_cons. cbn [tryPack].
    destruct (FaceLM.hasLM inf) eqn:Hlm; cbn [negb].
    + destruct (Hinf eq_refl) as [-> ->].
      destruct (Z.eq_dec k (c * r)) as [->|Hne].
      * pose proof (place_block_full c r Hc Hr) as Hfull.
        destruct (ShelfPacker.place (shelfState c r (c * r)) 32 32) as [p o].
        simpl in Hfull. subst o.
        pose proof (size_nonneg (filter (fun inf => FaceLM.hasLM inf = true) rest)).
        unfold qualifying.
        destruct (Z.leb_spec (c * r + (1 + size (filter (fun inf => FaceLM.hasLM inf = true) rest))) (c * r));
          [lia | reflexivity].
      * rewrite place_block by lia. rewrite IH by (auto; lia).
        f_equal. lia.
    + rewrite IH by auto. f_equal.
Qed.

(** ** The 5-float to 7-float rewrite *)

Definition tuple5 : Type := float * float * float * float * float.

(** a vertex buffer of 5-float tuples, and the same tuples with a second
    UV pair *)
Definition flat5 (ts : list tuple5) : list float :=
  flat_map (fun '(x, y, z, u, v) => [x; y; z; u; v]) ts.

Definition flat7 (uv1 : float -> float -> float -> float * float) (ts : list tuple5)
  : list float :=
  flat_map (fun '(x, y, z, u, v) =>
              let '(u1, v1) := uv1 x y z in [x; y; z; u; v; u1; v1]) ts.

Lemma size_flat5 ts : size (flat5 ts) = 5 * size ts.
Proof.
  induction ts as [|[[[[x y] z] u] v] ts IH]; [reflexivity|].
  unfold flat5 in *. cbn [flat_map]. rewrite size_app, IH.
  unfold size. simpl length. lia.
Qed.


Lemma expandVertices_acc uv1 n vs acc nv :
  (length vs <= n)%nat ->
  expandVertices uv1 vs acc = Some nv ->
  exists ts, vs = flat5 ts /\ nv = acc ++ flat7 uv1 ts.
Proof.
  revert vs acc. induction n as [|n IH]; intros vs acc Hlen H.
  - destruct vs; [|simpl in Hlen; lia]. simpl in H. injection H as <-.
    exists []. split; [reflexivity|]. simpl. rewrite app_nil_r. reflexivity.
  - destruct vs as [|px [|py [|pz [|u0 [|v0 rest]]]]]; try discriminate.
    + simpl in H. injection H as <-.
      exists []. split; [reflexivity|]. simpl. rewrite app_nil_r. reflexivity.
    + cbn [expandVertices] in H. destruct (uv1 px py pz) as [u1 v1] eqn:Huv.
      apply IH in H as (ts & -> & ->); [|simpl in Hlen; lia].
      exists ((px, py, pz, u0, v0) :: ts). split; [reflexivity|].
      unfold flat7. cbn [flat_map]. rewrite Huv, <- app_assoc. reflexivity.
Qed.

Lemma expandVertices_spec uv1 vs nv :
  expandVertices uv1 vs [] = Some nv ->
  exists ts, vs = flat5 ts /\ nv = flat7 uv1 ts.
Proof.
  intros H. apply (expandVertices_acc uv1 (length vs)) in H; [|lia]. exact H.
Qed.

(** the buffer of [mesh'] is the buffer of [mesh] with a second UV pair
    after every 5-float tuple; the pair is (0, 0) when [zeroUV] holds *)
Definition rewritten (zeroUV : bool) (mesh mesh' : BSPMesh.t) : Prop :=
  exists uv1 ts,
    BSPMesh.vertices mesh = flat5 ts /\
    BSPMesh.vertices mesh' = flat7 uv1 ts /\
    BSPMesh.textureIndex mesh' = BSPMesh.textureIndex mesh /\
    (zeroUV = true -> forall x y z, uv1 x y z = (F32.zero, F32.zero)).

(** ** Sizes of the faces' lightmaps *)

(** what step 1 records for a face that takes part in the atlas *)
Definition faceLM_ok (map : BSPMap.t) (fi : Z) (inf : FaceLM.t) : Prop :=
  FaceLM.hasLM inf = true ->
  0 < FaceLM.w inf /\ 0 < FaceLM.h inf /\
  FaceLM.w inf * FaceLM.h inf <= F32.int_max /\
  exists f, at_ (BSPMap.faces map) fi = Some f /\
            0 <= Face.lightofs f /\
            to_size_t (Face.lightofs f) < size (BSPMap.lighting map).

Lemma faceLMStep_spec map fi faceLM total faceLM' total' :
  faceLMStep map fi (faceLM, total) = Some (faceLM', total') ->
  exists inf, faceLM_ok map fi inf /\
              0 <= fi < size faceLM /\
              faceLM' = <[Z.to_nat fi := inf]> faceLM.
Proof.
  unfold faceLMStep. intros H.
  destruct (at_ (BSPMap.faces map) fi) as [f|] eqn:Hf; simpl in H; [|discriminate].
  match type of H with
  | context [mbind _ ?o] => destruct o as [[info tot]|] eqn:Hinfo; simpl in H;
                             [|discriminate]
  end.
  destruct (store faceLM fi info) as [fl|] eqn:Hst; simpl in H; [|discriminate].
  injection H as <- <-. apply store_Some in Hst as [Hfi ->].
  exists info. split; [|split; [exact Hfi | reflexivity]].
  intros Hlm.
  destruct (Z.leb_spec 0 (Face.lightofs f)) as [Hlo|]; simpl in Hinfo.
  2:{ injection Hinfo as <- <-. discriminate. }
  destruct (Z.ltb_spec (to_size_t (Face.lightofs f)) (size (BSPMap.lighting map)))
    as [Hhi|]; simpl in Hinfo.
  2:{ injection Hinfo as <- <-. discriminate. }
  destruct (faceLightmapExtents map fi) as [[[[w h] sA] tA]|]; simpl in Hinfo;
    [|discriminate].
  destruct (Z.ltb_spec 0 w); simpl in Hinfo.
  2:{ injection Hinfo as <- <-. discriminate. }
  destruct (Z.ltb_spec 0 h); simpl in Hinfo.
  2:{ injection Hinfo as <- <-. discriminate. }
  destruct (int_ok (w * h)) as [area|] eqn:Ha; simpl in Hinfo; [|discriminate].
  destruct (int_ok (total + area)); simpl in Hinfo; [|discriminate].
  injection Hinfo as <- <-. simpl. apply int_ok_Some in Ha as [-> Ha].
  repeat split; try lia.
  exists f. split; [exact Hf | split; assumption].
Qed.

Lemma gatherFaceLM_spec map faceLM total :
  gatherFaceLM map = Some (faceLM, total) ->
  size faceLM = size (BSPMap.faces map) /\
  forall fi inf, at_ faceLM fi = Some inf -> faceLM_ok map fi inf.
Proof.
  unfold gatherFaceLM. intros Hrun.
  pose (n := size (BSPMap.faces map)).
  pose (P := fun (j : Z) (st : list FaceLM.t * Z) =>
    size st.1 = n /\
    forall fi inf, at_ st.1 fi = Some inf -> faceLM_ok map fi inf).
  assert (P n (faceLM, total)) as HP.
  { apply (for_inv P (faceLMStep map) 0 n
                   (replicate (length (BSPMap.faces map)) FaceLM.empty, 0)
                   (faceLM, total)); auto.
    - apply size_nonneg.
    - split; simpl.
      + apply size_replicate.
      + intros fi inf [_ Hl]%at_Some. apply lookup_replicate in Hl as [-> _].
        intros Hlm. discriminate.
    - intros j [fl tot] [fl' tot'] Hj [Hs Ha] Hstep. simpl in *.
      apply faceLMStep_spec in Hstep as (info & Hok & Hin & ->).
      split; simpl.
      + rewrite size_insert. exact Hs.
      + intros fi inf Hat. destruct (Z.eq_dec fi j) as [->|Hne].
        * rewrite at_insert_eq in Hat by lia. injection Hat as <-. exact Hok.
        * rewrite at_insert_ne in Hat by lia. apply Ha. exact Hat. }
  exact HP.
Qed.

(** ** The size loop *)

Lemma sizeAtlas_fits fuel W H faceLM W' H' :
  sizeAtlas fuel W H faceLM = Some (Some (W', H')) ->
  0 < W <= 8192 -> 0 < H <= 8192 ->
  W <= W' <= 8192 /\ H <= H' <= 8192 /\
  tryPack (ShelfPacker.new W' H') faceLM = true.
Proof.
  revert W H. induction fuel as [|fuel IH]; intros W H Hrun HW HH; [discriminate|].
  cbn [sizeAtlas] in Hrun.
  destruct (tryPack (ShelfPacker.new W H) faceLM) eqn:Hp.
  - injection Hrun as <- <-. repeat split; try lia. exact Hp.
  - destruct (Z.leb_spec W H).
    + destruct (Z.ltb_spec 8192 (W * 2)); [discriminate|].
      destruct (Z.ltb_spec 8192 H); [discriminate|]. simpl in Hrun.
      apply IH in Hrun as (? & ? & ?); [|lia|lia].
      repeat split; try lia. assumption.
    + destruct (Z.ltb_spec 8192 W); [discriminate|].
      destruct (Z.ltb_spec 8192 (H * 2)); [discriminate|]. simpl in Hrun.
      apply IH in Hrun as (? & ? & ?); [|lia|lia].
      repeat split; try lia. assumption.
Qed.

(** the loop ends within seven iterations: it finds a size or gives up *)
Lemma chooseAtlasSize_total faceLM : is_Some (chooseAtlasSize faceLM).
Proof.
  unfold chooseAtlasSize. cbn [sizeAtlas].
  repeat (match goal with
          | |- is_Some (if tryPack ?p faceLM then _ else _) =>
              destruct (tryPack p faceLM); [eexists; reflexivity|]
          end;
          cbv beta iota zeta delta
              [Z.leb Z.ltb Z.mul Z.compare Pos.compare Pos.compare_cont Pos.mul orb]).
  eexists; reflexivity.
Qed.

Lemma chooseAtlasSize_fits faceLM W H :
  chooseAtlasSize faceLM = Some (Some (W, H)) ->
  1024 <= W <= 8192 /\ 1024 <= H <= 8192 /\
  tryPack (ShelfPacker.new W H) faceLM = true.
Proof.
  intros Hc. apply sizeAtlas_fits in Hc as (? & ? & ?); [|lia|lia].
  repeat split; try lia. assumption.
Qed.

(** ** The rectangles of the atlas *)

(** [r] lies inside a [W] x [H] atlas and is not empty *)
Definition inside (W H : Z) (r : LightmapRect.t) : Prop :=
  0 <= LightmapRect.x r /\ 0 <= LightmapRect.y r /\
  0 < LightmapRect.w r /\ 0 < LightmapRect.h r /\
  LightmapRect.x r + LightmapRect.w r <= W /\
  LightmapRect.y r + LightmapRect.h r <= H.

(** two rectangles share no pixel *)
Definition disjoint (r1 r2 : LightmapRect.t) : Prop :=
  LightmapRect.x r1 + LightmapRect.w r1 <= LightmapRect.x r2 \/
  LightmapRect.x r2 + LightmapRect.w r2 <= LightmapRect.x r1 \/
  LightmapRect.y r1 + LightmapRect.h r1 <= LightmapRect.y r2 \/
  LightmapRect.y r2 + LightmapRect.h r2 <= LightmapRect.y r1.

(** [r] is on a finished shelf, or on the current shelf left of the cursor *)
Definition behind (pack : ShelfPacker.t) (r : LightmapRect.t) : Prop :=
  LightmapRect.y r + LightmapRect.h r <= ShelfPacker.y pack \/
  (LightmapRect.y r = ShelfPacker.y pack /\
   LightmapRect.x r + LightmapRect.w r <= ShelfPacker.x pack /\
   LightmapRect.h r <= ShelfPacker.shelfH pack).

Definition packerOk (W H : Z) (pack : ShelfPacker.t) : Prop :=
  ShelfPacker.W pack = W /\ ShelfPacker.H pack = H /\
  0 <= ShelfPacker.x pack /\ 0 <= ShelfPacker.y pack /\
  0 <= ShelfPacker.shelfH pack.

Lemma place_spec W H pack w h pack' res lo :
  packerOk W H pack -> 0 < w -> 0 < h ->
  ShelfPacker.place pack w h = (pack', res) ->
  packerOk W H pack' /\
  (forall r, behind pack r -> behind pack' r) /\
  (forall px py,
      res = Some (px, py) ->
      let r' := LightmapRect.mk px py w h lo true in
      inside W H r' /\ behind pack' r' /\
      forall r, behind pack r -> disjoint r r').
Proof.
  intros (HW & HH & Hx & Hy & Hs) Hw Hh. unfold ShelfPacker.place.
  destruct ((ShelfPacker.W pack <? w) || (ShelfPacker.H pack <? h)) eqn:Hbig.
  { intros [= <- <-]. split; [repeat split; assumption|].
    split; [auto|]. intros px py [=]. }
  apply orb_false_iff in Hbig as [Hbw Hbh].
  apply Z.ltb_ge in Hbw, Hbh.
  destruct (Z.ltb_spec (ShelfPacker.W pack) (ShelfPacker.x pack + w)) as [Hnew|Hfit];
    cbn [ShelfPacker.W ShelfPacker.H ShelfPacker.x ShelfPacker.y ShelfPacker.shelfH].
  - destruct (Z.ltb_spec (ShelfPacker.H pack) (ShelfPacker.y pack + ShelfPacker.shelfH pack + h)).
    + intros [= <- <-]. unfold packerOk, behind. simpl.
      split; [repeat split; lia|]. split; [intros r; lia|]. intros px py [=].
    + intros [= <- <-]. unfold packerOk, behind, inside, disjoint. simpl.
      split; [repeat split; lia|]. split; [intros r; lia|].
      intros px py [= <- <-]. simpl. repeat split; intros; lia.
  - destruct (Z.ltb_spec (ShelfPacker.H pack) (ShelfPacker.y pack + h)).
    + intros [= <- <-]. unfold packerOk, behind.
      split; [repeat split; lia|]. split; [auto|]. intros px py [=].
    + intros [= <- <-]. unfold packerOk, behind, inside, disjoint. simpl.
      split; [repeat split; lia|]. split; [intros r; lia|].
      intros px py [= <- <-]. simpl. repeat split; intros; lia.
Qed.

Section PackLoop.
Variables (map : BSPMap.t) (faceLM : list FaceLM.t) (W H n : Z).
Hypothesis faceLM_pos :
  forall fi inf, at_ faceLM fi = Some inf -> FaceLM.hasLM inf = true ->
                 0 < FaceLM.w inf /\ 0 < FaceLM.h inf.

(** rectangle [r] is what step 3 stores for face [i] when it places it *)
Definition placedFor (i : Z) (r : LightmapRect.t) : Prop :=
  exists inf f,
    at_ faceLM i = Some inf /\ FaceLM.hasLM inf = true /\
    LightmapRect.w r = FaceLM.w inf /\ LightmapRect.h r = FaceLM.h inf /\
    at_ (BSPMap.faces map) i = Some f /\
    LightmapRect.lightofs r = Face.lightofs f.

(** the invariant of the loop of step 3 *)
Definition packInv (j : Z) (st : ShelfPacker.t * list LightmapRect.t) : Prop :=
  size st.2 = n /\ packerOk W H st.1 /\
  (forall i r, 0 <= i < j -> at_ st.2 i = Some r ->
     (forall inf, at_ faceLM i = Some inf -> FaceLM.hasLM inf = false ->
                  LightmapRect.valid r = false) /\
     (LightmapRect.valid r = true ->
      placedFor i r /\ inside W H r /\ behind st.1 r)) /\
  (forall i i' r r',
     0 <= i < j -> 0 <= i' < j -> i <> i' ->
     at_ st.2 i = Some r -> at_ st.2 i' = Some r' ->
     LightmapRect.valid r = true -> LightmapRect.valid r' = true ->
     disjoint r r').

Lemma disjoint_sym r r' : disjoint r r' -> disjoint r' r.
Proof. unfold disjoint. lia. Qed.

Lemma packStep_inv j st st' :
  0 <= j < n -> packInv j st -> packStep map faceLM j st = Some st' ->
  packInv (j + 1) st'.
Proof.
  intros Hj (Hsz & Hok & Hrect & Hdis) Hstep.
  destruct st as [pack perFace]. unfold packStep in Hstep. simpl in *.
  destruct (at_ perFace j) as [outR|] eqn:Hout; simpl in Hstep; [|discriminate].
  destruct (at_ faceLM j) as [inf|] eqn:Hinf; simpl in Hstep; [|discriminate].
  (* the two ways of leaving the entry invalid *)
  assert (forall pack', packerOk W H pack' ->
            (forall r, behind pack r -> behind pack' r) ->
            packInv (j + 1) (pack', <[Z.to_nat j := invalidate outR]> perFace))
    as Hinvalid.
  { intros pack' Hok' Hmono. split; [simpl; rewrite size_insert; exact Hsz|].
    split; [exact Hok'|]. simpl. split.
    - intros i r Hi Hat. destruct (Z.eq_dec i j) as [->|Hne].
      + rewrite at_insert_eq in Hat by lia. injection Hat as <-.
        split; [reflexivity | discriminate].
      + rewrite at_insert_ne in Hat by lia.
        destruct (Hrect i r ltac:(lia) Hat) as [Ha Hb]. split; [exact Ha|].
        intros Hv. destruct (Hb Hv) as (? & ? & ?). auto.
    - intros i i' r r' Hi Hi' Hne Hat Hat' Hv Hv'.
      destruct (Z.eq_dec i j) as [->|Hnj].
      { rewrite at_insert_eq in Hat by lia. injection Hat as <-. discriminate. }
      destruct (Z.eq_dec i' j) as [->|Hnj'].
      { rewrite at_insert_eq in Hat' by lia. injection Hat' as <-. discriminate. }
      rewrite at_insert_ne in Hat, Hat' by lia.
      apply (Hdis i i' r r'); auto; lia. }
  destruct (FaceLM.hasLM inf) eqn:Hlm; cbn [negb] in Hstep.
  2:{ destruct (store perFace j (invalidate outR)) as [pf|] eqn:Hst; simpl in Hstep;
        [|discriminate].
      injection Hstep as <-. apply store_Some in Hst as [_ ->].
      apply Hinvalid; auto. }
  destruct (faceLM_pos j inf Hinf Hlm) as [Hw Hh].
  destruct (ShelfPacker.place pack (FaceLM.w inf) (FaceLM.h inf)) as [pack' res] eqn:Hpl.
  destruct res as [[px py]|].
  2:{ destruct (store perFace j (invalidate outR)) as [pf|] eqn:Hst; simpl in Hstep;
        [|discriminate].
      injection Hstep as <-. apply store_Some in Hst as [_ ->].
      destruct (place_spec W H pack _ _ pack' None 0 Hok Hw Hh Hpl) as (Hok' & Hmono & _).
      apply Hinvalid; auto. }
  destruct (at_ (BSPMap.faces map) j) as [f|] eqn:Hf; simpl in Hstep; [|discriminate].
  destruct (store perFace j _) as [pf|] eqn:Hst; simpl in Hstep; [|discriminate].
  injection Hstep as <-. apply store_Some in Hst as [_ ->].
  destruct (place_spec W H pack _ _ pack' (Some (px, py)) (Face.lightofs f) Hok Hw Hh Hpl)
    as (Hok' & Hmono & Hnew).
  destruct (Hnew px py eq_refl) as (Hin & Hbeh & Hdj).
  split; [simpl; rewrite size_insert; exact Hsz|].
  split; [exact Hok'|]. simpl. split.
  - intros i r Hi Hat. destruct (Z.eq_dec i j) as [->|Hne].
    + rewrite at_insert_eq in Hat by lia. injection Hat as <-. split.
      * intros inf' Hinf' Hno. congruence.
      * intros _. split; [|split; assumption].
        exists inf, f. simpl. auto 10.
    + rewrite at_insert_ne in Hat by lia.
      destruct (Hrect i r ltac:(lia) Hat) as [Ha Hb]. split; [exact Ha|].
      intros Hv. destruct (Hb Hv) as (? & ? & ?). auto.
  - intros i i' r r' Hi Hi' Hne Hat Hat' Hv Hv'.
    destruct (Z.eq_dec i j) as [->|Hnj]; destruct (Z.eq_dec i' j) as [->|Hnj'];
      try lia.
    + rewrite at_insert_eq in Hat by lia. injection Hat as <-.
      rewrite at_insert_ne in Hat' by lia.
      destruct (Hrect i' r' ltac:(lia) Hat') as [_ Hb].
      destruct (Hb Hv') as (_ & _ & Hbh). apply disjoint_sym, Hdj, Hbh.
    + rewrite at_insert_eq in Hat' by lia. injection Hat' as <-.
      rewrite at_insert_ne in Hat by lia.
      destruct (Hrect i r ltac:(lia) Hat) as [_ Hb].
      destruct (Hb Hv) as (_ & _ & Hbh). apply Hdj, Hbh.
    + rewrite at_insert_ne in Hat, Hat' by lia.
      apply (Hdis i i' r r'); auto; lia.
Qed.

(** what step 3 leaves in [perFace]: one entry per face; an entry that is
    valid was placed for its face, inside the atlas, and apart from every
    other valid entry *)
Lemma packLoop_spec old pack perFace :
  0 <= n -> 0 <= W -> 0 <= H ->
  for_ 0 n (packStep map faceLM)
       (ShelfPacker.new W H, resize n LightmapRect.empty old) = Some (pack, perFace) ->
  packInv n (pack, perFace).
Proof.
  intros Hn HW HH Hrun.
  apply (for_inv packInv (packStep map faceLM) 0 n _ _ Hn) in Hrun; auto.
  - split; [simpl; apply size_resize; exact Hn|].
    split; [unfold packerOk, ShelfPacker.new; simpl; lia|].
    split; intros; lia.
  - intros j t t' Hj Hinv Hstep. eapply packStep_inv; eauto.
Qed.
End PackLoop.

(** ** The second UV pair *)

Lemma secondUV_invalid W H inf rect ti px py pz :
  LightmapRect.valid rect = false ->
  secondUV W H inf rect ti px py pz = (F32.zero, F32.zero).
Proof.
  intros Hv. unfold secondUV. destruct (computeST _ ti) as [s t].
  rewrite Hv. reflexivity.
Qed.

Lemma uvStep_spec map W H faceLM perFace fi meshes meshes' :
  uvStep map W H faceLM perFace fi meshes = Some meshes' ->
  exists mesh inf rect ti nv,
    at_ meshes fi = Some mesh /\ at_ faceLM fi = Some inf /\
    at_ perFace fi = Some rect /\
    expandVertices (secondUV W H inf rect ti) (BSPMesh.vertices mesh) [] = Some nv /\
    meshes' = <[Z.to_nat fi := BSPMesh.mk (BSPMesh.textureIndex mesh) fi nv]> meshes.
Proof.
  unfold uvStep. intros Hs.
  destruct (at_ meshes fi) as [mesh|] eqn:Hm; simpl in Hs; [|discriminate].
  destruct (at_ faceLM fi) as [inf|] eqn:Hi; simpl in Hs; [|discriminate].
  destruct (at_ perFace fi) as [rect|] eqn:Hr; simpl in Hs; [|discriminate].
  destruct (at_ (BSPMap.faces map) fi) as [f|]; simpl in Hs; [|discriminate].
  destruct (at_ (BSPMap.texinfos map) (Face.texinfo f)) as [ti|]; simpl in Hs;
    [|discriminate].
  destruct (expandVertices _ _ []) as [nv|] eqn:He; simpl in Hs; [|discriminate].
  apply store_Some in Hs as [_ ->].
  exists mesh, inf, rect, ti, nv. auto 10.
Qed.

(** step 6 rewrites the buffer of every mesh; a face that has no valid
    rectangle gets (0, 0) *)
Lemma uvLoop_spec map W H faceLM perFace meshes meshes' :
  size meshes = size (BSPMap.faces map) ->
  (forall i inf rect, at_ faceLM i = Some inf -> at_ perFace i = Some rect ->
                      FaceLM.hasLM inf = false -> LightmapRect.valid rect = false) ->
  for_ 0 (size (BSPMap.faces map)) (uvStep map W H faceLM perFace) meshes
  = Some meshes' ->
  size meshes' = size meshes /\
  forall fi mesh inf,
    at_ meshes fi = Some mesh -> at_ faceLM fi = Some inf ->
    exists mesh', at_ meshes' fi = Some mesh' /\
                  rewritten (negb (FaceLM.hasLM inf)) mesh mesh'.
Proof.
  intros Hsz Hinv Hrun.
  pose (Q := fun (j : Z) (ms : list BSPMesh.t) =>
    size ms = size meshes /\
    (forall i, j <= i -> at_ ms i = at_ meshes i) /\
    (forall fi mesh inf,
        0 <= fi < j -> at_ meshes fi = Some mesh -> at_ faceLM fi = Some inf ->
        exists mesh', at_ ms fi = Some mesh' /\
                      rewritten (negb (FaceLM.hasLM inf)) mesh mesh')).
  assert (Q (size (BSPMap.faces map)) meshes') as (Hs & _ & Hall).
  { apply (for_inv Q (uvStep map W H faceLM perFace) 0 _ meshes meshes'); auto.
    - apply size_nonneg.
    - split; [reflexivity|]. split; [reflexivity|]. intros; lia.
    - intros j ms ms' Hj (Hs & Hrest & Hdone) Hstep.
      apply uvStep_spec in Hstep as (mesh & inf & rect & ti & nv & Hm & Hi & Hr & He & ->).
      split; [rewrite size_insert; exact Hs|]. split.
      + intros i Hi'. rewrite at_insert_ne by lia. apply Hrest. lia.
      + intros fi mesh0 inf0 Hfi Hm0 Hi0. destruct (Z.eq_dec fi j) as [->|Hne].
        * rewrite Hrest in Hm by lia. rewrite Hm in Hm0. injection Hm0 as <-.
          rewrite Hi in Hi0. injection Hi0 as <-.
          rewrite at_insert_eq by lia. eexists. split; [reflexivity|].
          apply expandVertices_spec in He as (ts & Hv & Hnv).
          exists (secondUV W H inf rect ti), ts. simpl.
          repeat split; auto.
          intros Hz x y z. apply secondUV_invalid.
          apply (Hinv j inf rect Hi Hr). destruct (FaceLM.hasLM inf); [discriminate|reflexivity].
        * rewrite at_insert_ne by lia. apply Hdone; auto. lia. }
  split; [exact Hs|].
  intros fi mesh inf Hm Hi. apply (Hall fi mesh inf); auto.
  apply at_lt in Hm. lia.
Qed.

Lemma zeroExpand_spec m m' :
  zeroExpand m = Some m' -> rewritten true m m'.
Proof.
  unfold zeroExpand.
  destruct (expandVertices _ (BSPMesh.vertices m) []) as [nv|] eqn:He; simpl;
    [|discriminate].
  intros [= <-]. apply expandVertices_spec in He as (ts & Hv & Hnv).
  exists (fun _ _ _ => (F32.zero, F32.zero)), ts. simpl. auto.
Qed.

(** ** The ways through [BuildLightmaps] *)

Inductive lightmapPath (map map' : BSPMap.t) : Prop :=
| path_skipped :
    size (BSPMap.faces map) = 0 \/ size (BSPMap.meshes map) <> size (BSPMap.faces map) ->
    map' = map ->
    lightmapPath map map'
| path_fullbright faceLM meshes :
    size (BSPMap.faces map) <> 0 ->
    size (BSPMap.meshes map) = size (BSPMap.faces map) ->
    gatherFaceLM map = Some (faceLM, 0) ->
    mapM zeroExpand (BSPMap.meshes map) = Some meshes ->
    map' = BSPMap.set_meshes meshes (BSPMap.set_lmAtlas LightmapAtlas.empty map) ->
    lightmapPath map map'
| path_aborted faceLM totalArea :
    size (BSPMap.faces map) <> 0 ->
    size (BSPMap.meshes map) = size (BSPMap.faces map) ->
    gatherFaceLM map = Some (faceLM, totalArea) -> totalArea <> 0 ->
    chooseAtlasSize faceLM = Some None ->
    map' = BSPMap.set_lmAtlas LightmapAtlas.empty map ->
    lightmapPath map map'
| path_built faceLM totalArea atlasW atlasH :
    size (BSPMap.faces map) <> 0 ->
    size (BSPMap.meshes map) = size (BSPMap.faces map) ->
    gatherFaceLM map = Some (faceLM, totalArea) -> totalArea <> 0 ->
    chooseAtlasSize faceLM = Some (Some (atlasW, atlasH)) ->
    buildAtlas map atlasW atlasH faceLM = Some map' ->
    lightmapPath map map'.

Lemma BuildLightmaps_path map map' :
  BuildLightmaps map = Some map' -> lightmapPath map map'.
Proof.
  unfold BuildLightmaps.
  destruct (Z.eqb_spec (size (BSPMap.faces map)) 0) as [H0|H0]; simpl.
  { intros [= <-]. apply path_skipped; auto. }
  destruct (Z.eqb_spec (size (BSPMap.meshes map)) (size (BSPMap.faces map))) as [He|He];
    simpl.
  2:{ intros [= <-]. apply path_skipped; auto. }
  destruct (gatherFaceLM map) as [[faceLM total]|] eqn:Hg; simpl; [|discriminate].
  destruct (Z.eqb_spec total 0) as [->|Ht].
  { destruct (mapM zeroExpand (BSPMap.meshes map)) as [ms|] eqn:Hm; simpl;
      [|discriminate].
    intros [= <-]. eapply path_fullbright; eauto. }
  destruct (chooseAtlasSize faceLM) as [[[W H]|]|] eqn:Hc; simpl; try discriminate.
  - intros Hb. eapply path_built; eauto.
  - intros [= <-]. eapply path_aborted; eauto.
Qed.

(** what steps 3 to 6 leave in the map *)
Lemma buildAtlas_spec map W H faceLM map' :
  buildAtlas map W H faceLM = Some map' ->
  exists pack perFace rgba meshes,
    for_ 0 (size (BSPMap.faces map)) (packStep map faceLM)
         (ShelfPacker.new W H,
          resize (size (BSPMap.faces map)) LightmapRect.empty
                 (LightmapAtlas.perFace (BSPMap.lmAtlas map)))
    = Some (pack, perFace) /\
    for_ 0 (size (BSPMap.faces map)) (fillStep map W perFace)
         (replicate (Z.to_nat (to_size_t W * to_size_t H * 4)) Byte.xff)
    = Some rgba /\
    for_ 0 (size (BSPMap.faces map)) (uvStep map W H faceLM perFace) (BSPMap.meshes map)
    = Some meshes /\
    map' = BSPMap.set_meshes meshes
             (BSPMap.set_lmAtlas (LightmapAtlas.mk W H rgba perFace) map).
Proof.
  unfold buildAtlas.
  destruct (for_ 0 _ (packStep map faceLM) _) as [[pack perFace]|] eqn:Hp; simpl;
    [|discriminate].
  destruct (for_ 0 _ (fillStep map W perFace) _) as [rgba|] eqn:Hf; simpl;
    [|discriminate].
  destruct (for_ 0 _ (uvStep map W H faceLM perFace) _) as [meshes|] eqn:Hu; simpl;
    [|discriminate].
  intros [= <-]. exists pack, perFace, rgba, meshes. auto.
Qed.

Lemma rewritten_weaken b mesh mesh' :
  rewritten true mesh mesh' -> rewritten b mesh mesh'.
Proof.
  intros (uv1 & ts & Hv & Hnv & Ht & Hz). exists uv1, ts. auto.
Qed.


Lemma mapM_at {A B} (f : A -> option B) l k i x :
  mapM f l = Some k -> at_ l i = Some x ->
  exists y, at_ k i = Some y /\ f x = Some y.
Proof.
  intros Hm [Hi Hl]%at_Some. apply mapM_Some_1 in Hm.
  destruct (Forall2_lookup_l _ _ _ _ _ Hm Hl) as (y & Hy & Hf).
  exists y. split; [apply at_Some; auto | exact Hf].
Qed.

(** the meshes after a call that went through the fullbright exit or
    built the atlas *)
Lemma BuildLightmaps_rewrites map map' faceLM total :
  BuildLightmaps map = Some map' ->
  size (BSPMap.faces map) <> 0 ->
  size (BSPMap.meshes map) = size (BSPMap.faces map) ->
  gatherFaceLM map = Some (faceLM, total) ->
  total = 0 \/ (exists W H, chooseAtlasSize faceLM = Some (Some (W, H))) ->
  size (BSPMap.meshes map') = size (BSPMap.meshes map) /\
  forall fi mesh inf,
    at_ (BSPMap.meshes map) fi = Some mesh -> at_ faceLM fi = Some inf ->
    exists mesh', at_ (BSPMap.meshes map') fi = Some mesh' /\
                  rewritten (negb (FaceLM.hasLM inf)) mesh mesh'.
Proof.
  intros Hrun Hn Hsz Hg Hpath.
  destruct (BuildLightmaps_path map map' Hrun)
    as [[H0|H0] _ | fl ms _ _ Hg' Hm -> | fl ta _ _ Hg' Hta Hc _
        | fl ta W H _ _ Hg' Hta Hc Hb]; try contradiction.
  - (* fullbright *)
    simpl. split.
    + apply length_mapM in Hm. unfold size. lia.
    + intros fi mesh inf Hmesh _.
      destruct (mapM_at _ _ _ _ _ Hm Hmesh) as (mesh' & Hat & Hz).
      exists mesh'. split; [exact Hat|].
      apply rewritten_weaken, zeroExpand_spec, Hz.
  - (* given up: excluded by the hypothesis *)
    rewrite Hg in Hg'. injection Hg' as <- <-.
    destruct Hpath as [->|(W & H & Hc')]; [contradiction | congruence].
  - (* built *)
    rewrite Hg in Hg'. injection Hg' as <- <-.
    apply buildAtlas_spec in Hb as (pack & perFace & rgba & meshes & Hp & _ & Hu & ->).
    simpl.
    destruct (gatherFaceLM_spec map faceLM total Hg) as [_ Hok].
    destruct (chooseAtlasSize_fits faceLM W H Hc) as (HW & HH & _).
    apply (packLoop_spec map faceLM W H) in Hp
        as (_ & _ & Hrect & _); try lia; [| |apply size_nonneg].
    2:{ intros i inf Hi Hlm. destruct (Hok i inf Hi Hlm) as (? & ? & _). auto. }
    apply (uvLoop_spec map W H faceLM perFace); auto.
    intros i inf rect Hi Hr Hno.
    assert (0 <= i < size (BSPMap.faces map)) as Hrange.
    { destruct (gatherFaceLM_spec map faceLM total Hg) as [Hsf _].
      apply at_lt in Hi. lia. }
    destruct (Hrect i rect Hrange Hr) as [Hinv _]. eapply Hinv; eauto.
Qed.


(** the triangle with no lightmap data ([lightofs = -1]) *)
Definition unlitTriangleFile : list byte :=
  mkBSP 29 (triangleLumps externalMipTex bits_16 16 (-1)).




(** ** Index alignment of the meshes and of the atlas rectangles *)

(** what a call of [BuildLightmaps] does to the arrays that run parallel
    to the faces *)
Lemma BuildLightmaps_alignment map map' :
  BuildLightmaps map = Some map' ->
  BSPMap.lmAtlas map = LightmapAtlas.empty ->
  size (BSPMap.meshes map) = size (BSPMap.faces map) ->
  BSPMap.faces map' = BSPMap.faces map /\
  size (BSPMap.meshes map') = size (BSPMap.faces map') /\
  (LightmapAtlas.width (BSPMap.lmAtlas map') = 0 ->
   LightmapAtlas.perFace (BSPMap.lmAtlas map') = []) /\
  (LightmapAtlas.width (BSPMap.lmAtlas map') <> 0 ->
   size (LightmapAtlas.perFace (BSPMap.lmAtlas map')) = size (BSPMap.faces map')).
Proof.
  intros Hrun Hempty Hsz.
  destruct (BuildLightmaps_path map map' Hrun)
    as [_ -> | fl ms _ _ Hg Hm -> | fl ta _ _ Hg Hta Hc -> | fl ta W H Hn _ Hg Hta Hc Hb].
  - rewrite Hempty. simpl. repeat split; auto. intros []. reflexivity.
  - simpl. repeat split; auto.
    + apply length_mapM in Hm. unfold size in *. lia.
    + intros []. reflexivity.
  - simpl. repeat split; auto. intros []. reflexivity.
  - pose proof (BuildLightmaps_rewrites map map' fl ta Hrun Hn Hsz Hg
                  (or_intror (ex_intro _ W (ex_intro _ H Hc)))) as [Hms _].
    apply buildAtlas_spec in Hb as (pack & perFace & rgba & meshes & Hp & _ & _ & ->).
    simpl in *.
    destruct (gatherFaceLM_spec map fl ta Hg) as [_ Hok].
    destruct (chooseAtlasSize_fits fl W H Hc) as (HW & HH & _).
    apply (packLoop_spec map fl W H) in Hp as (Hpf & _); try lia; [| |apply size_nonneg].
    2:{ intros i inf Hi Hlm. destruct (Hok i inf Hi Hlm) as (? & ? & _). auto. }
    simpl in Hpf. repeat split; auto; lia.
Qed.

(** C2, as the code has it: after a successful load the meshes are 1:1
    with the faces and the atlas has no rectangles at all ([LoadBSP] does
    not build it); a later [BuildLightmaps] keeps the meshes 1:1 with the
    faces and leaves one rectangle per face exactly when it builds an atlas
    (non-zero width), none otherwise. *)
Theorem index_alignment (data : list byte) (palette : option (list byte))
        (map : BSPMap.t) (e : string) :
  LoadBSP (Some data) palette = Some (Some map, e) ->
  size (BSPMap.meshes map) = size (BSPMap.faces map) /\
  LightmapAtlas.perFace (BSPMap.lmAtlas map) = [] /\
  forall map',
    BuildLightmaps map = Some map' ->
    BSPMap.faces map' = BSPMap.faces map /\
    size (BSPMap.meshes map') = size (BSPMap.faces map') /\
    (LightmapAtlas.width (BSPMap.lmAtlas map') = 0 ->
     LightmapAtlas.perFace (BSPMap.lmAtlas map') = []) /\
    (LightmapAtlas.width (BSPMap.lmAtlas map') <> 0 ->
     size (LightmapAtlas.perFace (BSPMap.lmAtlas map')) = size (BSPMap.faces map')).
Proof.
  intros Hload.
  assert (sizeof_BSPHeader <= size data) as Hhdr.
  { unfold LoadBSP in Hload.
    destruct (Z.ltb_spec (size data) sizeof_BSPHeader); [discriminate | assumption]. }
  apply LoadBSP_Some in Hload as (v & _ & Hp & _); [|exact Hhdr]. simpl in Hp.
  apply parseLumps_map in Hp as (_ & Hsz & Hatlas & _).
  split; [exact Hsz|]. split; [rewrite Hatlas; reflexivity|].
  intros map' Hrun. apply BuildLightmaps_alignment; assumption.
Qed.

Lemma index_alignment_witness :
  size (BSPMap.meshes (loaded (triangleFile 29))) = 1 /\
  size (BSPMap.faces (loaded (triangleFile 29))) = 1 /\
  LightmapAtlas.perFace (BSPMap.lmAtlas (loaded (triangleFile 29))) = [].
Proof.
  destruct (index_alignment (triangleFile 29) None (loaded (triangleFile 29)) EmptyString)
    as (Hm & Hp & _).
  - vm_compute. reflexivity.
  - split; [reflexivity|]. split; [reflexivity | exact Hp].
Defined.

(** C2 as stated fails: the triangle file loads, with one face and no
    atlas rectangle. *)
Lemma index_alignment_counterexample :
  exists map e,
    LoadBSP (Some (triangleFile 29)) None = Some (Some map, e) /\
    size (BSPMap.meshes map) = size (BSPMap.faces map) /\
    size (LightmapAtlas.perFace (BSPMap.lmAtlas map)) <> size (BSPMap.faces map).
Proof.
  exists (loaded (triangleFile 29)), EmptyString.
  split; [vm_compute; reflexivity|].
  split; [reflexivity | vm_compute; discriminate].
Qed.

(** ** The pixels of the atlas *)

(** the byte index of pixel [(X, Y)] in an atlas [W] wide, and channel [k]
    of a texel written as [(v, v, v, 255)] *)
Definition pix (W X Y : Z) : Z := (Y * W + X) * 4.

Definition channel (k : Z) (v : byte) : byte := if k <? 3 then v else Byte.xff.

Definition inRect (rect : LightmapRect.t) (X Y : Z) : bool :=
  (LightmapRect.x rect <=? X) && (X <? LightmapRect.x rect + LightmapRect.w rect)
  && (LightmapRect.y rect <=? Y) && (Y <? LightmapRect.y rect + LightmapRect.h rect).

Lemma pix_inj W X Y k X0 Y0 k0 :
  0 <= X < W -> 0 <= X0 < W -> 0 <= k < 4 -> 0 <= k0 < 4 ->
  pix W X Y + k = pix W X0 Y0 + k0 ->
  X = X0 /\ Y = Y0 /\ k = k0.
Proof.
  unfold pix. intros HX HX0 Hk Hk0 E.
  assert (k = k0) as -> by lia.
  assert (Y * W + X = Y0 * W + X0) as E' by lia.
  assert (Y = Y0) as -> by nia.
  lia.
Qed.

Lemma pix_inside W H X Y :
  0 <= X < W -> 0 <= Y < H -> 0 <= pix W X Y /\ pix W X Y + 3 < W * H * 4.
Proof. unfold pix. intros HX HY. split; nia. Qed.

Lemma pixelIndex_pix W H rect x y :
  inside W H rect -> W <= 8192 -> H <= 8192 ->
  0 <= x < LightmapRect.w rect -> 0 <= y < LightmapRect.h rect ->
  pixelIndex W rect x y = pix W (LightmapRect.x rect + x) (LightmapRect.y rect + y).
Proof.
  intros (Hx & Hy & Hw & Hh & HxW & HyH) HW HH Hxr Hyr.
  unfold pixelIndex, pix, to_size_t.
  change (2 ^ 64) with 18446744073709551616.
  rewrite (Z.mod_small (LightmapRect.y rect + y)) by lia.
  rewrite (Z.mod_small W) by lia.
  rewrite (Z.mod_small (LightmapRect.x rect + x)) by lia.
  rewrite (Z.mod_small ((LightmapRect.y rect + y) * W + (LightmapRect.x rect + x))) by nia.
  apply Z.mod_small. nia.
Qed.

Lemma putPixel_spec rgba a r g b al rgba' :
  putPixel rgba a r g b al = Some rgba' ->
  size rgba' = size rgba /\
  forall i,
    at_ rgba' i =
    if i =? a + 3 then Some al
    else if i =? a + 2 then Some b
    else if i =? a + 1 then Some g
    else if i =? a + 0 then Some r
    else at_ rgba i.
Proof.
  unfold putPixel. intros H.
  destruct (store rgba (a + 0) r) as [r1|] eqn:H1; simpl in H; [|discriminate].
  destruct (store r1 (a + 1) g) as [r2|] eqn:H2; simpl in H; [|discriminate].
  destruct (store r2 (a + 2) b) as [r3|] eqn:H3; simpl in H; [|discriminate].
  apply store_Some in H1 as [I1 ->]. apply store_Some in H2 as [I2 ->].
  apply store_Some in H3 as [I3 ->]. apply store_Some in H as [I4 ->].
  rewrite !size_insert in *. split; [reflexivity|].
  intros i.
  destruct (Z.eqb_spec i (a + 3)) as [->|N3].
  { apply at_insert_eq. rewrite !size_insert. lia. }
  rewrite at_insert_ne by lia.
  destruct (Z.eqb_spec i (a + 2)) as [->|N2].
  { apply at_insert_eq. rewrite !size_insert. lia. }
  rewrite at_insert_ne by lia.
  destruct (Z.eqb_spec i (a + 1)) as [->|N1].
  { apply at_insert_eq. rewrite !size_insert. lia. }
  rewrite at_insert_ne by lia.
  destruct (Z.eqb_spec i (a + 0)) as [->|N0].
  { apply at_insert_eq. lia. }
  apply at_insert_ne; lia.
Qed.

Lemma putPixel_defined rgba a r g b al :
  0 <= a -> a + 3 < size rgba -> is_Some (putPixel rgba a r g b al).
Proof.
  intros Ha Hb. unfold putPixel.
  destruct (store_is_Some rgba (a + 0) r) as [r1 H1]; [lia|].
  rewrite H1. cbn [mbind option_bind]. apply store_Some in H1 as [_ ->].
  destruct (store_is_Some (<[Z.to_nat (a + 0) := r]> rgba) (a + 1) g) as [r2 H2];
    [rewrite size_insert; lia|].
  rewrite H2. cbn [mbind option_bind]. apply store_Some in H2 as [_ ->].
  destruct (store_is_Some
              (<[Z.to_nat (a + 1) := g]> (<[Z.to_nat (a + 0) := r]> rgba)) (a + 2) b)
    as [r3 H3]; [rewrite !size_insert; lia|].
  rewrite H3. cbn [mbind option_bind]. apply store_Some in H3 as [_ ->].
  apply store_is_Some. rewrite !size_insert. lia.
Qed.

(** writing pixel [(X0, Y0)] changes the four channels of that pixel and
    nothing else *)
Lemma putPixel_pix W rgba X0 Y0 v rgba' :
  0 <= X0 < W ->
  putPixel rgba (pix W X0 Y0) v v v Byte.xff = Some rgba' ->
  size rgba' = size rgba /\
  forall X Y k,
    0 <= X < W -> 0 <= k < 4 ->
    at_ rgba' (pix W X Y + k) =
    if (X =? X0) && (Y =? Y0) then Some (channel k v) else at_ rgba (pix W X Y + k).
Proof.
  intros HX0 Hput. apply putPixel_spec in Hput as [Hs Hat]. split; [exact Hs|].
  intros X Y k HX Hk. rewrite Hat.
  destruct (Z.eqb_spec X X0) as [->|NX]; [destruct (Z.eqb_spec Y Y0) as [->|NY]|];
    cbn [andb].
  - unfold channel.
    destruct (Z.eqb_spec (pix W X0 Y0 + k) (pix W X0 Y0 + 3)) as [E|N3].
    { destruct (Z.ltb_spec k 3); [lia | reflexivity]. }
    destruct (Z.ltb_spec k 3); [|lia].
    destruct (Z.eqb_spec (pix W X0 Y0 + k) (pix W X0 Y0 + 2)); [reflexivity|].
    destruct (Z.eqb_spec (pix W X0 Y0 + k) (pix W X0 Y0 + 1)); [reflexivity|].
    destruct (Z.eqb_spec (pix W X0 Y0 + k) (pix W X0 Y0 + 0)); [reflexivity|]. lia.
  - repeat match goal with
           | |- context [Z.eqb ?a ?b] =>
               destruct (Z.eqb_spec a b) as [E|_];
               [apply pix_inj in E as (_ & ? & _); [contradiction | lia..]|]
           end.
    reflexivity.
  - repeat match goal with
           | |- context [Z.eqb ?a ?b] =>
               destruct (Z.eqb_spec a b) as [E|_];
               [apply pix_inj in E as (? & _ & _); [contradiction | lia..]|]
           end.
    reflexivity.
Qed.

Section FillRect.
Variables (W H : Z) (rect : LightmapRect.t) (texel : Z -> Z -> option byte).
Hypothesis rect_inside : inside W H rect.
Hypothesis W_small : W <= 8192.
Hypothesis H_small : H <= 8192.

Local Abbreviation rx := (LightmapRect.x rect).
Local Abbreviation ry := (LightmapRect.y rect).
Local Abbreviation rw := (LightmapRect.w rect).
Local Abbreviation rh := (LightmapRect.h rect).

(** the inner loop of [fillRect]: row [y] of the rectangle *)
Definition fillRow (y : Z) (rgba : list byte) : option (list byte) :=
  for_ 0 rw
       (fun x rgba =>
          v ← texel x y;
          putPixel rgba (pixelIndex W rect x y) v v v Byte.xff)
       rgba.

Lemma fillRect_rows rgba :
  fillRect W rect texel rgba = for_ 0 rh fillRow rgba.
Proof. reflexivity. Qed.

Lemma fillRow_spec y rgba rgba' :
  0 <= y < rh ->
  fillRow y rgba = Some rgba' ->
  size rgba' = size rgba /\
  forall X Y k,
    0 <= X < W -> 0 <= k < 4 ->
    at_ rgba' (pix W X Y + k) =
    if (Y =? ry + y) && (rx <=? X) && (X <? rx + rw)
    then channel k <$> texel (X - rx) y
    else at_ rgba (pix W X Y + k).
Proof.
  intros Hy Hrun. unfold fillRow in Hrun.
  destruct rect_inside as (Hx0 & Hy0 & Hw0 & Hh0 & HxW & HyH).
  pose (P := fun (x' : Z) (r : list byte) =>
    size r = size rgba /\
    forall X Y k,
      0 <= X < W -> 0 <= k < 4 ->
      at_ r (pix W X Y + k) =
      if (Y =? ry + y) && (rx <=? X) && (X <? rx + x')
      then channel k <$> texel (X - rx) y
      else at_ rgba (pix W X Y + k)).
  apply (for_inv P) in Hrun; [exact Hrun | lia | |].
  - split; [reflexivity|]. intros X Y k HX Hk.
    destruct (Y =? ry + y), (Z.leb_spec rx X), (Z.ltb_spec X (rx + 0));
      cbn [andb]; try reflexivity; lia.
  - intros x' r r' Hx' [Hs Hat] Hstep.
    destruct (texel x' y) as [v|] eqn:Hv; simpl in Hstep; [|discriminate].
    rewrite (pixelIndex_pix W H rect x' y rect_inside W_small H_small Hx' Hy) in Hstep.
    apply putPixel_pix in Hstep as [Hs' Hat']; [|lia].
    split; [congruence|].
    intros X Y k HX Hk. rewrite Hat' by assumption. rewrite Hat by assumption.
    destruct (Z.eqb_spec X (rx + x')) as [->|NX];
      destruct (Z.eqb_spec Y (ry + y)) as [->|NY]; cbn [andb].
    + destruct (Z.leb_spec rx (rx + x')); [|lia].
      destruct (Z.ltb_spec (rx + x') (rx + (x' + 1))); [|lia]. cbn [andb].
      replace (rx + x' - rx) with x' by lia. rewrite Hv. reflexivity.
    + reflexivity.
    + destruct (Z.leb_spec rx X); cbn [andb]; [|reflexivity].
      destruct (Z.ltb_spec X (rx + x')), (Z.ltb_spec X (rx + (x' + 1)));
        try reflexivity; lia.
    + reflexivity.
Qed.

Lemma fillRow_defined y rgba :
  0 <= y < rh ->
  size rgba = W * H * 4 ->
  (forall x, 0 <= x < rw -> is_Some (texel x y)) ->
  is_Some (fillRow y rgba).
Proof.
  intros Hy Hsz Htex. unfold fillRow.
  destruct rect_inside as (Hx0 & Hy0 & Hw0 & Hh0 & HxW & HyH).
  destruct (for_total (fun _ r => size r = W * H * 4)
              (fun x rgba => v ← texel x y;
                             putPixel rgba (pixelIndex W rect x y) v v v Byte.xff)
              0 rw rgba ltac:(lia) Hsz) as (r' & Hr & _); [|eauto].
  intros x r Hx Hr.
  destruct (Htex x Hx) as [v Hv]. rewrite Hv. cbn [mbind option_bind].
  rewrite (pixelIndex_pix W H rect x y rect_inside W_small H_small Hx Hy).
  destruct (pix_inside W H (rx + x) (ry + y)) as [Ha Hb]; [lia | lia |].
  destruct (putPixel_defined r (pix W (rx + x) (ry + y)) v v v Byte.xff) as [r' Hr'];
    [lia | lia |].
  exists r'. split; [exact Hr'|].
  apply putPixel_spec in Hr' as [-> _]. exact Hr.
Qed.

(** [fillRect] writes [(v, v, v, 255)] with [v = texel x y] at every pixel
    of the rectangle and leaves every other pixel alone *)
Lemma fillRect_spec rgba rgba' :
  fillRect W rect texel rgba = Some rgba' ->
  size rgba' = size rgba /\
  forall X Y k,
    0 <= X < W -> 0 <= k < 4 ->
    at_ rgba' (pix W X Y + k) =
    if inRect rect X Y
    then channel k <$> texel (X - rx) (Y - ry)
    else at_ rgba (pix W X Y + k).
Proof.
  rewrite fillRect_rows. intros Hrun.
  destruct rect_inside as (Hx0 & Hy0 & Hw0 & Hh0 & HxW & HyH).
  pose (P := fun (y' : Z) (r : list byte) =>
    size r = size rgba /\
    forall X Y k,
      0 <= X < W -> 0 <= k < 4 ->
      at_ r (pix W X Y + k) =
      if (rx <=? X) && (X <? rx + rw) && (ry <=? Y) && (Y <? ry + y')
      then channel k <$> texel (X - rx) (Y - ry)
      else at_ rgba (pix W X Y + k)).
  apply (for_inv P) in Hrun; [exact Hrun | lia | |].
  - split; [reflexivity|]. intros X Y k HX Hk.
    destruct (rx <=? X), (X <? rx + rw), (Z.leb_spec ry Y), (Z.ltb_spec Y (ry + 0));
      cbn [andb]; try reflexivity; lia.
  - intros y' r r' Hy' [Hs Hat] Hstep.
    apply fillRow_spec in Hstep as [Hs' Hat']; [|exact Hy'].
    split; [congruence|].
    intros X Y k HX Hk. rewrite Hat' by assumption. rewrite Hat by assumption.
    destruct (Z.eqb_spec Y (ry + y')) as [->|NY]; cbn [andb].
    + destruct (Z.leb_spec rx X), (Z.ltb_spec X (rx + rw)); cbn [andb];
        try (destruct (Z.leb_spec ry (ry + y')), (Z.ltb_spec (ry + y') (ry + y'));
             cbn [andb]; try reflexivity; lia).
      destruct (Z.leb_spec ry (ry + y')); [|lia].
      destruct (Z.ltb_spec (ry + y') (ry + (y' + 1))); [|lia]. cbn [andb].
      replace (ry + y' - ry) with y' by lia. reflexivity.
    + destruct (rx <=? X), (X <? rx + rw), (Z.leb_spec ry Y); cbn [andb];
        try reflexivity.
      destruct (Z.ltb_spec Y (ry + y')), (Z.ltb_spec Y (ry + (y' + 1)));
        try reflexivity; lia.
Qed.

Lemma fillRect_defined rgba :
  size rgba = W * H * 4 ->
  (forall x y, 0 <= x < rw -> 0 <= y < rh -> is_Some (texel x y)) ->
  is_Some (fillRect W rect texel rgba).
Proof.
  intros Hsz Htex. rewrite fillRect_rows.
  destruct rect_inside as (Hx0 & Hy0 & Hw0 & Hh0 & HxW & HyH).
  destruct (for_total (fun _ r => size r = W * H * 4) fillRow 0 rh rgba
                      ltac:(lia) Hsz) as (r' & Hr & _); [|eauto].
  intros y r Hy Hr.
  destruct (fillRow_defined y r Hy Hr) as [r' Hr']; [intros; apply Htex; lia|].
  exists r'. split; [exact Hr'|].
  apply fillRow_spec in Hr' as [-> _]; assumption.
Qed.
End FillRect.

(** ** Filling the atlas *)

(** the byte the spec asks for at texel [(x, y)] of a rectangle: 255 when
    the [w * h] bytes at [lightofs] do not all lie in the lighting array,
    [lighting[lightofs + y*w + x]] otherwise *)
Definition expectedTexel (map : BSPMap.t) (rect : LightmapRect.t) (x y : Z) : option byte :=
  if size (BSPMap.lighting map)
     <? LightmapRect.lightofs rect + LightmapRect.w rect * LightmapRect.h rect
  then Some Byte.xff
  else at_ (BSPMap.lighting map)
           (LightmapRect.lightofs rect + y * LightmapRect.w rect + x).

(** the sizes the C++ types allow: [lightofs] is an [int32_t], a vector is
    shorter than 2^63 *)
Definition wellSized (map : BSPMap.t) : Prop :=
  size (BSPMap.lighting map) < 2 ^ 63 /\
  forall fi f, at_ (BSPMap.faces map) fi = Some f -> Face.lightofs f < 2 ^ 31.

Section FillLoop.
Variables (map : BSPMap.t) (faceLM : list FaceLM.t) (W H : Z).
Variables (pack : ShelfPacker.t) (perFace : list LightmapRect.t).
Hypothesis map_sized : wellSized map.
Hypothesis faceLM_good : forall fi inf, at_ faceLM fi = Some inf -> faceLM_ok map fi inf.
Hypothesis W_range : 0 < W <= 8192.
Hypothesis H_range : 0 < H <= 8192.
Hypothesis packed :
  packInv map faceLM W H (size (BSPMap.faces map)) (size (BSPMap.faces map))
          (pack, perFace).

Lemma valid_rect fi rect :
  at_ perFace fi = Some rect -> LightmapRect.valid rect = true ->
  inside W H rect /\
  LightmapRect.w rect * LightmapRect.h rect <= F32.int_max /\
  exists f, at_ (BSPMap.faces map) fi = Some f /\
            LightmapRect.lightofs rect = Face.lightofs f /\
            0 <= Face.lightofs f < size (BSPMap.lighting map) /\
            to_size_t (Face.lightofs f) = Face.lightofs f.
Proof.
  intros Hat Hv. destruct packed as (Hsz & _ & Hrect & _). simpl in *.
  pose proof (at_lt _ _ _ Hat) as Hfi.
  destruct (Hrect fi rect ltac:(lia) Hat) as [_ Hb].
  destruct (Hb Hv) as ((inf & f & Hinf & Hlm & Hw & Hh & Hf & Hlo) & Hin & _).
  destruct (faceLM_good fi inf Hinf Hlm) as (_ & _ & Harea & f' & Hf' & Hlo0 & Hlt).
  rewrite Hf in Hf'. injection Hf' as <-.
  destruct map_sized as [Hls Hty].
  assert (to_size_t (Face.lightofs f) = Face.lightofs f) as Hts.
  { apply to_size_t_small. specialize (Hty fi f Hf).
    change (2 ^ 31) with 2147483648 in Hty.
    change (2 ^ 64) with 18446744073709551616. lia. }
  split; [exact Hin|]. split; [rewrite Hw, Hh; exact Harea|].
  exists f. rewrite Hts in Hlt. auto.
Qed.

(** step 5 for a face with a valid rectangle is [fillRect] with the
    expected texels *)
Lemma fillStep_spec fi rect rgba rgba' :
  at_ perFace fi = Some rect -> LightmapRect.valid rect = true ->
  fillStep map W perFace fi rgba = Some rgba' ->
  size rgba' = size rgba /\
  forall X Y k,
    0 <= X < W -> 0 <= k < 4 ->
    at_ rgba' (pix W X Y + k) =
    if inRect rect X Y
    then channel k <$> expectedTexel map rect (X - LightmapRect.x rect)
                                     (Y - LightmapRect.y rect)
    else at_ rgba (pix W X Y + k).
Proof.
  intros Hat Hv Hstep.
  destruct (valid_rect fi rect Hat Hv)
    as (Hin & Harea & f & Hf & Hlo & Hrange & Hts).
  pose proof Hin as (Hx0 & Hy0 & Hw0 & Hh0 & HxW & HyH).
  destruct map_sized as [Hls _].
  change (2 ^ 63) with 9223372036854775808 in Hls.
  unfold F32.int_max in Harea.
  unfold fillStep in Hstep. rewrite Hat in Hstep. cbn [mbind option_bind] in Hstep.
  rewrite Hv in Hstep. cbn [negb] in Hstep. rewrite Hf in Hstep.
  cbn [mbind option_bind] in Hstep. rewrite Hts in Hstep.
  rewrite (to_size_t_small (LightmapRect.w rect)) in Hstep
    by (change (2 ^ 64) with 18446744073709551616; lia).
  rewrite (to_size_t_small (LightmapRect.h rect)) in Hstep
    by (change (2 ^ 64) with 18446744073709551616; lia).
  rewrite (Z.mod_small (LightmapRect.w rect * LightmapRect.h rect)) in Hstep
    by (change (2 ^ 64) with 18446744073709551616; nia).
  rewrite (Z.mod_small (Face.lightofs f + _)) in Hstep
    by (change (2 ^ 64) with 18446744073709551616; nia).
  unfold expectedTexel. rewrite Hlo.
  destruct (Z.ltb_spec (size (BSPMap.lighting map))
                       (Face.lightofs f + LightmapRect.w rect * LightmapRect.h rect))
    as [Hbig|Hfit].
  - apply (fillRect_spec W H rect _ Hin) in Hstep; try lia. exact Hstep.
  - apply (fillRect_spec W H rect _ Hin) in Hstep as [Hs Hpx]; try lia.
    split; [exact Hs|]. intros X Y k HX Hk. rewrite (Hpx X Y k HX Hk).
    unfold inRect.
    destruct (Z.leb_spec (LightmapRect.x rect) X); cbn [andb]; [|reflexivity].
    destruct (Z.ltb_spec X (LightmapRect.x rect + LightmapRect.w rect)); cbn [andb];
      [|reflexivity].
    destruct (Z.leb_spec (LightmapRect.y rect) Y); cbn [andb]; [|reflexivity].
    destruct (Z.ltb_spec Y (LightmapRect.y rect + LightmapRect.h rect)); cbn [andb];
      [|reflexivity].
    assert (0 <= (Y - LightmapRect.y rect) * LightmapRect.w rect
            < LightmapRect.w rect * LightmapRect.h rect) by nia.
    rewrite (to_size_t_small (Y - LightmapRect.y rect))
      by (change (2 ^ 64) with 18446744073709551616; lia).
    rewrite (to_size_t_small (X - LightmapRect.x rect))
      by (change (2 ^ 64) with 18446744073709551616; lia).
    rewrite (Z.mod_small ((Y - LightmapRect.y rect) * LightmapRect.w rect))
      by (change (2 ^ 64) with 18446744073709551616; lia).
    rewrite Z.mod_small by (change (2 ^ 64) with 18446744073709551616; lia).
    reflexivity.
Qed.

(** step 5 never reads outside the lighting array nor writes outside the
    atlas *)
Lemma fillStep_defined fi rgba :
  0 <= fi < size (BSPMap.faces map) ->
  size rgba = W * H * 4 ->
  is_Some (fillStep map W perFace fi rgba).
Proof.
  intros Hfi Hsz. destruct packed as (Hpf & _). simpl in Hpf.
  destruct (at_is_Some perFace fi ltac:(lia)) as [rect Hat].
  unfold fillStep. rewrite Hat. cbn [mbind option_bind].
  destruct (LightmapRect.valid rect) eqn:Hv; cbn [negb]; [|eauto].
  destruct (valid_rect fi rect Hat Hv)
    as (Hin & Harea & f & Hf & Hlo & Hrange & Hts).
  pose proof Hin as (Hx0 & Hy0 & Hw0 & Hh0 & HxW & HyH).
  destruct map_sized as [Hls _].
  change (2 ^ 63) with 9223372036854775808 in Hls.
  unfold F32.int_max in Harea.
  rewrite Hf. cbn [mbind option_bind]. rewrite Hts.
  rewrite (to_size_t_small (LightmapRect.w rect))
    by (change (2 ^ 64) with 18446744073709551616; lia).
  rewrite (to_size_t_small (LightmapRect.h rect))
    by (change (2 ^ 64) with 18446744073709551616; lia).
  rewrite (Z.mod_small (LightmapRect.w rect * LightmapRect.h rect))
    by (change (2 ^ 64) with 18446744073709551616; nia).
  rewrite (Z.mod_small (Face.lightofs f + _))
    by (change (2 ^ 64) with 18446744073709551616; nia).
  destruct (Z.ltb_spec (size (BSPMap.lighting map))
                       (Face.lightofs f + LightmapRect.w rect * LightmapRect.h rect))
    as [Hbig|Hfit].
  - apply (fillRect_defined W H rect _ Hin); try lia. intros; eauto.
  - apply (fillRect_defined W H rect _ Hin); try lia.
    intros x y Hx Hy. apply at_is_Some.
    assert (0 <= y * LightmapRect.w rect
            /\ y * LightmapRect.w rect + x < LightmapRect.w rect * LightmapRect.h rect)
      by nia.
    rewrite (to_size_t_small y) by (change (2 ^ 64) with 18446744073709551616; lia).
    rewrite (to_size_t_small x) by (change (2 ^ 64) with 18446744073709551616; lia).
    rewrite (Z.mod_small (y * LightmapRect.w rect))
      by (change (2 ^ 64) with 18446744073709551616; lia).
    rewrite Z.mod_small by (change (2 ^ 64) with 18446744073709551616; lia).
    lia.
Qed.

Lemma fillStep_size fi rgba rgba' :
  fillStep map W perFace fi rgba = Some rgba' -> size rgba' = size rgba.
Proof.
  intros Hstep. pose proof Hstep as Hstep'. unfold fillStep in Hstep.
  destruct (at_ perFace fi) as [rect|] eqn:Hat; simpl in Hstep; [|discriminate].
  destruct (LightmapRect.valid rect) eqn:Hv; cbn [negb] in Hstep.
  - apply (fillStep_spec fi rect rgba rgba' Hat Hv Hstep').
  - congruence.
Qed.

(** the loop of step 5 runs to its end *)
Lemma fillLoop_defined rgba :
  size rgba = W * H * 4 ->
  is_Some (for_ 0 (size (BSPMap.faces map)) (fillStep map W perFace) rgba).
Proof.
  intros Hsz.
  destruct (for_total (fun _ r => size r = W * H * 4) (fillStep map W perFace)
                      0 (size (BSPMap.faces map)) rgba (size_nonneg _) Hsz)
    as (r' & Hr & _); [|eauto].
  intros j r Hj Hr. destruct (fillStep_defined j r Hj Hr) as [r' Hr'].
  exists r'. split; [exact Hr'|]. rewrite (fillStep_size _ _ _ Hr'). exact Hr.
Qed.

(** after step 5 every pixel of every valid rectangle holds the expected
    texel in R, G and B, and 255 in A *)
Lemma fillLoop_spec rgba rgba' :
  for_ 0 (size (BSPMap.faces map)) (fillStep map W perFace) rgba = Some rgba' ->
  size rgba' = size rgba /\
  forall fi rect x y k,
    at_ perFace fi = Some rect -> LightmapRect.valid rect = true ->
    0 <= x < LightmapRect.w rect -> 0 <= y < LightmapRect.h rect -> 0 <= k < 4 ->
    at_ rgba' (pix W (LightmapRect.x rect + x) (LightmapRect.y rect + y) + k)
    = channel k <$> expectedTexel map rect x y.
Proof.
  intros Hrun.
  pose (J := fun (j : Z) (r : list byte) =>
    size r = size rgba /\
    forall fi rect x y k,
      0 <= fi < j ->
      at_ perFace fi = Some rect -> LightmapRect.valid rect = true ->
      0 <= x < LightmapRect.w rect -> 0 <= y < LightmapRect.h rect -> 0 <= k < 4 ->
      at_ r (pix W (LightmapRect.x rect + x) (LightmapRect.y rect + y) + k)
      = channel k <$> expectedTexel map rect x y).
  apply (for_inv J) in Hrun; [| apply size_nonneg | |].
  - destruct Hrun as [Hs Hall]. split; [exact Hs|].
    intros fi rect x y k Hat. apply (Hall fi); [|exact Hat].
    apply at_lt in Hat. destruct packed as (Hpf & _). simpl in Hpf. lia.
  - split; [reflexivity|]. intros; lia.
  - intros j r r' Hj [Hs Hall] Hstep.
    split; [rewrite (fillStep_size _ _ _ Hstep); exact Hs|].
    intros fi rect x y k Hfi Hat Hv Hx Hy Hk.
    destruct (valid_rect fi rect Hat Hv) as (Hin & _).
    pose proof Hin as (Hx0 & Hy0 & Hw0 & Hh0 & HxW & HyH).
    pose proof Hstep as Hstep'. unfold fillStep in Hstep'.
    destruct (at_ perFace j) as [rj|] eqn:Hatj; simpl in Hstep'; [|discriminate].
    destruct (LightmapRect.valid rj) eqn:Hvj; cbn [negb] in Hstep'.
    2:{ injection Hstep' as <-. apply (Hall fi); auto.
        destruct (Z.eq_dec fi j) as [->|]; [congruence | lia]. }
    clear Hstep'.
    destruct (fillStep_spec j rj r r' Hatj Hvj Hstep) as [_ Hpx].
    rewrite Hpx by lia.
    destruct (Z.eq_dec fi j) as [->|Hne].
    + rewrite Hatj in Hat. injection Hat as ->.
      unfold inRect.
      destruct (Z.leb_spec (LightmapRect.x rect) (LightmapRect.x rect + x)); [|lia].
      destruct (Z.ltb_spec (LightmapRect.x rect + x)
                           (LightmapRect.x rect + LightmapRect.w rect)); [|lia].
      destruct (Z.leb_spec (LightmapRect.y rect) (LightmapRect.y rect + y)); [|lia].
      destruct (Z.ltb_spec (LightmapRect.y rect + y)
                           (LightmapRect.y rect + LightmapRect.h rect)); [|lia].
      cbn [andb].
      replace (LightmapRect.x rect + x - LightmapRect.x rect) with x by lia.
      replace (LightmapRect.y rect + y - LightmapRect.y rect) with y by lia.
      reflexivity.
    + destruct packed as (_ & _ & _ & Hdis). simpl in Hdis.
      pose proof (at_lt _ _ _ Hatj) as Hjr.
      assert (disjoint rect rj) as Hd by (apply (Hdis fi j); auto; lia).
      assert (inRect rj (LightmapRect.x rect + x) (LightmapRect.y rect + y) = false)
        as ->.
      { unfold inRect, disjoint in *.
        destruct (Z.leb_spec (LightmapRect.x rj) (LightmapRect.x rect + x));
          cbn [andb]; [|reflexivity].
        destruct (Z.ltb_spec (LightmapRect.x rect + x)
                             (LightmapRect.x rj + LightmapRect.w rj));
          cbn [andb]; [|reflexivity].
        destruct (Z.leb_spec (LightmapRect.y rj) (LightmapRect.y rect + y));
          cbn [andb]; [|reflexivity].
        destruct (Z.ltb_spec (LightmapRect.y rect + y)
                             (LightmapRect.y rj + LightmapRect.h rj));
          [lia | reflexivity]. }
      apply (Hall fi); auto. lia.
Qed.
End FillLoop.

(** the RGBA value of pixel [(X, Y)] of the atlas *)
Definition pixel (atlas : LightmapAtlas.t) (X Y : Z) : option (byte * byte * byte * byte) :=
  let a := pix (LightmapAtlas.width atlas) X Y in
  r ← at_ (LightmapAtlas.rgba atlas) (a + 0);
  g ← at_ (LightmapAtlas.rgba atlas) (a + 1);
  b ← at_ (LightmapAtlas.rgba atlas) (a + 2);
  al ← at_ (LightmapAtlas.rgba atlas) (a + 3);
  Some (r, g, b, al).

Lemma size_atlas_buffer W H :
  0 < W <= 8192 -> 0 < H <= 8192 ->
  size (replicate (Z.to_nat (to_size_t W * to_size_t H * 4)) Byte.xff) = W * H * 4.
Proof.
  intros HW HH. rewrite size_replicate.
  rewrite !to_size_t_small by (change (2 ^ 64) with 18446744073709551616; lia).
  nia.
Qed.

(** C9: in the atlas [BuildLightmaps] leaves in the map, every pixel of a
    valid rectangle is opaque white when [lightofs + w*h] is beyond the
    lighting array, and [(v, v, v, 255)] with [v = lighting[lightofs + y*w
    + x]] otherwise; and the loop that fills the atlas is defined for every
    packing: it reads no lighting byte and writes no atlas byte outside the
    arrays. *)
Theorem atlas_pixel_fill (map map' : BSPMap.t) :
  BuildLightmaps map = Some map' ->
  BSPMap.lmAtlas map = LightmapAtlas.empty ->
  wellSized map ->
  (forall fi rect x y,
      at_ (LightmapAtlas.perFace (BSPMap.lmAtlas map')) fi = Some rect ->
      LightmapRect.valid rect = true ->
      0 <= x < LightmapRect.w rect -> 0 <= y < LightmapRect.h rect ->
      0 <= LightmapRect.lightofs rect /\
      if size (BSPMap.lighting map)
         <? LightmapRect.lightofs rect + LightmapRect.w rect * LightmapRect.h rect
      then pixel (BSPMap.lmAtlas map') (LightmapRect.x rect + x) (LightmapRect.y rect + y)
           = Some (Byte.xff, Byte.xff, Byte.xff, Byte.xff)
      else exists v,
          at_ (BSPMap.lighting map)
              (LightmapRect.lightofs rect + y * LightmapRect.w rect + x) = Some v /\
          pixel (BSPMap.lmAtlas map') (LightmapRect.x rect + x) (LightmapRect.y rect + y)
          = Some (v, v, v, Byte.xff)) /\
  (forall faceLM total W H pack perFace,
      gatherFaceLM map = Some (faceLM, total) ->
      chooseAtlasSize faceLM = Some (Some (W, H)) ->
      for_ 0 (size (BSPMap.faces map)) (packStep map faceLM)
           (ShelfPacker.new W H,
            resize (size (BSPMap.faces map)) LightmapRect.empty
                   (LightmapAtlas.perFace (BSPMap.lmAtlas map)))
      = Some (pack, perFace) ->
      is_Some (for_ 0 (size (BSPMap.faces map)) (fillStep map W perFace)
                    (replicate (Z.to_nat (to_size_t W * to_size_t H * 4)) Byte.xff))).
Proof.
  intros Hrun Hempty Hsized.
  assert (forall faceLM total W H pack perFace,
             gatherFaceLM map = Some (faceLM, total) ->
             chooseAtlasSize faceLM = Some (Some (W, H)) ->
             for_ 0 (size (BSPMap.faces map)) (packStep map faceLM)
                  (ShelfPacker.new W H,
                   resize (size (BSPMap.faces map)) LightmapRect.empty
                          (LightmapAtlas.perFace (BSPMap.lmAtlas map)))
             = Some (pack, perFace) ->
             (forall fi inf, at_ faceLM fi = Some inf -> faceLM_ok map fi inf) /\
             0 < W <= 8192 /\ 0 < H <= 8192 /\
             packInv map faceLM W H (size (BSPMap.faces map)) (size (BSPMap.faces map))
                     (pack, perFace)) as Hsetup.
  { intros faceLM total W H pack perFace Hg Hc Hp.
    destruct (gatherFaceLM_spec map faceLM total Hg) as [_ Hok].
    destruct (chooseAtlasSize_fits faceLM W H Hc) as (HW & HH & _).
    split; [exact Hok|]. split; [lia|]. split; [lia|].
    apply (packLoop_spec map faceLM W H) in Hp; try lia; [exact Hp| |apply size_nonneg].
    intros i inf Hi Hlm. destruct (Hok i inf Hi Hlm) as (? & ? & _). auto. }
  split.
  - intros fi rect x y Hat Hv Hx Hy.
    destruct (BuildLightmaps_path map map' Hrun)
      as [_ -> | fl ms _ _ _ _ -> | fl ta _ _ _ _ _ -> | fl ta W H _ _ Hg _ Hc Hb];
      try (simpl in Hat; rewrite ?Hempty in Hat; apply at_lt in Hat;
           unfold size in Hat; simpl in Hat; lia).
    apply buildAtlas_spec in Hb as (pack & perFace & rgba & meshes & Hp & Hf & _ & ->).
    simpl in *.
    destruct (Hsetup fl ta W H pack perFace Hg Hc Hp) as (Hok & HW & HH & Hinv).
    destruct (valid_rect map fl W H pack perFace Hsized Hok Hinv fi rect Hat Hv)
      as (Hin & _ & f & _ & Hlo & Hrange & _).
    pose proof Hin as (Hx0 & Hy0 & Hw0 & Hh0 & HxW & HyH).
    split; [lia|].
    destruct (fillLoop_spec map fl W H pack perFace Hsized Hok HW HH Hinv _ _ Hf)
      as [_ Hpx].
    assert (forall k, 0 <= k < 4 ->
              at_ rgba (pix W (LightmapRect.x rect + x) (LightmapRect.y rect + y) + k)
              = channel k <$> expectedTexel map rect x y) as Hch
        by (intros k Hk; apply (Hpx fi); auto).
    unfold pixel. simpl.
    rewrite (Hch 0), (Hch 1), (Hch 2), (Hch 3) by lia.
    unfold expectedTexel.
    destruct (Z.ltb_spec (size (BSPMap.lighting map))
                         (LightmapRect.lightofs rect
                          + LightmapRect.w rect * LightmapRect.h rect)) as [Hbig|Hfit].
    + reflexivity.
    + destruct (at_is_Some (BSPMap.lighting map)
                  (LightmapRect.lightofs rect + y * LightmapRect.w rect + x))
        as [v Hvv]; [nia|].
      exists v. split; [exact Hvv|]. rewrite Hvv. reflexivity.
  - intros faceLM total W H pack perFace Hg Hc Hp.
    destruct (Hsetup faceLM total W H pack perFace Hg Hc Hp) as (Hok & HW & HH & Hinv).
    apply (fillLoop_defined map faceLM W H pack perFace Hsized Hok HW HH Hinv).
    apply size_atlas_buffer; assumption.
Qed.

(** The triangle file carries sixteen light bytes of value 7 and its face
    gets the 2 x 2 rectangle at the origin of a 1024 x 1024 atlas: the
    pixel at (1, 1) is (7, 7, 7, 255). *)
Lemma atlas_pixel_fill_witness :
  exists map',
    BuildLightmaps (loaded (triangleFile 29)) = Some map' /\
    BSPMap.lmAtlas (loaded (triangleFile 29)) = LightmapAtlas.empty /\
    wellSized (loaded (triangleFile 29)) /\
    at_ (LightmapAtlas.perFace (BSPMap.lmAtlas map')) 0
    = Some (LightmapRect.mk 0 0 2 2 0 true) /\
    pixel (BSPMap.lmAtlas map') 1 1 = Some (Byte.x07, Byte.x07, Byte.x07, Byte.xff).
Proof.
  pose (map := loaded (triangleFile 29)).
  assert (is_Some (BuildLightmaps map)) as [map' Hrun].
  { assert (match BuildLightmaps map with Some _ => true | None => false end = true)
      as Hsome by (vm_compute; reflexivity).
    destruct (BuildLightmaps map) as [m|]; [eauto | discriminate Hsome]. }
  assert (BSPMap.lmAtlas map = LightmapAtlas.empty) as Hempty by (vm_compute; reflexivity).
  assert (BSPMap.faces map = [Face.mk 0 0 0 3 0 [Byte.x00; Byte.xff; Byte.xff; Byte.xff] 0]) as Hfaces by (vm_compute; reflexivity).
  assert (BSPMap.lighting map = replicate 16 Byte.x07) as Hlight
      by (vm_compute; reflexivity).
  assert (wellSized map) as Hsized.
  { split; [rewrite Hlight; vm_compute; reflexivity|].
    intros fi f. rewrite Hfaces. intros Hat.
    pose proof (at_lt _ _ _ Hat) as Hfi. change (size [Face.mk 0 0 0 3 0 [Byte.x00; Byte.xff; Byte.xff; Byte.xff] 0]) with 1 in Hfi.
    replace fi with 0 in Hat by lia. injection Hat as <-. vm_compute. reflexivity. }
  assert (at_ (LightmapAtlas.perFace (BSPMap.lmAtlas map')) 0
          = Some (LightmapRect.mk 0 0 2 2 0 true)) as Hrect.
  { assert ((fun m => at_ (LightmapAtlas.perFace (BSPMap.lmAtlas m)) 0)
              <$> BuildLightmaps map
            = Some (Some (LightmapRect.mk 0 0 2 2 0 true))) as Hpf
        by (vm_compute; reflexivity).
    rewrite Hrun in Hpf. injection Hpf as Hpf. exact Hpf. }
  exists map'. split; [exact Hrun|]. split; [exact Hempty|]. split; [exact Hsized|].
  split; [exact Hrect|].
  destruct (atlas_pixel_fill map map' Hrun Hempty Hsized) as [Hfill _].
  destruct (Hfill 0 (LightmapRect.mk 0 0 2 2 0 true) 1 1 Hrect eq_refl
                  ltac:(simpl; lia) ltac:(simpl; lia)) as [_ Hpx].
  rewrite Hlight in Hpx.
  destruct Hpx as (v & Hv & Hpx).
  injection Hv as <-. exact Hpx.
Defined.

(** ** More on vectors and loops *)

(** a property that every iteration keeps holds after a loop *)
Lemma for_keeps {S} (P : S -> Prop) (body : Z -> S -> option S) lo hi s s' :
  (forall j t t', lo <= j < hi -> P t -> body j t = Some t' -> P t') ->
  P s -> for_ lo hi body s = Some s' -> P s'.
Proof.
  intros Hstep Hs Hrun. destruct (Z.le_gt_cases lo hi) as [Hle|Hgt].
  - apply (for_inv (fun _ => P) body lo hi s s' Hle Hs); auto.
  - rewrite for_empty in Hrun by lia. injection Hrun as <-. exact Hs.
Qed.

(** a loop fails when one of its iterations fails on every state *)
Lemma for_fails {S} (body : Z -> S -> option S) lo hi k s :
  lo <= k < hi -> (forall t, body k t = None) -> for_ lo hi body s = None.
Proof.
  intros Hk Hfail. destruct (for_ lo hi body s) as [s'|] eqn:Hrun; [|reflexivity].
  exfalso.
  pose (P := fun (j : Z) (_ : S) => j <= k).
  assert (P hi s') as HP; [|unfold P in HP; lia].
  apply (for_inv P body lo hi s s'); unfold P; try lia; [|exact Hrun].
  intros j t t' Hj Hle Hb. destruct (Z.eq_dec j k) as [->|]; [|lia].
  rewrite Hfail in Hb. discriminate.
Qed.

Lemma store_size {A} (v : list A) i x v' : store v i x = Some v' -> size v' = size v.
Proof. intros [_ ->]%store_Some. apply size_insert. Qed.

(** ** More on the atlas *)

(** the run of [BuildLightmaps] that builds an atlas, step by step *)
Lemma BuildLightmaps_built map map' :
  BuildLightmaps map = Some map' ->
  BSPMap.lmAtlas map = LightmapAtlas.empty ->
  LightmapAtlas.perFace (BSPMap.lmAtlas map') <> [] \/
  LightmapAtlas.width (BSPMap.lmAtlas map') <> 0 ->
  exists faceLM total W H pack perFace rgba meshes,
    size (BSPMap.meshes map) = size (BSPMap.faces map) /\
    gatherFaceLM map = Some (faceLM, total) /\ total <> 0 /\
    chooseAtlasSize faceLM = Some (Some (W, H)) /\
    for_ 0 (size (BSPMap.faces map)) (packStep map faceLM)
         (ShelfPacker.new W H,
          resize (size (BSPMap.faces map)) LightmapRect.empty []) = Some (pack, perFace) /\
    for_ 0 (size (BSPMap.faces map)) (fillStep map W perFace)
         (replicate (Z.to_nat (to_size_t W * to_size_t H * 4)) Byte.xff) = Some rgba /\
    for_ 0 (size (BSPMap.faces map)) (uvStep map W H faceLM perFace) (BSPMap.meshes map)
    = Some meshes /\
    packInv map faceLM W H (size (BSPMap.faces map)) (size (BSPMap.faces map))
            (pack, perFace) /\
    map' = BSPMap.set_meshes meshes
             (BSPMap.set_lmAtlas (LightmapAtlas.mk W H rgba perFace) map).
Proof.
  intros Hrun Hempty Hbuilt.
  destruct (BuildLightmaps_path map map' Hrun)
    as [_ -> | fl ms _ _ _ _ -> | fl ta _ _ _ _ _ -> | fl ta W H _ Hsz Hg Hta Hc Hb];
    try (simpl in Hbuilt; rewrite ?Hempty in Hbuilt; simpl in Hbuilt;
         destruct Hbuilt; congruence).
  apply buildAtlas_spec in Hb as (pack & perFace & rgba & meshes & Hp & Hf & Hu & ->).
  rewrite Hempty in Hp. simpl in Hp.
  assert (packInv map fl W H (size (BSPMap.faces map)) (size (BSPMap.faces map))
                  (pack, perFace)) as Hinv.
  { destruct (gatherFaceLM_spec map fl ta Hg) as [_ Hok].
    destruct (chooseAtlasSize_fits fl W H Hc) as (HW & HH & _).
    apply (packLoop_spec map fl W H) in Hp; try lia; [exact Hp| |apply size_nonneg].
    intros i inf Hi Hlm. destruct (Hok i inf Hi Hlm) as (? & ? & _). auto. }
  exists fl, ta, W, H, pack, perFace, rgba, meshes.
  split; [exact Hsz|]. split; [exact Hg|]. split; [exact Hta|]. split; [exact Hc|].
  split; [exact Hp|]. split; [exact Hf|]. split; [exact Hu|]. split; [exact Hinv|].
  reflexivity.
Qed.

(** X1: the rectangles of the atlas lie inside it and no two of them share a
    pixel *)
Theorem atlas_rectangles_disjoint (map map' : BSPMap.t) :
  BuildLightmaps map = Some map' ->
  BSPMap.lmAtlas map = LightmapAtlas.empty ->
  (forall fi r,
      at_ (LightmapAtlas.perFace (BSPMap.lmAtlas map')) fi = Some r ->
      LightmapRect.valid r = true ->
      inside (LightmapAtlas.width (BSPMap.lmAtlas map'))
             (LightmapAtlas.height (BSPMap.lmAtlas map')) r) /\
  (forall fi fj r r',
      fi <> fj ->
      at_ (LightmapAtlas.perFace (BSPMap.lmAtlas map')) fi = Some r ->
      at_ (LightmapAtlas.perFace (BSPMap.lmAtlas map')) fj = Some r' ->
      LightmapRect.valid r = true -> LightmapRect.valid r' = true ->
      disjoint r r').
Proof.
  intros Hrun Hempty.
  assert (LightmapAtlas.perFace (BSPMap.lmAtlas map') = [] \/
          LightmapAtlas.perFace (BSPMap.lmAtlas map') <> []) as [Hnil|Hne]
      by (destruct (LightmapAtlas.perFace (BSPMap.lmAtlas map')); [left|right]; congruence).
  { rewrite Hnil. split; intros; match goal with
      | H : at_ [] _ = Some _ |- _ => apply at_lt in H; unfold size in H; simpl in H; lia
      end. }
  destruct (BuildLightmaps_built map map' Hrun Hempty (or_introl Hne))
    as (fl & ta & W & H & pack & perFace & rgba & meshes & _ & _ & _ & _ & _ & _ & _
        & (Hsz & _ & Hrect & Hdis) & ->).
  simpl in *. split.
  - intros fi r Hat Hv. pose proof (at_lt _ _ _ Hat).
    destruct (Hrect fi r ltac:(lia) Hat) as [_ Hin]. apply Hin. exact Hv.
  - intros fi fj r r' Hne' Hat Hat' Hv Hv'.
    pose proof (at_lt _ _ _ Hat). pose proof (at_lt _ _ _ Hat').
    apply (Hdis fi fj); auto; lia.
Qed.

(** ** The second packing pass *)

Lemma drop_at {A} (l : list A) j x :
  at_ l j = Some x -> drop (Z.to_nat j) l = x :: drop (Z.to_nat (j + 1)) l.
Proof.
  intros [Hj Hl]%at_Some.
  replace (Z.to_nat (j + 1)) with (S (Z.to_nat j)) by lia.
  apply drop_S. exact Hl.
Qed.

(** once the size loop has found a size that fits, step 3 places every
    face that has a lightmap *)
Lemma packLoop_places map faceLM W H old pack perFace :
  tryPack (ShelfPacker.new W H) faceLM = true ->
  for_ 0 (size (BSPMap.faces map)) (packStep map faceLM)
       (ShelfPacker.new W H, resize (size (BSPMap.faces map)) LightmapRect.empty old)
  = Some (pack, perFace) ->
  forall i inf r,
    at_ faceLM i = Some inf -> at_ perFace i = Some r ->
    LightmapRect.valid r = FaceLM.hasLM inf /\
    (FaceLM.hasLM inf = true ->
     LightmapRect.w r = FaceLM.w inf /\ LightmapRect.h r = FaceLM.h inf).
Proof.
  intros Hfit Hrun.
  pose (n := size (BSPMap.faces map)).
  pose (Q := fun (j : Z) (st : ShelfPacker.t * list LightmapRect.t) =>
    size st.2 = n /\
    tryPack st.1 (drop (Z.to_nat j) faceLM) = true /\
    forall i inf r,
      0 <= i < j -> at_ faceLM i = Some inf -> at_ st.2 i = Some r ->
      LightmapRect.valid r = FaceLM.hasLM inf /\
      (FaceLM.hasLM inf = true ->
       LightmapRect.w r = FaceLM.w inf /\ LightmapRect.h r = FaceLM.h inf)).
  assert (Q n (pack, perFace)) as (Hsz & _ & Hall).
  { apply (for_inv Q (packStep map faceLM) 0 n _ _ (size_nonneg _)) in Hrun;
      [exact Hrun | |].
    - split; [simpl; apply size_resize, size_nonneg|].
      split; [exact Hfit|]. intros; lia.
    - intros j [pk pf] st' Hj (Hs & Hp & Hdone) Hstep. simpl in Hs, Hp.
      unfold packStep in Hstep.
      destruct (at_ pf j) as [outR|] eqn:Ho; simpl in Hstep; [|discriminate].
      destruct (at_ faceLM j) as [inf|] eqn:Hi; simpl in Hstep; [|discriminate].
      rewrite (drop_at _ _ _ Hi) in Hp. cbn [tryPack] in Hp.
      destruct (FaceLM.hasLM inf) eqn:Hlm; simpl in Hstep, Hp.
      + destruct (ShelfPacker.place pk (FaceLM.w inf) (FaceLM.h inf)) as [pk' [[x y]|]];
          [|discriminate].
        destruct (at_ (BSPMap.faces map) j) as [f|]; simpl in Hstep; [|discriminate].
        destruct (store pf j _) as [pf'|] eqn:Hst; simpl in Hstep; [|discriminate].
        injection Hstep as <-. apply store_Some in Hst as [_ ->].
        split; [simpl; rewrite size_insert; exact Hs|]. split; [exact Hp|]. simpl.
        intros i inf0 r Hi0 Hinf0 Hr. destruct (Z.eq_dec i j) as [->|Hne].
        * rewrite at_insert_eq in Hr by lia. injection Hr as <-.
          rewrite Hi in Hinf0. injection Hinf0 as <-. simpl. rewrite Hlm. auto.
        * rewrite at_insert_ne in Hr by lia. apply (Hdone i); auto. lia.
      + destruct (store pf j _) as [pf'|] eqn:Hst; simpl in Hstep; [|discriminate].
        injection Hstep as <-. apply store_Some in Hst as [_ ->].
        split; [simpl; rewrite size_insert; exact Hs|]. split; [exact Hp|]. simpl.
        intros i inf0 r Hi0 Hinf0 Hr. destruct (Z.eq_dec i j) as [->|Hne].
        * rewrite at_insert_eq in Hr by lia. injection Hr as <-.
          rewrite Hi in Hinf0. injection Hinf0 as <-. simpl. rewrite Hlm.
          split; [reflexivity | discriminate].
        * rewrite at_insert_ne in Hr by lia. apply (Hdone i); auto. lia. }
  intros i inf r Hi Hr. apply (Hall i); auto.
  apply at_lt in Hr. simpl in Hsz. lia.
Qed.

(** X2: when an atlas is built, the faces with a valid rectangle are exactly
    the faces for which step 1 found lightmap data, and the rectangle has
    the size step 1 computed *)
Theorem lightmapped_faces_are_placed (map map' : BSPMap.t) (faceLM : list FaceLM.t)
        (total : Z) :
  BuildLightmaps map = Some map' ->
  BSPMap.lmAtlas map = LightmapAtlas.empty ->
  LightmapAtlas.width (BSPMap.lmAtlas map') <> 0 ->
  gatherFaceLM map = Some (faceLM, total) ->
  size (LightmapAtlas.perFace (BSPMap.lmAtlas map')) = size faceLM /\
  forall fi inf r,
    at_ faceLM fi = Some inf ->
    at_ (LightmapAtlas.perFace (BSPMap.lmAtlas map')) fi = Some r ->
    LightmapRect.valid r = FaceLM.hasLM inf /\
    (FaceLM.hasLM inf = true ->
     LightmapRect.w r = FaceLM.w inf /\ LightmapRect.h r = FaceLM.h inf).
Proof.
  intros Hrun Hempty Hw Hg.
  destruct (BuildLightmaps_built map map' Hrun Hempty (or_intror Hw))
    as (fl & ta & W & H & pack & perFace & rgba & meshes & _ & Hg' & _ & Hc & Hp & _ & _
        & (Hsz & _) & ->).
  rewrite Hg in Hg'. injection Hg' as <- <-. simpl in *.
  destruct (gatherFaceLM_spec map faceLM total Hg) as [Hsf _].
  split; [lia|].
  apply chooseAtlasSize_fits in Hc as (_ & _ & Hfit).
  apply (packLoop_places map faceLM W H [] pack perFace Hfit Hp).
Qed.

(** ** The dimensions of the atlas *)

Lemma fillRect_size W rect texel rgba rgba' :
  fillRect W rect texel rgba = Some rgba' -> size rgba' = size rgba.
Proof.
  unfold fillRect. apply (for_keeps (fun r => size r = size rgba)); [|reflexivity].
  intros y t t' _ Ht. apply (for_keeps (fun r => size r = size rgba)); [|exact Ht].
  intros x u u' _ Hu Hpx.
  destruct (texel x y) as [v|]; simpl in Hpx; [|discriminate].
  apply putPixel_spec in Hpx as [Hsz _]. lia.
Qed.

Lemma fillLoop_size map W perFace n rgba rgba' :
  for_ 0 n (fillStep map W perFace) rgba = Some rgba' -> size rgba' = size rgba.
Proof.
  apply (for_keeps (fun r => size r = size rgba)); [|reflexivity].
  intros fi t t' _ Ht. unfold fillStep.
  destruct (at_ perFace fi) as [rect|]; simpl; [|discriminate].
  destruct (LightmapRect.valid rect); simpl; [|intros [= <-]; exact Ht].
  destruct (at_ (BSPMap.faces map) fi) as [f|]; simpl; [|discriminate].
  destruct (_ <? _); intros Hf; apply fillRect_size in Hf; lia.
Qed.

(** the sizes the loop of step 2 goes through *)
Definition atlasSizes : list (Z * Z) :=
  [(1024, 1024); (2048, 1024); (2048, 2048); (4096, 2048); (4096, 4096);
   (8192, 4096); (8192, 8192)].

Lemma chooseAtlasSize_sizes faceLM W H :
  chooseAtlasSize faceLM = Some (Some (W, H)) -> (W, H) ∈ atlasSizes.
Proof.
  unfold chooseAtlasSize, atlasSizes. cbn [sizeAtlas].
  repeat (match goal with
          | |- (if tryPack ?p faceLM then _ else _) = _ -> _ =>
              destruct (tryPack p faceLM);
              [intros [= <- <-]; repeat first [apply list_elem_of_here | apply list_elem_of_further]|]
          end;
          cbv beta iota zeta delta
              [Z.leb Z.ltb Z.mul Z.compare Pos.compare Pos.compare_cont Pos.mul orb]).
  discriminate.
Qed.

(** X3: an atlas that is built is one of seven sizes, powers of two from 1024
    to 8192 and at most twice as wide as high; its buffer holds four bytes
    for every pixel and it has a rectangle for every face *)
Theorem atlas_dimensions (map map' : BSPMap.t) :
  BuildLightmaps map = Some map' ->
  BSPMap.lmAtlas map = LightmapAtlas.empty ->
  LightmapAtlas.width (BSPMap.lmAtlas map') <> 0 ->
  (LightmapAtlas.width (BSPMap.lmAtlas map'),
   LightmapAtlas.height (BSPMap.lmAtlas map')) ∈ atlasSizes /\
  size (LightmapAtlas.rgba (BSPMap.lmAtlas map'))
  = LightmapAtlas.width (BSPMap.lmAtlas map')
    * LightmapAtlas.height (BSPMap.lmAtlas map') * 4 /\
  size (LightmapAtlas.perFace (BSPMap.lmAtlas map')) = size (BSPMap.faces map').
Proof.
  intros Hrun Hempty Hw.
  destruct (BuildLightmaps_built map map' Hrun Hempty (or_intror Hw))
    as (fl & ta & W & H & pack & perFace & rgba & meshes & _ & _ & _ & Hc & _ & Hf & _
        & (Hsz & _) & ->).
  simpl in *.
  split; [apply (chooseAtlasSize_sizes fl); exact Hc|].
  split; [|exact Hsz].
  apply fillLoop_size in Hf. rewrite Hf.
  apply chooseAtlasSize_fits in Hc as (HW & HH & _).
  apply size_atlas_buffer; lia.
Qed.

(** ** What [BuildLightmaps] leaves alone *)

(** [m'] differs from [m] in the meshes and the atlas at most *)
Definition sameGeometry (m m' : BSPMap.t) : Prop :=
  BSPMap.version m' = BSPMap.version m /\
  BSPMap.vertices m' = BSPMap.vertices m /\
  BSPMap.edges m' = BSPMap.edges m /\
  BSPMap.surfedges m' = BSPMap.surfedges m /\
  BSPMap.faces m' = BSPMap.faces m /\
  BSPMap.texinfos m' = BSPMap.texinfos m /\
  BSPMap.textures m' = BSPMap.textures m /\
  BSPMap.models m' = BSPMap.models m /\
  BSPMap.paletteRGB m' = BSPMap.paletteRGB m /\
  BSPMap.entities m' = BSPMap.entities m /\
  BSPMap.lighting m' = BSPMap.lighting m.

Lemma BuildLightmaps_geometry map map' :
  BuildLightmaps map = Some map' -> sameGeometry map map'.
Proof.
  intros Hrun.
  destruct (BuildLightmaps_path map map' Hrun)
    as [_ -> | fl ms _ _ _ _ -> | fl ta _ _ _ _ _ -> | fl ta W H _ _ _ _ _ Hb].
  4: apply buildAtlas_spec in Hb as (pack & perFace & rgba & meshes & _ & _ & _ & ->).
  all: repeat split.
Qed.

Lemma uvLoop_faceIndex map W H faceLM perFace meshes meshes' :
  for_ 0 (size (BSPMap.faces map)) (uvStep map W H faceLM perFace) meshes
  = Some meshes' ->
  size meshes' = size meshes /\
  forall fi mesh',
    0 <= fi < size (BSPMap.faces map) -> at_ meshes' fi = Some mesh' ->
    BSPMesh.faceIndex mesh' = fi.
Proof.
  intros Hrun.
  pose (Q := fun (j : Z) (ms : list BSPMesh.t) =>
    size ms = size meshes /\
    forall fi mesh', 0 <= fi < j -> at_ ms fi = Some mesh' ->
                     BSPMesh.faceIndex mesh' = fi).
  assert (Q (size (BSPMap.faces map)) meshes') as [Hs Hall]; [|split; auto].
  apply (for_inv Q (uvStep map W H faceLM perFace) 0 _ meshes meshes'); auto.
  - apply size_nonneg.
  - split; [reflexivity | intros; lia].
  - intros j ms ms' Hj [Hs Hdone] Hstep.
    apply uvStep_spec in Hstep as (mesh & inf & rect & ti & nv & Hm & _ & _ & _ & ->).
    pose proof (at_lt _ _ _ Hm).
    split; [rewrite size_insert; exact Hs|].
    intros fi mesh' Hfi Hat. destruct (Z.eq_dec fi j) as [->|Hne].
    + rewrite at_insert_eq in Hat by lia. injection Hat as <-. reflexivity.
    + rewrite at_insert_ne in Hat by lia. apply Hdone; [lia | exact Hat].
Qed.

(** X4: [BuildLightmaps] changes the meshes and the atlas only; and when it
    builds an atlas, every mesh is tagged with the number of its face *)
Theorem lightmaps_keep_geometry (map map' : BSPMap.t) :
  BuildLightmaps map = Some map' ->
  sameGeometry map map' /\
  (BSPMap.lmAtlas map = LightmapAtlas.empty ->
   LightmapAtlas.width (BSPMap.lmAtlas map') <> 0 ->
   forall fi mesh',
     at_ (BSPMap.meshes map') fi = Some mesh' -> BSPMesh.faceIndex mesh' = fi).
Proof.
  intros Hrun. split; [apply BuildLightmaps_geometry; exact Hrun|].
  intros Hempty Hw fi mesh' Hat.
  destruct (BuildLightmaps_built map map' Hrun Hempty (or_intror Hw))
    as (fl & ta & W & H & pack & perFace & rgba & meshes & Hsz & _ & _ & _ & _ & _ & Hu
        & _ & ->).
  simpl in *. apply uvLoop_faceIndex in Hu as [Hs Hall].
  apply (Hall fi mesh'); [|exact Hat]. apply at_lt in Hat. lia.
Qed.

(** ** The 5-float stride is assumed, not checked *)

Lemma expandVertices_stride uv1 vs nv :
  expandVertices uv1 vs [] = Some nv -> (size vs) mod 5 = 0.
Proof.
  intros (ts & -> & _)%expandVertices_spec. rewrite size_flat5.
  rewrite Z.mul_comm. apply Z.mod_mul. lia.
Qed.

Lemma uvLoop_stride map W H faceLM perFace meshes meshes' fi mesh :
  for_ 0 (size (BSPMap.faces map)) (uvStep map W H faceLM perFace) meshes
  = Some meshes' ->
  size meshes = size (BSPMap.faces map) ->
  at_ meshes fi = Some mesh ->
  (size (BSPMesh.vertices mesh)) mod 5 = 0.
Proof.
  intros Hrun Hsz Hat.
  destruct (Z.eq_dec ((size (BSPMesh.vertices mesh)) mod 5) 0) as [|Hne]; [assumption|].
  exfalso. pose proof (at_lt _ _ _ Hat) as Hfi.
  pose (P := fun (j : Z) (ms : list BSPMesh.t) => j <= fi /\ at_ ms fi = Some mesh).
  assert (P (size (BSPMap.faces map)) meshes') as [HP _]; [|lia].
  apply (for_inv P (uvStep map W H faceLM perFace) 0 _ meshes meshes');
    [apply size_nonneg | split; [lia | exact Hat] | | exact Hrun].
  intros j ms ms' Hj [Hle Hm] Hstep.
  apply uvStep_spec in Hstep as (mesh0 & inf & rect & ti & nv & Hm0 & _ & _ & He & ->).
  destruct (Z.eq_dec j fi) as [->|Hjf].
  - rewrite Hm in Hm0. injection Hm0 as <-.
    apply expandVertices_stride in He. contradiction.
  - split; [lia|]. rewrite at_insert_ne by lia. exact Hm.
Qed.

(** X5: a mesh whose buffer is not made of 5-float tuples (one the call has
    rewritten before, for instance): the call reads past the end of the
    buffer, unless it returns before the rewrite, leaving the meshes as
    they are *)
Theorem stride_five_assumed (map : BSPMap.t) (fi : Z) (mesh : BSPMesh.t) :
  at_ (BSPMap.meshes map) fi = Some mesh ->
  (size (BSPMesh.vertices mesh)) mod 5 <> 0 ->
  match BuildLightmaps map with
  | None => True
  | Some map' => BSPMap.meshes map' = BSPMap.meshes map
  end.
Proof.
  intros Hat Hne. destruct (BuildLightmaps map) as [map'|] eqn:Hrun; [|exact I].
  destruct (BuildLightmaps_path map map' Hrun)
    as [_ -> | fl ms _ _ _ Hm -> | fl ta _ _ _ _ _ -> | fl ta W H _ Hsz _ _ _ Hb];
    try reflexivity.
  - exfalso. destruct (mapM_at _ _ _ _ _ Hm Hat) as (y & _ & Hz).
    unfold zeroExpand in Hz.
    destruct (expandVertices _ (BSPMesh.vertices mesh) []) as [nv|] eqn:He;
      [|discriminate].
    apply expandVertices_stride in He. contradiction.
  - exfalso.
    apply buildAtlas_spec in Hb as (pack & perFace & rgba & meshes & _ & _ & Hu & _).
    apply (uvLoop_stride _ _ _ _ _ _ _ fi mesh) in Hu; auto.
Qed.

(** the triangle without light data, after one call: 21 floats; a second
    call is undefined *)
Definition onceRewritten : BSPMap.t :=
  default emptyMap (BuildLightmaps (loaded unlitTriangleFile)).

Lemma stride_five_assumed_witness :
  exists mesh,
    at_ (BSPMap.meshes onceRewritten) 0 = Some mesh /\
    size (BSPMesh.vertices mesh) = 21 /\
    match BuildLightmaps onceRewritten with
    | None => True
    | Some map' => BSPMap.meshes map' = BSPMap.meshes onceRewritten
    end /\
    BuildLightmaps onceRewritten = None.
Proof.
  assert (exists mesh, at_ (BSPMap.meshes onceRewritten) 0 = Some mesh /\
                       size (BSPMesh.vertices mesh) = 21) as (mesh & Hat & H21)
      by (eexists; split; [vm_compute; reflexivity | vm_compute; reflexivity]).
  exists mesh. split; [exact Hat|]. split; [exact H21|]. split.
  - apply (stride_five_assumed onceRewritten 0 mesh Hat).
    rewrite H21. vm_compute. discriminate.
  - vm_compute. reflexivity.
Defined.

(** ** Building the atlas of 32 x 32 blocks *)

(** a buffer of 5-float tuples is rewritten without a read past its end *)
Lemma expandVertices_flat5 uv1 ts : forall acc,
  expandVertices uv1 (flat5 ts) acc = Some (acc ++ flat7 uv1 ts).
Proof.
  induction ts as [|[[[[x y] z] u] v] ts IH]; intros acc.
  - simpl. rewrite app_nil_r. reflexivity.
  - unfold flat5, flat7 in *. cbn [flat_map app expandVertices].
    destruct (uv1 x y z) as [u1 v1]. rewrite IH, <- app_assoc. reflexivity.
Qed.

(** what an iteration of step 1 does to the total area *)
Lemma faceLMStep_total map fi faceLM total faceLM' total' :
  faceLMStep map fi (faceLM, total) = Some (faceLM', total') ->
  exists inf,
    0 <= fi < size faceLM /\
    faceLM' = <[Z.to_nat fi := inf]> faceLM /\
    (if FaceLM.hasLM inf then total < total' \/ total' < 0 else total' = total).
Proof.
  unfold faceLMStep. intros H.
  destruct (at_ (BSPMap.faces map) fi) as [f|] eqn:Hf; simpl in H; [|discriminate].
  match type of H with
  | context [mbind _ ?o] => destruct o as [[info tot]|] eqn:Hinfo; simpl in H;
                             [|discriminate]
  end.
  destruct (store faceLM fi info) as [fl|] eqn:Hst; simpl in H; [|discriminate].
  injection H as <- <-. apply store_Some in Hst as [Hfi ->].
  exists info. split; [exact Hfi|]. split; [reflexivity|].
  destruct ((0 <=? Face.lightofs f)
            && (to_size_t (Face.lightofs f) <? size (BSPMap.lighting map)));
    [|injection Hinfo as <- <-; reflexivity].
  destruct (faceLightmapExtents map fi) as [[[[w h] sA] tA]|]; simpl in Hinfo;
    [|discriminate].
  destruct (Z.ltb_spec 0 w); simpl in Hinfo;
    [|injection Hinfo as <- <-; reflexivity].
  destruct (Z.ltb_spec 0 h); simpl in Hinfo;
    [|injection Hinfo as <- <-; reflexivity].
  destruct (int_ok (w * h)) as [area|] eqn:Ha; simpl in Hinfo; [|discriminate].
  destruct (int_ok (total + area)) as [t|] eqn:Ht; simpl in Hinfo; [|discriminate].
  injection Hinfo as <- <-. simpl.
  apply int_ok_Some in Ha as [-> _]. apply int_ok_Some in Ht as [-> _].
  left. assert (0 < w * h) by (apply Z.mul_pos_pos; lia). lia.
Qed.

(** the total area is positive as soon as one face has a lightmap *)
Lemma gatherFaceLM_total map faceLM total :
  gatherFaceLM map = Some (faceLM, total) ->
  1 <= qualifying faceLM -> 0 < total.
Proof.
  unfold gatherFaceLM. intros Hrun Hq.
  pose (P := fun (j : Z) (st : list FaceLM.t * Z) =>
    0 <= st.2 /\
    forall i inf, 0 <= i < j -> at_ st.1 i = Some inf ->
                  FaceLM.hasLM inf = true -> 0 < st.2).
  assert (P (size (BSPMap.faces map)) (faceLM, total)) as [_ HP].
  { apply (for_inv P (faceLMStep map) 0 _
                   (replicate (length (BSPMap.faces map)) FaceLM.empty, 0)
                   (faceLM, total)); auto.
    - apply size_nonneg.
    - split; simpl; [lia | intros; lia].
    - intros j [fl tot] [fl' tot'] Hj [Hpos Hdone] Hstep. simpl in *.
      pose proof Hstep as Hstep'.
      apply faceLMStep_total in Hstep as (info & Hin & -> & Htot).
      assert (0 <= tot' /\ tot <= tot') as [Hpos' Hle].
      { unfold faceLMStep in Hstep'.
        destruct (at_ (BSPMap.faces map) j) as [f|]; simpl in Hstep'; [|discriminate].
        match type of Hstep' with
        | context [mbind _ ?o] => destruct o as [[info' t']|] eqn:Hinfo;
                                   simpl in Hstep'; [|discriminate]
        end.
        destruct (store fl j info'); simpl in Hstep'; [|discriminate].
        injection Hstep' as _ <-.
        destruct ((0 <=? Face.lightofs f)
                  && (to_size_t (Face.lightofs f) <? size (BSPMap.lighting map)));
          [|injection Hinfo as _ <-; lia].
        destruct (faceLightmapExtents map j) as [[[[w h] sA] tA]|]; simpl in Hinfo;
          [|discriminate].
        destruct (Z.ltb_spec 0 w); simpl in Hinfo; [|injection Hinfo as _ <-; lia].
        destruct (Z.ltb_spec 0 h); simpl in Hinfo; [|injection Hinfo as _ <-; lia].
        destruct (int_ok (w * h)) as [area|] eqn:Ha; simpl in Hinfo; [|discriminate].
        destruct (int_ok (tot + area)) as [t|] eqn:Ht; simpl in Hinfo; [|discriminate].
        injection Hinfo as _ <-.
        apply int_ok_Some in Ha as [-> _]. apply int_ok_Some in Ht as [-> _].
        assert (0 < w * h) by (apply Z.mul_pos_pos; lia). lia. }
      split; [exact Hpos'|].
      intros i inf Hi Hat Hlm. simpl in Hat |- *.
      destruct (Z.eq_dec i j) as [->|Hne].
      + rewrite at_insert_eq in Hat by lia. injection Hat as <-.
        rewrite Hlm in Htot. lia.
      + rewrite at_insert_ne in Hat by lia.
        pose proof (Hdone i inf ltac:(lia) Hat Hlm). lia. }
  unfold qualifying in Hq.
  destruct (filter (fun inf => FaceLM.hasLM inf = true) faceLM) as [|inf rest] eqn:Hf;
    [unfold size in Hq; simpl in Hq; lia|].
  assert (inf ∈ filter (fun inf => FaceLM.hasLM inf = true) faceLM) as Hin
    by (rewrite Hf; left).
  apply list_elem_of_filter in Hin as [Hlm Hin].
  apply list_elem_of_lookup in Hin as [k Hk].
  apply (HP (Z.of_nat k) inf).
  - apply lookup_lt_Some in Hk.
    assert (size faceLM = size (BSPMap.faces map)) as Hs
      by (eapply gatherFaceLM_spec; exact Hrun).
    unfold size in *. lia.
  - apply at_Some. rewrite Nat2Z.id. split; [lia | exact Hk].
  - exact Hlm.
Qed.

(** step 3 reads and writes inside [perFace], [faceLM] and [faces] *)
Lemma packLoop_defined map faceLM W H old :
  size faceLM = size (BSPMap.faces map) ->
  is_Some (for_ 0 (size (BSPMap.faces map)) (packStep map faceLM)
                (ShelfPacker.new W H,
                 resize (size (BSPMap.faces map)) LightmapRect.empty old)).
Proof.
  intros Hs. set (n := size (BSPMap.faces map)) in *.
  destruct (for_total (fun _ (st : ShelfPacker.t * list LightmapRect.t) => size st.2 = n)
              (packStep map faceLM) 0 n
              (ShelfPacker.new W H, resize n LightmapRect.empty old))
    as (st & Hrun & _); [apply size_nonneg | apply size_resize, size_nonneg | | eauto].
  intros j [pack perFace] Hj Hsz. simpl in Hsz. unfold packStep.
  destruct (at_is_Some perFace j ltac:(lia)) as [outR ->].
  destruct (at_is_Some faceLM j ltac:(lia)) as [inf ->].
  destruct (at_is_Some (BSPMap.faces map) j ltac:(fold n; lia)) as [f Hf].
  cbn [mbind option_bind].
  assert (forall r, exists pf, store perFace j r = Some pf /\ size pf = n) as Hst.
  { intros r. destruct (store_is_Some perFace j r ltac:(lia)) as [pf Hpf].
    exists pf. split; [exact Hpf|]. apply store_size in Hpf. lia. }
  destruct (FaceLM.hasLM inf); cbn [negb].
  - destruct (ShelfPacker.place pack (FaceLM.w inf) (FaceLM.h inf)) as [pack' [[x y]|]].
    + rewrite Hf. cbn [mbind option_bind].
      destruct (Hst (LightmapRect.mk x y (FaceLM.w inf) (FaceLM.h inf)
                                     (Face.lightofs f) true)) as (pf & -> & Hpf).
      eexists. split; [reflexivity | exact Hpf].
    + destruct (Hst (invalidate outR)) as (pf & -> & Hpf).
      eexists. split; [reflexivity | exact Hpf].
  - destruct (Hst (invalidate outR)) as (pf & -> & Hpf).
    eexists. split; [reflexivity | exact Hpf].
Qed.

(** step 6 reads inside the arrays of the map and rewrites buffers of
    5-float tuples *)
Lemma uvLoop_defined map W H faceLM perFace meshes :
  size meshes = size (BSPMap.faces map) ->
  size faceLM = size (BSPMap.faces map) ->
  size perFace = size (BSPMap.faces map) ->
  (forall fi f, at_ (BSPMap.faces map) fi = Some f ->
                is_Some (at_ (BSPMap.texinfos map) (Face.texinfo f))) ->
  (forall fi mesh, at_ meshes fi = Some mesh ->
                   exists ts, BSPMesh.vertices mesh = flat5 ts) ->
  is_Some (for_ 0 (size (BSPMap.faces map)) (uvStep map W H faceLM perFace) meshes).
Proof.
  intros Hm Hl Hp Hti Hfive. set (n := size (BSPMap.faces map)) in *.
  pose (P := fun (j : Z) (ms : list BSPMesh.t) =>
    size ms = n /\
    forall i mesh, j <= i -> at_ ms i = Some mesh ->
                   exists ts, BSPMesh.vertices mesh = flat5 ts).
  destruct (for_total P (uvStep map W H faceLM perFace) 0 n meshes)
    as (ms & Hrun & _); [apply size_nonneg | split; [exact Hm | intros; eauto] | | eauto].
  intros j t Hj [Hs Hrest]. unfold uvStep.
  destruct (at_is_Some t j ltac:(lia)) as [mesh Hmesh]. rewrite Hmesh.
  destruct (at_is_Some faceLM j ltac:(lia)) as [inf ->].
  destruct (at_is_Some perFace j ltac:(lia)) as [rect ->].
  destruct (at_is_Some (BSPMap.faces map) j ltac:(fold n; lia)) as [f Hf]. rewrite Hf.
  cbn [mbind option_bind].
  destruct (Hti j f Hf) as [ti ->]. cbn [mbind option_bind].
  destruct (Hrest j mesh ltac:(lia) Hmesh) as [ts ->].
  rewrite expandVertices_flat5. cbn [mbind option_bind app].
  destruct (store_is_Some t j
              (BSPMesh.mk (BSPMesh.textureIndex mesh) j
                          (flat7 (secondUV W H inf rect ti) ts)) ltac:(lia)) as [t' Ht'].
  exists t'. split; [exact Ht'|].
  pose proof (store_size _ _ _ _ Ht') as Hs'. apply store_Some in Ht' as [_ ->].
  split; [lia|]. intros i m Hi Hat. rewrite at_insert_ne in Hat by lia.
  apply (Hrest i m); [lia | exact Hat].
Qed.

(** [BuildLightmaps] builds an atlas of [W] x [H] for the blocks of
    [faceLM]: it returns, the atlas has that size and a buffer of four
    bytes for each of its pixels, and every face that has a lightmap has a
    valid rectangle of 32 x 32 *)
Definition builtAt (map : BSPMap.t) (faceLM : list FaceLM.t) (W H : Z) : Prop :=
  exists map',
    BuildLightmaps map = Some map' /\
    LightmapAtlas.width (BSPMap.lmAtlas map') = W /\
    LightmapAtlas.height (BSPMap.lmAtlas map') = H /\
    size (LightmapAtlas.rgba (BSPMap.lmAtlas map')) = W * H * 4 /\
    forall fi inf,
      at_ faceLM fi = Some inf -> FaceLM.hasLM inf = true ->
      exists r, at_ (LightmapAtlas.perFace (BSPMap.lmAtlas map')) fi = Some r /\
                LightmapRect.valid r = true /\
                LightmapRect.w r = 32 /\ LightmapRect.h r = 32.

(** the arrays [BuildLightmaps] indexes without a check hold what it
    reads: a mesh of 5-float tuples for every face, and the texture info
    of every face *)
Definition buildable (map : BSPMap.t) : Prop :=
  size (BSPMap.meshes map) = size (BSPMap.faces map) /\
  wellSized map /\
  (forall fi f, at_ (BSPMap.faces map) fi = Some f ->
                is_Some (at_ (BSPMap.texinfos map) (Face.texinfo f))) /\
  (forall fi mesh, at_ (BSPMap.meshes map) fi = Some mesh ->
                   exists ts, BSPMesh.vertices mesh = flat5 ts).

Lemma BuildLightmaps_builds map faceLM total W H :
  buildable map ->
  blocks32 faceLM ->
  gatherFaceLM map = Some (faceLM, total) ->
  1 <= qualifying faceLM ->
  chooseAtlasSize faceLM = Some (Some (W, H)) ->
  builtAt map faceLM W H.
Proof.
  intros (Hm & Hsized & Hti & Hfive) Hb Hg Hq Hc.
  pose proof (gatherFaceLM_total map faceLM total Hg Hq) as Htot.
  destruct (gatherFaceLM_spec map faceLM total Hg) as [Hsf Hok].
  destruct (chooseAtlasSize_fits faceLM W H Hc) as (HW & HH & Hfit).
  set (n := size (BSPMap.faces map)) in *.
  assert (n <> 0) as Hn0.
  { intros Hz. unfold gatherFaceLM in Hg. fold n in Hg. rewrite Hz in Hg.
    rewrite for_empty in Hg by lia. injection Hg as _ <-. lia. }
  destruct (packLoop_defined map faceLM W H
              (LightmapAtlas.perFace (BSPMap.lmAtlas map)) Hsf) as [[pack perFace] Hp].
  fold n in Hp.
  assert (packInv map faceLM W H n n (pack, perFace)) as Hinv.
  { apply (packLoop_spec map faceLM W H n) in Hp; try lia; [exact Hp| |apply size_nonneg].
    intros i inf Hi Hlm. destruct (Hok i inf Hi Hlm) as (? & ? & _). auto. }
  destruct (fillLoop_defined map faceLM W H pack perFace Hsized Hok
              ltac:(lia) ltac:(lia) Hinv
              (replicate (Z.to_nat (to_size_t W * to_size_t H * 4)) Byte.xff))
    as [rgba Hf]; [apply size_atlas_buffer; lia|].
  destruct (uvLoop_defined map W H faceLM perFace (BSPMap.meshes map))
    as [meshes Hu]; auto.
  { destruct Hinv as [Hs _]. exact Hs. }
  exists (BSPMap.set_meshes meshes
            (BSPMap.set_lmAtlas (LightmapAtlas.mk W H rgba perFace) map)).
  subst n. split.
  - unfold BuildLightmaps.
    destruct (Z.eqb_spec (size (BSPMap.faces map)) 0); [contradiction|].
    destruct (Z.eqb_spec (size (BSPMap.meshes map)) (size (BSPMap.faces map)));
      [|contradiction].
    cbn [orb negb]. rewrite Hg. cbn [mbind option_bind].
    destruct (Z.eqb_spec total 0); [lia|].
    rewrite Hc. cbn [mbind option_bind]. unfold buildAtlas.
    rewrite Hp. cbn [mbind option_bind]. rewrite Hf. cbn [mbind option_bind].
    rewrite Hu. reflexivity.
  - simpl. split; [reflexivity|]. split; [reflexivity|]. split.
    + apply fillLoop_size in Hf. rewrite Hf. apply size_atlas_buffer; lia.
    + intros fi inf Hat Hlm.
      destruct Hinv as [Hs _]. simpl in Hs.
      destruct (at_is_Some perFace fi) as [r Hr];
        [apply at_lt in Hat; lia|].
      destruct (packLoop_places map faceLM W H _ pack perFace Hfit Hp fi inf r Hat Hr)
        as [Hv Hwh].
      destruct (Hwh Hlm) as [Hw0 Hh0].
      apply at_Some in Hat as [_ Hl]. apply list_elem_of_lookup_2 in Hl.
      destruct (proj1 (Forall_forall _ _) Hb inf Hl Hlm) as [E1 E2].
      exists r. split; [exact Hr|]. split; [congruence|]. split; congruence.
Qed.

(** C8: in the initial 1024 x 1024 atlas, N blocks of 32 x 32 (packed in
    face order) fit exactly when N <= 1024; with 1025 of them the size loop
    doubles the width to 2048 x 1024.  For a map whose faces need these
    blocks, [BuildLightmaps] then builds the atlas: at 1024 x 1024 for 1
    to 1024 blocks, and at 2048 x 1024 for 1025 of them. *)
Theorem shelf_packing_capacity (faceLM : list FaceLM.t) :
  blocks32 faceLM ->
  (tryPack (ShelfPacker.new 1024 1024) faceLM = true <-> qualifying faceLM <= 1024) /\
  (qualifying faceLM = 1025 -> chooseAtlasSize faceLM = Some (Some (2048, 1024))) /\
  (forall map total,
     buildable map ->
     gatherFaceLM map = Some (faceLM, total) ->
     (1 <= qualifying faceLM <= 1024 -> builtAt map faceLM 1024 1024) /\
     (qualifying faceLM = 1025 -> builtAt map faceLM 2048 1024)).
Proof.
  intros Hb.
  assert (tryPack (ShelfPacker.new 1024 1024) faceLM = (qualifying faceLM <=? 1024)) as H1.
  { change (ShelfPacker.new 1024 1024) with (shelfState 32 32 0).
    rewrite (tryPack_blocks 32 32 faceLM 0) by (auto; lia). reflexivity. }
  assert (qualifying faceLM = 1025 ->
          chooseAtlasSize faceLM = Some (Some (2048, 1024))) as H2.
  { intros HN. unfold chooseAtlasSize, sizeAtlas. rewrite H1, HN.
    change (1025 <=? 1024) with false. cbv iota.
    change (1024 <=? 1024) with true. cbv iota.
    change (1024 * 2) with 2048.
    change ((8192 <? 2048) || (8192 <? 1024)) with false. cbv iota.
    change (ShelfPacker.new 2048 1024) with (shelfState 64 32 0).
    rewrite (tryPack_blocks 64 32 faceLM 0) by (auto; lia). rewrite HN. reflexivity. }
  split; [rewrite H1; apply Z.leb_le|]. split; [exact H2|].
  intros map total Hmap Hg. split.
  - intros HN. apply (BuildLightmaps_builds map faceLM total); auto; [lia|].
    unfold chooseAtlasSize, sizeAtlas. rewrite H1.
    destruct (Z.leb_spec (qualifying faceLM) 1024); [reflexivity | lia].
  - intros HN. apply (BuildLightmaps_builds map faceLM total); auto. lia.
Qed.

Definition block32 : FaceLM.t := FaceLM.mk 32 32 F32.zero F32.zero true.

Lemma shelf_packing_capacity_witness :
  tryPack (ShelfPacker.new 1024 1024) (replicate 1024 block32) = true /\
  chooseAtlasSize (replicate 1025 block32) = Some (Some (2048, 1024)) /\
  buildMeshes (BSPMap.set_meshes [] (blockMap 1025)) = Some (blockMap 1025) /\
  builtAt (blockMap 1024) (replicate 1024 block32) 1024 1024 /\
  builtAt (blockMap 1025) (replicate 1025 block32) 2048 1024.
Proof.
  assert (forall n, blocks32 (replicate n block32)) as Hb.
  { intros n. apply Forall_replicate. intros _. split; reflexivity. }
  assert (forall n, buildable (blockMap n)) as Hmap.
  { intros n. split; [unfold size; simpl; rewrite !length_replicate; reflexivity|].
    split.
    - split; [vm_compute; reflexivity|].
      intros fi f [_ Hl]%at_Some. simpl in Hl.
      apply lookup_replicate in Hl as [-> _]. vm_compute. reflexivity.
    - split.
      + intros fi f [_ Hl]%at_Some. simpl in Hl.
        apply lookup_replicate in Hl as [-> _]. eexists. reflexivity.
      + intros fi mesh [_ Hl]%at_Some. simpl in Hl.
        apply lookup_replicate in Hl as [-> _].
        exists [(F32.zero, F32.zero, F32.zero, F32.zero, F32.one);
                (F32.of_int 496, F32.zero, F32.zero, F32.of_int 496, F32.one);
                (F32.zero, F32.of_int 496, F32.zero, F32.zero, F32.of_int (-495))].
        reflexivity. }
  assert (gatherFaceLM (blockMap 1024) = Some (replicate 1024 block32, 1048576)) as Hg1
    by (vm_compute; reflexivity).
  assert (gatherFaceLM (blockMap 1025) = Some (replicate 1025 block32, 1049600)) as Hg2
    by (vm_compute; reflexivity).
  destruct (shelf_packing_capacity (replicate 1024 block32) (Hb _)) as (Hfit & _ & Hbuild1).
  destruct (shelf_packing_capacity (replicate 1025 block32) (Hb _)) as (_ & Hgrow & Hbuild2).
  split; [apply Hfit; vm_compute; discriminate|].
  split; [apply Hgrow; vm_compute; reflexivity|].
  split; [vm_compute; reflexivity|].
  split.
  - apply (Hbuild1 (blockMap 1024) 1048576 (Hmap _) Hg1).
    vm_compute. split; discriminate.
  - apply (Hbuild2 (blockMap 1025) 1049600 (Hmap _) Hg2).
    vm_compute. reflexivity.
Defined.

(** ** A negative lump offset *)

Lemma mapM_upto_first {A} (f : Z -> option A) n :
  0 < n -> f 0 = None -> mapM f (upto n) = None.
Proof.
  intros Hn Hf. unfold upto.
  replace n with (1 + (n - 1)) by lia. rewrite seqZ_app by lia.
  change (seqZ 0 1) with [0]. cbn [app mapM]. rewrite Hf. reflexivity.
Qed.

(** X6: a negative offset whose sum with the size is not negative passes the
    check of [lumpSpan], because the sum is formed in [size_t]; the span
    then starts before the buffer, and reading the vertex lump through it
    is undefined *)
Theorem negative_offset_passes_check (data : list byte) (palette : option (list byte))
        (off sz : Z) :
  sizeof_BSPHeader <= size data -> size data < 2 ^ 63 ->
  lump_offset data LUMP_VERTEXES = Some off ->
  lump_size data LUMP_VERTEXES = Some sz ->
  off < 0 -> 0 < sz -> 0 <= off + sz <= size data ->
  sz mod sizeof_Vec3 = 0 ->
  lumpSpan data LUMP_VERTEXES = Some (Some (2 ^ 64 + off), sz) /\
  LoadBSP (Some data) palette = None.
Proof.
  intros Hhdr Hmax Hoff Hsz Hneg Hpos Hsum Hmod.
  pose proof (rd32_range _ _ _ Hoff) as Ro. pose proof (rd32_range _ _ _ Hsz) as Rs.
  change (2 ^ 63) with 9223372036854775808 in Hmax.
  assert (lumpSpan data LUMP_VERTEXES = Some (Some (2 ^ 64 + off), sz)) as Hsp.
  { unfold lumpSpan. rewrite Hoff, Hsz. simpl. unfold to_size_t.
    change (2 ^ 64) with 18446744073709551616.
    replace (off mod 18446744073709551616) with (18446744073709551616 + off)
      by (apply (Z.mod_unique _ _ (-1)); lia).
    rewrite (Z.mod_small sz) by lia.
    replace ((18446744073709551616 + off + sz) mod 18446744073709551616)
      with (off + sz) by (apply (Z.mod_unique _ _ 1); lia).
    destruct (Z.ltb_spec (size data) (off + sz)); [lia | reflexivity]. }
  split; [exact Hsp|].
  unfold LoadBSP. destruct (Z.ltb_spec (size data) sizeof_BSPHeader); [lia|].
  destruct (rd32 data 0) as [v|]; [|reflexivity]. simpl.
  unfold parseLumps, criticalLump. rewrite Hsp. simpl.
  rewrite Hmod. simpl.
  unfold resize_ok. change (2 ^ 63) with 9223372036854775808.
  destruct (Z.ltb_spec sz 9223372036854775808); [|lia]. simpl.
  assert (readRecords (readVec3 data) (Some (2 ^ 64 + off)) sizeof_Vec3
                      (sz `div` sizeof_Vec3) = None) as ->; [|reflexivity].
  unfold readRecords. apply mapM_upto_first.
  - unfold sizeof_Vec3 in *. apply Z.div_str_pos. split; [lia|].
    destruct (Z.le_gt_cases 12 sz); [assumption|].
    rewrite Z.mod_small in Hmod by lia. lia.
  - simpl. unfold readVec3, rf32, ru32, rd8.
    assert (at_ data (2 ^ 64 + off + 0 * sizeof_Vec3 + 0) = None) as ->; [|reflexivity].
    apply at_None. right. change (2 ^ 64) with 18446744073709551616.
    unfold sizeof_Vec3. lia.
Qed.

(** ** What the loader decodes *)

(** the collection [v] holds the records of lump [idx]: when the lump lies
    inside the file, one record for every [stride] bytes, the i-th read at
    [off + i * stride] *)
Definition decoded {A : Type} (data : list byte) (idx : Z) (rec : Z -> option A)
           (stride : Z) (v : list A) : Prop :=
  forall off sz,
    lump_offset data idx = Some off -> lump_size data idx = Some sz ->
    0 <= off -> 0 <= sz -> off + sz <= size data ->
    size v = sz / stride /\
    forall i, 0 <= i < sz / stride -> at_ v i = rec (off + i * stride).

Lemma criticalLump_decoded {A} data idx (rec : Z -> option A) stride msg v :
  0 < stride ->
  criticalLump data idx rec stride msg = Ret v ->
  decoded data idx rec stride v.
Proof.
  intros Hs (p & sz' & Hsp & _ & Hsize & Hrd)%criticalLump_Ret off sz Hoff Hsz Ho Hz Hin;
    [|exact Hs].
  rewrite (lumpSpan_inside data idx off sz Hoff Hsz Ho Hz Hin) in Hsp.
  injection Hsp as <- <-. split; [apply Hsize; exact Hz|].
  intros i Hi. unfold readRecords in Hrd.
  rewrite (mapM_upto_at _ _ _ i Hrd Hi). reflexivity.
Qed.

(** X7: the map that is returned holds the records of the five load-critical
    lumps, decoded in file order, and the bytes of the lighting lump as
    they are in the file *)
Theorem lumps_decoded_in_order (data : list byte) (palette : option (list byte))
        (map : BSPMap.t) (e : string) :
  LoadBSP (Some data) palette = Some (Some map, e) ->
  decoded data LUMP_VERTEXES (readVec3 data) sizeof_Vec3 (BSPMap.vertices map) /\
  decoded data LUMP_EDGES (readEdge data) sizeof_Edge (BSPMap.edges map) /\
  decoded data LUMP_SURFEDGES (rd32 data) 4 (BSPMap.surfedges map) /\
  decoded data LUMP_FACES (readFace data) sizeof_Face (BSPMap.faces map) /\
  decoded data LUMP_TEXINFO (readTexInfo data) sizeof_TexInfo (BSPMap.texinfos map) /\
  (forall off sz,
      lump_offset data LUMP_LIGHTING = Some off ->
      lump_size data LUMP_LIGHTING = Some sz ->
      0 <= off -> 0 <= sz -> off + sz <= size data ->
      BSPMap.lighting map = take (Z.to_nat sz) (drop (Z.to_nat off) data)).
Proof.
  intros Hload.
  assert (sizeof_BSPHeader <= size data) as Hhdr.
  { unfold LoadBSP in Hload.
    destruct (Z.ltb_spec (size data) sizeof_BSPHeader); [discriminate | assumption]. }
  apply LoadBSP_Some in Hload as (v & _ & Hp & _); [|exact Hhdr]. simpl in Hp.
  apply parseLumps_Ret in Hp
    as (vs & es & ss & fs & ts & li & ms & tx & H1 & H2 & H3 & H4 & H5 & H6 & _ & _ & Hb).
  apply buildMeshes_spec in Hb as (Heq & _ & _). rewrite Heq. simpl.
  split; [eapply criticalLump_decoded; [|exact H1]; reflexivity|].
  split; [eapply criticalLump_decoded; [|exact H2]; reflexivity|].
  split; [eapply criticalLump_decoded; [|exact H3]; reflexivity|].
  split; [eapply criticalLump_decoded; [|exact H4]; reflexivity|].
  split; [eapply criticalLump_decoded; [|exact H5]; reflexivity|].
  intros off sz Hoff Hsz Ho Hz Hin. unfold readLighting in H6.
  rewrite (lumpSpan_inside data _ off sz Hoff Hsz Ho Hz Hin) in H6. simpl in H6.
  destruct (Z.eqb_spec sz 0) as [Hz0|Hne].
  - injection H6 as <-. rewrite Hz0. reflexivity.
  - simpl in H6. unfold rdbytes in H6.
    destruct (Z.eqb_spec sz 0); [contradiction|].
    destruct ((0 <=? off) && (off + sz <=? size data)); [|discriminate].
    injection H6 as <-. reflexivity.
Qed.

(** ** The lumps that are not load-critical *)

(** X8: a models lump whose size is not a positive multiple of the record size
    is passed over without an error; otherwise every record is read *)
Theorem models_lump_is_optional (data : list byte) (palette : option (list byte))
        (map : BSPMap.t) (e : string) (p : option Z) (sz : Z) :
  LoadBSP (Some data) palette = Some (Some map, e) ->
  lumpSpan data LUMP_MODELS = Some (p, sz) ->
  (sz mod sizeof_Model <> 0 \/ sz <= 0 -> BSPMap.models map = []) /\
  (sz mod sizeof_Model = 0 -> 0 < sz ->
   size (BSPMap.models map) = sz / sizeof_Model /\
   forall i, 0 <= i < sz / sizeof_Model ->
     exists a, p = Some a /\
               at_ (BSPMap.models map) i = readModel data (a + i * sizeof_Model)).
Proof.
  intros Hload Hsp.
  assert (sizeof_BSPHeader <= size data) as Hhdr.
  { unfold LoadBSP in Hload.
    destruct (Z.ltb_spec (size data) sizeof_BSPHeader); [discriminate | assumption]. }
  apply LoadBSP_Some in Hload as (v & _ & Hp & _); [|exact Hhdr]. simpl in Hp.
  apply parseLumps_Ret in Hp
    as (vs & es & ss & fs & ts & li & ms & tx & _ & _ & _ & _ & _ & _ & H7 & _ & Hb).
  apply buildMeshes_spec in Hb as (Heq & _ & _). rewrite Heq. simpl.
  unfold readModels in H7. rewrite Hsp in H7. simpl in H7.
  destruct (Z.eqb_spec (sz mod sizeof_Model) 0) as [Hm|Hm];
    destruct (Z.ltb_spec 0 sz) as [Hpos|Hpos]; simpl in H7.
  2-4: injection H7 as <-; split; [reflexivity | intros; lia].
  destruct (resize_ok sz); simpl in H7; [|discriminate].
  split; [intros [?|?]; lia|]. intros _ _.
  split.
  - eapply readRecords_size; [|exact H7]. apply Z.div_pos; unfold sizeof_Model; lia.
  - intros i Hi. unfold readRecords in H7.
    pose proof (mapM_upto_at _ _ _ i H7 Hi) as Hat.
    destruct p as [a|].
    + exists a. split; [reflexivity|]. exact Hat.
    + exfalso. simpl in Hat. apply at_None in Hat.
      apply readRecords_size in H7; [|apply Z.div_pos; unfold sizeof_Model; lia].
      unfold readRecords in H7. lia.
Qed.

(** X9: the palette of a loaded map is empty or holds exactly 768 bytes, the
    first 768 bytes of the palette file *)
Theorem loaded_palette_is_empty_or_768 (data : list byte) (palette : option (list byte))
        (map : BSPMap.t) (e : string) :
  LoadBSP (Some data) palette = Some (Some map, e) ->
  (BSPMap.paletteRGB map = [] \/ size (BSPMap.paletteRGB map) = 768) /\
  (forall buf, palette = Some buf -> 768 <= size buf ->
               BSPMap.paletteRGB map = take 768 buf) /\
  (forall buf, palette = Some buf -> size buf < 768 -> BSPMap.paletteRGB map = []) /\
  (palette = None -> BSPMap.paletteRGB map = []).
Proof.
  intros Hload.
  assert (sizeof_BSPHeader <= size data) as Hhdr.
  { unfold LoadBSP in Hload.
    destruct (Z.ltb_spec (size data) sizeof_BSPHeader); [discriminate | assumption]. }
  apply LoadBSP_Some in Hload as (v & _ & Hp & _); [|exact Hhdr]. simpl in Hp.
  apply parseLumps_Ret in Hp
    as (vs & es & ss & fs & ts & li & ms & tx & _ & _ & _ & _ & _ & _ & _ & _ & Hb).
  apply buildMeshes_spec in Hb as (Heq & _ & _). rewrite Heq. simpl.
  unfold LoadPaletteLMP. destruct palette as [buf|].
  - destruct (Z.ltb_spec (size buf) 768) as [Hs|Hs].
    + split; [left; reflexivity|]. split; [intros ? [= <-]; lia|].
      split; [reflexivity | discriminate].
    + split; [right; unfold size in *; rewrite length_take; lia|].
      split; [intros ? [= <-]; reflexivity|].
      split; [intros ? [= <-]; lia | discriminate].
  - split; [left; reflexivity|]. split; [discriminate|]. split; [discriminate|reflexivity].
Qed.

(** ** The shape of the meshes *)

Lemma size_fanOrder vind : 2 <= size vind -> size (fanOrder vind) = 3 * (size vind - 2).
Proof.
  intros Hn. unfold fanOrder, size at 1.
  rewrite (flat_map_constant_length (c := 3%nat)) by reflexivity.
  rewrite length_seqZ. lia.
Qed.

Lemma size_vertexTuples ti w h ps :
  size (flat_map (vertexTuple ti w h) ps) = 5 * size ps.
Proof.
  induction ps as [|p ps IH]; [reflexivity|].
  cbn [flat_map]. rewrite size_app, IH. unfold vertexTuple.
  destruct (computeST p ti) as [s t]. unfold size. simpl length. lia.
Qed.

Lemma buildMesh_shape map face mesh :
  buildMesh map face = Some mesh ->
  BSPMesh.faceIndex mesh = -1 /\
  (BSPMesh.textureIndex mesh = -1 \/
   0 <= BSPMesh.textureIndex mesh < size (BSPMap.textures map)) /\
  (Face.numedges face < 3 -> mesh = BSPMesh.empty) /\
  (3 <= Face.numedges face ->
   size (BSPMesh.vertices mesh) = 15 * (Face.numedges face - 2)).
Proof.
  intros Hb. pose proof Hb as Hb'. unfold buildMesh in Hb.
  destruct (gatherLoop map face) as [vind|] eqn:Hg; simpl in Hb; [|discriminate].
  pose proof (gatherLoop_resolved map face vind Hg) as [Hsz _].
  destruct (Z.ltb_spec (size vind) 3) as [Hlt|Hge].
  { injection Hb as <-. simpl. split; [reflexivity|]. split; [left; reflexivity|].
    split; [reflexivity | lia]. }
  destruct (buildMesh_fan map face vind mesh Hg Hge Hb') as (ti & ps & Hti & Hps & Hv).
  rewrite Hti in Hb. simpl in Hb.
  destruct (uvDivisors map (meshTextureIndex map ti)) as [[w h]|]; simpl in Hb;
    [|discriminate].
  destruct (for_ 1 (size vind - 1) _ []) as [vs|]; simpl in Hb; [|discriminate].
  injection Hb as <-. simpl in *.
  split; [reflexivity|]. split; [|split; [lia|]].
  - unfold meshTextureIndex.
    destruct (Z.leb_spec 0 (TexInfo.miptex ti)); simpl; [|left; reflexivity].
    destruct (Z.ltb_spec (TexInfo.miptex ti) (size (BSPMap.textures map)));
      [right; lia | left; reflexivity].
  - intros _. rewrite Hv, size_vertexTuples.
    apply Forall2_length in Hps. unfold size at 1. rewrite <- Hps.
    fold (size (fanOrder vind)). rewrite size_fanOrder by lia. lia.
Qed.

(** X10: in a loaded map the mesh of a face with n >= 3 edges holds n - 2 whole
    triangles (15 floats each) and the mesh of a face with fewer edges is
    empty; its texture index is -1 or an index into the textures; no mesh
    is tagged with its face *)
Theorem loaded_meshes_hold_whole_triangles (data : list byte)
        (palette : option (list byte)) (map : BSPMap.t) (e : string) :
  LoadBSP (Some data) palette = Some (Some map, e) ->
  forall fi face mesh,
    at_ (BSPMap.faces map) fi = Some face ->
    at_ (BSPMap.meshes map) fi = Some mesh ->
    BSPMesh.faceIndex mesh = -1 /\
    (BSPMesh.textureIndex mesh = -1 \/
     0 <= BSPMesh.textureIndex mesh < size (BSPMap.textures map)) /\
    (Face.numedges face < 3 -> mesh = BSPMesh.empty) /\
    (3 <= Face.numedges face ->
     size (BSPMesh.vertices mesh) = 15 * (Face.numedges face - 2)).
Proof.
  intros Hload fi face mesh Hf Hm.
  assert (sizeof_BSPHeader <= size data) as Hhdr.
  { unfold LoadBSP in Hload.
    destruct (Z.ltb_spec (size data) sizeof_BSPHeader); [discriminate | assumption]. }
  apply LoadBSP_Some in Hload as (v & _ & Hp & _); [|exact Hhdr]. simpl in Hp.
  apply parseLumps_Ret in Hp
    as (vs & es & ss & fs & ts & li & ms & tx & _ & _ & _ & _ & _ & _ & _ & _ & Hb).
  apply buildMeshes_spec in Hb as (Heq & _ & Hall).
  rewrite Heq in Hf. simpl in Hf.
  destruct (Hall fi face Hf) as (mesh0 & Hbm & Hm0).
  rewrite Hm in Hm0. injection Hm0 as <-.
  apply buildMesh_shape in Hbm. rewrite Heq. exact Hbm.
Qed.

(** ** When [buildMeshes] is defined *)

(** the indices of [face] are valid: every surfedge of its loop exists and
    names an edge that exists; and, when the loop has three vertices or
    more, the vertices and the texture info exist *)
Definition validFace (map : BSPMap.t) (face : Face.t) : Prop :=
  0 <= Face.numedges face /\
  (forall i, 0 <= i < Face.numedges face ->
     Face.firstedge face + i <= F32.int_max /\
     exists se v,
       at_ (BSPMap.surfedges map) (Face.firstedge face + i) = Some se /\
       F32.int_min < se /\
       resolveSurfedge (BSPMap.edges map) se = Some v /\
       (3 <= Face.numedges face -> is_Some (at_ (BSPMap.vertices map) v))) /\
  (3 <= Face.numedges face ->
   is_Some (at_ (BSPMap.texinfos map) (Face.texinfo face))).

(** the step of the surfedge walk determines the surfedge and the vertex *)
Lemma gatherStep_valid map face i vind vind' :
  gatherStep map face i vind = Some vind' ->
  Face.firstedge face + i <= F32.int_max /\
  exists se v,
    at_ (BSPMap.surfedges map) (Face.firstedge face + i) = Some se /\
    F32.int_min < se /\
    resolveSurfedge (BSPMap.edges map) se = Some v /\
    vind' = vind ++ [v].
Proof.
  unfold gatherStep, resolveSurfedge. intros H.
  destruct (int_ok (Face.firstedge face + i)) as [k|] eqn:Hk; simpl in H; [|discriminate].
  apply int_ok_Some in Hk as [-> Hr]. split; [lia|].
  destruct (at_ (BSPMap.surfedges map) _) as [se|] eqn:Hse; simpl in H; [|discriminate].
  exists se. destruct (Z.leb_spec 0 se).
  - destruct (at_ (BSPMap.edges map) se) as [e|]; simpl in H; [|discriminate].
    injection H as <-. exists (Edge.v0 e).
    unfold F32.int_min. repeat split; auto. lia.
  - destruct (int_ok (- se)) as [nse|] eqn:Hn; simpl in H; [|discriminate].
    apply int_ok_Some in Hn as [-> Hn].
    destruct (at_ (BSPMap.edges map) (- se)) as [e|]; simpl in H; [|discriminate].
    injection H as <-. exists (Edge.v1 e).
    unfold F32.int_min, F32.int_max in *. repeat split; auto. lia.
Qed.

Lemma resolved_unique map face n vind i se v :
  resolvedLoop map face n vind -> 0 <= i < n ->
  at_ (BSPMap.surfedges map) (Face.firstedge face + i) = Some se ->
  resolveSurfedge (BSPMap.edges map) se = Some v ->
  at_ vind i = Some v.
Proof.
  intros [_ Hall] Hi Hse Hv. destruct (Hall i Hi) as (se' & v' & Hse' & Hv' & Hat).
  congruence.
Qed.

Lemma uvDivisors_defined map ti : is_Some (uvDivisors map (meshTextureIndex map ti)).
Proof.
  unfold uvDivisors, meshTextureIndex.
  destruct (Z.leb_spec 0 (TexInfo.miptex ti)) as [Hlo|Hlo]; simpl.
  - destruct (Z.ltb_spec (TexInfo.miptex ti) (size (BSPMap.textures map))) as [Hhi|Hhi].
    + destruct (Z.leb_spec 0 (TexInfo.miptex ti)); [|lia].
      destruct (at_is_Some (BSPMap.textures map) (TexInfo.miptex ti)) as [tex ->];
        [lia|]. simpl. eauto.
    + simpl. eauto.
  - simpl. eauto.
Qed.

Lemma buildMesh_defined map face :
  validFace map face -> is_Some (buildMesh map face).
Proof.
  intros (Hn & Hloop & Hti). unfold buildMesh.
  destruct (gatherLoop_defined map face Hn) as [vind Hg].
  { intros i Hi. destruct (Hloop i Hi) as (? & se & v & ? & ? & ? & _). eauto 10. }
  rewrite Hg. cbn [mbind option_bind].
  pose proof (gatherLoop_resolved map face vind Hg) as Hres.
  pose proof Hres as [Hsz _].
  destruct (Z.ltb_spec (size vind) 3) as [|Hge]; [eauto|].
  destruct (Hti ltac:(lia)) as [ti ->]. cbn [mbind option_bind].
  destruct (uvDivisors_defined map ti) as [[w h] ->]. cbn [mbind option_bind].
  assert (forall i, 0 <= i < size vind ->
            exists v p, at_ vind i = Some v /\ at_ (BSPMap.vertices map) v = Some p)
    as Hvert.
  { intros i Hi. destruct (Hloop i ltac:(lia)) as (_ & se & v & Hse & _ & Hv & Hp).
    destruct (Hp ltac:(lia)) as [p Hp'].
    exists v, p. split; [|exact Hp'].
    eapply resolved_unique; eauto. lia. }
  destruct (for_total (fun _ _ => True) (fanStep map ti w h vind) 1 (size vind - 1) []
                      ltac:(lia) I) as (vs & -> & _); [|simpl; eauto].
  intros j t Hj _. unfold fanStep, addVertex.
  destruct (Hvert 0 ltac:(lia)) as (a & pa & -> & Hpa).
  destruct (Hvert j ltac:(lia)) as (b & pb & -> & Hpb).
  destruct (Hvert (j + 1) ltac:(lia)) as (c & pc & -> & Hpc).
  cbn [mbind option_bind]. rewrite Hpa. cbn [mbind option_bind].
  rewrite Hpb. cbn [mbind option_bind]. rewrite Hpc. cbn [mbind option_bind].
  eauto.
Qed.

Lemma fanOrder_covers vind i :
  3 <= size vind -> 0 <= i < size vind -> corner vind i ∈ fanOrder vind.
Proof.
  intros Hn Hi. unfold fanOrder. apply list_elem_of_In, in_flat_map.
  destruct (Z.eq_dec i 0) as [->|Hi0].
  - exists 1. split; [apply list_elem_of_In, elem_of_seqZ; lia | left; reflexivity].
  - destruct (Z.eq_dec i (size vind - 1)) as [->|Hil].
    + exists (size vind - 2). split; [apply list_elem_of_In, elem_of_seqZ; lia|].
      right. right. left. f_equal. lia.
    + exists i. split; [apply list_elem_of_In, elem_of_seqZ; lia|].
      right. left. reflexivity.
Qed.

Lemma buildMesh_valid map face mesh :
  buildMesh map face = Some mesh -> validFace map face.
Proof.
  intros Hb. pose proof Hb as Hb'. unfold buildMesh in Hb.
  destruct (gatherLoop map face) as [vind|] eqn:Hg; simpl in Hb; [|discriminate].
  pose proof (gatherLoop_resolved map face vind Hg) as Hres.
  pose proof Hres as [Hsz Hall].
  assert (0 <= Face.numedges face) as Hn by (rewrite <- Hsz; apply size_nonneg).
  assert (forall i, 0 <= i < Face.numedges face ->
            Face.firstedge face + i <= F32.int_max /\
            exists se v,
              at_ (BSPMap.surfedges map) (Face.firstedge face + i) = Some se /\
              F32.int_min < se /\
              resolveSurfedge (BSPMap.edges map) se = Some v) as Hloop.
  { unfold gatherLoop in Hg.
    destruct (Z.ltb_spec (Face.numedges face) 0); [discriminate|].
    pose (P := fun (j : Z) (_ : list Z) =>
      forall i, 0 <= i < j ->
        Face.firstedge face + i <= F32.int_max /\
        exists se v,
          at_ (BSPMap.surfedges map) (Face.firstedge face + i) = Some se /\
          F32.int_min < se /\
          resolveSurfedge (BSPMap.edges map) se = Some v).
    apply (for_inv P (gatherStep map face) 0 _ [] vind Hn); [| |exact Hg].
    - intros i Hi. lia.
    - intros j t t' Hj HP Hstep i Hi.
      destruct (Z.eq_dec i j) as [->|Hne]; [|apply HP; lia].
      apply gatherStep_valid in Hstep as (Hmax & se & v & Hse & Hmin & Hv & _).
      split; [exact Hmax|]. eauto. }
  split; [exact Hn|].
  destruct (Z.ltb_spec (size vind) 3) as [Hlt|Hge].
  { split; [|lia]. intros i Hi. destruct (Hloop i Hi) as (Hmax & se & v & Hse & Hmin & Hv).
    split; [exact Hmax|]. exists se, v. repeat split; auto. lia. }
  destruct (buildMesh_fan map face vind mesh Hg Hge Hb') as (ti & ps & Hti & Hps & _).
  split; [|rewrite Hti; eauto].
  intros i Hi. destruct (Hloop i Hi) as (Hmax & se & v & Hse & Hmin & Hv).
  split; [exact Hmax|]. exists se, v. repeat split; auto. intros _.
  pose proof (resolved_unique map face _ vind i se v Hres Hi Hse Hv) as Hat.
  assert (corner vind i ∈ fanOrder vind) as Hin by (apply fanOrder_covers; lia).
  unfold corner in Hin. rewrite Hat in Hin. simpl in Hin.
  apply list_elem_of_lookup in Hin as [k Hk].
  destruct (Forall2_lookup_l _ _ _ _ _ Hps Hk) as (p & _ & Hp). eauto.
Qed.

Lemma buildMeshes_total map :
  (forall fi face, at_ (BSPMap.faces map) fi = Some face -> validFace map face) ->
  is_Some (buildMeshes map).
Proof.
  intros Hvalid. unfold buildMeshes.
  destruct (for_total (fun _ _ => True) (buildMeshesStep map) 0
                      (size (BSPMap.faces map)) [] (size_nonneg _) I)
    as (ms & -> & _); [|simpl; eauto].
  intros j t Hj _. unfold buildMeshesStep.
  destruct (at_is_Some (BSPMap.faces map) j Hj) as [face Hf]. rewrite Hf.
  cbn [mbind option_bind].
  destruct (buildMesh_defined map face (Hvalid j face Hf)) as [mesh ->].
  simpl. eauto.
Qed.

(** X11: [buildMeshes] checks no index: it is defined exactly for the maps in
    which every face has valid indices *)
Theorem meshes_defined_iff_indices_valid (map : BSPMap.t) :
  is_Some (buildMeshes map) <->
  forall fi face, at_ (BSPMap.faces map) fi = Some face -> validFace map face.
Proof.
  split.
  - intros [map' Hb] fi face Hf.
    apply buildMeshes_spec in Hb as (_ & _ & Hall).
    destruct (Hall fi face Hf) as (mesh & Hm & _).
    apply (buildMesh_valid map face mesh Hm).
  - apply buildMeshes_total.
Qed.

(** ** When the loader is defined *)







(** a decoded texture has 32-bit dimensions, and pixel indices for the
    whole of level 0 or none at all *)
Definition texOk (tex : BSPTexture.t) : Prop :=
  0 <= BSPTexture.width tex < 2 ^ 32 /\ 0 <= BSPTexture.height tex < 2 ^ 32 /\
  (BSPTexture.indices tex = [] \/
   size (BSPTexture.indices tex)
   = (BSPTexture.width tex * BSPTexture.height tex) mod 2 ^ 32).

Lemma rdbytes_size data a n bs :
  0 <= n -> rdbytes data a n = Some bs -> size bs = n.
Proof.
  intros Hn. unfold rdbytes. destruct (Z.eqb_spec n 0) as [->|Hne].
  { intros [= <-]. reflexivity. }
  destruct (Z.leb_spec 0 a); simpl; [|discriminate].
  destruct (Z.leb_spec (a + n) (size data)); [|discriminate].
  intros [= <-]. unfold size in *. rewrite length_take, length_drop. lia.
Qed.





Lemma decodeSlot_texOk data a sz offsets i ts ts' :
  decodeSlot data a sz offsets i ts = Some ts' ->
  Forall texOk ts -> Forall texOk ts'.
Proof.
  unfold decodeSlot. intros H Hall.
  destruct (at_ offsets i) as [off|]; simpl in H; [|discriminate].
  destruct ((off <=? 0) || (sz <=? to_size_t off)); [congruence|].
  destruct (sz <? to_size_t off + sizeof_MipTex); [congruence|].
  destruct (rdbytes data (a + off) sizeof_MipTex) as [mt|]; simpl in H; [|discriminate].
  destruct (ru32 mt 16) as [w|] eqn:Hw; simpl in H; [|discriminate].
  destruct (ru32 mt 20) as [h|] eqn:Hh; simpl in H; [|discriminate].
  destruct (ru32 mt 24) as [l0|]; simpl in H; [|discriminate].
  pose proof (ru32_range _ _ _ Hw) as Rw. pose proof (ru32_range _ _ _ Hh) as Rh.
  pose proof (Z.mod_pos_bound (w * h) (2 ^ 32) ltac:(lia)) as Rn.
  match type of H with
  | context [mbind _ ?o] => destruct o as [ix|] eqn:Hix; simpl in H; [|discriminate]
  end.
  injection H as <-. apply Forall_insert; [exact Hall|].
  change (2 ^ 32) with 4294967296 in *. repeat split; simpl; try lia.
  destruct ((0 <? w) && (0 <? h)); [|left; congruence].
  destruct ((0 <? l0) && _); [|left; congruence].
  right. eapply rdbytes_size; [|exact Hix]. change (2 ^ 32) with 4294967296. lia.
Qed.

Lemma readTextures_texOk data ts :
  readTextures data = Some ts -> Forall texOk ts.
Proof.
  unfold readTextures, parseMipTex.
  destruct (lumpSpan data LUMP_MIPTEX) as [[p sz]|] eqn:Hsp; simpl; [|discriminate].
  destruct (Z.ltb_spec sz sizeof_MipTexHeader); [intros [= <-]; constructor|].
  destruct p as [a|]; simpl; [|discriminate].
  destruct (rd32 data (a + 0)) as [nummip|]; simpl; [|discriminate].
  destruct (Z.ltb_spec nummip 0) as [|Hn0]; [intros [= <-]; constructor|].
  destruct (int_ok (4 + 4 * nummip)) as [n4|]; simpl; [|discriminate].
  destruct (sz <? to_size_t n4); [intros [= <-]; constructor|].
  destruct (mapM _ (upto nummip)) as [offsets|] eqn:Hoffs; simpl; [|discriminate].
  apply (for_keeps (Forall texOk)).
  - intros j t t' _ Ht Hstep. eapply decodeSlot_texOk; eauto.
  - apply Forall_replicate. unfold texOk. simpl.
    change (2 ^ 32) with 4294967296. repeat split; try lia. left. reflexivity.
Qed.









(** ** Palettes *)

Lemma u8_uint8_of n : u8 (uint8_of n) = n mod 256.
Proof.
  unfold u8, uint8_of.
  pose proof (Z.mod_pos_bound n 256 ltac:(lia)) as Hr.
  destruct (Byte.of_N (Z.to_N (n mod 256))) as [b|] eqn:Hb.
  - apply Byte.to_of_N in Hb. simpl. rewrite Hb. lia.
  - apply Byte.of_N_None_iff in Hb. lia.
Qed.

Lemma uint8_of_u8 b : uint8_of (u8 b) = b.
Proof.
  unfold uint8_of, u8. pose proof (Byte.to_N_bounded b).
  rewrite Z.mod_small by lia. rewrite N2Z.id, Byte.of_to_N. reflexivity.
Qed.

Lemma u8_inj b b' : u8 b = u8 b' -> b = b'.
Proof. intros H. rewrite <- (uint8_of_u8 b), <- (uint8_of_u8 b'), H. reflexivity. Qed.

(** entry [i] of a palette, and the squared distance of a colour to
    [(r, g, b)] *)
Definition entry (rgb : list byte) (i : Z) : option (byte * byte * byte) :=
  r ← at_ rgb (i * 3 + 0); g ← at_ rgb (i * 3 + 1); b ← at_ rgb (i * 3 + 2);
  Some (r, g, b).

Definition dist2 (c : byte * byte * byte) (r g b : byte) : Z :=
  (u8 c.1.1 - u8 r) * (u8 c.1.1 - u8 r)
  + (u8 c.1.2 - u8 g) * (u8 c.1.2 - u8 g)
  + (u8 c.2 - u8 b) * (u8 c.2 - u8 b).

Lemma entry_inside rgb i :
  size rgb = 768 -> 0 <= i < 256 -> is_Some (entry rgb i).
Proof.
  intros Hs Hi. unfold entry.
  destruct (at_is_Some rgb (i * 3 + 0)) as [r ->]; [lia|].
  destruct (at_is_Some rgb (i * 3 + 1)) as [g ->]; [lia|].
  destruct (at_is_Some rgb (i * 3 + 2)) as [b ->]; [lia|].
  simpl. eauto.
Qed.

Lemma square_range a b : 0 <= a < 256 -> 0 <= b < 256 -> 0 <= (a - b) * (a - b) <= 65025.
Proof.
  intros Ha Hb.
  pose proof (Z.mul_nonneg_nonneg (a - b + 255) (255 - (a - b)) ltac:(lia) ltac:(lia)) as H.
  replace ((a - b + 255) * (255 - (a - b))) with (65025 - (a - b) * (a - b)) in H by ring.
  pose proof (Z.square_nonneg (a - b)). lia.
Qed.

Lemma dist2_range c r g b : 0 <= dist2 c r g b <= 195075.
Proof.
  unfold dist2.
  pose proof (square_range _ _ (u8_range c.1.1) (u8_range r)).
  pose proof (square_range _ _ (u8_range c.1.2) (u8_range g)).
  pose proof (square_range _ _ (u8_range c.2) (u8_range b)). lia.
Qed.

Lemma dist2_zero c r g b : dist2 c r g b = 0 <-> c = (r, g, b).
Proof.
  destruct c as [[c0 c1] c2]. unfold dist2. simpl. split.
  - intros H.
    pose proof (Z.square_nonneg (u8 c0 - u8 r)) as S0.
    pose proof (Z.square_nonneg (u8 c1 - u8 g)) as S1.
    pose proof (Z.square_nonneg (u8 c2 - u8 b)) as S2.
    assert ((u8 c0 - u8 r) * (u8 c0 - u8 r) = 0) as E0 by lia.
    assert ((u8 c1 - u8 g) * (u8 c1 - u8 g) = 0) as E1 by lia.
    assert ((u8 c2 - u8 b) * (u8 c2 - u8 b) = 0) as E2 by lia.
    apply Z.mul_eq_0 in E0, E1, E2.
    assert (u8 c0 = u8 r) as H0 by lia. assert (u8 c1 = u8 g) as H1 by lia.
    assert (u8 c2 = u8 b) as H2 by lia.
    apply u8_inj in H0, H1, H2. congruence.
  - intros [= -> -> ->]. lia.
Qed.

Lemma nearestStep_spec rgb r g b i best bd st c :
  entry rgb i = Some c ->
  nearestStep rgb r g b i (best, bd) = Some st ->
  st = if dist2 c r g b <? bd then (i, dist2 c r g b) else (best, bd).
Proof.
  unfold entry, nearestStep. intros He Hs.
  destruct (at_ rgb (i * 3 + 0)) as [c0|]; simpl in *; [|discriminate].
  destruct (at_ rgb (i * 3 + 1)) as [c1|]; simpl in *; [|discriminate].
  destruct (at_ rgb (i * 3 + 2)) as [c2|]; simpl in *; [|discriminate].
  injection He as <-. unfold dist2. simpl.
  destruct (int_ok _) as [d2|] eqn:Hd; simpl in Hs; [|discriminate].
  apply int_ok_Some in Hd as [-> _].
  destruct (_ <? bd); congruence.
Qed.

Lemma nearestStep_defined rgb r g b i best bd c :
  entry rgb i = Some c ->
  is_Some (nearestStep rgb r g b i (best, bd)).
Proof.
  unfold entry, nearestStep. intros He.
  destruct (at_ rgb (i * 3 + 0)) as [c0|]; simpl in *; [|discriminate].
  destruct (at_ rgb (i * 3 + 1)) as [c1|]; simpl in *; [|discriminate].
  destruct (at_ rgb (i * 3 + 2)) as [c2|]; simpl in *; [|discriminate].
  pose proof (dist2_range (c0, c1, c2) r g b) as Hr. unfold dist2 in Hr. simpl in Hr.
  rewrite int_ok_inside by (unfold F32.int_min, F32.int_max; lia).
  simpl. destruct (_ <? bd); eauto.
Qed.

(** [n] is the first entry of [rgb] among those nearest to [(r, g, b)] *)
Definition firstNearest (rgb : list byte) (r g b : byte) (n : Z) : Prop :=
  0 <= n < 256 /\
  exists c, entry rgb n = Some c /\
    forall i ci, 0 <= i < 256 -> entry rgb i = Some ci ->
      dist2 c r g b <= dist2 ci r g b /\
      (i < n -> dist2 c r g b < dist2 ci r g b).

Lemma nearestLoop_spec rgb r g b :
  size rgb = 768 ->
  exists n bd, for_ 0 256 (nearestStep rgb r g b) (0, INT32_MAX) = Some (n, bd) /\
               firstNearest rgb r g b n.
Proof.
  intros Hs.
  pose (P := fun (j : Z) (st : Z * Z) =>
    (j = 0 /\ st = (0, INT32_MAX)) \/
    (0 <= st.1 < j /\
     exists c, entry rgb st.1 = Some c /\ st.2 = dist2 c r g b /\
       forall i ci, 0 <= i < j -> entry rgb i = Some ci ->
         dist2 c r g b <= dist2 ci r g b /\
         (i < st.1 -> dist2 c r g b < dist2 ci r g b))).
  destruct (for_total P (nearestStep rgb r g b) 0 256 (0, INT32_MAX) ltac:(lia))
    as ([n bd] & Hrun & HP).
  - left. auto.
  - intros j [best d] Hj HPj.
    destruct (entry_inside rgb j Hs ltac:(lia)) as [cj Hcj].
    destruct (nearestStep_defined rgb r g b j best d cj Hcj) as [st Hst].
    exists st. split; [exact Hst|].
    apply (nearestStep_spec _ _ _ _ _ _ _ _ _ Hcj) in Hst. subst st.
    pose proof (dist2_range cj r g b) as Rj.
    right. destruct HPj as [[-> [= -> ->]]|(Hb & c & Hc & Hd & Hmin)]; simpl in *.
    + unfold INT32_MAX. destruct (Z.ltb_spec (dist2 cj r g b) 2147483647); [|lia].
      simpl. split; [lia|]. exists cj. split; [exact Hcj|]. split; [reflexivity|].
      intros i ci Hi Hci. assert (i = 0) as -> by lia.
      rewrite Hcj in Hci. injection Hci as <-. lia.
    + subst d. destruct (Z.ltb_spec (dist2 cj r g b) (dist2 c r g b)) as [Hlt|Hge]; simpl.
      * split; [lia|]. exists cj. split; [exact Hcj|]. split; [reflexivity|].
        intros i ci Hi Hci. destruct (Z.eq_dec i j) as [->|Hne].
        -- rewrite Hcj in Hci. injection Hci as <-. lia.
        -- destruct (Hmin i ci ltac:(lia) Hci). lia.
      * split; [lia|]. exists c. split; [exact Hc|]. split; [reflexivity|].
        intros i ci Hi Hci. destruct (Z.eq_dec i j) as [->|Hne].
        -- rewrite Hcj in Hci. injection Hci as <-. lia.
        -- apply (Hmin i ci); [lia | exact Hci].
  - exists n, bd. split; [exact Hrun|].
    destruct HP as [[? _]|(Hb & c & Hc & _ & Hmin)]; [lia|]. simpl in *.
    split; [lia|]. exists c. split; [exact Hc | exact Hmin].
Qed.

Lemma nearest_index_spec rgb r g b :
  size rgb = 768 ->
  exists n, FindNearestPaletteIndex rgb r g b = Some n /\ firstNearest rgb r g b n.
Proof.
  intros Hs. unfold FindNearestPaletteIndex, IsValidPalette768.
  destruct (Z.eqb_spec (size rgb) 768); [|contradiction]. simpl.
  destruct (nearestLoop_spec rgb r g b Hs) as (n & bd & -> & Hn).
  exists n. split; [reflexivity | exact Hn].
Qed.

(** X13: [FindNearestPaletteIndex] reads inside the palette and its sums fit
    [int]; for a palette of 768 bytes the result is the first of the
    entries nearest to the colour, and for any other palette it is 0 *)
Theorem nearest_palette_index (rgb : list byte) (r g b : byte) :
  exists n,
    FindNearestPaletteIndex rgb r g b = Some n /\
    (size rgb = 768 -> firstNearest rgb r g b n) /\
    (size rgb <> 768 -> n = 0).
Proof.
  unfold FindNearestPaletteIndex, IsValidPalette768.
  destruct (Z.eqb_spec (size rgb) 768) as [Hs|Hs]; simpl.
  - destruct (nearestLoop_spec rgb r g b Hs) as (n & bd & -> & Hn).
    exists n. simpl. split; [reflexivity|]. split; [auto | contradiction].
  - exists 0. split; [reflexivity|]. split; [contradiction | reflexivity].
Qed.

(** a colour that is in the palette is found exactly *)
Lemma firstNearest_exact rgb r g b n i :
  firstNearest rgb r g b n -> 0 <= i < 256 -> entry rgb i = Some (r, g, b) ->
  n <= i /\ entry rgb n = Some (r, g, b).
Proof.
  intros (Hn & c & Hc & Hmin) Hi He.
  destruct (Hmin i (r, g, b) Hi He) as [Hle Hlt].
  assert (dist2 (r, g, b) r g b = 0) as H0 by (apply dist2_zero; reflexivity).
  pose proof (dist2_range c r g b) as Rc.
  split; [lia|]. rewrite Hc. f_equal. apply dist2_zero. lia.
Qed.

Lemma GetPaletteColor_entry rgb i :
  size rgb = 768 -> 0 <= i < 256 -> GetPaletteColor rgb i = entry rgb i.
Proof.
  intros Hs Hi. unfold GetPaletteColor, IsValidPalette768, entry.
  destruct (Z.eqb_spec (size rgb) 768); [|contradiction].
  destruct (Z.ltb_spec i 0); [lia|]. destruct (Z.ltb_spec 255 i); [lia|]. reflexivity.
Qed.

(** ** Remap tables *)

Lemma remapLoop_spec src dst :
  size src = 768 -> size dst = 768 ->
  exists remap,
    for_ 0 256 (remapStep src dst) (replicate 256 Byte.x00) = Some remap /\
    size remap = 256 /\
    forall i, 0 <= i < 256 ->
      exists c n, entry src i = Some c /\
                  firstNearest dst c.1.1 c.1.2 c.2 n /\
                  at_ remap i = Some (uint8_of n).
Proof.
  intros Hs Hd.
  pose (P := fun (j : Z) (t : list byte) =>
    size t = 256 /\
    forall i, 0 <= i < j ->
      exists c n, entry src i = Some c /\
                  firstNearest dst c.1.1 c.1.2 c.2 n /\
                  at_ t i = Some (uint8_of n)).
  destruct (for_total P (remapStep src dst) 0 256 (replicate 256 Byte.x00) ltac:(lia))
    as (remap & Hrun & Hsz & Hall).
  - split; [reflexivity | intros; lia].
  - intros j t Hj [Hsz Hdone]. unfold remapStep.
    destruct (entry_inside src j Hs ltac:(lia)) as [[[r g] b] Hc].
    pose proof Hc as Hc'. unfold entry in Hc'.
    destruct (at_ src (j * 3 + 0)) as [r'|]; simpl in Hc'; [|discriminate].
    destruct (at_ src (j * 3 + 1)) as [g'|]; simpl in Hc'; [|discriminate].
    destruct (at_ src (j * 3 + 2)) as [b'|]; simpl in Hc'; [|discriminate].
    injection Hc' as -> -> ->. cbn [mbind option_bind].
    destruct (nearest_index_spec dst r g b Hd) as (n & Hn & Hnear).
    rewrite Hn. cbn [mbind option_bind].
    destruct (store_is_Some t j (uint8_of n)) as [t' Ht]; [lia|].
    exists t'. split; [exact Ht|].
    apply store_Some in Ht as [_ ->]. split; [rewrite size_insert; exact Hsz|].
    intros i Hi. destruct (Z.eq_dec i j) as [->|Hne].
    + exists (r, g, b), n. split; [exact Hc|]. split; [exact Hnear|].
      apply at_insert_eq. lia.
    + destruct (Hdone i ltac:(lia)) as (c & m & ? & ? & ?).
      exists c, m. split; [assumption|]. split; [assumption|].
      rewrite at_insert_ne by lia. assumption.
  - exists remap. auto.
Qed.

(** X14: [BuildPaletteRemapTable] always returns 256 bytes: for two palettes of
    768 bytes, entry [i] is the first of the entries of [dst] nearest to
    colour [i] of [src]; otherwise the table is all zeros *)
Theorem remap_table_maps_to_nearest (src dst : list byte) :
  exists remap,
    BuildPaletteRemapTable src dst = Some remap /\
    size remap = 256 /\
    (size src = 768 -> size dst = 768 ->
     forall i, 0 <= i < 256 ->
       exists c n, entry src i = Some c /\
                   firstNearest dst c.1.1 c.1.2 c.2 n /\
                   at_ remap i = Some (uint8_of n)) /\
    (size src <> 768 \/ size dst <> 768 -> remap = replicate 256 Byte.x00).
Proof.
  unfold BuildPaletteRemapTable, IsValidPalette768.
  destruct (Z.eqb_spec (size src) 768) as [Hs|Hs];
    destruct (Z.eqb_spec (size dst) 768) as [Hd|Hd]; cbn [negb orb].
  2-4: exists (replicate 256 Byte.x00); split; [reflexivity|];
       split; [reflexivity|]; split; [intros; contradiction | reflexivity].
  destruct (remapLoop_spec src dst Hs Hd) as (remap & -> & Hsz & Hall).
  exists remap. split; [reflexivity|]. split; [exact Hsz|].
  split; [auto | intros [?|?]; contradiction].
Qed.

Lemma ApplyIndexRemap_spec indices remap :
  size remap = 256 ->
  exists out,
    ApplyIndexRemap indices remap = Some out /\
    size out = size indices /\
    forall i ix, at_ indices i = Some ix -> at_ out i = at_ remap (u8 ix).
Proof.
  intros Hr. unfold ApplyIndexRemap. rewrite Hr. simpl.
  assert (is_Some (mapM (fun ix => at_ remap (u8 ix)) indices)) as [out Hout].
  { apply mapM_is_Some. apply Forall_forall. intros ix _.
    apply at_is_Some. pose proof (u8_range ix). lia. }
  exists out. split; [exact Hout|]. split.
  - apply length_mapM in Hout. unfold size. lia.
  - intros i ix Hat. destruct (mapM_at _ _ _ _ _ Hout Hat) as (y & Hy & Hf).
    congruence.
Qed.

(** X15: [ApplyIndexRemap] never reads outside the table: with a table of 256
    bytes it replaces every index by its table entry, and with any other
    table it leaves the indices as they are *)
Theorem index_remap_is_elementwise (indices remap : list byte) :
  exists out,
    ApplyIndexRemap indices remap = Some out /\
    size out = size indices /\
    (size remap = 256 ->
     forall i ix, at_ indices i = Some ix -> at_ out i = at_ remap (u8 ix)) /\
    (size remap <> 256 -> out = indices).
Proof.
  destruct (Z.eq_dec (size remap) 256) as [Hr|Hr].
  - destruct (ApplyIndexRemap_spec indices remap Hr) as (out & Ho & Hs & Hall).
    exists out. split; [exact Ho|]. split; [exact Hs|].
    split; [auto | contradiction].
  - exists indices. unfold ApplyIndexRemap.
    destruct (Z.eqb_spec (size remap) 256); [contradiction|]. simpl.
    split; [reflexivity|]. split; [reflexivity|]. split; [contradiction | reflexivity].
Qed.

(** X16: remapping through the table of a palette onto itself changes no
    colour: every index is replaced by the first index of the same colour *)
Theorem self_remap_keeps_colours (palette indices : list byte) :
  size palette = 768 ->
  exists remap out,
    BuildPaletteRemapTable palette palette = Some remap /\
    ApplyIndexRemap indices remap = Some out /\
    size out = size indices /\
    forall i ix, at_ indices i = Some ix ->
      exists ix', at_ out i = Some ix' /\
                  u8 ix' <= u8 ix /\
                  GetPaletteColor palette (u8 ix') = GetPaletteColor palette (u8 ix).
Proof.
  intros Hp.
  unfold BuildPaletteRemapTable, IsValidPalette768.
  destruct (Z.eqb_spec (size palette) 768); [|contradiction]. cbn [negb orb].
  destruct (remapLoop_spec palette palette Hp Hp) as (remap & -> & Hsz & Hall).
  destruct (ApplyIndexRemap_spec indices remap Hsz) as (out & Ho & Hs & Hix).
  exists remap, out. split; [reflexivity|]. split; [exact Ho|]. split; [exact Hs|].
  intros i ix Hat. pose proof (u8_range ix) as Rx.
  destruct (Hall (u8 ix) Rx) as ([[r g] b] & n & Hc & Hn & Hr). simpl in Hn.
  destruct (firstNearest_exact palette r g b n (u8 ix) Hn Rx Hc) as [Hle He].
  destruct Hn as (Rn & _).
  exists (uint8_of n). rewrite (Hix i ix Hat). split; [exact Hr|].
  rewrite u8_uint8_of, Z.mod_small by lia. split; [exact Hle|].
  rewrite !GetPaletteColor_entry by lia. congruence.
Qed.

(** ** Saving and loading a palette *)

Lemma size_NormalizePaletteSize768 rgb : size (NormalizePaletteSize768 rgb) = 768.
Proof.
  unfold NormalizePaletteSize768. destruct (Z.eqb_spec (size rgb) 768); [assumption|].
  destruct (768 <? size rgb); apply size_resize; lia.
Qed.

(** X17: a palette that [SavePaletteLMP] writes is read back unchanged by
    [LoadPaletteLMP]; [SavePaletteLMPRelaxed] writes, and gives back, the
    palette cut or padded with zeros to 768 bytes; a palette of another
    size is not written by [SavePaletteLMP] *)
Theorem palette_lmp_round_trip (rgb out : list byte) :
  (forall file, SavePaletteLMP true rgb = Some file ->
                size rgb = 768 /\ LoadPaletteLMP (Some file) out = rgb) /\
  (size rgb <> 768 -> SavePaletteLMP true rgb = None) /\
  (exists file,
      SavePaletteLMPRelaxed true rgb = Some file /\ size file = 768 /\
      LoadPaletteLMP (Some file) out
      = take 768 rgb ++ replicate (768 - length rgb) Byte.x00).
Proof.
  split; [|split].
  - unfold SavePaletteLMP, IsValidPalette768, LoadPaletteLMP.
    destruct (Z.eqb_spec (size rgb) 768) as [Hs|Hs]; simpl; [|discriminate].
    intros file [= <-]. split; [exact Hs|].
    assert (take 768 rgb = rgb) as -> by (apply take_ge; unfold size in Hs; lia).
    rewrite Hs. simpl. apply take_ge. unfold size in Hs. lia.
  - intros Hs. unfold SavePaletteLMP, IsValidPalette768.
    destruct (Z.eqb_spec (size rgb) 768); [contradiction | reflexivity].
  - pose proof (size_NormalizePaletteSize768 rgb) as Hn.
    assert (take 768 (NormalizePaletteSize768 rgb) = NormalizePaletteSize768 rgb) as E
        by (apply take_ge; unfold size in Hn; lia).
    exists (NormalizePaletteSize768 rgb).
    unfold SavePaletteLMPRelaxed, LoadPaletteLMP. cbn [negb]. rewrite E.
    split; [reflexivity|]. split; [exact Hn|]. rewrite Hn.
    change (768 <? 768) with false. cbv iota. 
    unfold NormalizePaletteSize768, resize.
    change (Z.to_nat 768) with 768%nat.
    destruct (Z.eqb_spec (size rgb) 768) as [Hs|Hs].
    + unfold size in Hs. replace (768 - length rgb)%nat with 0%nat by lia.
      rewrite take_ge by lia. cbn [replicate]. rewrite app_nil_r. reflexivity.
    + destruct (768 <? size rgb); reflexivity.
Qed.

(** ** Brightness and contrast *)

Lemma adjustByte_neutral x : adjustByte F32.zero F32.zero x = Some x.
Proof. destruct x; vm_compute; reflexivity. Qed.

(** X18: brightness 0.5 and contrast 0.5 change no palette: every byte comes
    back from the float arithmetic as it went in *)
Theorem brightness_contrast_neutral (rgb : list byte) :
  ApplyBrightnessContrastToPalette rgb F32.half F32.half = Some rgb.
Proof.
  unfold ApplyBrightnessContrastToPalette, IsValidPalette768.
  destruct (Z.eqb_spec (size rgb) 768) as [Hs|Hs]; [|reflexivity]. cbn [negb].
  change (F32.mul (F32.sub F32.half F32.half) f2) with F32.zero.
  destruct (for_total (fun _ t => t = rgb)
              (fun i t => x ← at_ t i; y ← adjustByte F32.zero F32.zero x; store t i y)
              0 768 rgb ltac:(lia) eq_refl) as (t & Hrun & ->); [|exact Hrun].
  intros j t Hj ->. destruct (at_is_Some rgb j ltac:(lia)) as [x Hx].
  exists rgb. split; [|reflexivity].
  rewrite Hx. cbn [mbind option_bind]. rewrite adjustByte_neutral.
  cbn [mbind option_bind]. unfold store. rewrite Hx. f_equal.
  apply list_insert_id. apply at_Some in Hx as [_ Hx]. exact Hx.
Qed.

(** ** Indexed textures to RGBA *)

(** the colour [paletteLookup] gives for an index: the palette entry, or
    the grey of the index when the palette has fewer than 768 bytes *)
Definition colourOf (palette : list byte) (ix : byte) : option (byte * byte * byte) :=
  if 768 <=? size palette then entry palette (u8 ix) else Some (ix, ix, ix).

Lemma paletteLookup_colourOf palette ix : paletteLookup palette ix = colourOf palette ix.
Proof. reflexivity. Qed.

Lemma colourOf_defined palette ix : is_Some (colourOf palette ix).
Proof.
  unfold colourOf, entry. destruct (Z.leb_spec 768 (size palette)); [|eauto].
  pose proof (u8_range ix).
  destruct (at_is_Some palette (u8 ix * 3 + 0)) as [r ->]; [lia|].
  destruct (at_is_Some palette (u8 ix * 3 + 1)) as [g ->]; [lia|].
  destruct (at_is_Some palette (u8 ix * 3 + 2)) as [b ->]; [lia|].
  simpl. eauto.
Qed.

(** the four bytes of pixel [i] of an RGBA buffer *)
Definition rgbaAt (rgba : list byte) (i : Z) : option (byte * byte * byte * byte) :=
  r ← at_ rgba (i * 4 + 0); g ← at_ rgba (i * 4 + 1);
  b ← at_ rgba (i * 4 + 2); a ← at_ rgba (i * 4 + 3);
  Some (r, g, b, a).

(** what [IndexedToRGBA] writes for index [ix] *)
Definition rgbaOf (palette : list byte) (ix : byte) : option (byte * byte * byte * byte) :=
  '(r, g, b) ← colourOf palette ix;
  Some (r, g, b, if u8 ix =? 255 then Byte.x00 else Byte.xff).

Lemma convertLoop_spec tex palette n :
  size (BSPTexture.indices tex) * 4 <= Z.of_nat n ->
  exists rgba,
    for_ 0 (size (BSPTexture.indices tex)) (convertStep tex palette)
         (replicate n Byte.x00) = Some rgba /\
    size rgba = Z.of_nat n /\
    (forall i ix, at_ (BSPTexture.indices tex) i = Some ix ->
                  rgbaAt rgba i = rgbaOf palette ix) /\
    (forall p, size (BSPTexture.indices tex) * 4 <= p < Z.of_nat n ->
               at_ rgba p = Some Byte.x00).
Proof.
  intros Hn.
  pose (P := fun (j : Z) (t : list byte) =>
    size t = Z.of_nat n /\
    (forall i ix, 0 <= i < j -> at_ (BSPTexture.indices tex) i = Some ix ->
                  rgbaAt t i = rgbaOf palette ix) /\
    (forall p, j * 4 <= p < Z.of_nat n -> at_ t p = Some Byte.x00)).
  destruct (for_total P (convertStep tex palette) 0 (size (BSPTexture.indices tex))
                      (replicate n Byte.x00) (size_nonneg _))
    as (rgba & Hrun & Hs & Hdone & Hrest).
  - split; [apply size_replicate|]. split; [intros; lia|].
    intros p Hp. unfold at_. destruct (Z.ltb_spec p 0); [lia|].
    apply lookup_replicate_2. lia.
  - intros j t Hj (Hs & Hdone & Hrest). unfold convertStep.
    destruct (at_is_Some (BSPTexture.indices tex) j Hj) as [ix Hix]. rewrite Hix.
    cbn [mbind option_bind]. rewrite paletteLookup_colourOf.
    destruct (colourOf_defined palette ix) as [[[r g] b] Hc]. rewrite Hc.
    cbn [mbind option_bind].
    destruct (putPixel_defined t (j * 4) r g b
                (if u8 ix =? 255 then Byte.x00 else Byte.xff)) as [t' Ht]; [lia | lia|].
    exists t'. split; [exact Ht|].
    apply putPixel_spec in Ht as [Hs' Hat]. split; [lia|]. split.
    + intros i ix' Hi Hix'. unfold rgbaAt. rewrite !Hat.
      destruct (Z.eq_dec i j) as [->|Hne].
      * rewrite Hix in Hix'. injection Hix' as <-.
        unfold rgbaOf. rewrite Hc. cbn [mbind option_bind].
        destruct (u8 ix =? 255);
          repeat match goal with
                 | |- context [?a =? ?b] =>
                     destruct (Z.eqb_spec a b); try lia
                 end; reflexivity.
      * rewrite <- (Hdone i ix' ltac:(lia) Hix'). unfold rgbaAt.
        destruct (u8 ix =? 255);
          repeat match goal with
                 | |- context [?a =? ?b] =>
                     destruct (Z.eqb_spec a b); try lia
                 end; reflexivity.
    + intros p Hp. rewrite Hat.
      destruct (Z.eqb_spec p (j * 4 + 3)); [lia|].
      destruct (Z.eqb_spec p (j * 4 + 2)); [lia|].
      destruct (Z.eqb_spec p (j * 4 + 1)); [lia|].
      destruct (Z.eqb_spec p (j * 4 + 0)); [lia|].
      apply Hrest. lia.
  - exists rgba. split; [exact Hrun|]. split; [exact Hs|]. split; [|exact Hrest].
    intros i ix Hix. apply (Hdone i ix); [|exact Hix]. eapply at_lt; eauto.
Qed.

(** X19: for a texture with no more indices than pixels, [IndexedToRGBA] gives
    four bytes for every pixel: the palette colour of the index (the grey
    of the index when the palette is too short) with alpha 0 for index 255
    and alpha 255 otherwise, and four zeros for a pixel past the last
    index *)
Theorem indexed_to_rgba_pixels (tex : BSPTexture.t) (palette : list byte) :
  0 < BSPTexture.width tex < 2 ^ 32 -> 0 < BSPTexture.height tex < 2 ^ 32 ->
  BSPTexture.width tex * BSPTexture.height tex * 4 < 2 ^ 63 ->
  0 < size (BSPTexture.indices tex) <= BSPTexture.width tex * BSPTexture.height tex ->
  exists rgba,
    IndexedToRGBA tex palette = Some rgba /\
    size rgba = BSPTexture.width tex * BSPTexture.height tex * 4 /\
    (forall i ix, at_ (BSPTexture.indices tex) i = Some ix ->
                  rgbaAt rgba i = rgbaOf palette ix) /\
    (forall i, size (BSPTexture.indices tex) <= i
               < BSPTexture.width tex * BSPTexture.height tex ->
               rgbaAt rgba i = Some (Byte.x00, Byte.x00, Byte.x00, Byte.x00)).
Proof.
  intros Hw Hh Hmax Hix. unfold IndexedToRGBA.
  destruct (Z.eqb_spec (BSPTexture.width tex) 0); [lia|].
  destruct (Z.eqb_spec (BSPTexture.height tex) 0); [lia|].
  destruct (Z.eqb_spec (size (BSPTexture.indices tex)) 0); [lia|]. cbn [orb].
  change (2 ^ 32) with 4294967296 in *. change (2 ^ 63) with 9223372036854775808 in *.
  rewrite !to_size_t_small by (change (2 ^ 64) with 18446744073709551616; lia).
  change (2 ^ 64) with 18446744073709551616.
  rewrite (Z.mod_small (BSPTexture.width tex * BSPTexture.height tex)) by nia.
  rewrite Z.mod_small by nia.
  unfold resize_ok. change (2 ^ 63) with 9223372036854775808.
  destruct (Z.ltb_spec (BSPTexture.width tex * BSPTexture.height tex * 4)
                       9223372036854775808); [|lia].
  cbn [mbind option_bind].
  destruct (convertLoop_spec tex palette
              (Z.to_nat (BSPTexture.width tex * BSPTexture.height tex * 4)))
    as (rgba & Hrun & Hs & Hdone & Hrest); [lia|].
  exists rgba. split; [exact Hrun|]. split; [lia|]. split; [exact Hdone|].
  intros i Hi. unfold rgbaAt.
  rewrite !Hrest by lia. reflexivity.
Qed.

(** X20: [IndexedToRGBA] trusts the texture: with more indices than pixels it
    writes past the end of the buffer it has sized for the pixels *)
Theorem indexed_to_rgba_overrun (tex : BSPTexture.t) (palette : list byte) :
  0 < BSPTexture.width tex < 2 ^ 32 -> 0 < BSPTexture.height tex < 2 ^ 32 ->
  BSPTexture.width tex * BSPTexture.height tex < size (BSPTexture.indices tex) ->
  IndexedToRGBA tex palette = None.
Proof.
  intros Hw Hh Hix. unfold IndexedToRGBA.
  destruct (Z.eqb_spec (BSPTexture.width tex) 0); [lia|].
  destruct (Z.eqb_spec (BSPTexture.height tex) 0); [lia|].
  destruct (Z.eqb_spec (size (BSPTexture.indices tex)) 0); [nia|]. cbn [orb].
  change (2 ^ 32) with 4294967296 in *.
  rewrite !to_size_t_small by (change (2 ^ 64) with 18446744073709551616; lia).
  change (2 ^ 64) with 18446744073709551616.
  rewrite (Z.mod_small (BSPTexture.width tex * BSPTexture.height tex)) by nia.
  set (k := BSPTexture.width tex * BSPTexture.height tex) in *.
  assert (0 < k < 18446744073709551616) as Hk by (unfold k; nia).
  destruct (resize_ok ((k * 4) mod 18446744073709551616)); [|reflexivity].
  cbn [mbind option_bind].
  set (len := Z.to_nat ((k * 4) mod 18446744073709551616)).
  assert (Z.of_nat len <= k * 4) as Hn.
  { unfold len. pose proof (Z.mod_pos_bound (k * 4) 18446744073709551616 ltac:(lia)).
    pose proof (Z.mod_le (k * 4) 18446744073709551616 ltac:(lia) ltac:(lia)). lia. }
  destruct (for_ 0 _ (convertStep tex palette) (replicate len Byte.x00)) as [rgba|] eqn:Hrun;
    [|reflexivity].
  exfalso.
  pose (P := fun (j : Z) (t : list byte) => j <= k /\ size t = Z.of_nat len).
  assert (P (size (BSPTexture.indices tex)) rgba) as [HP _]; [|lia].
  apply (for_inv P (convertStep tex palette) 0 _ (replicate len Byte.x00) rgba);
    [apply size_nonneg | split; [lia | apply size_replicate] | | exact Hrun].
  intros j t t' Hj [Hle Hs] Hstep. unfold convertStep in Hstep.
  destruct (at_ (BSPTexture.indices tex) j) as [ix|]; simpl in Hstep; [|discriminate].
  destruct (paletteLookup palette ix) as [[[r g] b]|]; simpl in Hstep; [|discriminate].
  pose proof Hstep as Hsz. apply putPixel_spec in Hsz as [Hsz _].
  unfold putPixel in Hstep.
  destruct (store t (j * 4 + 0) r) as [t1|] eqn:H1; simpl in Hstep; [|discriminate].
  destruct (store t1 (j * 4 + 1) g) as [t2|] eqn:H2; simpl in Hstep; [|discriminate].
  destruct (store t2 (j * 4 + 2) b) as [t3|] eqn:H3; simpl in Hstep; [|discriminate].
  apply store_Some in Hstep as [Hin _].
  apply store_size in H1, H2, H3.
  split; [lia|]. lia.
Qed.

(** X21: every texture of a loaded map has as many indices as [IndexedToRGBA]
    expects or none: the conversion the renderer runs on it stays inside
    its buffers, with the palette the map carries *)
Theorem loaded_textures_convert (data : list byte) (palette : option (list byte))
        (map : BSPMap.t) (e : string) :
  LoadBSP (Some data) palette = Some (Some map, e) ->
  forall i tex,
    at_ (BSPMap.textures map) i = Some tex ->
    0 <= BSPTexture.width tex < 2 ^ 32 /\ 0 <= BSPTexture.height tex < 2 ^ 32 /\
    (BSPTexture.indices tex = [] \/
     size (BSPTexture.indices tex)
     = (BSPTexture.width tex * BSPTexture.height tex) mod 2 ^ 32) /\
    (BSPTexture.width tex * BSPTexture.height tex * 4 < 2 ^ 63 ->
     exists rgba,
       IndexedToRGBA tex (BSPMap.paletteRGB map) = Some rgba /\
       (rgba = [] \/
        size rgba = BSPTexture.width tex * BSPTexture.height tex * 4)).
Proof.
  intros Hload i tex Hat.
  assert (sizeof_BSPHeader <= size data) as Hhdr.
  { unfold LoadBSP in Hload.
    destruct (Z.ltb_spec (size data) sizeof_BSPHeader); [discriminate | assumption]. }
  apply LoadBSP_Some in Hload as (v & _ & Hp & _); [|exact Hhdr]. simpl in Hp.
  apply parseLumps_Ret in Hp
    as (vs & es & ss & fs & ts & li & ms & tx & _ & _ & _ & _ & _ & _ & _ & H8 & Hb).
  apply buildMeshes_spec in Hb as (Heq & _ & _). rewrite Heq in Hat |- *.
  simpl in Hat |- *.
  apply readTextures_texOk in H8.
  apply at_Some in Hat as [_ Hl].
  pose proof (proj1 (Forall_lookup _ _) H8 _ _ Hl) as (Hw & Hh & Hix).
  split; [exact Hw|]. split; [exact Hh|]. split; [exact Hix|].
  intros Hmax. unfold IndexedToRGBA.
  destruct (Z.eqb_spec (BSPTexture.width tex) 0); [eauto|].
  destruct (Z.eqb_spec (BSPTexture.height tex) 0); [eauto|].
  destruct (Z.eqb_spec (size (BSPTexture.indices tex)) 0) as [|Hne]; [eauto|]. cbn [orb].
  destruct Hix as [Hnil|Hsz]; [rewrite Hnil in Hne; contradiction|].
  change (2 ^ 32) with 4294967296 in *. change (2 ^ 63) with 9223372036854775808 in *.
  rewrite !to_size_t_small by (change (2 ^ 64) with 18446744073709551616; lia).
  change (2 ^ 64) with 18446744073709551616.
  rewrite (Z.mod_small (BSPTexture.width tex * BSPTexture.height tex)) by nia.
  rewrite Z.mod_small by nia.
  unfold resize_ok. change (2 ^ 63) with 9223372036854775808.
  destruct (Z.ltb_spec (BSPTexture.width tex * BSPTexture.height tex * 4)
                       9223372036854775808); [|lia].
  cbn [mbind option_bind].
  pose proof (Z.mod_le (BSPTexture.width tex * BSPTexture.height tex) 4294967296
                       ltac:(nia) ltac:(lia)).
  destruct (convertLoop_spec tex (LoadPaletteLMP palette [])
              (Z.to_nat (BSPTexture.width tex * BSPTexture.height tex * 4)))
    as (rgba & Hrun & Hs & _); [lia|].
  exists rgba. split; [exact Hrun|]. right. lia.
Qed.

(** ** Embedded textures *)

(** bytes read through a copy are the bytes of the file *)
Lemma rdbytes_at data q n bs k :
  rdbytes data q n = Some bs -> 0 <= k < n -> at_ bs k = at_ data (q + k).
Proof.
  unfold rdbytes. intros H Hk. destruct (Z.eqb_spec n 0); [lia|].
  destruct (Z.leb_spec 0 q); simpl in H; [|discriminate].
  destruct (Z.leb_spec (q + n) (size data)); [|discriminate].
  injection H as <-. unfold at_.
  destruct (Z.ltb_spec k 0); [lia|]. destruct (Z.ltb_spec (q + k) 0); [lia|].
  rewrite lookup_take_lt by lia. rewrite lookup_drop. f_equal. lia.
Qed.

Lemma ru32_through data q n bs k :
  rdbytes data q n = Some bs -> 0 <= k -> k + 4 <= n ->
  ru32 bs k = ru32 data (q + k).
Proof.
  intros H Hk Hn. unfold ru32, rd8.
  rewrite !(rdbytes_at data q n bs) by (auto; lia).
  rewrite !Z.add_assoc. reflexivity.
Qed.

Lemma rdbytes_take data q n bs :
  rdbytes data q n = Some bs -> 0 <= q -> 0 <= n ->
  bs = take (Z.to_nat n) (drop (Z.to_nat q) data).
Proof.
  unfold rdbytes. intros H Hq Hn. destruct (Z.eqb_spec n 0) as [->|].
  { injection H as <-. reflexivity. }
  destruct ((0 <=? q) && (q + n <=? size data)); [|discriminate].
  injection H as <-. reflexivity.
Qed.

(** what the loop stores for a slot with an offset inside the lump *)
Definition embedded (data : list byte) (a sz off : Z) (tex : BSPTexture.t) : Prop :=
  exists w h l0,
    ru32 data (a + off + 16) = Some w /\ ru32 data (a + off + 20) = Some h /\
    ru32 data (a + off + 24) = Some l0 /\
    BSPTexture.width tex = w /\ BSPTexture.height tex = h /\
    BSPTexture.name tex = nameOf (take 16 (drop (Z.to_nat (a + off)) data)) /\
    BSPTexture.indices tex =
    if (0 <? w) && (0 <? h) && (0 <? l0) && (off + l0 + (w * h) mod 2 ^ 32 <=? sz)
    then take (Z.to_nat ((w * h) mod 2 ^ 32)) (drop (Z.to_nat (a + off + l0)) data)
    else [].

Lemma decodeSlot_embedded data a sz offsets i ts ts' off :
  0 <= a ->
  at_ offsets i = Some off -> 0 < off < sz -> off < 2147483648 ->
  decodeSlot data a sz offsets i ts = Some ts' ->
  (sz < off + sizeof_MipTex -> ts' = ts) /\
  (off + sizeof_MipTex <= sz ->
   exists tex, ts' = <[Z.to_nat i := tex]> ts /\ embedded data a sz off tex).
Proof.
  intros Ha Hoff Hr Hmax. unfold decodeSlot. rewrite Hoff. cbn [mbind option_bind].
  destruct (Z.leb_spec off 0); [lia|]. simpl.
  rewrite to_size_t_small by (change (2 ^ 64) with 18446744073709551616; lia).
  destruct (Z.leb_spec sz off); [lia|]. simpl.
  destruct (Z.ltb_spec sz (off + sizeof_MipTex)) as [Hs|Hs].
  { intros [= <-]. split; [reflexivity | lia]. }
  unfold sizeof_MipTex in *.
  destruct (rdbytes data (a + off) 40) as [mt|] eqn:Hmt; simpl; [|discriminate].
  rewrite (ru32_through data (a + off) 40 mt 16 Hmt) by lia.
  rewrite (ru32_through data (a + off) 40 mt 20 Hmt) by lia.
  rewrite (ru32_through data (a + off) 40 mt 24 Hmt) by lia.
  destruct (ru32 data (a + off + 16)) as [w|] eqn:Hw; simpl; [|discriminate].
  destruct (ru32 data (a + off + 20)) as [h|] eqn:Hh; simpl; [|discriminate].
  destruct (ru32 data (a + off + 24)) as [l0|] eqn:Hl0; simpl; [|discriminate].
  pose proof (ru32_range _ _ _ Hl0) as Rl.
  pose proof (Z.mod_pos_bound (w * h) (2 ^ 32) ltac:(lia)) as Rn.
  match goal with
  | |- context [mbind _ ?o] => destruct o as [ix|] eqn:Hix; simpl; [|discriminate]
  end.
  intros [= <-]. split; [lia|]. intros _. eexists. split; [reflexivity|].
  exists w, h, l0. simpl. repeat split; auto.
  - rewrite (rdbytes_take data (a + off) 40 mt Hmt) by lia.
    rewrite take_take. reflexivity.
  - revert Hix. destruct ((0 <? w) && (0 <? h)); simpl; [|congruence].
    destruct (Z.ltb_spec 0 l0); simpl; [|congruence].
    destruct (off + l0 + (w * h) mod 2 ^ 32 <=? sz); [|congruence].
    intros Hix. apply (rdbytes_take data (a + off + l0) _ ix Hix); lia.
Qed.

(** X22: a texture slot whose offset lies inside the miptex lump: when the
    40-byte header would run past the end of the lump the slot stays a
    default texture; otherwise the texture gets the name, width and height
    of the header, and the width*height bytes of level 0 when they lie
    inside the lump (no indices otherwise) *)
Theorem embedded_texture_decoded (data : list byte) (palette : option (list byte))
        (map : BSPMap.t) (e : string) (a sz nummip i off : Z) :
  LoadBSP (Some data) palette = Some (Some map, e) ->
  lumpSpan data LUMP_MIPTEX = Some (Some a, sz) -> 0 <= a ->
  sizeof_MipTexHeader <= sz ->
  rd32 data a = Some nummip ->
  0 <= i < nummip -> 4 + 4 * nummip <= sz ->
  rd32 data (a + 4 + 4 * i) = Some off ->
  0 < off < sz ->
  (sz < off + sizeof_MipTex -> at_ (BSPMap.textures map) i = Some BSPTexture.empty) /\
  (off + sizeof_MipTex <= sz ->
   exists tex, at_ (BSPMap.textures map) i = Some tex /\ embedded data a sz off tex).
Proof.
  intros Hload Hsp Ha Hsz Hn Hi Hfit Hoff Hr.
  assert (sizeof_BSPHeader <= size data) as Hhdr.
  { unfold LoadBSP in Hload.
    destruct (Z.ltb_spec (size data) sizeof_BSPHeader); [discriminate | assumption]. }
  apply LoadBSP_Some in Hload as (v & _ & Hp & _); [|exact Hhdr]. simpl in Hp.
  apply parseLumps_Ret in Hp
    as (vs & es & ss & fs & ts & li & ms & tx & _ & _ & _ & _ & _ & _ & _ & H8 & Hb).
  apply buildMeshes_spec in Hb as (Heq & _ & _). rewrite Heq. simpl.
  unfold readTextures in H8. rewrite Hsp in H8. cbn [mbind option_bind] in H8.
  unfold parseMipTex in H8.
  destruct (Z.ltb_spec sz sizeof_MipTexHeader); [lia|].
  cbn [mbind option_bind] in H8. rewrite Z.add_0_r, Hn in H8.
  cbn [mbind option_bind] in H8.
  destruct (Z.ltb_spec nummip 0); [lia|].
  destruct (int_ok (4 + 4 * nummip)) as [n4|] eqn:Hn4; simpl in H8; [|discriminate].
  apply int_ok_Some in Hn4 as [-> Hint].
  unfold F32.int_min, F32.int_max in Hint.
  rewrite to_size_t_small in H8 by (change (2 ^ 64) with 18446744073709551616; lia).
  destruct (Z.ltb_spec sz (4 + 4 * nummip)); [lia|].
  destruct (mapM _ (upto nummip)) as [offsets|] eqn:Hoffs; simpl in H8; [|discriminate].
  assert (at_ offsets i = Some off) as Hoi
      by (rewrite (mapM_upto_at _ _ _ i Hoffs) by lia; exact Hoff).
  pose proof (rd32_range _ _ _ Hoff) as Ro.
  pose (P := fun (j : Z) (t : list BSPTexture.t) =>
    size t = nummip /\
    (j <= i -> at_ t i = Some BSPTexture.empty) /\
    (i < j ->
     (sz < off + sizeof_MipTex -> at_ t i = Some BSPTexture.empty) /\
     (off + sizeof_MipTex <= sz ->
      exists tex, at_ t i = Some tex /\ embedded data a sz off tex))).
  assert (P nummip tx) as (_ & _ & Hdone); [|apply Hdone; lia].
  apply (for_inv P (decodeSlot data a sz offsets) 0 nummip
                 (replicate (Z.to_nat nummip) BSPTexture.empty) tx);
    [lia | | | exact H8].
  - split; [rewrite size_replicate; lia|]. split; [|lia].
    intros _. unfold at_. destruct (Z.ltb_spec i 0); [lia|].
    apply lookup_replicate_2. lia.
  - intros j t t' Hj (Hs & Hbefore & Hafter) Hstep.
    destruct (Z.eq_dec j i) as [->|Hne].
    + destruct (decodeSlot_embedded data a sz offsets i t t' off Ha Hoi Hr
                                    ltac:(lia) Hstep) as [Hsmall Hbig].
      split.
      { destruct (Z.lt_ge_cases sz (off + sizeof_MipTex)) as [Hc|Hc].
        - rewrite (Hsmall Hc). exact Hs.
        - destruct (Hbig Hc) as (tex & -> & _). rewrite size_insert. exact Hs. }
      split; [lia|]. intros _. split.
      * intros Hc. rewrite (Hsmall Hc). apply Hbefore. lia.
      * intros Hc. destruct (Hbig Hc) as (tex & -> & Hemb).
        exists tex. split; [apply at_insert_eq; lia | exact Hemb].
    + assert (exists offj, at_ offsets j = Some offj /\
                           -2147483648 <= offj < 2147483648) as (offj & Hoj & Rj).
      { unfold decodeSlot in Hstep.
        destruct (at_ offsets j) as [offj|] eqn:Hoj; [|discriminate].
        exists offj. split; [reflexivity|].
        rewrite (mapM_upto_at _ _ _ j Hoffs) in Hoj by lia.
        apply (rd32_range _ _ _ Hoj). }
      destruct (decodeSlot_cases _ _ _ _ _ _ _ _ Hoj Rj Hstep)
        as [->|(_ & tex & ->)].
      * split; [exact Hs|]. split; [intros; apply Hbefore; lia|].
        intros Hij. apply Hafter. lia.
      * split; [rewrite size_insert; exact Hs|].
        split; [intros; rewrite at_insert_ne by lia; apply Hbefore; lia|].
        intros Hij. rewrite at_insert_ne by lia. apply Hafter. lia.
Qed.

(** ** The outcomes of a load *)

(** X23: the two channels of [LoadBSP] agree: without a map the error is one of
    "Failed to read BSP file", "File too small" and the five messages of
    the load-critical lumps; with a map the error is empty when the version
    is 29 and the version warning otherwise *)
Theorem load_outcomes (file palette : option (list byte))
        (r : option BSPMap.t * string) :
  LoadBSP file palette = Some r ->
  match r.1 with
  | None =>
      (file = None /\ r.2 = "Failed to read BSP file"%string) \/
      (exists data, file = Some data /\ size data < sizeof_BSPHeader /\
                    r.2 = "File too small"%string) \/
      (exists data idx stride,
          file = Some data /\ (idx, stride, r.2) ∈ criticalLumps /\
          checkFails data (idx, stride, r.2))
  | Some map =>
      (BSPMap.version map = 29 /\ r.2 = EmptyString) \/
      (BSPMap.version map <> 29 /\ r.2 = versionWarning)
  end.
Proof.
  destruct file as [data|]; simpl.
  2:{ intros [= <-]. simpl. left. auto. }
  destruct (Z.ltb_spec (size data) sizeof_BSPHeader) as [Hs|Hs].
  { intros [= <-]. simpl. right. left. eauto. }
  intros Hload.
  assert (LoadBSP (Some data) palette = Some r) as Hl.
  { unfold LoadBSP. destruct (Z.ltb_spec (size data) sizeof_BSPHeader); [lia|].
    exact Hload. }
  apply LoadBSP_Some in Hl as (v & _ & Hp); [|exact Hs].
  destruct r as [[map|] e]; simpl in *.
  - destruct Hp as [Hp ->]. apply parseLumps_map in Hp as (-> & _).
    destruct (Z.eqb_spec v 29); [left | right]; auto.
  - apply parseLumps_Abort in Hp as (idx & stride & Hin & Hc).
    right. right. exists data, idx, stride. auto.
Qed.

Lemma embedded_texture_decoded_witness :
  exists tex,
    at_ (BSPMap.textures (loaded unitTriangleFile)) 0 = Some tex /\
    BSPTexture.width tex = 1 /\ BSPTexture.height tex = 1 /\
    BSPTexture.indices tex = [Byte.x05].
Proof.
  assert (LoadBSP (Some unitTriangleFile) None
          = Some (Some (loaded unitTriangleFile), EmptyString)) as Hload
      by (vm_compute; reflexivity).
  destruct (embedded_texture_decoded unitTriangleFile None _ _ 124 49 1 0 8 Hload)
    as [_ Hemb];
    [reflexivity | lia | vm_compute; discriminate | reflexivity | lia | lia
     | reflexivity | lia |].
  destruct (Hemb ltac:(vm_compute; discriminate))
    as (tex & Hat & w & h & l0 & Hw & Hh & Hl & Htw & Hth & _ & Hix).
  vm_compute in Hw, Hh, Hl. injection Hw as <-. injection Hh as <-. injection Hl as <-.
  exists tex. split; [exact Hat|]. split; [exact Htw|]. split; [exact Hth|].
  rewrite Hix. vm_compute. reflexivity.
Defined.

Lemma load_outcomes_witness :
  LoadBSP (Some (triangleFile 30)) None
  = Some (Some (loaded (triangleFile 30)), versionWarning) /\
  BSPMap.version (loaded (triangleFile 30)) <> 29.
Proof.
  assert (LoadBSP (Some (triangleFile 30)) None
          = Some (Some (loaded (triangleFile 30)), versionWarning)) as Hload
      by (vm_compute; reflexivity).
  split; [exact Hload|].
  destruct (load_outcomes _ _ _ Hload) as [[Hv He]|[Hv _]]; [|exact Hv].
  simpl in He. discriminate.
Defined.

(** ** The entity parser *)

Lemma skipWS_length s : (length (skipWS s) <= length s)%nat.
Proof.
  induction s as [|c s IH]; simpl; [lia|]. destruct (isspace c); simpl; lia.
Qed.

Lemma scanQuote_length s : (length (scanQuote s).2 <= length s)%nat.
Proof.
  induction s as [|c s IH]; simpl; [lia|].
  destruct (Byte.eqb c quote); simpl; [lia|].
  destruct (scanQuote s) as [t r]. simpl in *. lia.
Qed.

Lemma scanQuote_free s : quote ∉ (scanQuote s).1.
Proof.
  induction s as [|c s IH]; simpl; [apply not_elem_of_nil|].
  destruct (Byte.eqb c quote) eqn:E; simpl; [apply not_elem_of_nil|].
  destruct (scanQuote s) as [t r]. simpl in *.
  apply not_elem_of_cons. split; [|exact IH].
  intros Hc. rewrite (Byte.byte_dec_lb (eq_sym Hc)) in E. discriminate.
Qed.

Lemma parsePairs_spec fuel : forall s kv,
  (length s < fuel)%nat ->
  exists kv' s',
    parsePairs fuel s kv = Some (kv ++ kv', s') /\
    (length s' <= length s)%nat /\ quoteFree kv'.
Proof.
  induction fuel as [|fuel IH]; intros s kv Hf; [lia|].
  cbn [parsePairs].
  pose proof (skipWS_length s) as Hws.
  assert (forall s' : list byte, (length s' <= length (skipWS s))%nat ->
            exists kv' s'', Some (kv, s') = Some (kv ++ kv', s'') /\
                            (length s'' <= length s)%nat /\ quoteFree kv') as Hstop.
  { intros s' Hs'. exists [], s'. rewrite app_nil_r.
    split; [reflexivity|]. split; [lia | constructor]. }
  destruct (skipWS s) as [|c rest] eqn:Es; [apply Hstop; simpl; lia|].
  destruct (Byte.eqb c rbrace); [apply Hstop; simpl; lia|].
  destruct (Byte.eqb c quote); simpl; [|apply Hstop; simpl; lia].
  pose proof (scanQuote_length rest) as Hk. pose proof (scanQuote_free rest) as Fk.
  destruct (scanQuote rest) as [key s1]. simpl in Hk, Fk.
  destruct s1 as [|q1 s2]; [apply Hstop; simpl; lia|].
  pose proof (skipWS_length s2) as Hws2.
  destruct (skipWS s2) as [|c' rest'] eqn:Es2; [apply Hstop; simpl; lia|].
  destruct (Byte.eqb c' quote); simpl.
  2:{ apply Hstop. simpl in *. lia. }
  pose proof (scanQuote_length rest') as Hv. pose proof (scanQuote_free rest') as Fv.
  destruct (scanQuote rest') as [val s3]. simpl in Hv, Fv.
  destruct s3 as [|q3 s4]; [apply Hstop; simpl; lia|].
  simpl in *.
  destruct (IH s4 (kv ++ [(string_of_list_byte key, string_of_list_byte val)]))
    as (kv' & s' & Hrun & Hlen & Hfree); [lia|].
  exists ((string_of_list_byte key, string_of_list_byte val) :: kv'), s'.
  rewrite Hrun, <- app_assoc. split; [reflexivity|]. split; [lia|].
  constructor; [|exact Hfree]. simpl.
  rewrite !list_byte_of_string_of_list_byte. auto.
Qed.

Lemma parseBlocks_spec fuel : forall s out,
  (length s < fuel)%nat ->
  exists new,
    parseBlocks fuel s out = Some (out ++ new) /\
    Forall (fun e => e <> []) new /\ Forall quoteFree new.
Proof.
  induction fuel as [|fuel IH]; intros s out Hf; [lia|].
  cbn [parseBlocks].
  assert (exists new, Some out = Some (out ++ new) /\
                      Forall (fun e : entity => e <> []) new /\ Forall quoteFree new)
    as Hstop by (exists []; rewrite app_nil_r; auto).
  destruct s as [|c0 s0]; [exact Hstop|].
  pose proof (skipWS_length (c0 :: s0)) as Hws.
  destruct (skipWS (c0 :: s0)) as [|c rest] eqn:Es; [exact Hstop|].
  destruct (Byte.eqb c lbrace); cbn [negb]; [|exact Hstop].
  destruct (parsePairs_spec (S (length rest)) rest []) as (kv & s1 & Hp & Hlen & Hfree);
    [lia|].
  rewrite app_nil_l in Hp. rewrite Hp. cbn [mbind option_bind].
  pose proof (skipWS_length s1) as Hws1.
  destruct kv as [|kv0 kv].
  - apply IH. simpl in *. lia.
  - destruct (IH (skipWS s1) (out ++ [kv0 :: kv])) as (new & Hrun & Hne & Hq);
      [simpl in *; lia|].
    exists ((kv0 :: kv) :: new). rewrite Hrun, <- app_assoc.
    split; [reflexivity|]. split; constructor; auto.
Qed.

(** X24: [ParseBSPEntities] returns for every text; it only appends to [out],
    every entity it appends has at least one pair and no double quote in a
    key or a value; for a null pointer or an empty text it returns [false],
    and otherwise it returns whether [out] is not empty afterwards (so
    [true] as soon as [out] was not empty before the call) *)
Theorem entities_are_appended (p : option (list byte)) (out : list entity) :
  exists flag new,
    ParseBSPEntities p out = Some (flag, out ++ new) /\
    Forall (fun e => e <> []) new /\ Forall quoteFree new /\
    (p = None \/ p = Some [] -> flag = false /\ new = []) /\
    (forall c text, p = Some (c :: text) ->
                    flag = match out ++ new with [] => false | _ :: _ => true end).
Proof.
  unfold ParseBSPEntities. destruct p as [[|c text]|].
  - exists false, []. rewrite app_nil_r. simpl.
    split; [reflexivity|]. split; [constructor|]. split; [constructor|].
    split; [auto | discriminate].
  - change (size (c :: text) =? 0) with (Z.of_nat (S (length text)) =? 0).
    destruct (Z.eqb_spec (Z.of_nat (S (length text))) 0); [lia|].
    pose proof (skipWS_length (c :: text)) as Hws.
    destruct (parseBlocks_spec (S (length (c :: text))) (skipWS (c :: text)) out)
      as (new & Hrun & Hne & Hq); [lia|].
    rewrite Hrun. cbn [mbind option_bind].
    exists (negb (size (out ++ new) =? 0)), new.
    split; [reflexivity|]. split; [exact Hne|]. split; [exact Hq|].
    split; [intros [?|?]; discriminate|].
    intros _ _ _. destruct (out ++ new); reflexivity.
  - exists false, []. rewrite app_nil_r.
    split; [reflexivity|]. split; [constructor|]. split; [constructor|].
    split; [auto | discriminate].
Qed.

Lemma scanQuote_stop t r :
  quote ∉ t -> scanQuote (t ++ quote :: r) = (t, quote :: r).
Proof.
  induction t as [|c t IH]; intros Hq; simpl; [reflexivity|].
  apply not_elem_of_cons in Hq as [Hc Ht].
  destruct (Byte.eqb c quote) eqn:E.
  - apply Byte.byte_dec_bl in E. congruence.
  - rewrite (IH Ht). reflexivity.
Qed.

Lemma skipWS_pairs e r :
  skipWS (flat_map pairText e ++ rbrace :: r) = flat_map pairText e ++ rbrace :: r.
Proof. destruct e; reflexivity. Qed.

Lemma skipWS_entities es : skipWS (entitiesText es) = entitiesText es.
Proof. destruct es; reflexivity. Qed.

Lemma pairs_length (e : entity) : (length e <= length (flat_map pairText e))%nat.
Proof.
  induction e as [|kv e IH]; simpl; [lia|]. rewrite length_app. lia.
Qed.

Lemma entities_length (es : list entity) :
  (length es <= length (entitiesText es))%nat.
Proof.
  induction es as [|e es IH]; [simpl; lia|].
  unfold entitiesText in *. cbn [flat_map]. rewrite length_app.
  cbn [entityText app length]. lia.
Qed.

Lemma parsePairs_text e : forall fuel s acc rest,
  quoteFree e ->
  skipWS s = flat_map pairText e ++ rbrace :: rest ->
  (length e < fuel)%nat ->
  parsePairs fuel s acc = Some (acc ++ e, rest).
Proof.
  induction e as [|[k v] e IH]; intros fuel s acc rest Hq Hs Hf;
    (destruct fuel as [|fuel]; [simpl in Hf; lia|]); cbn [parsePairs]; rewrite Hs.
  - simpl. rewrite app_nil_r. reflexivity.
  - apply Forall_cons in Hq as [[Hk Hv] Hq]. simpl in Hk, Hv.
    cbn [flat_map pairText fst snd app].
    change (Byte.eqb quote rbrace) with false.
    change (Byte.eqb quote quote) with true. cbn [negb].
    rewrite <- !app_assoc. cbn [app].
    rewrite (scanQuote_stop _ _ Hk).
    change (skipWS (Byte.x20 :: quote :: ?x)) with (quote :: x).
    cbv beta iota.
    change (Byte.eqb quote quote) with true. cbn [negb].
    rewrite <- !app_assoc. cbn [app].
    rewrite (scanQuote_stop _ _ Hv).
    rewrite (IH fuel _ _ rest Hq).
    + rewrite <- app_assoc. simpl.
      rewrite !string_of_list_byte_of_string. reflexivity.
    + change (skipWS (Byte.x0a :: ?x)) with (skipWS x). apply skipWS_pairs.
    + simpl in Hf. lia.
Qed.

Lemma parseBlocks_text es : forall fuel out,
  Forall quoteFree es ->
  (length es < fuel)%nat ->
  parseBlocks fuel (entitiesText es) out = Some (out ++ nonEmptyOnes es).
Proof.
  induction es as [|e es IH]; intros fuel out Hq Hf;
    (destruct fuel as [|fuel]; [simpl in Hf; lia|]).
  - simpl. rewrite app_nil_r. reflexivity.
  - apply Forall_cons in Hq as [He Hq].
    change (entitiesText (e :: es))
      with (lbrace :: Byte.x0a :: (flat_map pairText e ++ [rbrace; Byte.x0a])
              ++ entitiesText es).
    rewrite <- app_assoc. cbn [app].
    cbn [parseBlocks].
    change (skipWS (lbrace :: ?x)) with (lbrace :: x).
    change (Byte.eqb lbrace lbrace) with true. cbn [negb].
    rewrite (parsePairs_text e _ _ [] (Byte.x0a :: entitiesText es) He).
    + cbn [mbind option_bind app].
      change (skipWS (Byte.x0a :: ?x)) with (skipWS x).
      rewrite skipWS_entities. rewrite IH; [|exact Hq|simpl in Hf; lia].
      destruct e; [reflexivity|]. rewrite <- app_assoc. reflexivity.
    + change (skipWS (Byte.x0a :: ?x)) with (skipWS x). apply skipWS_pairs.
    + pose proof (pairs_length e). simpl. rewrite length_app. lia.
Qed.

(** X25: The text of a non-empty list of entities whose keys and values hold no
    double quote is parsed back to these entities, in order and with the
    pairs in order, without those that have no pair; they are appended to
    [out], and the flag tells whether [out] is then not empty *)
Theorem entities_text_is_parsed_back (es out : list entity) :
  es <> [] ->
  Forall quoteFree es ->
  ParseBSPEntities (Some (entitiesText es)) out =
    Some (match out ++ nonEmptyOnes es with [] => false | _ :: _ => true end,
          out ++ nonEmptyOnes es).
Proof.
  intros Hne Hq. unfold ParseBSPEntities.
  pose proof (entities_length es) as Hlen.
  assert (0 < length es)%nat as Hpos by (destruct es; [congruence | simpl; lia]).
  unfold size.
  destruct (Z.eqb_spec (Z.of_nat (length (entitiesText es))) 0); [lia|].
  rewrite skipWS_entities, parseBlocks_text; [|exact Hq|lia].
  cbn [mbind option_bind]. destruct (out ++ nonEmptyOnes es); reflexivity.
Qed.

(** ** Channel swizzle *)

Lemma chIndex_range c : -1 <= chIndex c <= 3.
Proof. destruct c; vm_compute; split; discriminate. Qed.

Lemma at_skip4 {A} (a b c d : A) l p :
  4 <= p -> at_ (a :: b :: c :: d :: l) p = at_ l (p - 4).
Proof.
  intros Hp. change (a :: b :: c :: d :: l) with ([a; b; c; d] ++ l).
  rewrite at_app_r by (unfold size; simpl; lia). reflexivity.
Qed.

Lemma at_first4 {A} (a b c d : A) l m :
  0 <= m <= 3 ->
  is_Some (at_ [a; b; c; d] m) /\
  at_ (a :: b :: c :: d :: l) m = at_ [a; b; c; d] m.
Proof.
  intros Hm. split.
  - apply at_is_Some. unfold size. simpl. lia.
  - change (a :: b :: c :: d :: l) with ([a; b; c; d] ++ l).
    apply at_app_l. unfold size. simpl. lia.
Qed.

(** the map of an order that [SwizzleRGBA] accepts *)
Definition swizzleMap (order : option (list byte)) : option (Z * Z * Z * Z) :=
  match order with
  | Some [o0; o1; o2; o3] =>
      if (0 <=? chIndex o0) && (0 <=? chIndex o1) &&
         (0 <=? chIndex o2) && (0 <=? chIndex o3)
      then Some (chIndex o0, chIndex o1, chIndex o2, chIndex o3)
      else None
  | _ => None
  end.

Lemma swizzleLoop_spec m0 m1 m2 m3 :
  0 <= m0 <= 3 -> 0 <= m1 <= 3 -> 0 <= m2 <= 3 -> 0 <= m3 <= 3 ->
  forall n rgba, (length rgba <= n)%nat ->
  exists out,
    swizzleLoop m0 m1 m2 m3 rgba = Some out /\
    size out = size rgba /\
    (forall i, 0 <= i -> 4 * i + 3 < size rgba ->
       at_ out (4 * i) = at_ rgba (4 * i + m0) /\
       at_ out (4 * i + 1) = at_ rgba (4 * i + m1) /\
       at_ out (4 * i + 2) = at_ rgba (4 * i + m2) /\
       at_ out (4 * i + 3) = at_ rgba (4 * i + m3)) /\
    (forall p, 4 * (size rgba / 4) <= p -> at_ out p = at_ rgba p).
Proof.
  intros H0 H1 H2 H3. induction n as [|n IH]; intros rgba Hn.
  - destruct rgba; [|simpl in Hn; lia].
    exists []. split; [reflexivity|]. split; [reflexivity|].
    split; [|reflexivity]. intros i Hi Hlt. unfold size in Hlt. simpl in Hlt. lia.
  - assert (forall l : list byte, (length l < 4)%nat ->
              swizzleLoop m0 m1 m2 m3 l = Some l) as Hshort.
    { intros [|? [|? [|? [|? ?]]]] Hl; try reflexivity. simpl in Hl. lia. }
    destruct (Nat.lt_ge_cases (length rgba) 4) as [Hlt|Hge].
    { exists rgba. split; [apply Hshort; exact Hlt|]. split; [reflexivity|].
      split; [|reflexivity]. intros i Hi Hs. unfold size in Hs. lia. }
    destruct rgba as [|r [|g [|b [|a rest]]]]; try (simpl in Hge; lia).
    destruct (IH rest) as (rest' & Hrun & Hs & Hpix & Htail); [simpl in Hn; lia|].
    cbn [swizzleLoop].
    destruct (at_first4 r g b a rest m0 H0) as [[c0 E0] F0].
    destruct (at_first4 r g b a rest m1 H1) as [[c1 E1] F1].
    destruct (at_first4 r g b a rest m2 H2) as [[c2 E2] F2].
    destruct (at_first4 r g b a rest m3 H3) as [[c3 E3] F3].
    rewrite E0, E1, E2, E3, Hrun. cbn [mbind option_bind].
    exists (c0 :: c1 :: c2 :: c3 :: rest').
    assert (size (r :: g :: b :: a :: rest) = size rest + 4) as Hsz
      by (unfold size; simpl; lia).
    split; [reflexivity|]. split; [unfold size in *; simpl; lia|]. split.
    + intros i Hi Hlt. destruct (Z.eq_dec i 0) as [->|Hne].
      * change (4 * 0) with 0. rewrite !Z.add_0_l, F0, F1, F2, F3, E0, E1, E2, E3.
        repeat split; reflexivity.
      * rewrite !at_skip4 by lia.
        destruct (Hpix (i - 1)) as (P0 & P1 & P2 & P3); [lia | lia|].
        replace (4 * i - 4) with (4 * (i - 1)) by lia.
        replace (4 * i + 1 - 4) with (4 * (i - 1) + 1) by lia.
        replace (4 * i + 2 - 4) with (4 * (i - 1) + 2) by lia.
        replace (4 * i + 3 - 4) with (4 * (i - 1) + 3) by lia.
        replace (4 * i + m0 - 4) with (4 * (i - 1) + m0) by lia.
        replace (4 * i + m1 - 4) with (4 * (i - 1) + m1) by lia.
        replace (4 * i + m2 - 4) with (4 * (i - 1) + m2) by lia.
        replace (4 * i + m3 - 4) with (4 * (i - 1) + m3) by lia.
        auto.
    + intros p Hp. rewrite Hsz in Hp.
      replace (size rest + 4) with (size rest + 1 * 4) in Hp by lia.
      rewrite Z.div_add in Hp by lia.
      pose proof (size_nonneg rest).
      pose proof (Z.div_pos (size rest) 4 ltac:(lia) ltac:(lia)).
      rewrite !at_skip4 by lia. apply Htail. lia.
Qed.

(** X26: [SwizzleRGBA] keeps the size of the buffer.  With an order of four
    letters out of R, G, B and A, in either case, byte [k] of every whole
    pixel becomes the byte of that pixel that letter [k] names, and what
    follows the last whole pixel is kept; a letter may repeat, so a
    channel can be copied to several places and another one lost.  With
    any other order, or none, the buffer is left as it is *)
Theorem swizzle_moves_channels (rgba : list byte) (order : option (list byte)) :
  exists out,
    SwizzleRGBA rgba order = Some out /\
    size out = size rgba /\
    match swizzleMap order with
    | Some (m0, m1, m2, m3) =>
        (forall i, 0 <= i -> 4 * i + 3 < size rgba ->
           at_ out (4 * i) = at_ rgba (4 * i + m0) /\
           at_ out (4 * i + 1) = at_ rgba (4 * i + m1) /\
           at_ out (4 * i + 2) = at_ rgba (4 * i + m2) /\
           at_ out (4 * i + 3) = at_ rgba (4 * i + m3)) /\
        (forall p, 4 * (size rgba / 4) <= p -> at_ out p = at_ rgba p)
    | None => out = rgba
    end.
Proof.
  unfold SwizzleRGBA, swizzleMap.
  destruct order as [[|o0 [|o1 [|o2 [|o3 [|o4 o]]]]]|];
    try (exists rgba; repeat split; reflexivity).
  pose proof (chIndex_range o0). pose proof (chIndex_range o1).
  pose proof (chIndex_range o2). pose proof (chIndex_range o3).
  destruct (Z.ltb_spec (chIndex o0) 0), (Z.leb_spec 0 (chIndex o0)); try lia;
    cbn [orb andb];
    try (exists rgba; destruct (size rgba =? 0); repeat split; reflexivity).
  destruct (Z.ltb_spec (chIndex o1) 0), (Z.leb_spec 0 (chIndex o1)); try lia;
    cbn [orb andb];
    try (exists rgba; destruct (size rgba =? 0); repeat split; reflexivity).
  destruct (Z.ltb_spec (chIndex o2) 0), (Z.leb_spec 0 (chIndex o2)); try lia;
    cbn [orb andb];
    try (exists rgba; destruct (size rgba =? 0); repeat split; reflexivity).
  destruct (Z.ltb_spec (chIndex o3) 0), (Z.leb_spec 0 (chIndex o3)); try lia;
    cbn [orb andb];
    try (exists rgba; destruct (size rgba =? 0); repeat split; reflexivity).
  destruct (Z.eqb_spec (size rgba) 0) as [Hz|Hnz].
  - exists rgba. split; [reflexivity|]. split; [reflexivity|].
    split; [|reflexivity]. intros i Hi Hlt. lia.
  - destruct (swizzleLoop_spec (chIndex o0) (chIndex o1) (chIndex o2) (chIndex o3)
                ltac:(lia) ltac:(lia) ltac:(lia) ltac:(lia) (length rgba) rgba
                ltac:(lia)) as (out & Hrun & Hs & Hpix & Htail).
    exists out. auto.
Qed.

(** X27: an order that is its own inverse (letter [k] names channel [j] and
    letter [j] names channel [k]), such as BGRA, gives back the buffer when
    it is applied twice *)
Theorem swizzle_twice_restores (rgba : list byte) (o0 o1 o2 o3 : byte) :
  at_ [chIndex o0; chIndex o1; chIndex o2; chIndex o3] (chIndex o0) = Some 0 ->
  at_ [chIndex o0; chIndex o1; chIndex o2; chIndex o3] (chIndex o1) = Some 1 ->
  at_ [chIndex o0; chIndex o1; chIndex o2; chIndex o3] (chIndex o2) = Some 2 ->
  at_ [chIndex o0; chIndex o1; chIndex o2; chIndex o3] (chIndex o3) = Some 3 ->
  SwizzleRGBA rgba (Some [o0; o1; o2; o3])
    ≫= (fun out => SwizzleRGBA out (Some [o0; o1; o2; o3])) = Some rgba.
Proof.
  intros I0 I1 I2 I3.
  pose proof (chIndex_range o0) as R0. pose proof (chIndex_range o1) as R1.
  pose proof (chIndex_range o2) as R2. pose proof (chIndex_range o3) as R3.
  apply at_lt in I0 as B0. apply at_lt in I1 as B1.
  apply at_lt in I2 as B2. apply at_lt in I3 as B3.
  unfold SwizzleRGBA.
  set (m0 := chIndex o0) in *. set (m1 := chIndex o1) in *.
  set (m2 := chIndex o2) in *. set (m3 := chIndex o3) in *.
  destruct (Z.ltb_spec m0 0); [lia|]. destruct (Z.ltb_spec m1 0); [lia|].
  destruct (Z.ltb_spec m2 0); [lia|]. destruct (Z.ltb_spec m3 0); [lia|].
  cbn [orb].
  assert (forall n l, (length l <= n)%nat ->
            swizzleLoop m0 m1 m2 m3 l ≫= swizzleLoop m0 m1 m2 m3 = Some l) as Hloop.
  { induction n as [|n IH]; intros l Hn.
    - destruct l; [reflexivity | simpl in Hn; lia].
    - destruct l as [|r [|g [|b [|a rest]]]]; try reflexivity.
      specialize (IH rest ltac:(simpl in Hn; lia)).
      destruct (swizzleLoop m0 m1 m2 m3 rest) as [rest'|] eqn:Hrest;
        [|discriminate IH].
      cbn [mbind option_bind] in IH.
      assert (m0 = 0 \/ m0 = 1 \/ m0 = 2 \/ m0 = 3) as C0 by lia.
      assert (m1 = 0 \/ m1 = 1 \/ m1 = 2 \/ m1 = 3) as C1 by lia.
      assert (m2 = 0 \/ m2 = 1 \/ m2 = 2 \/ m2 = 3) as C2 by lia.
      assert (m3 = 0 \/ m3 = 1 \/ m3 = 2 \/ m3 = 3) as C3 by lia.
      clearbody m0 m1 m2 m3.
      destruct C0 as [->|[->|[->| ->]]], C1 as [->|[->|[->| ->]]],
               C2 as [->|[->|[->| ->]]], C3 as [->|[->|[->| ->]]];
        try discriminate I0; try discriminate I1;
        try discriminate I2; try discriminate I3;
        simpl; rewrite Hrest; simpl; rewrite IH; reflexivity. }
  destruct (Z.eqb_spec (size rgba) 0) as [Hz|Hnz].
  - cbn [mbind option_bind]. destruct (Z.eqb_spec (size rgba) 0); [|lia]. reflexivity.
  - destruct (swizzleLoop_spec m0 m1 m2 m3 ltac:(lia) ltac:(lia) ltac:(lia) ltac:(lia)
                (length rgba) rgba ltac:(lia)) as (out & Hrun & Hs & _).
    specialize (Hloop (length rgba) rgba ltac:(lia)).
    rewrite Hrun in *. cbn [mbind option_bind] in *.
    destruct (Z.eqb_spec (size out) 0); [lia|]. exact Hloop.
Qed.

(** ** The mipmap chain *)

(** the value of a byte of a buffer, 0 outside it *)
Definition byteAt (v : list byte) (i : Z) : Z := default 0 (u8 <$> at_ v i).

(** channel [c] of the pixel [(x, y)] of an image [w] pixels wide *)
Definition texel (v : list byte) (w x y c : Z) : Z := byteAt v ((y * w + x) * 4 + c).

(** what a pixel of the next level is to hold: the sum of the four
    samples of the block, each held inside the image, divided by four *)
Definition blockAvg (prev : list byte) (w h x y c : Z) : Z :=
  (texel prev w (Z.min (x * 2 + 0) (w - 1)) (Z.min (y * 2 + 0) (h - 1)) c +
   texel prev w (Z.min (x * 2 + 1) (w - 1)) (Z.min (y * 2 + 0) (h - 1)) c +
   texel prev w (Z.min (x * 2 + 0) (w - 1)) (Z.min (y * 2 + 1) (h - 1)) c +
   texel prev w (Z.min (x * 2 + 1) (w - 1)) (Z.min (y * 2 + 1) (h - 1)) c) / 4.

(** [next] is the level after [prev] *)
Definition isMipOf (prev : list byte) (w h : Z) (next : list byte) : Prop :=
  size next = 4 * nextMipDim w * nextMipDim h /\
  forall x y c, 0 <= x < nextMipDim w -> 0 <= y < nextMipDim h -> 0 <= c < 4 ->
    texel next (nextMipDim w) x y c = blockAvg prev w h x y c.

(** the last byte that building the level after a [w] by [h] level reads *)
Definition mipLastRead (w h : Z) : Z :=
  (Z.min ((nextMipDim h - 1) * 2 + 1) (h - 1) * w
   + Z.min ((nextMipDim w - 1) * 2 + 1) (w - 1)) * 4 + 3.

(** a dimension [k] levels down *)
Definition dimAt (v k : Z) : Z := Z.max 1 (Z.shiftr v k).

(** the number of levels *)
Definition mipCount (maxLevels w h : Z) : Z :=
  if maxLevels =? 0 then 1 + Z.log2 (Z.max w h)
  else Z.max 1 (Z.min maxLevels (1 + Z.log2 (Z.max w h))).

Lemma byteAt_range v i : 0 <= byteAt v i <= 255.
Proof.
  unfold byteAt. destruct (at_ v i) as [b|]; simpl; [|lia].
  pose proof (u8_range b). lia.
Qed.

Lemma byteAt_Some v i b : at_ v i = Some b -> byteAt v i = u8 b.
Proof. unfold byteAt. intros ->. reflexivity. Qed.

Lemma nextMipDim_half v : 0 <= v -> nextMipDim v = Z.max 1 (v / 2).
Proof.
  intros Hv. unfold nextMipDim. rewrite Z.shiftr_div_pow2 by lia. reflexivity.
Qed.

Lemma nextMipDim_range v :
  0 < v <= F32.int_max ->
  0 < nextMipDim v <= F32.int_max /\ (nextMipDim v - 1) * 2 + 1 <= v.
Proof.
  intros Hv. rewrite nextMipDim_half by lia. unfold F32.int_max in *.
  pose proof (Z.div_mod v 2 ltac:(lia)). pose proof (Z.mod_pos_bound v 2 ltac:(lia)).
  lia.
Qed.

Lemma mipIndex_small w x y :
  0 < w <= F32.int_max -> 0 <= x < w -> 0 <= y <= F32.int_max ->
  mipIndex w x y = (y * w + x) * 4.
Proof.
  unfold F32.int_max. intros Hw Hx Hy. unfold mipIndex.
  change (2 ^ 64) with 18446744073709551616.
  assert (0 <= y * w <= 2147483647 * 2147483647) as Hyw
    by (split; [apply Z.mul_nonneg_nonneg; lia | apply Z.mul_le_mono_nonneg; lia]).
  rewrite !to_size_t_small by (change (2 ^ 64) with 18446744073709551616; lia).
  rewrite (Z.mod_small (y * w + x)) by lia.
  rewrite Z.mod_small by lia. reflexivity.
Qed.

Lemma for_two {S} (body : Z -> S -> option S) s :
  for_ 0 2 body s = body 0 s ≫= body 1.
Proof.
  unfold for_. change (Z.to_nat (2 - 0)) with 2%nat. cbn [for_n].
  destruct (body 0 s) as [s1|]; [|reflexivity]. cbn [mbind option_bind].
  change (0 + 1) with 1. destruct (body 1 s1); reflexivity.
Qed.

(** the byte index of a sample *)
Definition tapIndex (w h sx sy oy ox : Z) : Z :=
  (Z.min (sy + oy) (h - 1) * w + Z.min (sx + ox) (w - 1)) * 4.

Section Taps.
Variables (prev : list byte) (w h sx sy : Z).
Hypothesis Hw : 0 < w <= F32.int_max.
Hypothesis Hh : 0 < h <= F32.int_max.
Hypothesis Hsx : 0 <= sx.
Hypothesis Hsy : 0 <= sy.

Lemma tapIndex_le oy ox :
  0 <= oy <= 1 -> 0 <= ox <= 1 ->
  0 <= tapIndex w h sx sy oy ox <= tapIndex w h sx sy 1 1.
Proof.
  intros Hoy Hox. unfold tapIndex.
  assert (0 <= Z.min (sy + oy) (h - 1) * w) by (apply Z.mul_nonneg_nonneg; lia).
  assert (Z.min (sy + oy) (h - 1) * w <= Z.min (sy + 1) (h - 1) * w)
    by (apply Z.mul_le_mono_nonneg_r; lia).
  lia.
Qed.

Lemma mipTap_index oy ox :
  0 <= oy <= 1 -> 0 <= ox <= 1 ->
  mipIndex w (Z.min (sx + ox) (w - 1)) (Z.min (sy + oy) (h - 1))
  = tapIndex w h sx sy oy ox.
Proof.
  intros Hoy Hox. unfold tapIndex. apply mipIndex_small; unfold F32.int_max in *; lia.
Qed.

Lemma mipTap_defined oy ox s0 s1 s2 s3 count :
  0 <= oy <= 1 -> 0 <= ox <= 1 ->
  tapIndex w h sx sy 1 1 + 3 < size prev ->
  mipTap prev w h sx sy oy ox (s0, s1, s2, s3, count) =
  Some (s0 + byteAt prev (tapIndex w h sx sy oy ox + 0),
        s1 + byteAt prev (tapIndex w h sx sy oy ox + 1),
        s2 + byteAt prev (tapIndex w h sx sy oy ox + 2),
        s3 + byteAt prev (tapIndex w h sx sy oy ox + 3), count + 1).
Proof.
  intros Hoy Hox Hin. unfold mipTap. rewrite mipTap_index by assumption.
  pose proof (tapIndex_le oy ox Hoy Hox) as Hle.
  set (idx := tapIndex w h sx sy oy ox) in *.
  destruct (at_is_Some prev (idx + 0) ltac:(lia)) as [a0 E0].
  destruct (at_is_Some prev (idx + 1) ltac:(lia)) as [a1 E1].
  destruct (at_is_Some prev (idx + 2) ltac:(lia)) as [a2 E2].
  destruct (at_is_Some prev (idx + 3) ltac:(lia)) as [a3 E3].
  rewrite (byteAt_Some _ _ _ E0), (byteAt_Some _ _ _ E1),
          (byteAt_Some _ _ _ E2), (byteAt_Some _ _ _ E3).
  rewrite E0, E1, E2, E3. reflexivity.
Qed.

Lemma mipTap_fails acc :
  size prev <= tapIndex w h sx sy 1 1 + 3 ->
  mipTap prev w h sx sy 1 1 acc = None.
Proof.
  intros Hout. destruct acc as [[[[s0 s1] s2] s3] count].
  unfold mipTap. rewrite mipTap_index by lia.
  set (idx := tapIndex w h sx sy 1 1) in *.
  assert (at_ prev (idx + 3) = None) as E3 by (apply at_None; lia).
  destruct (at_ prev (idx + 0)); [|reflexivity].
  destruct (at_ prev (idx + 1)); [|reflexivity].
  destruct (at_ prev (idx + 2)); [|reflexivity].
  rewrite E3. reflexivity.
Qed.

(** the four sums and the count after the loops over [oy] and [ox] *)
Definition mipSample : option mipSums :=
  for_ 0 2 (fun oy acc =>
    for_ 0 2 (fun ox acc => mipTap prev w h sx sy oy ox acc) acc)
    (0, 0, 0, 0, 0).

Definition tapSum (c : Z) : Z :=
  0 + byteAt prev (tapIndex w h sx sy 0 0 + c)
    + byteAt prev (tapIndex w h sx sy 0 1 + c)
    + byteAt prev (tapIndex w h sx sy 1 0 + c)
    + byteAt prev (tapIndex w h sx sy 1 1 + c).

Lemma mipSample_defined :
  tapIndex w h sx sy 1 1 + 3 < size prev ->
  mipSample = Some (tapSum 0, tapSum 1, tapSum 2, tapSum 3, 4).
Proof.
  intros Hin. unfold mipSample. rewrite for_two, for_two.
  rewrite (mipTap_defined 0 0) by (lia || exact Hin). cbn [mbind option_bind].
  rewrite (mipTap_defined 0 1) by (lia || exact Hin). cbn [mbind option_bind].
  rewrite for_two.
  rewrite (mipTap_defined 1 0) by (lia || exact Hin). cbn [mbind option_bind].
  rewrite (mipTap_defined 1 1) by (lia || exact Hin). reflexivity.
Qed.

Lemma mipSample_fails :
  size prev <= tapIndex w h sx sy 1 1 + 3 -> mipSample = None.
Proof.
  intros Hout. unfold mipSample. rewrite for_two. cbv beta.
  match goal with |- ?a ≫= _ = None => destruct a as [acc|] end; [|reflexivity].
  cbn [mbind option_bind]. rewrite for_two.
  destruct (mipTap prev w h sx sy 1 0 acc) as [acc'|]; [|reflexivity].
  cbn [mbind option_bind]. apply mipTap_fails. exact Hout.
Qed.

End Taps.

Lemma tapSum_blockAvg prev w h x y c :
  tapSum prev w h (x * 2) (y * 2) c / 4 = blockAvg prev w h x y c.
Proof. unfold tapSum, blockAvg, texel, tapIndex. rewrite Z.add_0_l. reflexivity. Qed.

Lemma blockAvg_range prev w h x y c : 0 <= blockAvg prev w h x y c <= 255.
Proof.
  unfold blockAvg, texel.
  repeat match goal with
         | |- context [byteAt ?v ?i] =>
             let H := fresh in
             pose proof (byteAt_range v i) as H;
             let b := fresh "b" in set (b := byteAt v i) in *; clearbody b
         end.
  split; [apply Z.div_pos; lia | apply Z.div_le_upper_bound; lia].
Qed.

Lemma tapIndex_last w h x y :
  0 < w -> 0 < h -> 0 <= x < nextMipDim w -> 0 <= y < nextMipDim h ->
  tapIndex w h (x * 2) (y * 2) 1 1 + 3 <= mipLastRead w h.
Proof.
  intros Hw Hh Hx Hy. unfold tapIndex, mipLastRead.
  assert (Z.min (y * 2 + 1) (h - 1) * w
          <= Z.min ((nextMipDim h - 1) * 2 + 1) (h - 1) * w)
    by (apply Z.mul_le_mono_nonneg_r; lia).
  lia.
Qed.

Lemma mipLastRead_inside w h :
  0 < w <= F32.int_max -> 0 < h <= F32.int_max -> 0 <= mipLastRead w h < 4 * w * h.
Proof.
  intros Hw Hh. unfold mipLastRead.
  destruct (nextMipDim_range w Hw) as [Hnw _].
  destruct (nextMipDim_range h Hh) as [Hnh _].
  assert (0 <= Z.min ((nextMipDim h - 1) * 2 + 1) (h - 1) * w)
    by (apply Z.mul_nonneg_nonneg; lia).
  assert (Z.min ((nextMipDim h - 1) * 2 + 1) (h - 1) * w <= (h - 1) * w)
    by (apply Z.mul_le_mono_nonneg_r; lia).
  replace (4 * w * h) with (((h - 1) * w + w) * 4) by ring. lia.
Qed.

Lemma linear_index nw nh x y :
  0 <= x < nw -> 0 <= y < nh ->
  0 <= y * nw + x < nh * nw /\ (y * nw + x) mod nw = x /\ (y * nw + x) / nw = y.
Proof.
  intros Hx Hy.
  assert (0 <= y * nw) by (apply Z.mul_nonneg_nonneg; lia).
  assert (y * nw <= (nh - 1) * nw) by (apply Z.mul_le_mono_nonneg_r; lia).
  replace ((nh - 1) * nw) with (nh * nw - nw) in * by ring.
  split; [lia|]. split.
  - symmetry. apply (Z.mod_unique _ _ y); lia.
  - symmetry. apply (Z.div_unique _ _ _ x); lia.
Qed.

Lemma mipPixel_defined prev w h x y next :
  0 < w <= F32.int_max -> 0 < h <= F32.int_max ->
  0 <= x < nextMipDim w -> 0 <= y < nextMipDim h ->
  mipLastRead w h < size prev ->
  size next = 4 * nextMipDim w * nextMipDim h ->
  exists next',
    mipPixel prev w h (nextMipDim w) y x next = Some next' /\
    size next' = size next /\
    forall i,
      at_ next' i =
      if i =? (y * nextMipDim w + x) * 4 + 3
      then Some (uint8_of (blockAvg prev w h x y 3))
      else if i =? (y * nextMipDim w + x) * 4 + 2
      then Some (uint8_of (blockAvg prev w h x y 2))
      else if i =? (y * nextMipDim w + x) * 4 + 1
      then Some (uint8_of (blockAvg prev w h x y 1))
      else if i =? (y * nextMipDim w + x) * 4 + 0
      then Some (uint8_of (blockAvg prev w h x y 0))
      else at_ next i.
Proof.
  intros Hw Hh Hx Hy Hin Hs. unfold mipPixel.
  destruct (nextMipDim_range w Hw) as [Hnw _].
  destruct (nextMipDim_range h Hh) as [Hnh _].
  pose proof (tapIndex_last w h x y ltac:(lia) ltac:(lia) Hx Hy) as Hlast.
  change (for_ 0 2 _ (0, 0, 0, 0, 0)) with (mipSample prev w h (x * 2) (y * 2)).
  rewrite (mipSample_defined prev w h (x * 2) (y * 2) Hw Hh) by lia.
  cbn [mbind option_bind].
  rewrite !tapSum_blockAvg.
  rewrite mipIndex_small by lia.
  destruct (linear_index (nextMipDim w) (nextMipDim h) x y Hx Hy) as (Hp & _ & _).
  set (di := (y * nextMipDim w + x) * 4) in *.
  destruct (putPixel_defined next di
              (uint8_of (blockAvg prev w h x y 0)) (uint8_of (blockAvg prev w h x y 1))
              (uint8_of (blockAvg prev w h x y 2)) (uint8_of (blockAvg prev w h x y 3)))
    as [next' Hput]; [lia | unfold di; lia|].
  exists next'. split; [exact Hput|].
  apply putPixel_spec in Hput as [Hs' Hat]. split; [exact Hs'|]. exact Hat.
Qed.

Lemma mipAlloc_small nw nh :
  0 < nw <= F32.int_max -> 0 < nh <= F32.int_max ->
  ((to_size_t nw * to_size_t nh) mod 2 ^ 64 * 4) mod 2 ^ 64 = 4 * nw * nh.
Proof.
  unfold F32.int_max. intros Hw Hh.
  assert (0 <= nw * nh <= 2147483647 * 2147483647)
    by (split; [apply Z.mul_nonneg_nonneg; lia | apply Z.mul_le_mono_nonneg; lia]).
  rewrite !to_size_t_small by (change (2 ^ 64) with 18446744073709551616; lia).
  change (2 ^ 64) with 18446744073709551616.
  rewrite (Z.mod_small (nw * nh)) by lia.
  rewrite Z.mod_small by lia. ring.
Qed.

Lemma mipLevel_defined prev w h :
  0 < w <= F32.int_max -> 0 < h <= F32.int_max ->
  mipLastRead w h < size prev ->
  exists next, mipLevel prev w h = Some next /\ isMipOf prev w h next.
Proof.
  intros Hw Hh Hin. unfold mipLevel.
  destruct (nextMipDim_range w Hw) as [Hnw _].
  destruct (nextMipDim_range h Hh) as [Hnh _].
  rewrite mipAlloc_small by assumption.
  set (nw := nextMipDim w) in *. set (nh := nextMipDim h) in *.
  pose (val := fun p c => uint8_of (blockAvg prev w h (p mod nw) (p / nw) c)).
  pose (P := fun (j : Z) (t : list byte) =>
    size t = 4 * nw * nh /\
    forall p c, 0 <= p < j -> 0 <= c < 4 -> at_ t (p * 4 + c) = Some (val p c)).
  destruct (for_total (fun y t => P (y * nw) t)
              (fun y next => for_ 0 nw (fun x next => mipPixel prev w h nw y x next) next)
              0 nh (replicate (Z.to_nat (4 * nw * nh)) Byte.x00))
    as (next & Hrun & Hs & Hval).
  - lia.
  - split; [rewrite size_replicate; lia | intros; lia].
  - intros y t Hy HP.
    destruct (for_total (fun x t => P (y * nw + x) t)
                (fun x next => mipPixel prev w h nw y x next) 0 nw t)
      as (t' & Hrun' & HP').
    + lia.
    + rewrite Z.add_0_r. exact HP.
    + intros x u Hx [Hsu Hvu].
      destruct (mipPixel_defined prev w h x y u Hw Hh Hx Hy Hin Hsu)
        as (u' & Hpix & Hsu' & Hat).
      exists u'. split; [exact Hpix|]. split; [lia|].
      intros p c Hp Hc. rewrite Hat.
      destruct (linear_index nw nh x y Hx Hy) as (_ & Hmod & Hdiv).
      fold nw. set (p0 := y * nw + x) in *.
      destruct (Z.eq_dec p p0) as [->|Hne].
      * unfold val. rewrite Hmod, Hdiv.
        assert (c = 0 \/ c = 1 \/ c = 2 \/ c = 3) as [->|[->|[->| ->]]] by lia;
          repeat match goal with
                 | |- context [?a =? ?b] => destruct (Z.eqb_spec a b); try lia
                 end; reflexivity.
      * repeat match goal with
               | |- context [?a =? ?b] => destruct (Z.eqb_spec a b); try lia
               end.
        apply Hvu; lia.
    + exists t'. split; [exact Hrun'|].
      replace ((y + 1) * nw) with (y * nw + nw) by ring. exact HP'.
  - exists next. split; [exact Hrun|]. split; [exact Hs|].
    intros x y c Hx Hy Hc.
    destruct (linear_index nw nh x y Hx Hy) as (Hp & Hmod & Hdiv).
    unfold texel. fold nw.
    rewrite (byteAt_Some _ _ _ (Hval (y * nw + x) c ltac:(lia) Hc)).
    unfold val. rewrite Hmod, Hdiv, u8_uint8_of.
    pose proof (blockAvg_range prev w h x y c). apply Z.mod_small. lia.
Qed.

Lemma mipLevel_fails prev w h :
  0 < w <= F32.int_max -> 0 < h <= F32.int_max ->
  size prev <= mipLastRead w h ->
  mipLevel prev w h = None.
Proof.
  intros Hw Hh Hout. unfold mipLevel.
  destruct (nextMipDim_range w Hw) as [Hnw Hw2].
  destruct (nextMipDim_range h Hh) as [Hnh Hh2].
  apply (for_fails _ 0 _ (nextMipDim h - 1)); [lia|]. intros t.
  apply (for_fails _ 0 _ (nextMipDim w - 1)); [lia|]. intros u.
  unfold mipPixel.
  change (for_ 0 2 _ (0, 0, 0, 0, 0))
    with (mipSample prev w h ((nextMipDim w - 1) * 2) ((nextMipDim h - 1) * 2)).
  rewrite (mipSample_fails prev w h _ _ Hw Hh); [reflexivity | lia | lia|].
  unfold tapIndex. unfold mipLastRead in Hout. lia.
Qed.

(** the levels that follow [prev], each built from the one before *)
Fixpoint mipChain (prev : list byte) (w h : Z) (more : list (list byte)) : Prop :=
  match more with
  | [] => True
  | next :: more' =>
      isMipOf prev w h next /\ mipChain next (nextMipDim w) (nextMipDim h) more'
  end.

(** the number of levels still to come when there are [n] and the larger
    dimension is [m] *)
Definition mipRemaining (maxLevels n m : Z) : Z :=
  if maxLevels =? 0 then Z.log2 m else Z.max 0 (Z.min (maxLevels - n) (Z.log2 m)).

Lemma nextMipDim_max w h :
  0 < w -> 0 < h -> 1 < Z.max w h ->
  Z.max (nextMipDim w) (nextMipDim h) < Z.max w h /\
  Z.log2 (Z.max (nextMipDim w) (nextMipDim h)) = Z.log2 (Z.max w h) - 1.
Proof.
  intros Hw Hh Hm.
  assert (Z.max (nextMipDim w) (nextMipDim h) = Z.shiftr (Z.max w h) 1) as ->.
  { rewrite !nextMipDim_half by lia. rewrite Z.shiftr_div_pow2 by lia.
    change (2 ^ 1) with 2.
    pose proof (Z.div_mod w 2 ltac:(lia)). pose proof (Z.mod_pos_bound w 2 ltac:(lia)).
    pose proof (Z.div_mod h 2 ltac:(lia)). pose proof (Z.mod_pos_bound h 2 ltac:(lia)).
    destruct (Z.max_spec w h) as [[? ->]|[? ->]]; lia. }
  split.
  - rewrite Z.shiftr_div_pow2 by lia. change (2 ^ 1) with 2.
    pose proof (Z.div_mod (Z.max w h) 2 ltac:(lia)).
    pose proof (Z.mod_pos_bound (Z.max w h) 2 ltac:(lia)). lia.
  - rewrite Z.log2_shiftr by lia.
    pose proof (Z.log2_le_mono 2 (Z.max w h) ltac:(lia)) as Hl.
    change (Z.log2 2) with 1 in Hl. lia.
Qed.

Lemma mipLoop_spec maxLevels fuel : forall levels prev w h,
  last levels = Some prev ->
  0 < w <= F32.int_max -> 0 < h <= F32.int_max ->
  Z.max w h <= Z.of_nat fuel ->
  mipLastRead w h < size prev ->
  exists more,
    mipLoop fuel maxLevels levels w h = Some (Some (levels ++ more)) /\
    size more = mipRemaining maxLevels (size levels) (Z.max w h) /\
    mipChain prev w h more.
Proof.
  induction fuel as [|fuel IH]; intros levels prev w h Hlast Hw Hh Hfuel Hin; [lia|].
  cbn [mipLoop].
  destruct (((maxLevels =? 0) || (size levels <? maxLevels))
            && ((1 <? w) || (1 <? h))) eqn:Hcond.
  - apply andb_true_iff in Hcond as [Hc1 Hc2].
    assert (1 < Z.max w h) as Hm.
    { apply orb_true_iff in Hc2 as [H|H]; apply Z.ltb_lt in H; lia. }
    rewrite Hlast.
    destruct (mipLevel_defined prev w h Hw Hh Hin) as (next & -> & Hmip).
    destruct (nextMipDim_range w Hw) as [Hnw _].
    destruct (nextMipDim_range h Hh) as [Hnh _].
    destruct (nextMipDim_max w h ltac:(lia) ltac:(lia) Hm) as [Hlt Hlog].
    destruct (IH (levels ++ [next]) next (nextMipDim w) (nextMipDim h))
      as (more & Hrun & Hcount & Hchain).
    + apply last_snoc.
    + exact Hnw.
    + exact Hnh.
    + lia.
    + destruct Hmip as [-> _].
      pose proof (mipLastRead_inside _ _ Hnw Hnh). lia.
    + exists (next :: more). rewrite Hrun, <- app_assoc.
      split; [reflexivity|]. split; [|split; assumption].
      change (size (next :: more)) with (Z.of_nat (S (length more))).
      unfold size in Hcount. rewrite length_app in Hcount. simpl in Hcount.
      unfold mipRemaining in *. rewrite Hlog in Hcount.
      pose proof (Z.log2_nonneg (Z.max w h)).
      pose proof (Z.log2_le_mono 2 (Z.max w h) ltac:(lia)) as Hl.
      change (Z.log2 2) with 1 in Hl.
      apply orb_true_iff in Hc1.
      destruct (Z.eqb_spec maxLevels 0); [lia|].
      destruct Hc1 as [?|Hc1]; [discriminate|]. apply Z.ltb_lt in Hc1.
      unfold size in Hc1 |- *. lia.
  - exists []. rewrite app_nil_r. split; [reflexivity|]. split; [|exact I].
    unfold mipRemaining. change (size []) with 0.
    pose proof (Z.log2_nonneg (Z.max w h)).
    apply andb_false_iff in Hcond as [Hc|Hc].
    + apply orb_false_iff in Hc as [Hc1 Hc2].
      rewrite Hc1. apply Z.ltb_ge in Hc2. lia.
    + apply orb_false_iff in Hc as [Hc1 Hc2].
      apply Z.ltb_ge in Hc1, Hc2.
      replace (Z.max w h) with 1 by lia. change (Z.log2 1) with 0.
      destruct (maxLevels =? 0); lia.
Qed.

Lemma at_cons {A} (a : A) l k : 1 <= k -> at_ (a :: l) k = at_ l (k - 1).
Proof.
  intros Hk. change (a :: l) with ([a] ++ l).
  rewrite at_app_r by (unfold size; simpl; lia). reflexivity.
Qed.

Lemma dimAt_0 v : 0 < v -> dimAt v 0 = v.
Proof. intros Hv. unfold dimAt. rewrite Z.shiftr_0_r. lia. Qed.

Lemma nextMipDim_dimAt v k : 0 < v -> 0 <= k -> nextMipDim (dimAt v k) = dimAt v (k + 1).
Proof.
  intros Hv Hk. unfold nextMipDim, dimAt.
  rewrite <- (Z.shiftr_shiftr v k 1) by lia.
  pose proof (proj2 (Z.shiftr_nonneg v k) ltac:(lia)) as Hs.
  destruct (Z.eq_dec (Z.shiftr v k) 0) as [->|Hne].
  - reflexivity.
  - replace (Z.max 1 (Z.shiftr v k)) with (Z.shiftr v k) by lia. reflexivity.
Qed.

Lemma dimAt_next v k : 0 < v -> 0 <= k -> dimAt (nextMipDim v) k = dimAt v (k + 1).
Proof.
  intros Hv Hk. unfold nextMipDim, dimAt.
  replace (k + 1) with (1 + k) by lia.
  rewrite <- (Z.shiftr_shiftr v 1 k) by lia.
  pose proof (proj2 (Z.shiftr_nonneg v 1) ltac:(lia)) as Hs.
  destruct (Z.eq_dec (Z.shiftr v 1) 0) as [->|Hne].
  - rewrite Z.shiftr_0_l. change (Z.max 1 0) with 1.
    rewrite Z.shiftr_div_pow2 by lia.
    destruct (Z.eq_dec k 0) as [->|]; [reflexivity|].
    rewrite Z.div_small; [reflexivity|].
    split; [lia|]. apply Z.pow_gt_1; lia.
  - replace (Z.max 1 (Z.shiftr v 1)) with (Z.shiftr v 1) by lia. reflexivity.
Qed.

Lemma mipChain_at more : forall prev w h k lvl lvl',
  0 < w <= F32.int_max -> 0 < h <= F32.int_max ->
  mipChain prev w h more ->
  0 <= k ->
  at_ (prev :: more) k = Some lvl ->
  at_ (prev :: more) (k + 1) = Some lvl' ->
  isMipOf lvl (dimAt w k) (dimAt h k) lvl'.
Proof.
  induction more as [|next more IH]; intros prev w h k lvl lvl' Hw Hh Hc Hk Hl Hl'.
  - apply at_lt in Hl'. unfold size in Hl'. simpl in Hl'. lia.
  - destruct Hc as [Hmip Hc]. destruct (Z.eq_dec k 0) as [->|Hne].
    + injection Hl as <-. injection Hl' as <-.
      rewrite !dimAt_0 by lia. exact Hmip.
    + rewrite at_cons in Hl, Hl' by lia.
      replace (k + 1 - 1) with (k - 1 + 1) in Hl' by lia.
      pose proof (IH next (nextMipDim w) (nextMipDim h) (k - 1) lvl lvl'
                    (proj1 (nextMipDim_range w Hw)) (proj1 (nextMipDim_range h Hh))
                    Hc ltac:(lia) Hl Hl') as Hres.
      rewrite !dimAt_next in Hres by lia.
      replace (k - 1 + 1) with k in Hres by lia. exact Hres.
Qed.

Lemma BuildMipmapsRGBA_spec rgba w h maxLevels :
  0 < w <= F32.int_max -> 0 < h <= F32.int_max ->
  0 < size rgba ->
  mipLastRead w h < size rgba ->
  exists more,
    BuildMipmapsRGBA rgba w h maxLevels = Some (Some (rgba :: more)) /\
    size (rgba :: more) = mipCount maxLevels w h /\
    mipChain rgba w h more.
Proof.
  intros Hw Hh Hs Hin. unfold BuildMipmapsRGBA.
  destruct (Z.eqb_spec (size rgba) 0); [lia|].
  destruct (Z.leb_spec w 0); [lia|]. destruct (Z.leb_spec h 0); [lia|].
  cbn [orb].
  destruct (mipLoop_spec maxLevels (Z.to_nat (Z.max w h)) [rgba] rgba w h)
    as (more & Hrun & Hcount & Hchain); [reflexivity | exact Hw | exact Hh | lia | exact Hin|].
  exists more. split; [exact Hrun|]. split; [|exact Hchain].
  change (size (rgba :: more)) with (Z.of_nat (S (length more))).
  unfold size in Hcount. simpl in Hcount. unfold mipCount, mipRemaining in *.
  pose proof (Z.log2_nonneg (Z.max w h)).
  destruct (maxLevels =? 0); lia.
Qed.

(** X28: For an image that the buffer holds, [BuildMipmapsRGBA] returns the
    buffer itself as level 0 and then levels whose dimensions are the
    halves, rounded down and at least 1, of those before: level [k] has 4
    bytes for each of its [max(1, w >> k)] by [max(1, h >> k)] pixels.
    With [maxLevels] 0 there are [1 + log2(max(w, h))] levels, the last of
    one pixel; otherwise there are [maxLevels] of them at most, and one
    when [maxLevels] is negative *)
Theorem mip_chain_shape (rgba : list byte) (w h maxLevels : Z) :
  0 < w <= F32.int_max -> 0 < h <= F32.int_max ->
  4 * w * h <= size rgba ->
  exists levels,
    BuildMipmapsRGBA rgba w h maxLevels = Some (Some levels) /\
    size levels = mipCount maxLevels w h /\
    at_ levels 0 = Some rgba /\
    forall k, 1 <= k < size levels ->
      exists lvl, at_ levels k = Some lvl /\
                  size lvl = 4 * dimAt w k * dimAt h k.
Proof.
  intros Hw Hh Hs.
  pose proof (mipLastRead_inside w h Hw Hh) as Hlast.
  destruct (BuildMipmapsRGBA_spec rgba w h maxLevels Hw Hh ltac:(lia) ltac:(lia))
    as (more & Hrun & Hcount & Hchain).
  exists (rgba :: more). split; [exact Hrun|]. split; [exact Hcount|].
  split; [reflexivity|]. intros k Hk.
  destruct (at_is_Some (rgba :: more) k ltac:(lia)) as [lvl Hl].
  destruct (at_is_Some (rgba :: more) (k - 1) ltac:(lia)) as [lvl0 Hl0].
  exists lvl. split; [exact Hl|].
  replace k with (k - 1 + 1) in Hl by lia.
  destruct (mipChain_at more rgba w h (k - 1) lvl0 lvl Hw Hh Hchain ltac:(lia) Hl0 Hl)
    as [Hsz _].
  rewrite Hsz, !nextMipDim_dimAt by lia.
  replace (k - 1 + 1) with k by lia. reflexivity.
Qed.

(** X29: Every pixel of a level after the first is the average, rounded down,
    of four samples of the level before: those at columns [2x] and
    [2x + 1] and rows [2y] and [2y + 1], a column or a row past the edge
    being replaced by the last one *)
Theorem mip_level_averages (rgba : list byte) (w h maxLevels : Z) :
  0 < w <= F32.int_max -> 0 < h <= F32.int_max ->
  4 * w * h <= size rgba ->
  exists levels,
    BuildMipmapsRGBA rgba w h maxLevels = Some (Some levels) /\
    forall k lvl lvl' x y c,
      0 <= k -> at_ levels k = Some lvl -> at_ levels (k + 1) = Some lvl' ->
      0 <= x < dimAt w (k + 1) -> 0 <= y < dimAt h (k + 1) -> 0 <= c < 4 ->
      texel lvl' (dimAt w (k + 1)) x y c = blockAvg lvl (dimAt w k) (dimAt h k) x y c.
Proof.
  intros Hw Hh Hs.
  pose proof (mipLastRead_inside w h Hw Hh) as Hlast.
  destruct (BuildMipmapsRGBA_spec rgba w h maxLevels Hw Hh ltac:(lia) ltac:(lia))
    as (more & Hrun & Hcount & Hchain).
  exists (rgba :: more). split; [exact Hrun|].
  intros k lvl lvl' x y c Hk Hl Hl' Hx Hy Hc.
  destruct (mipChain_at more rgba w h k lvl lvl' Hw Hh Hchain Hk Hl Hl') as [_ Hpix].
  rewrite !nextMipDim_dimAt in Hpix by lia. apply Hpix; assumption.
Qed.

(** X30: [BuildMipmapsRGBA] does not compare the buffer with the dimensions:
    when a second level is to be built, the call reads past the end of the
    buffer exactly when the buffer ends at or before the last byte of the
    sample that lies furthest into the image *)
Theorem mip_reads_past_short_buffer (rgba : list byte) (w h maxLevels : Z) :
  0 < w <= F32.int_max -> 0 < h <= F32.int_max ->
  0 < size rgba ->
  1 < w \/ 1 < h ->
  maxLevels = 0 \/ 1 < maxLevels ->
  BuildMipmapsRGBA rgba w h maxLevels = Some None <-> size rgba <= mipLastRead w h.
Proof.
  intros Hw Hh Hs Hdim Hmax. split.
  - intros Hrun. destruct (Z.le_gt_cases (size rgba) (mipLastRead w h)) as [|Hin];
      [assumption|].
    destruct (BuildMipmapsRGBA_spec rgba w h maxLevels Hw Hh Hs ltac:(lia))
      as (more & Hrun' & _).
    rewrite Hrun' in Hrun. discriminate.
  - intros Hout. unfold BuildMipmapsRGBA.
    destruct (Z.eqb_spec (size rgba) 0); [lia|].
    destruct (Z.leb_spec w 0); [lia|]. destruct (Z.leb_spec h 0); [lia|].
    cbn [orb].
    destruct (Z.to_nat (Z.max w h)) as [|fuel] eqn:Hfuel; [lia|].
    cbn [mipLoop last]. change (size [rgba]) with 1.
    assert ((maxLevels =? 0) || (1 <? maxLevels) = true) as ->.
    { apply orb_true_iff. destruct Hmax; [left; apply Z.eqb_eq | right; apply Z.ltb_lt];
        assumption. }
    assert ((1 <? w) || (1 <? h) = true) as ->.
    { apply orb_true_iff. destruct Hdim; [left | right]; apply Z.ltb_lt; assumption. }
    cbn [andb]. rewrite (mipLevel_fails rgba w h Hw Hh Hout). reflexivity.
Qed.

(** ** The atlas of the file with two faces *)

Definition rect0 : LightmapRect.t := LightmapRect.mk 0 0 2 2 0 true.
Definition rect1 : LightmapRect.t := LightmapRect.mk 2 0 2 2 4 true.

Lemma twoFace_atlas :
  exists map',
    BuildLightmaps (loaded twoFaceFile) = Some map' /\
    BSPMap.lmAtlas (loaded twoFaceFile) = LightmapAtlas.empty /\
    LightmapAtlas.perFace (BSPMap.lmAtlas map') = [rect0; rect1] /\
    LightmapAtlas.width (BSPMap.lmAtlas map') = 1024 /\
    LightmapAtlas.height (BSPMap.lmAtlas map') = 1024.
Proof.
  pose (map := loaded twoFaceFile).
  assert (is_Some (BuildLightmaps map)) as [map' Hrun].
  { assert (match BuildLightmaps map with Some _ => true | None => false end = true)
      as Hsome by (vm_compute; reflexivity).
    destruct (BuildLightmaps map) as [m|]; [eauto | discriminate Hsome]. }
  assert ((fun m => (LightmapAtlas.perFace (BSPMap.lmAtlas m),
                     LightmapAtlas.width (BSPMap.lmAtlas m),
                     LightmapAtlas.height (BSPMap.lmAtlas m)))
            <$> BuildLightmaps map
          = Some ([rect0; rect1], 1024, 1024)) as Hpf by (vm_compute; reflexivity).
  rewrite Hrun in Hpf. injection Hpf as Hp Hw Hh.
  exists map'. split; [exact Hrun|]. split; [vm_compute; reflexivity|]. auto.
Qed.

Lemma atlas_rectangles_disjoint_witness :
  inside 1024 1024 rect0 /\ inside 1024 1024 rect1 /\ disjoint rect0 rect1.
Proof.
  destruct twoFace_atlas as (map' & Hrun & Hempty & Hpf & Hw & Hh).
  destruct (atlas_rectangles_disjoint (loaded twoFaceFile) map' Hrun Hempty)
    as [Hin Hdis].
  rewrite Hpf, Hw, Hh in Hin. rewrite Hpf in Hdis.
  split; [apply (Hin 0); reflexivity|]. split; [apply (Hin 1); reflexivity|].
  apply (Hdis 0 1); [lia | reflexivity..].
Defined.

Lemma lightmapped_faces_are_placed_witness :
  exists map',
    BuildLightmaps (loaded twoFaceFile) = Some map' /\
    Forall (fun r => LightmapRect.valid r = true /\
                     LightmapRect.w r = 2 /\ LightmapRect.h r = 2)
           (LightmapAtlas.perFace (BSPMap.lmAtlas map')).
Proof.
  destruct twoFace_atlas as (map' & Hrun & Hempty & Hpf & Hw & Hh).
  exists map'. split; [exact Hrun|].
  pose (inf := FaceLM.mk 2 2 F32.zero F32.zero true).
  destruct (lightmapped_faces_are_placed (loaded twoFaceFile) map' [inf; inf] 8
              Hrun Hempty ltac:(rewrite Hw; lia) ltac:(vm_compute; reflexivity))
    as [_ Hall].
  apply Forall_lookup. intros k r Hk.
  assert (exists inf', at_ [inf; inf] (Z.of_nat k) = Some inf' /\ inf' = inf)
    as (inf' & Hi & ->).
  { apply lookup_lt_Some in Hk. rewrite Hpf in Hk. simpl in Hk.
    destruct k as [|[|k]]; [eexists; split; reflexivity.. | lia]. }
  destruct (Hall (Z.of_nat k) inf r Hi) as [Hv Hwh].
  { apply at_Some. rewrite Nat2Z.id. split; [lia | exact Hk]. }
  destruct (Hwh eq_refl) as [Hw' Hh']. auto.
Defined.

Lemma atlas_dimensions_witness :
  exists map',
    BuildLightmaps (loaded twoFaceFile) = Some map' /\
    size (LightmapAtlas.rgba (BSPMap.lmAtlas map')) = 1024 * 1024 * 4 /\
    size (LightmapAtlas.perFace (BSPMap.lmAtlas map')) = 2.
Proof.
  destruct twoFace_atlas as (map' & Hrun & Hempty & Hpf & Hw & Hh).
  exists map'. split; [exact Hrun|].
  destruct (atlas_dimensions (loaded twoFaceFile) map' Hrun Hempty
                             ltac:(rewrite Hw; lia)) as (_ & Hs & _).
  rewrite Hw, Hh in Hs. split; [exact Hs|]. rewrite Hpf. reflexivity.
Defined.

Lemma lightmaps_keep_geometry_witness :
  exists map',
    BuildLightmaps (loaded twoFaceFile) = Some map' /\
    BSPMap.faces map' = BSPMap.faces (loaded twoFaceFile) /\
    forall fi mesh',
      at_ (BSPMap.meshes map') fi = Some mesh' -> BSPMesh.faceIndex mesh' = fi.
Proof.
  destruct twoFace_atlas as (map' & Hrun & Hempty & Hpf & Hw & Hh).
  exists map'. split; [exact Hrun|].
  destruct (lightmaps_keep_geometry (loaded twoFaceFile) map' Hrun) as [Hg Hfi].
  split; [apply Hg|]. apply Hfi; [exact Hempty | rewrite Hw; lia].
Defined.

(** ** Files for the loader *)

Lemma negative_offset_passes_check_witness :
  lump_offset negativeOffsetFile LUMP_VERTEXES = Some (-12) /\
  lumpSpan negativeOffsetFile LUMP_VERTEXES = Some (Some (2 ^ 64 + -12), 12) /\
  LoadBSP (Some negativeOffsetFile) None = None.
Proof.
  split; [reflexivity|].
  apply (negative_offset_passes_check negativeOffsetFile None (-12) 12).
  - vm_compute. discriminate.
  - vm_compute. reflexivity.
  - reflexivity.
  - reflexivity.
  - lia.
  - lia.
  - vm_compute. split; discriminate.
  - reflexivity.
Defined.

Lemma triangle_loaded :
  LoadBSP (Some (triangleFile 29)) None
  = Some (Some (loaded (triangleFile 29)), EmptyString).
Proof. vm_compute. reflexivity. Qed.

Lemma lumps_decoded_in_order_witness :
  size (BSPMap.vertices (loaded (triangleFile 29))) = 3 /\
  at_ (BSPMap.vertices (loaded (triangleFile 29))) 1
  = readVec3 (triangleFile 29) (132 + 1 * sizeof_Vec3) /\
  BSPMap.lighting (loaded (triangleFile 29))
  = take 16 (drop 228 (triangleFile 29)).
Proof.
  destruct (lumps_decoded_in_order _ _ _ _ triangle_loaded)
    as (Hv & _ & _ & _ & _ & Hl).
  destruct (Hv 132 36 eq_refl eq_refl ltac:(lia) ltac:(lia)
               ltac:(vm_compute; discriminate)) as [Hs Hat].
  split; [exact Hs|]. split; [exact (Hat 1 ltac:(vm_compute; split; congruence))|].
  exact (Hl 228 16 eq_refl eq_refl ltac:(lia) ltac:(lia)
            ltac:(vm_compute; discriminate)).
Defined.

Lemma models_lump_is_optional_witness :
  BSPMap.models (loaded (triangleFile 29)) = [] /\
  size (BSPMap.models (loaded modelFile)) = 1.
Proof.
  split.
  - destruct (models_lump_is_optional _ _ _ _ (Some 272) 0 triangle_loaded)
      as [Hnone _]; [reflexivity|].
    apply Hnone. right. lia.
  - assert (LoadBSP (Some modelFile) None = Some (Some (loaded modelFile), EmptyString))
      as Hload by (vm_compute; reflexivity).
    destruct (models_lump_is_optional _ _ _ _ (Some 272) 64 Hload) as [_ Hall];
      [reflexivity|].
    destruct (Hall eq_refl ltac:(lia)) as [Hs _]. exact Hs.
Defined.

Lemma loaded_palette_is_empty_or_768_witness :
  exists map,
    LoadBSP (Some (triangleFile 29)) (Some greyPalette) = Some (Some map, EmptyString) /\
    BSPMap.paletteRGB map = greyPalette /\
    BSPMap.paletteRGB (loaded (triangleFile 29)) = [].
Proof.
  assert (exists map, LoadBSP (Some (triangleFile 29)) (Some greyPalette)
                      = Some (Some map, EmptyString)) as [map Hload]
      by (eexists; vm_compute; reflexivity).
  exists map. split; [exact Hload|].
  destruct (loaded_palette_is_empty_or_768 _ _ _ _ Hload) as (_ & Htake & _).
  rewrite (Htake greyPalette eq_refl) by (vm_compute; discriminate).
  split; [vm_compute; reflexivity|].
  destruct (loaded_palette_is_empty_or_768 _ _ _ _ triangle_loaded) as (_ & _ & _ & Hn).
  apply Hn. reflexivity.
Defined.

Lemma loaded_meshes_hold_whole_triangles_witness :
  exists mesh,
    at_ (BSPMap.meshes (loaded (triangleFile 29))) 0 = Some mesh /\
    size (BSPMesh.vertices mesh) = 15 /\ BSPMesh.faceIndex mesh = -1.
Proof.
  assert (exists mesh, at_ (BSPMap.meshes (loaded (triangleFile 29))) 0 = Some mesh)
    as [mesh Hm] by (eexists; vm_compute; reflexivity).
  pose (face := Face.mk 0 0 0 3 0 [Byte.x00; Byte.xff; Byte.xff; Byte.xff] 0).
  destruct (loaded_meshes_hold_whole_triangles _ _ _ _ triangle_loaded 0 face mesh)
    as (Hfi & _ & _ & Hsz); [vm_compute; reflexivity | exact Hm |].
  exists mesh. split; [exact Hm|]. split; [|exact Hfi].
  rewrite Hsz by (simpl; lia). reflexivity.
Defined.

(** ** Palettes and textures *)

Lemma self_remap_keeps_colours_witness :
  exists remap out,
    BuildPaletteRemapTable greyPalette greyPalette = Some remap /\
    ApplyIndexRemap [Byte.x05; Byte.xff] remap = Some out /\
    size out = 2.
Proof.
  destruct (self_remap_keeps_colours greyPalette [Byte.x05; Byte.xff])
    as (remap & out & Hr & Ho & Hs & _); [vm_compute; reflexivity|].
  exists remap, out. auto.
Defined.

Definition unitTexture : BSPTexture.t := BSPTexture.mk "t" 1 1 [Byte.x05].

Lemma indexed_to_rgba_pixels_witness :
  exists rgba,
    IndexedToRGBA unitTexture greyPalette = Some rgba /\
    rgbaAt rgba 0 = Some (Byte.x05, Byte.x05, Byte.x05, Byte.xff).
Proof.
  destruct (indexed_to_rgba_pixels unitTexture greyPalette)
    as (rgba & Hr & _ & Hpx & _);
    [vm_compute; split; reflexivity | vm_compute; split; reflexivity
     | vm_compute; reflexivity | vm_compute; split; [reflexivity | discriminate] |].
  exists rgba. split; [exact Hr|].
  rewrite (Hpx 0 Byte.x05 eq_refl). vm_compute. reflexivity.
Defined.

Lemma indexed_to_rgba_overrun_witness :
  IndexedToRGBA (BSPTexture.mk "t" 1 1 [Byte.x05; Byte.x06]) greyPalette = None.
Proof.
  apply indexed_to_rgba_overrun;
    [vm_compute; split; reflexivity | vm_compute; split; reflexivity
     | vm_compute; reflexivity].
Defined.

Lemma loaded_textures_convert_witness :
  exists tex rgba,
    at_ (BSPMap.textures (loaded unitTriangleFile)) 0 = Some tex /\
    IndexedToRGBA tex (BSPMap.paletteRGB (loaded unitTriangleFile)) = Some rgba /\
    (rgba = [] \/ size rgba = BSPTexture.width tex * BSPTexture.height tex * 4).
Proof.
  assert (LoadBSP (Some unitTriangleFile) None
          = Some (Some (loaded unitTriangleFile), EmptyString)) as Hload
      by (vm_compute; reflexivity).
  exists unitTexture.
  destruct (loaded_textures_convert _ _ _ _ Hload 0 unitTexture)
    as (_ & _ & _ & Hc); [vm_compute; reflexivity|].
  destruct Hc as (rgba & Hr & Hs); [vm_compute; reflexivity|].
  exists rgba. split; [vm_compute; reflexivity|]. auto.
Defined.

Lemma swizzle_twice_restores_witness :
  SwizzleRGBA twoPixels (Some orderBGRA)
    ≫= (fun out => SwizzleRGBA out (Some orderBGRA)) = Some twoPixels.
Proof.
  apply (swizzle_twice_restores twoPixels Byte.x42 Byte.x47 Byte.x52 Byte.x41);
    reflexivity.
Defined.

Lemma mip_chain_shape_witness :
  exists levels,
    BuildMipmapsRGBA image2x2 2 2 0 = Some (Some levels) /\
    size levels = mipCount 0 2 2 /\
    at_ levels 0 = Some image2x2 /\
    forall k, 1 <= k < size levels ->
      exists lvl, at_ levels k = Some lvl /\
                  size lvl = 4 * dimAt 2 k * dimAt 2 k.
Proof.
  apply (mip_chain_shape image2x2 2 2 0).
  - unfold F32.int_max. lia.
  - unfold F32.int_max. lia.
  - unfold size. simpl. lia.
Defined.

Lemma mip_level_averages_witness :
  exists levels,
    BuildMipmapsRGBA image2x2 2 2 0 = Some (Some levels) /\
    forall k lvl lvl' x y c,
      0 <= k -> at_ levels k = Some lvl -> at_ levels (k + 1) = Some lvl' ->
      0 <= x < dimAt 2 (k + 1) -> 0 <= y < dimAt 2 (k + 1) -> 0 <= c < 4 ->
      texel lvl' (dimAt 2 (k + 1)) x y c = blockAvg lvl (dimAt 2 k) (dimAt 2 k) x y c.
Proof.
  apply (mip_level_averages image2x2 2 2 0).
  - unfold F32.int_max. lia.
  - unfold F32.int_max. lia.
  - unfold size. simpl. lia.
Defined.

Lemma mip_reads_past_short_buffer_witness :
  BuildMipmapsRGBA shortImage2x2 2 2 0 = Some None.
Proof.
  apply (mip_reads_past_short_buffer shortImage2x2 2 2 0).
  - unfold F32.int_max. lia.
  - unfold F32.int_max. lia.
  - unfold size. simpl. lia.
  - left. lia.
  - left. reflexivity.
  - vm_compute. discriminate.
Defined.

Lemma entities_text_is_parsed_back_witness :
  ParseBSPEntities (Some (entitiesText sampleEntities)) [] =
  Some (true, nonEmptyOnes sampleEntities).
Proof.
  apply (entities_text_is_parsed_back sampleEntities []).
  - discriminate.
  - unfold sampleEntities, quoteFree.
    repeat first [apply Forall_nil | apply Forall_cons; split | split];
      cbn [fst snd]; unfold quote;
      intros H; repeat (apply elem_of_cons in H as [H|H]; [discriminate H|]);
      apply elem_of_nil in H; exact H.
Defined.
